(** * Static runtime of the JIT: graph preparation, liveness, memory planning

    A shallow embedding of
      - torch/csrc/jit/runtime/static/impl.cpp
      - torch/csrc/jit/runtime/static/passes.cpp
      - torch/lib/c10d/frontend.cpp (the queries on ranks and groups, and
        the collectives isend, irecv, send, recv, broadcast, allReduce,
        gather, scatter and barrier)
    together with the properties of these functions that the design
    document of the static runtime states, and further properties that the
    code shows.

    Conventions.  A [Value*] is the identity of a Value object (a number);
    a [Node*] met while walking [graph->nodes()] is the position of the node
    in that list; [size_t] is a [Z] reduced modulo 2^64; an
    [std::unordered_map] is a [gmap], an [std::set]/[std::unordered_set] a
    [gset]; C++ exceptions are the [Throw] results of the [result] monad.

    Graphs are flat lists of nodes, as the static runtime executes them.
    The functions are those of a release build: the [VLOG] lines and the
    call of [check_for_memory_leak] under [#ifndef NDEBUG] are left out of
    [run] (the function itself is modelled on its own), and
    the conditions of the [DCHECK]s of [allocate] are recorded next to its
    result instead of being raised.  What these sources take from headers
    and libraries that are not part of them (the operator registry, the
    passes, the alias analysis, the allocator, [StorageImpl::reset], the
    schema) is a parameter of the development. *)

From Stdlib Require Import ZArith List Bool Lia.
From stdpp Require Import base option functions gmap strings pretty list fin_maps fin_sets.

Set Default Proof Using "Type".

Local Open Scope string_scope.
Local Open Scope list_scope.

(** ** Exceptions *)

Inductive exn : Type :=
  | runtime_error (what : string)   (* throw std::runtime_error(what) *)
  | c10_Error (msg : string)        (* a failed TORCH_CHECK / AT_ASSERT *)
  | out_of_range                    (* std::out_of_range of a failed .at() *)
  | undefined_behaviour (what : string)  (* null dereference, v[i] past the end *)
  | foreign (code : nat).           (* raised inside an external callee *)

Inductive result (A : Type) : Type :=
  | Ok (a : A)
  | Throw (e : exn).
Arguments Ok {A} a.
Arguments Throw {A} e.

#[global] Instance result_ret : MRet result := λ A a, Ok a.
#[global] Instance result_bind : MBind result :=
  λ A B f m, match m with Ok a => f a | Throw e => Throw e end.

Definition TORCH_CHECK (cond : bool) (msg : string) : result unit :=
  if cond then Ok tt else Throw (c10_Error msg).

Definition fails {A} (r : result A) : Prop := ∃ e, r = Throw e.

(** [for (x : l) body], the loop state threaded through, an exception
    leaving the loop at once. *)
Fixpoint for_each {A S : Type} (l : list A) (body : A → S → result S)
    (s : S) : result S :=
  match l with
  | [] => Ok s
  | x :: l' => s' ← body x s; for_each l' body s'
  end.

(** ** The graph IR (the part of torch::jit::Graph the runtime reads) *)

Abbreviation Symbol := string (only parsing).
Abbreviation Value := nat (only parsing).

Local Unset Elimination Schemes.
Inductive Type_ : Type :=
  | TensorType
  | NoneType
  | IntType
  | TupleType (elements : list Type_)
  | ListType (elem : Type_)
  | DictType (key val : Type_)
  | ClassType (is_module_ : bool)
  | FunctionType.
Local Set Elimination Schemes.

(** [type->cast<TensorType>() != nullptr] *)
Definition cast_TensorType (t : Type_) : bool :=
  match t with TensorType => true | _ => false end.
(** [type->cast<NoneType>() != nullptr] *)
Definition cast_NoneType (t : Type_) : bool :=
  match t with NoneType => true | _ => false end.
(** [type->is_module()] *)
Definition is_module (t : Type_) : bool :=
  match t with ClassType b => b | _ => false end.

Record Node : Type := mkNode {
  kind : Symbol;
  inputs : list Value;
  outputs : list Value
}.

Record Graph : Type := mkGraph {
  g_inputs : list Value;        (* graph->inputs()  *)
  g_nodes : list Node;          (* graph->nodes(), in order *)
  g_outputs : list Value;       (* graph->outputs() *)
  type_of : Value → Type_       (* v->type() *)
}.

Definition prim_Constant : Symbol := "prim::Constant".
Definition prim_GetAttr : Symbol := "prim::GetAttr".
Definition prim_TupleConstruct : Symbol := "prim::TupleConstruct".
Definition prim_ListConstruct : Symbol := "prim::ListConstruct".
Definition prim_ListUnpack : Symbol := "prim::ListUnpack".
Definition prim_Param : Symbol := "prim::Param".
Definition prim_Return : Symbol := "prim::Return".

(** The two nodes every graph owns besides [nodes()]: the one that
    produces the graph inputs and the one that consumes the outputs. *)
Definition param_node (g : Graph) : Node :=
  mkNode prim_Param [] (g_inputs g).
Definition return_node (g : Graph) : Node :=
  mkNode prim_Return (g_outputs g) [].

Definition produces (v : Value) (n : Node) : bool :=
  bool_decide (v ∈ outputs n).

(** [v->node()]: the producer of [v]; a graph input belongs to the
    parameter node. *)
Definition node_of (g : Graph) (v : Value) : Node :=
  default (param_node g) (find (produces v) (g_nodes g)).

Definition is_construct (k : Symbol) : bool :=
  bool_decide (k = prim_TupleConstruct) || bool_decide (k = prim_ListConstruct).

(** ** CheckGraphEligibility *)

Definition check_output (g : Graph) (output : Value) (_ : unit) : result unit :=
  let kind_ := kind (node_of g output) in
  if is_construct kind_ then
    for_each (inputs (node_of g output))
      (λ input _,
         TORCH_CHECK (cast_TensorType (type_of g input))
           "Static Runtime expects output type as List or Tuple of Tensor, but got List or Tuple of ")
      tt
  else
    TORCH_CHECK
      (cast_TensorType (type_of g output) || cast_NoneType (type_of g output))
      "Static Runtime expects output type as None or Tensor, but got ".

Definition CheckGraphEligibility (g : Graph) : result unit :=
  for_each (g_nodes g)
    (λ n _, if decide (kind n = prim_GetAttr)
            then Throw (runtime_error "Cannot accelerate unfrozen graphs")
            else Ok tt) tt ;;
  for_each (g_outputs g) (check_output g) tt.

(** [v->uses()]: the (user, offset) pairs of [v].  The user is the position
    of the consuming node in [nodes()]; the return node, which consumes the
    graph outputs, is the position one past the last node. *)
Abbreviation Use := (nat * nat)%type (only parsing).

Fixpoint offsets_of (v : Value) (l : list Value) (i : nat) : list nat :=
  match l with
  | [] => []
  | x :: l' => (if decide (x = v) then [i] else []) ++ offsets_of v l' (S i)
  end.

Definition uses_at (v : Value) (n : nat) (nd : Node) : list Use :=
  (λ i, (n, i)) <$> offsets_of v (inputs nd) 0.

Definition all_nodes (g : Graph) : list Node := g_nodes g ++ [return_node g].

Definition uses (g : Graph) (v : Value) : list Use :=
  mjoin (imap (uses_at v) (all_nodes g)).

Definition hasUses (g : Graph) (v : Value) : bool :=
  negb (bool_decide (uses g v = [])).

(** ** Well-formed graphs

    What the IR guarantees of every graph by construction: a Value is
    defined once (it is a graph input or the output of exactly one node),
    and a node (or the return node) only consumes Values defined before
    it. *)
Definition defined_before (g : Graph) (j : nat) : list Value :=
  g_inputs g ++ mjoin (outputs <$> take j (g_nodes g)).

Definition wf_graph (g : Graph) : Prop :=
  NoDup (g_inputs g ++ mjoin (outputs <$> g_nodes g)) ∧
  Forall (λ p : nat * Node, Forall (λ v, v ∈ defined_before g p.1) (inputs p.2))
         (imap pair (all_nodes g)).

#[global] Instance wf_graph_dec g : Decision (wf_graph g).
Proof. unfold wf_graph. apply _. Defined.

(** ** LivenessMap *)

Record Liveness : Type := mkLiveness {
  liveness_map : gmap Value (gset Value);
  always_alive : gset Value;
  live_values : gmap Value (gset nat)       (* live value -> its pending users *)
}.

(** [m.at(k).insert(x)] *)
Definition at_insert {K X} `{Countable K, Countable X} (k : K) (x : X)
    (m : gmap K (gset X)) : result (gmap K (gset X)) :=
  match m !! k with
  | Some s => Ok (<[k := {[x]} ∪ s]> m)
  | None => Throw out_of_range
  end.

Definition add_live_value (g : Graph) (v : Value) (st : Liveness)
    : result Liveness :=
  let lm0 := <[v := ∅]> (liveness_map st) in
  lm1 ← for_each (map_to_list (live_values st)).*1
         (λ live_v lm, lm' ← at_insert v live_v lm; at_insert live_v v lm') lm0;
  let lv0 := if hasUses g v then <[v := ∅]> (live_values st)
             else live_values st in
  lv1 ← for_each (uses g v) (λ u lv, at_insert v u.1 lv) lv0;
  Ok (mkLiveness lm1 (always_alive st) lv1).

(** The body of the loop of [traverse_node] over [node->inputs()]. *)
Definition traverse_input (g : Graph) (node : nat) (input : Value)
    (s : Liveness * list Value) : Liveness * list Value :=
  let st := s.1 in
  if decide (kind (node_of g input) = prim_Constant) then
    (mkLiveness (liveness_map st) ({[input]} ∪ always_alive st) (live_values st),
     s.2)
  else
    match live_values st !! input with
    | Some deps =>
        let deps' := deps ∖ {[node]} in
        (mkLiveness (liveness_map st) (always_alive st)
                    (<[input := deps']> (live_values st)),
         if decide (size deps' = 0) then s.2 ++ [input] else s.2)
    | None => s
    end.

Definition traverse_node (g : Graph) (node : nat) (nd : Node)
    (s : Liveness * list Value) : Liveness * list Value :=
  foldl (λ s input, traverse_input g node input s) s (inputs nd).

Definition erase_dead (dead : list Value) (st : Liveness) : Liveness :=
  mkLiveness (liveness_map st) (always_alive st)
             (foldl (λ lv d, delete d lv) (live_values st) dead).

Definition sweep_node (g : Graph) (p : nat * Node) (st : Liveness)
    : result Liveness :=
  st1 ← for_each (outputs p.2) (add_live_value g) st;
  let s := traverse_node g p.1 p.2 (st1, []) in
  Ok (erase_dead s.2 s.1).

(** The state when the loop over [graph->nodes()] is left.  (The vector
    [frontier], to which the graph inputs are appended, is never read.) *)
Definition sweep (g : Graph) : result Liveness :=
  for_each (imap pair (g_nodes g)) (sweep_node g)
    (mkLiveness ∅ (list_to_set (g_inputs g) ∪ list_to_set (g_outputs g)) ∅).

Definition check_always_alive (st : Liveness) : result unit :=
  for_each (map_to_list (live_values st)).*1
    (λ v _, TORCH_CHECK (bool_decide (v ∈ always_alive st)) "") tt.

Definition interfere (input output : Value) (lm : gmap Value (gset Value))
    : result (gmap Value (gset Value)) :=
  if bool_decide (input ∈ dom lm) && bool_decide (output ∈ dom lm) then
    lm' ← at_insert input output lm;
    at_insert output input lm'
  else Ok lm.

Definition interfere_node (nd : Node) (lm : gmap Value (gset Value))
    : result (gmap Value (gset Value)) :=
  for_each (inputs nd)
    (λ input lm, for_each (outputs nd) (λ output lm, interfere input output lm) lm)
    lm.

Definition LivenessMap (g : Graph)
    : result (gmap Value (gset Value) * gset Value) :=
  st ← sweep g;
  check_always_alive st ;;
  lm ← for_each (g_nodes g) interfere_node (liveness_map st);
  Ok (lm, always_alive st).

(** [N] is recorded in [liveness_map[M]]. *)
Definition interferes (lm : gmap Value (gset Value)) (m n : Value) : Prop :=
  ∃ s, lm !! m = Some s ∧ n ∈ s.

(** ** RemoveSelfFromGraphInput *)

Definition eraseInput0 (g : Graph) : Graph :=
  mkGraph (tail (g_inputs g)) (g_nodes g) (g_outputs g) (type_of g).

Definition RemoveSelfFromGraphInput (g : Graph) : result Graph :=
  match g_inputs g with
  | [] => Throw (c10_Error "ArrayRef: invalid index")     (* inputs().at(0) *)
  | self :: _ =>
      if is_module (type_of g self) then
        TORCH_CHECK (negb (hasUses g self)) "" ;;
        Ok (eraseInput0 g)
      else Ok g
  end.

(** ** The preparation passes

    The passes themselves (Inline, ConstantPropagation, the subgraph
    rewriter, ...) live outside this file; each one rewrites the graph object
    it is handed in place.  [Heap] is the store of graph objects, a
    [std::shared_ptr<Graph>] is an address in it, and [passes_run] records
    every pass invocation with the address of the graph it ran on. *)

Inductive FusedOp : Type :=
  | fb_concat_add_mul_replacenan_clip
  | fb_casted_batch_one_hot_lengths
  | fb_concat_batch_matmul_batch_gather
  | fb_clip_ranges_gather_lengths_to_offsets
  | fb_clip_ranges_gather
  | fb_clip_ranges_gather_sigrid_hash_offsets
  | fb_clip_ranges_gather_sigrid_hash_v3.

Inductive Pass : Type :=
  | Inline
  | ConstantPropagation
  | Canonicalize
  | RemoveTensorMutation
  | EliminateDeadCode
    (* [fuse.runOnGraph(graph)] of a SubgraphRewriter on which the first
       [registered] patterns that rewrite to [op] have been registered *)
  | runOnGraph (op : FusedOp) (registered : nat).

Abbreviation GraphPtr := nat (only parsing).

Record Heap : Type := mkHeap {
  graphs : gmap nat Graph;
  passes_run : list (Pass * GraphPtr)
}.

(** State and exceptions. *)
Definition ST (S A : Type) : Type := S → result A * S.

#[global] Instance ST_ret {S} : MRet (ST S) := λ A a s, (Ok a, s).
#[global] Instance ST_bind {S} : MBind (ST S) :=
  λ A B f m s, match m s with
               | (Ok a, s') => f a s'
               | (Throw e, s') => (Throw e, s')
               end.

Definition lift {S A} (r : result A) : ST S A := λ s, (r, s).

Section StaticRuntime.

(** What a pass does to a graph. *)
Variable pass_sem : Pass → Graph → Graph.
(** [#ifdef FBCODE_CAFFE2] *)
Variable FBCODE_CAFFE2 : bool.

Definition run_pass (p : Pass) (graph : GraphPtr) : ST Heap unit :=
  λ h, match graphs h !! graph with
       | Some g =>
           (Ok tt, mkHeap (<[graph := pass_sem p g]> (graphs h))
                          (passes_run h ++ [(p, graph)]))
       | None => (Throw (undefined_behaviour "null graph"), h)
       end.

Definition PrepareGraphForStaticRuntime (graph : GraphPtr) : ST Heap unit :=
  run_pass Inline graph ;;
  run_pass ConstantPropagation graph ;;
  run_pass Canonicalize graph ;;
  run_pass ConstantPropagation graph ;;
  run_pass RemoveTensorMutation graph ;;
  run_pass ConstantPropagation graph ;;
  run_pass EliminateDeadCode graph.

Definition ConcatAddMulReplaceNaNClip (graph : GraphPtr) : ST Heap unit :=
  run_pass (runOnGraph fb_concat_add_mul_replacenan_clip 1) graph ;;
  run_pass (runOnGraph fb_concat_add_mul_replacenan_clip 2) graph ;;
  run_pass (runOnGraph fb_concat_add_mul_replacenan_clip 3) graph ;;
  run_pass (runOnGraph fb_concat_add_mul_replacenan_clip 4) graph.

Definition CastedBatchOneHotLengths (graph : GraphPtr) : ST Heap unit :=
  run_pass (runOnGraph fb_casted_batch_one_hot_lengths 1) graph.

Definition ConcatBatchMatMulBatchGather (graph : GraphPtr) : ST Heap unit :=
  run_pass (runOnGraph fb_concat_batch_matmul_batch_gather 1) graph.

Definition ClipRangesGatherRangesLengthsToOffsets (graph : GraphPtr)
    : ST Heap unit :=
  run_pass (runOnGraph fb_clip_ranges_gather_lengths_to_offsets 1) graph.

Definition ClipRangesGather (graph : GraphPtr) : ST Heap unit :=
  run_pass (runOnGraph fb_clip_ranges_gather 1) graph.

Definition ClipRangesGatherSigridHash (graph : GraphPtr) : ST Heap unit :=
  run_pass (runOnGraph fb_clip_ranges_gather_sigrid_hash_offsets 1) graph.

Definition ClipRangesGatherRangesSigridHash (graph : GraphPtr) : ST Heap unit :=
  run_pass (runOnGraph fb_clip_ranges_gather_sigrid_hash_v3 1) graph.

Definition FuseInferenceOpsForSparseNN (graph : GraphPtr) : ST Heap unit :=
  if FBCODE_CAFFE2 then
    ConcatAddMulReplaceNaNClip graph ;;
    CastedBatchOneHotLengths graph ;;
    ConcatBatchMatMulBatchGather graph ;;
    ClipRangesGatherRangesLengthsToOffsets graph ;;
    ClipRangesGatherSigridHash graph ;;
    ClipRangesGatherRangesSigridHash graph ;;
    ClipRangesGather graph
  else mret tt.

Definition OptimizeGraph (graph : GraphPtr) : ST Heap unit :=
  PrepareGraphForStaticRuntime graph ;;
  FuseInferenceOpsForSparseNN graph ;;
  run_pass ConstantPropagation graph.

(** ** InferenceModule *)

Record FunctionSchema : Type := mkSchema { arguments : list string }.

Record InferenceModuleOptions : Type := mkOpts {
  optimize_memory : bool;
  enable_out_variant : bool;
  cleanup_activations : bool
}.

Record InferenceModule : Type := mkModule {
  graph : GraphPtr;                     (* std::shared_ptr<Graph> graph *)
  schema : option FunctionSchema;       (* nullptr is None *)
  opts : InferenceModuleOptions
}.

(** A read or an in-place update of the graph object behind a pointer. *)
Definition with_graph {A} (graph : GraphPtr) (f : Graph → result A)
    : ST Heap A :=
  λ h, match graphs h !! graph with
       | Some g => (f g, h)
       | None => (Throw (undefined_behaviour "null graph"), h)
       end.

Definition set_graph (graph : GraphPtr) (g : Graph) : ST Heap unit :=
  λ h, (Ok tt, mkHeap (<[graph := g]> (graphs h)) (passes_run h)).

(** [InferenceModule::init] *)
Definition init (graph : GraphPtr) : ST Heap unit :=
  OptimizeGraph graph ;;
  with_graph graph CheckGraphEligibility ;;
  g' ← with_graph graph RemoveSelfFromGraphInput ;
  set_graph graph g'.

(** [InferenceModule::InferenceModule(std::shared_ptr<Graph> g, opts)]:
    the member [graph] is the pointer the caller passed, moved in. *)
Definition InferenceModule_of_graph (g : GraphPtr)
    (opts_ : InferenceModuleOptions) : ST Heap InferenceModule :=
  init g ;;
  mret (mkModule g None opts_).

(** ** Runtime values and storage *)

Abbreviation StorageImplPtr := nat (only parsing).

Record StorageImpl : Type := mkStorage {
  nbytes : Z;                 (* size_t *)
  data : option Z             (* data_ptr_.get(); None is nullptr *)
}.

(** Every StorageImpl the planner points at is kept alive by the tensor in
    the node output that owns it, so the store is total. *)
Definition Storages : Type := StorageImplPtr → StorageImpl.

Local Unset Elimination Schemes.
Inductive IValue : Type :=
  | INone
  | ITensor (impl : option StorageImplPtr)    (* None: an undefined tensor *)
  | ITuple (elements : list IValue)
  | IOther (payload : nat).
Local Set Elimination Schemes.

Definition isTensor (v : IValue) : bool :=
  match v with ITensor _ => true | _ => false end.
Definition isNone (v : IValue) : bool :=
  match v with INone => true | _ => false end.

(** An [IValue*]: the address of a slot of the value table. *)
Inductive IValuePtr : Type :=
  | null_ivalue
  | input_slot (i : nat)                  (* &inputs_[i] *)
  | constant_slot (i : nat)               (* &constants_[i] *)
  | output_slot (n i : nat).              (* &nodes_[n].Output(i) *)

#[global] Instance IValuePtr_eq_dec : EqDecision IValuePtr.
Proof. solve_decision. Defined.

#[global] Instance IValuePtr_countable : Countable IValuePtr.
Proof.
  refine (inj_countable'
    (λ p, match p with
          | null_ivalue => inl tt
          | input_slot i => inr (inl i)
          | constant_slot i => inr (inr (inl i))
          | output_slot n i => inr (inr (inr (n, i)))
          end)
    (λ c, match c with
          | inl _ => null_ivalue
          | inr (inl i) => input_slot i
          | inr (inr (inl i)) => constant_slot i
          | inr (inr (inr (n, i))) => output_slot n i
          end) _).
  by intros [].
Defined.

Record ProcessedNode : Type := mkProcessedNode {
  node_ : Node;
  pn_inputs_ : list IValuePtr;
  pn_outputs_ : list IValue;
  op_ : bool;                   (* op_ holds an Operation *)
  fn_ : bool;                   (* fn_ holds the out variant *)
  native_fn_ : bool             (* native_fn_ holds the native implementation *)
}.

Record MemoryPlanner : Type := mkMemoryPlanner {
  managed_storage_ : list (Z * list StorageImplPtr);
  managed_bytes_ : Z;
  buffer_ : option Z;                      (* start of the pooled buffer *)
  unmanaged_values_ : list IValuePtr
}.

Record StaticRuntime : Type := mkStaticRuntime {
  schema_ : option FunctionSchema;         (* module_->schema *)
  opts_ : InferenceModuleOptions;
  inputs_ : list IValue;
  constants_ : list IValue;
  nodes_ : list ProcessedNode;
  outputs_ : list IValuePtr;
  planner_ : option MemoryPlanner
}.

(** ** The operator registry and the other callees outside these sources *)

Variable canRunOutOfPlace : Node → bool.
Variable canRunNatively : Node → bool.
Variable isViewOp : Node → bool.
(** [pnode.has_out_variant()], which impl.h declares. *)
Variable has_out_variant : ProcessedNode → bool.
(** [node->getOperator()]: None when no schema matches (it throws), else
    whether the operator [hasOperation()]. *)
Variable getOperator : Node → option bool.
(** [toIValue(v)] of a constant. *)
Variable toIValue : Graph → Value → option IValue.
(** [c10::gAlignment] *)
Variable gAlignment : Z.
(** The address the caching allocator returns for a request. *)
Variable allocate_buffer : Z → Z.
(** [StorageImpl::reset()] *)
Variable StorageImpl_reset : StorageImpl → StorageImpl.

(** An external callee either returns or raises an exception of its own. *)
Definition call {A} (r : nat + A) : result A :=
  match r with inl c => Throw (foreign c) | inr a => Ok a end.

(** [schema->checkAndNormalizeInputs(s, kwargs)] *)
Variable checkAndNormalizeInputs :
  FunctionSchema → list IValue → gmap string IValue → nat + list IValue.
(** The three ways a node is executed: out variant, native, interpreter.
    Each reads the input values and the storages and delivers the output
    values (for the interpreter: the stack it leaves). *)
Variable out_fn native_fn operation :
  Node → list IValue → list IValue → Storages → nat + (list IValue * Storages).

(** ** ProcessedNode::ProcessedNode *)

Definition needs_operator (k : Symbol) : bool :=
  negb (bool_decide (k = prim_ListConstruct)) &&
  negb (bool_decide (k = prim_TupleConstruct)) &&
  negb (bool_decide (k = prim_ListUnpack)).

Definition ProcessedNode_new (node : Node) (inputs0 : list IValuePtr)
    (enable_out_variants : bool) : result ProcessedNode :=
  has_op ← (if needs_operator (kind node) then
              match getOperator node with
              | None => Throw (runtime_error "Schema not found for node")
              | Some has => TORCH_CHECK has "" ;; Ok true
              end
            else Ok false);
  let outs := replicate (length (outputs node)) INone in
  if enable_out_variants && canRunOutOfPlace node then
    Ok (mkProcessedNode node inputs0 outs has_op true false)
  else if canRunNatively node then
    Ok (mkProcessedNode node inputs0 outs has_op false true)
  else
    Ok (mkProcessedNode node inputs0 outs has_op false false).

(** ** StaticRuntime::StaticRuntime *)

(** [m.at(k)] *)
Definition map_at {K V} `{Countable K} (m : gmap K V) (k : K) : result V :=
  match m !! k with Some v => Ok v | None => Throw out_of_range end.

(** [node->output()], which asserts that the node has one output. *)
Definition Node_output1 (nd : Node) : result Value :=
  match outputs nd with
  | [v] => Ok v
  | _ => Throw (c10_Error "outputs_.size() == 1")
  end.

(** [node->output(i)], i.e. [outputs_.at(i)] *)
Definition Node_output (nd : Node) (i : nat) : result Value :=
  match outputs nd !! i with Some v => Ok v | None => Throw out_of_range end.

Definition is_Constant (nd : Node) : bool :=
  bool_decide (kind nd = prim_Constant).

Record Build : Type := mkBuild {
  b_constants : list IValue;
  b_nodes : list ProcessedNode;
  val_to_ival : gmap Value IValuePtr
}.

(** First loop over the constants: fill [constants_]. *)
Definition build_constant (g : Graph) (node : Node) (b : Build) : result Build :=
  if negb (is_Constant node) then Ok b else
  v ← Node_output1 node;
  TORCH_CHECK (match type_of g v with FunctionType => false | _ => true end) "" ;;
  match toIValue g v with
  | None => Throw (runtime_error "bad optional access")
  | Some c => Ok (mkBuild (b_constants b ++ [c]) (b_nodes b) (val_to_ival b))
  end.

(** Second loop over the constants: [val_to_ival[v] = &(constants_[i++])]. *)
Definition register_constant (node : Node) (s : nat * Build)
    : result (nat * Build) :=
  if negb (is_Constant node) then Ok s else
  v ← Node_output1 node;
  Ok (S s.1, mkBuild (b_constants s.2) (b_nodes s.2)
                     (<[v := constant_slot s.1]> (val_to_ival s.2))).

Definition build_node (opts0 : InferenceModuleOptions) (node : Node) (b : Build)
    : result Build :=
  if is_Constant node then Ok b else
  ins ← for_each (inputs node)
          (λ input acc, p ← map_at (val_to_ival b) input; Ok (acc ++ [p])) [];
  pn ← ProcessedNode_new node ins (enable_out_variant opts0);
  let n := length (b_nodes b) in
  Ok (mkBuild (b_constants b) (b_nodes b ++ [pn])
        (foldl (λ m (p : nat * Value), <[p.2 := output_slot n p.1]> m)
               (val_to_ival b) (imap pair (outputs node)))).

Definition StaticRuntime_new (g : Graph) (sch : option FunctionSchema)
    (opts0 : InferenceModuleOptions) : result StaticRuntime :=
  let b0 := mkBuild [] []
              (foldl (λ m (p : nat * Value), <[p.2 := input_slot p.1]> m) ∅
                     (imap pair (g_inputs g))) in
  b1 ← for_each (g_nodes g) (build_constant g) b0;
  b1' ← for_each (g_nodes g) register_constant (0, b1);
  b2 ← for_each (g_nodes g) (build_node opts0) b1'.2;
  outs ← for_each (g_outputs g)
           (λ output acc, p ← map_at (val_to_ival b2) output; Ok (acc ++ [p])) [];
  Ok (mkStaticRuntime sch opts0 (replicate (length (g_inputs g)) INone)
        (b_constants b2) (b_nodes b2) outs None).

(** ** MemoryPlanner::MemoryPlanner *)

Record Plan : Type := mkPlan {
  managed_values : gset Value;
  unmanaged_value_set : gset IValuePtr;
  values_map : gmap Value IValuePtr
}.

(** The two loops over the outputs of a processed node [p.2], which is at
    position [p.1] of [runtime->get_nodes()]: of a node to manage, and of
    any other node. *)
Definition manage_output (g : Graph) (p : nat * ProcessedNode) (i : nat)
    (pl : Plan) : result Plan :=
  out ← Node_output (node_ p.2) i;
  if cast_TensorType (type_of g out) then
    Ok (mkPlan ({[out]} ∪ managed_values pl) (unmanaged_value_set pl)
               (<[out := output_slot p.1 i]> (values_map pl)))
  else Ok pl.

Definition leave_output (p : nat * ProcessedNode) (i : nat) (pl : Plan)
    : result Plan :=
  out ← Node_output (node_ p.2) i;
  Ok (mkPlan (managed_values pl)
             ({[output_slot p.1 i]} ∪ unmanaged_value_set pl)
             (<[out := output_slot p.1 i]> (values_map pl))).

(** The body of the loop over [runtime->get_nodes()]. *)
Definition plan_node (g : Graph) (graph_input_values : gset Value)
    (p : nat * ProcessedNode) (pl : Plan) : result Plan :=
  let pnode := p.2 in
  let should_manage := has_out_variant pnode in
  let should_manage :=
    if should_manage && isViewOp (node_ pnode) then
      negb (existsb (λ i, bool_decide (i ∈ graph_input_values))
                    (inputs (node_ pnode)))
    else should_manage in
  if should_manage then
    for_each (seq 0 (length (pn_outputs_ pnode))) (manage_output g p) pl
  else
    for_each (seq 0 (length (pn_outputs_ pnode))) (leave_output p) pl.

(** [values_map[input]]: operator[] of the map, which creates a null entry
    for a key it does not hold. *)
Definition values_map_index (pl : Plan) (input : Value) : IValuePtr * Plan :=
  match values_map pl !! input with
  | Some p => (p, pl)
  | None => (null_ivalue,
             mkPlan (managed_values pl) (unmanaged_value_set pl)
                    (<[input := null_ivalue]> (values_map pl)))
  end.

(** Remove the tensors in an output List/Tuple from [managed_values]. *)
Definition unmanage_element (graph_input_values : gset Value) (input : Value)
    (pl : Plan) : Plan :=
  let pl := mkPlan (managed_values pl ∖ {[input]}) (unmanaged_value_set pl)
                   (values_map pl) in
  if bool_decide (input ∈ graph_input_values) then pl
  else
    let r := values_map_index pl input in
    mkPlan (managed_values r.2) ({[r.1]} ∪ unmanaged_value_set r.2)
           (values_map r.2).

Definition unmanage_output_elements (g : Graph) (graph_input_values : gset Value)
    (output : Value) (pl : Plan) : Plan :=
  let output_node := node_of g output in
  if is_construct (kind output_node) then
    foldl (λ pl input, unmanage_element graph_input_values input pl) pl
          (inputs output_node)
  else pl.

(** The sets when the planner starts to snapshot the storages. *)
Definition plan_values (g : Graph) (runtime : StaticRuntime) : result Plan :=
  let graph_input_values : gset Value := list_to_set (g_inputs g) in
  pl ← for_each (imap pair (nodes_ runtime)) (plan_node g graph_input_values)
        (mkPlan ∅ ∅ ∅);
  let pl := foldl (λ pl output,
                     unmanage_output_elements g graph_input_values output pl)
                  pl (g_outputs g) in
  let pl := foldl (λ pl output,
                     mkPlan (managed_values pl ∖ {[output]})
                            (unmanaged_value_set pl) (values_map pl))
                  pl (g_outputs g) in
  let pl := foldl (λ pl output,
                     mkPlan (managed_values pl)
                            (unmanaged_value_set pl ∖ {[output]}) (values_map pl))
                  pl (outputs_ runtime) in
  Ok pl.

Record Grouping : Type := mkGrouping {
  shared : gmap Value nat;
  managed_storage_impls : gset StorageImplPtr;
  groups : list (Z * list StorageImplPtr)
}.

(** [ival.toTensor().storage().unsafeGetStorageImpl()] *)
Definition storage_impl_of (ival : IValue) : result StorageImplPtr :=
  match ival with
  | ITensor (Some impl) => Ok impl
  | ITensor None => Throw (c10_Error "storage() called on undefined Tensor")
  | _ => Throw (c10_Error "Expected Tensor")
  end.

Definition record_shared (should_share : gmap Value (list Value)) (val : Value)
    (index : nat) (sh : gmap Value nat) : gmap Value nat :=
  match should_share !! val with
  | Some vs => foldl (λ sh v, <[v := index]> sh) sh vs
  | None => sh
  end.

(** The body of the snapshot loop for output [i] of [pnode]. *)
Definition group_output (managed : gset Value)
    (should_share : gmap Value (list Value)) (pnode : ProcessedNode) (i : nat)
    (gr : Grouping) : result Grouping :=
  match pn_outputs_ pnode !! i, outputs (node_ pnode) !! i with
  | Some ival, Some val =>
      if bool_decide (val ∈ managed) then
        TORCH_CHECK (isTensor ival) "" ;;
        impl ← storage_impl_of ival;
        if bool_decide (impl ∈ managed_storage_impls gr) then Ok gr   (* continue *)
        else
          let seen := {[impl]} ∪ managed_storage_impls gr in
          match shared gr !! val with
          | Some idx =>
              match groups gr !! idx with
              | Some ms =>
                  Ok (mkGrouping (shared gr) seen
                        (<[idx := (ms.1, ms.2 ++ [impl])]> (groups gr)))
              | None => Throw (undefined_behaviour "managed_storage_[i]")
              end
          | None =>
              let groups' := groups gr ++ [(0%Z, [impl])] in
              Ok (mkGrouping
                    (record_shared should_share val (length groups' - 1)
                                   (shared gr))
                    seen groups')
          end
      else Ok gr
  | _, _ => Throw (undefined_behaviour "outputs()[i]")
  end.

Definition group_node (managed : gset Value)
    (should_share : gmap Value (list Value)) (pnode : ProcessedNode)
    (gr : Grouping) : result Grouping :=
  for_each (seq 0 (length (pn_outputs_ pnode)))
           (group_output managed should_share pnode) gr.

Definition MemoryPlanner_new (g : Graph) (runtime : StaticRuntime)
    (should_share : gmap Value (list Value)) : result MemoryPlanner :=
  pl ← plan_values g runtime;
  gr ← for_each (nodes_ runtime) (group_node (managed_values pl) should_share)
         (mkGrouping ∅ ∅ []);
  Ok (mkMemoryPlanner (groups gr) 0 None (elements (unmanaged_value_set pl))).

(** ** MemoryPlanner::allocate and MemoryPlanner::deallocate *)

(** Arithmetic on [size_t]. *)
Definition size_t (z : Z) : Z := (z mod 2 ^ 64)%Z.

Definition compute_aligned_tensor_size (nbytes0 : Z) : Z :=
  Z.land (size_t (nbytes0 + gAlignment - 1))
         (size_t (Z.lnot (size_t (gAlignment - 1)))).

(** The walk of [allocate] over the groups.  Besides the running offset and
    the storages it carries what the two debug assertions look at:
    [set_data_ptr_calls] lists every storage with the offset its data
    pointer was set to, [dcheck_le] tells whether each
    [DCHECK_LE(offset + tensor_size, managed_bytes_)] held. *)
Record Walk : Type := mkWalk {
  offset : Z;
  walk_storages : Storages;
  set_data_ptr_calls : list (StorageImplPtr * Z);
  dcheck_le : bool
}.

Definition allocate_group (start managed_bytes : Z) (w : Walk)
    (ms : Z * list StorageImplPtr) : Walk :=
  let tensor_size := ms.1 in
  if decide (tensor_size = 0%Z) then w          (* continue *)
  else
    mkWalk (size_t (offset w + tensor_size))
      (foldl (λ mem impl,
                <[impl := mkStorage tensor_size (Some (start + offset w)%Z)]> mem)
             (walk_storages w) ms.2)
      (set_data_ptr_calls w ++ ((λ impl, (impl, offset w)) <$> ms.2))
      (dcheck_le w &&
       bool_decide (size_t (offset w + tensor_size) ≤ managed_bytes)%Z).

Definition allocate_walk (planner : MemoryPlanner) (mem : Storages) (start : Z)
    : Walk :=
  foldl (allocate_group start (managed_bytes_ planner)) (mkWalk 0 mem [] true)
        (managed_storage_ planner).

(** [DCHECK_EQ(offset, managed_bytes_)] at the end of the walk. *)
Definition dcheck_eq (planner : MemoryPlanner) (w : Walk) : bool :=
  bool_decide (offset w = managed_bytes_ planner).

Definition allocate (planner : MemoryPlanner) (mem : Storages)
    : MemoryPlanner * Storages :=
  if decide (managed_bytes_ planner = 0%Z) then (planner, mem)
  else
    let start := allocate_buffer (managed_bytes_ planner) in
    let w := allocate_walk planner mem start in
    (mkMemoryPlanner (managed_storage_ planner) (managed_bytes_ planner)
                     (Some start) (unmanaged_values_ planner),
     walk_storages w).

(** The inner loop of [deallocate] over the storages of one group. *)
Definition deallocate_impl (s : Z * Storages) (impl : StorageImplPtr)
    : Z * Storages :=
  let current_size := compute_aligned_tensor_size (nbytes (s.2 impl)) in
  (Z.max s.1 current_size, <[impl := StorageImpl_reset (s.2 impl)]> s.2).

Record Dealloc : Type := mkDealloc {
  d_storage : list (Z * list StorageImplPtr);
  d_bytes : Z;
  d_storages : Storages
}.

Definition deallocate_group (d : Dealloc) (ms : Z * list StorageImplPtr)
    : Dealloc :=
  let r := foldl deallocate_impl (0%Z, d_storages d) ms.2 in
  mkDealloc (d_storage d ++ [(r.1, ms.2)]) (size_t (d_bytes d + r.1)) r.2.

Definition set_nodes_ (rt : StaticRuntime) (ns : list ProcessedNode)
    : StaticRuntime :=
  mkStaticRuntime (schema_ rt) (opts_ rt) (inputs_ rt) (constants_ rt) ns
                  (outputs_ rt) (planner_ rt).
Definition set_inputs_ (rt : StaticRuntime) (ins : list IValue) : StaticRuntime :=
  mkStaticRuntime (schema_ rt) (opts_ rt) ins (constants_ rt) (nodes_ rt)
                  (outputs_ rt) (planner_ rt).
Definition set_constants_ (rt : StaticRuntime) (cs : list IValue)
    : StaticRuntime :=
  mkStaticRuntime (schema_ rt) (opts_ rt) (inputs_ rt) cs (nodes_ rt)
                  (outputs_ rt) (planner_ rt).
Definition set_planner_ (rt : StaticRuntime) (p : option MemoryPlanner)
    : StaticRuntime :=
  mkStaticRuntime (schema_ rt) (opts_ rt) (inputs_ rt) (constants_ rt)
                  (nodes_ rt) (outputs_ rt) p.
Definition set_pn_outputs_ (pn : ProcessedNode) (outs : list IValue)
    : ProcessedNode :=
  mkProcessedNode (node_ pn) (pn_inputs_ pn) outs (op_ pn) (fn_ pn)
                  (native_fn_ pn).

(** [*p] read and [*p = v]; a pointer that is null or past its vector is
    undefined behaviour. *)
Definition read_ivalue (rt : StaticRuntime) (p : IValuePtr) : result IValue :=
  let r := match p with
           | null_ivalue => None
           | input_slot i => inputs_ rt !! i
           | constant_slot i => constants_ rt !! i
           | output_slot n i => pn ← nodes_ rt !! n; pn_outputs_ pn !! i
           end in
  match r with
  | Some v => Ok v
  | None => Throw (undefined_behaviour "IValue*")
  end.

Definition write_ivalue (p : IValuePtr) (v : IValue) (rt : StaticRuntime)
    : result StaticRuntime :=
  read_ivalue rt p ;;
  Ok match p with
     | null_ivalue => rt
     | input_slot i => set_inputs_ rt (<[i := v]> (inputs_ rt))
     | constant_slot i => set_constants_ rt (<[i := v]> (constants_ rt))
     | output_slot n i =>
         set_nodes_ rt
           (alter (λ pn, set_pn_outputs_ pn (<[i := v]> (pn_outputs_ pn))) n
                  (nodes_ rt))
     end.

(** [deallocate] works on the planner, on the storages and, through
    [unmanaged_values_], on the value table of the runtime. *)
Definition deallocate (planner : MemoryPlanner) (rt : StaticRuntime)
    (mem : Storages) : result (MemoryPlanner * StaticRuntime * Storages) :=
  let d := foldl deallocate_group (mkDealloc [] 0 mem) (managed_storage_ planner) in
  rt' ← for_each (unmanaged_values_ planner) (λ iv rt, write_ivalue iv INone rt) rt;
  Ok (mkMemoryPlanner (d_storage d) (d_bytes d) None (unmanaged_values_ planner),
      rt', d_storages d).

(** ** ProcessedNode::run and StaticRuntime::run *)

(** What [run] works on: the runtime object, the storages of the tensors,
    and the positions of the processed nodes executed so far. *)
Record Machine : Type := mkMachine {
  runtime : StaticRuntime;
  storages : Storages;
  executed : list nat
}.

Fixpoint st_for_each {S A : Type} (l : list A) (body : A → ST S unit)
    : ST S unit :=
  match l with
  | [] => mret tt
  | x :: l' => body x ;; st_for_each l' body
  end.

Definition modify_runtime (f : StaticRuntime → result StaticRuntime)
    : ST Machine unit :=
  λ m, match f (runtime m) with
       | Ok rt => (Ok tt, mkMachine rt (storages m) (executed m))
       | Throw e => (Throw e, m)
       end.

(** [Input(i) = v], the slot [inputs_[i]] of the runtime. *)
Definition set_Input (p : nat * IValue) : ST Machine unit :=
  modify_runtime (write_ivalue (input_slot p.1) p.2).

(** The values a processed node reads through its input pointers. *)
Definition input_values (rt : StaticRuntime) (pn : ProcessedNode)
    : result (list IValue) :=
  for_each (pn_inputs_ pn) (λ p acc, v ← read_ivalue rt p; Ok (acc ++ [v])) [].

Definition dispatch (pn : ProcessedNode) (ins : list IValue) (mem : Storages)
    : result (list IValue * Storages) :=
  if fn_ pn then call (out_fn (node_ pn) ins (pn_outputs_ pn) mem)
  else if native_fn_ pn then call (native_fn (node_ pn) ins (pn_outputs_ pn) mem)
  else
    if negb (op_ pn) then Throw (undefined_behaviour "op_") else
    r ← call (operation (node_ pn) ins (pn_outputs_ pn) mem);
    (* Output(i) = std::move(stack[i]) for every output of the node *)
    if decide (length r.1 < length (outputs (node_ pn)))%nat
    then Throw (undefined_behaviour "stack[i]")
    else Ok (take (length (outputs (node_ pn))) r.1, r.2).

(** [nodes_[n].run()]; the outputs vector keeps the size it was given when
    the node was built. *)
Definition ProcessedNode_run (n : nat) : ST Machine unit :=
  λ m,
    let m1 := mkMachine (runtime m) (storages m) (executed m ++ [n]) in
    match nodes_ (runtime m) !! n with
    | None => (Throw (undefined_behaviour "nodes_[n]"), m)
    | Some pn =>
        match ins ← input_values (runtime m) pn; dispatch pn ins (storages m) with
        | Throw e => (Throw e, m1)
        | Ok r =>
            let pn' := set_pn_outputs_ pn
                         (resize (length (pn_outputs_ pn)) INone r.1) in
            (Ok tt,
             mkMachine (set_nodes_ (runtime m) (<[n := pn']> (nodes_ (runtime m))))
                       r.2 (executed m1))
        end
    end.

Definition schema_msg : string :=
  "Schema is not available. Consider creating the Static Runtime with StaticRuntime(const torch::jit::Module& m) instead.".

(** [if (planner_) planner_->allocate();] *)
Definition run_allocate : ST Machine unit :=
  λ m, match planner_ (runtime m) with
       | Some p =>
           let r := allocate p (storages m) in
           (Ok tt, mkMachine (set_planner_ (runtime m) (Some r.1)) r.2 (executed m))
       | None => (Ok tt, m)
       end.

(** The binding of the inputs. *)
Definition run_bind (args : list IValue) (kwargs : gmap string IValue)
    : ST Machine unit :=
  if decide (size kwargs ≠ 0%nat) then
    sch ← (λ m, (match schema_ (runtime m) with
                 | Some sch => Ok sch
                 | None => Throw (c10_Error schema_msg)
                 end, m)) ;
    s ← lift (call (checkAndNormalizeInputs sch args kwargs)) ;
    st_for_each (imap pair s) set_Input
  else
    st_for_each (imap pair args) set_Input.

Definition run_nodes : ST Machine unit :=
  λ m, st_for_each (seq 0 (length (nodes_ (runtime m)))) ProcessedNode_run m.

(** [if (opts_.cleanup_activations) { ... }] *)
Definition run_cleanup (g : Graph) : ST Machine unit :=
  λ m,
    if cleanup_activations (opts_ (runtime m)) then
      match (match planner_ (runtime m) with
             | Some p => Ok p
             | None => MemoryPlanner_new g (runtime m) ∅
             end) with
      | Throw e => (Throw e, m)
      | Ok p =>
          match deallocate p (runtime m) (storages m) with
          | Throw e => (Throw e, m)
          | Ok r =>
              let rt := set_planner_ r.1.2 (Some r.1.1) in
              (Ok tt,
               mkMachine (set_inputs_ rt ((λ _, INone) <$> inputs_ rt)) r.2
                         (executed m))
          end
      end
    else (Ok tt, m).

(** [std::move] of the value behind [p]: it leaves its slot, which becomes
    None. *)
Definition move_out (p : IValuePtr) : ST Machine IValue :=
  λ m, match read_ivalue (runtime m) p with
       | Throw e => (Throw e, m)
       | Ok v =>
           match write_ivalue p INone (runtime m) with
           | Throw e => (Throw e, m)
           | Ok rt => (Ok v, mkMachine rt (storages m) (executed m))
           end
       end.

Fixpoint move_all (ps : list IValuePtr) : ST Machine (list IValue) :=
  match ps with
  | [] => mret []
  | p :: ps' => v ← move_out p ; vs ← move_all ps' ; mret (v :: vs)
  end.

Definition run_collect : ST Machine IValue :=
  λ m,
    let outs := outputs_ (runtime m) in
    if decide (1 < length outs)%nat then
      (vs ← move_all outs ; mret (ITuple vs)) m
    else
      match outs with
      | p :: _ => move_out p m
      | [] => (Throw (undefined_behaviour "outputs_[0]"), m)
      end.

(** [StaticRuntime::run(args, kwargs)] on the graph [g] of its module. *)
Definition run (g : Graph) (args : list IValue) (kwargs : gmap string IValue)
    : ST Machine IValue :=
  run_allocate ;;
  run_bind args kwargs ;;
  run_nodes ;;
  run_cleanup g ;;
  run_collect.

(** ** ReplaceWithCopy *)

(** [AliasDb(graph).mayContainAlias(a, b)] for the graph handed to the
    alias analysis. *)
Variable mayContainAlias : Graph → list Value → list Value → bool.

Definition aten_permute : Symbol := "aten::permute".
Definition aten_narrow : Symbol := "aten::narrow".
Definition static_runtime_permute_copy : Symbol := "static_runtime::permute_copy".
Definition aten_narrow_copy : Symbol := "aten::narrow_copy".
Definition static_runtime_pure_inputs : Symbol := "static_runtime::pure_inputs".

(** The table [supported] *)
Definition supported (k : Symbol) : option Symbol :=
  if decide (k = aten_permute) then Some static_runtime_permute_copy
  else if decide (k = aten_narrow) then Some aten_narrow_copy
  else None.

(** A Value object that the graph does not hold yet. *)
Definition fresh_value (g : Graph) : Value :=
  S (max_list (g_inputs g ++ g_outputs g ++
               mjoin ((λ n, inputs n ++ outputs n) <$> g_nodes g))).

Definition subst (old new v : Value) : Value :=
  if decide (v = old) then new else v.

(** [old->replaceAllUsesWith(new)] as seen by one consumer. *)
Definition rename (old new : Value) (nd : Node) : Node :=
  mkNode (kind nd) (subst old new <$> inputs nd) (outputs nd).

(** The graph the alias analysis is run on: a [pure_inputs] node in front,
    and every use of a graph input replaced by its output. *)
Definition with_fake_input (g : Graph) : Graph :=
  let fake_input := fresh_value g in
  let to_fake (v : Value) :=
    if bool_decide (v ∈ g_inputs g) then fake_input else v in
  mkGraph (g_inputs g)
    (mkNode static_runtime_pure_inputs [] [fake_input] ::
     ((λ nd, mkNode (kind nd) (to_fake <$> inputs nd) (outputs nd)) <$> g_nodes g))
    (to_fake <$> g_outputs g)
    (<[fake_input := TensorType]> (type_of g)).

(** A node of the graph with the copy node inserted before it, if any. *)
Definition expand (p : Node * option Node) : list Node :=
  match p.2 with Some new_node => [new_node; p.1] | None => [p.1] end.

(** The loop over [graph->nodes()]: [done] are the nodes already visited,
    [todo] the ones still to visit, [n] first. *)
Fixpoint collect (db : list Value → list Value → bool) (g : Graph)
    (done : list (Node * option Node)) (todo : list Node)
    : result (list (Node * option Node)) :=
  match todo with
  | [] => Ok done
  | n :: rest =>
      match supported (kind n) with
      | None => collect db g (done ++ [(n, None)]) rest
      | Some new_symbol =>
          out ← Node_output1 n;
          let cur := mkGraph (g_inputs g) (mjoin (expand <$> done) ++ n :: rest)
                             (g_outputs g) (type_of g) in
          if decide (1 < length (uses cur out))%nat then
            collect db g (done ++ [(n, None)]) rest
          else if db [out] (g_outputs g) then
            collect db g (done ++ [(n, None)]) rest
          else
            let new_node := mkNode new_symbol (inputs n) [fresh_value cur] in
            collect db g (done ++ [(n, Some new_node)]) rest
      end
  end.

(** The (old output, new output) pairs of the vector [replacement]. *)
Definition replacements (l : list (Node * option Node)) : list (Value * Value) :=
  omap (λ p : Node * option Node,
          new_node ← p.2;
          old_out ← head (outputs p.1);
          new_out ← head (outputs new_node);
          Some (old_out, new_out)) l.

Definition replace_all (rs : list (Value * Value)) (nd : Node) : Node :=
  foldl (λ nd (r : Value * Value), rename r.1 r.2 nd) nd rs.

Definition ReplaceWithCopy (g : Graph) : result Graph :=
  let db := mayContainAlias (with_fake_input g) in
  l ← collect db g [] (g_nodes g);
  let rs := replacements l in
  Ok (mkGraph (g_inputs g)
        ((λ p : Node * option Node, replace_all rs (default p.1 p.2)) <$> l)
        ((λ v, foldl (λ v (r : Value * Value), subst r.1 r.2 v) v rs)
           <$> g_outputs g)
        (foldl (λ t (r : Value * Value), <[r.2 := TensorType]> t) (type_of g) rs)).

(** ** GetOptimizableValues *)

(** The predicates of ops.h on a node. *)
Variable canReuseInputsOutputs canReuseInputs canReuseOutputs : Node → bool.

(** The two sets of the function: (can_reuse, cannot_reuse). *)
Definition classify (ok : bool) (r : gset Value * gset Value) (v : Value)
    : gset Value * gset Value :=
  if ok then ({[v]} ∪ r.1, r.2) else (r.1, {[v]} ∪ r.2).

Definition optimizable_node (r : gset Value * gset Value) (n : Node)
    : gset Value * gset Value :=
  let r := foldl (classify (canRunOutOfPlace n && canReuseInputsOutputs n &&
                            canReuseInputs n)) r (inputs n) in
  foldl (classify (canRunOutOfPlace n && canReuseInputsOutputs n &&
                   canReuseOutputs n)) r (outputs n).

Definition GetOptimizableValues (g : Graph) : gset Value :=
  let r := foldl optimizable_node (∅, ∅) (g_nodes g) in
  foldl (λ can_reuse v, can_reuse ∖ {[v]}) r.1 (elements r.2).

(** ** StaticRuntime::run(const std::vector<at::Tensor>&) *)

(** [v.toTensor()]; a tensor is known by its storage. *)
Definition toTensor (v : IValue) : result (option StorageImplPtr) :=
  match v with
  | ITensor t => Ok t
  | _ => Throw (c10_Error "Expected Tensor")
  end.

Definition run_tensors (g : Graph) (inps : list (option StorageImplPtr))
    : ST Machine (list (option StorageImplPtr)) :=
  let stack := ITensor <$> inps in
  v ← run g stack ∅ ;
  match v with
  | ITuple elements =>
      lift (for_each elements (λ el out, t ← toTensor el; Ok (out ++ [t])) [])
  | _ => t ← lift (toTensor v) ; mret [t]
  end.

(** ** StaticRuntime::check_for_memory_leak *)

Definition leak_msg (n i : nat) : string :=
  "Output " +:+ pretty i +:+ " of node " +:+ pretty n +:+ " was not cleaned up".

Definition check_intermediate (mem : Storages) (error_msg : string)
    (ival : IValue) : result unit :=
  if isNone ival then Ok tt else
  TORCH_CHECK (isTensor ival) error_msg ;;
  match ival with
  | ITensor (Some storage_impl) =>
      TORCH_CHECK (bool_decide (data (mem storage_impl) = None)) error_msg
  | _ => Ok tt
  end.

(** The body of the loop over the outputs of [nodes_[n]]. *)
Definition check_node_output (rt : StaticRuntime) (mem : Storages)
    (output_returned : bool) (n i : nat) (_ : unit) : result unit :=
  ival ← read_ivalue rt (output_slot n i);
  if bool_decide (output_slot n i ∉ outputs_ rt) then
    check_intermediate mem (leak_msg n i) ival
  else if output_returned then TORCH_CHECK (isNone ival) (leak_msg n i)
  else Ok tt.

Definition check_for_memory_leak (rt : StaticRuntime) (mem : Storages)
    (output_returned : bool) : result unit :=
  if negb (cleanup_activations (opts_ rt)) then Ok tt else
  for_each (imap pair (inputs_ rt))
    (λ p _, TORCH_CHECK (isNone p.2)
              ("Input " +:+ pretty p.1 +:+ " was not cleaned up")) tt ;;
  for_each (imap pair (nodes_ rt))
    (λ p _, for_each (seq 0 (length (pn_outputs_ p.2)))
              (check_node_output rt mem output_returned p.1) tt) tt.

(** ** DistributedC10d::getGroupSize *)

(** A [std::shared_ptr<ProcessGroup>]; None is the null pointer. *)
Abbreviation ProcessGroupPtr := (option nat) (only parsing).

Record DistributedC10d : Type := mkDistributedC10d {
  pg_group_ranks_ : gmap ProcessGroupPtr (gmap Z Z);
  default_pg_ : ProcessGroupPtr
}.

(** [ProcessGroup::getSize()] of the process group behind a pointer. *)
Variable ProcessGroup_getSize : nat → Z.

(** The first component lists the values the function computed and dropped
    (the results of the expression statements it ran), the second is what
    it returns or throws. *)
Definition getGroupSize (c : DistributedC10d) (group : ProcessGroupPtr)
    : list Z * result Z :=
  let lookup :=
    match pg_group_ranks_ c !! group with
    | Some ranks => Ok (Z.of_nat (size ranks))
    | None => Throw (c10_Error "The given group does not exist")
    end in
  if decide (group = default_pg_ c) then
    match default_pg_ c with
    | Some pg => ([ProcessGroup_getSize pg], lookup)
    | None => ([], Throw (undefined_behaviour "default_pg_->getSize()"))
    end
  else ([], lookup).

(** ** The other functions of DistributedC10d *)

(** The members [pg_map_] and [pg_names_] of the class; a
    [std::shared_ptr<Store>] is a number. *)
Record ProcessGroupTables : Type := mkProcessGroupTables {
  pg_map_ : gmap ProcessGroupPtr (string * nat);
  pg_names_ : gmap ProcessGroupPtr string
}.

(** [ProcessGroup::getRank()] of the process group behind a pointer. *)
Variable ProcessGroup_getRank : nat → Z.

Definition rankNotInGroup (c : DistributedC10d) (group : ProcessGroupPtr)
    : bool :=
  if decide (group = default_pg_ c) then false
  else bool_decide (group = None).

Definition getRank (c : DistributedC10d) (group : ProcessGroupPtr) : result Z :=
  if rankNotInGroup c group then Ok (-1)%Z
  else
    match group with
    | Some pg => Ok (ProcessGroup_getRank pg)
    | None => Throw (undefined_behaviour "group->getRank()")
    end.

(** As for [getGroupSize], the first component lists what was computed and
    dropped. *)
Definition getWorldSize (c : DistributedC10d) (group : ProcessGroupPtr)
    : list Z * result Z :=
  if rankNotInGroup c group then ([], Ok (-1)%Z)
  else getGroupSize c group.

Definition getGroupRank (c : DistributedC10d) (t : ProcessGroupTables)
    (group : ProcessGroupPtr) (rank : Z) : result Z :=
  TORCH_CHECK (bool_decide (group ≠ default_pg_ c))
    "group.WORLD does not have local rank to global rank mapping" ;;
  match pg_group_ranks_ c !! group with
  | None => Throw (c10_Error "The given group does not exist")
  | Some group_rank_map =>
      match group_rank_map !! rank with
      | None =>
          let group_name := default "Unknown" (pg_names_ t !! group) in
          Throw (c10_Error ("The global rank " +:+ pretty rank +:+
                            " is not part of the group " +:+ group_name))
      | Some group_rank => Ok group_rank
      end
  end.

(** The order in which a range-for visits the entries of a
    [std::unordered_map<int64_t, int64_t>]; the standard leaves it open. *)
Variable unordered_iteration : gmap Z Z → list (Z * Z).

Definition getGlobalRank (c : DistributedC10d) (group : ProcessGroupPtr)
    (group_rank : Z) : result Z :=
  TORCH_CHECK (bool_decide (group ≠ default_pg_ c))
    "group.WORLD does not have local rank to global rank mapping" ;;
  match pg_group_ranks_ c !! group with
  | None => Throw (c10_Error "The given group does not exist")
  | Some group_rank_map =>
      match list_find (λ p : Z * Z, p.2 = group_rank)
                      (unordered_iteration group_rank_map) with
      | Some (_, p) => Ok p.1
      | None => Throw (c10_Error "The group rank is not part of the group")
      end
  end.

Definition getBackend (c : DistributedC10d) (t : ProcessGroupTables)
    (group : ProcessGroupPtr) : result string :=
  TORCH_CHECK (negb (rankNotInGroup c group)) "Invalid process group specified" ;;
  match pg_map_ t !! group with
  | None => Throw (c10_Error "The given group does not exist")
  | Some p => Ok p.1
  end.


(** ** The collectives of DistributedC10d

    A tensor and a [ProcessGroup::Work] are numbers.  The calls that the
    functions make on a process group and on the work it returns are
    recorded, in order; what a call returns may depend on the calls made
    before it. *)

Abbreviation Tensor := nat (only parsing).
Abbreviation Work := nat (only parsing).

Inductive PGCall : Type :=
  | pg_send (pg : nat) (tensors : list Tensor) (dstRank tag : Z)
  | pg_recv (pg : nat) (tensors : list Tensor) (srcRank tag : Z)
  | pg_recvAnysource (pg : nat) (tensors : list Tensor) (tag : Z)
  | pg_broadcast (pg : nat) (tensors : list Tensor) (rootRank rootTensor : Z)
  | pg_allreduce (pg : nat) (tensors : list Tensor) (reduceOp : nat)
  | pg_gather (pg : nat) (outputTensors : list (list Tensor))
              (inputTensors : list Tensor) (rootRank : Z)
  | pg_scatter (pg : nat) (outputTensors : list Tensor)
               (inputTensors : list (list Tensor)) (rootRank : Z)
  | pg_barrier (pg : nat)
  | work_wait (work : Work)
  | work_sourceRank (work : Work).

(** The work a collective of a process group returns. *)
Variable ProcessGroup_collective : list PGCall → PGCall → nat + Work.
(** [work->wait()] and [work->sourceRank()] *)
Variable Work_wait : list PGCall → Work → nat + bool.
Variable Work_sourceRank : list PGCall → Work → Z.
(** [checkDefaultPg()], which frontend.h declares. *)
Variable checkDefaultPg : DistributedC10d → nat + unit.

Definition invoke (c : PGCall) : ST (list PGCall) Work :=
  λ tr, (call (ProcessGroup_collective tr c), tr ++ [c]).

Definition wait (work : Work) : ST (list PGCall) unit :=
  λ tr, (call (Work_wait tr work) ;; Ok tt, tr ++ [work_wait work]).

Definition sourceRank (work : Work) : ST (list PGCall) Z :=
  λ tr, (Ok (Work_sourceRank tr work), tr ++ [work_sourceRank work]).

(** [group->], which needs a pointer that is not null. *)
Definition deref (group : ProcessGroupPtr) : ST (list PGCall) nat :=
  lift (match group with
        | Some pg => Ok pg
        | None => Throw (undefined_behaviour "group->")
        end).

(** [if (async_op) return work; work->wait(); return nullptr;] *)
Definition finish (async_op : bool) (work : Work)
    : ST (list PGCall) (option Work) :=
  if async_op then mret (Some work) else wait work ;; mret None.

Definition isend (c : DistributedC10d) (t : ProcessGroupTables)
    (tensor : Tensor) (dst : Z) (group : ProcessGroupPtr) (tag : option Z)
    : ST (list PGCall) (option Work) :=
  if rankNotInGroup c group then mret None else
  let inputs := [tensor] in
  lift (call (checkDefaultPg c)) ;;
  if decide (group = default_pg_ c) then
    pg ← deref (default_pg_ c) ;
    work ← invoke (pg_send pg inputs dst (default 0%Z tag)) ;
    mret (Some work)
  else
    group_dst_rank ← lift (getGroupRank c t group dst) ;
    pg ← deref group ;
    work ← invoke (pg_send pg inputs group_dst_rank (default 0%Z tag)) ;
    mret (Some work).

Definition irecv (c : DistributedC10d) (t : ProcessGroupTables)
    (tensor : Tensor) (src : Z) (group : ProcessGroupPtr) (tag : option Z)
    : ST (list PGCall) (option Work) :=
  if rankNotInGroup c group then mret None else
  let inputs := [tensor] in
  lift (call (checkDefaultPg c)) ;;
  if decide (group = default_pg_ c) then
    pg ← deref (default_pg_ c) ;
    work ← invoke (pg_recv pg inputs src (default 0%Z tag)) ;
    mret (Some work)
  else
    group_dst_rank ← lift (getGroupRank c t group src) ;
    pg ← deref group ;
    work ← invoke (pg_recv pg inputs group_dst_rank (default 0%Z tag)) ;
    mret (Some work).

Definition send (c : DistributedC10d) (t : ProcessGroupTables)
    (tensor : Tensor) (dst : Z) (group : ProcessGroupPtr) (tag : option Z)
    : ST (list PGCall) unit :=
  work ← isend c t tensor dst group tag ;
  match work with
  | Some w => wait w
  | None => mret tt
  end.

Definition recv (c : DistributedC10d) (t : ProcessGroupTables)
    (tensor : Tensor) (src : option Z) (group : ProcessGroupPtr)
    (tag : option Z) : ST (list PGCall) Z :=
  if rankNotInGroup c group then mret (-1)%Z else
  let outputs := [tensor] in
  match src with
  | None =>
      pg ← deref group ;
      work ← invoke (pg_recvAnysource pg outputs (default 0%Z tag)) ;
      wait work ;;
      src_rank ← sourceRank work ;
      if decide (group = default_pg_ c) then mret src_rank
      else lift (getGlobalRank c group src_rank)
  | Some src_value =>
      (if decide (group = default_pg_ c) then
         pg ← deref group ;
         work ← invoke (pg_recv pg outputs src_value (default 0%Z tag)) ;
         wait work
       else
         group_src_rank ← lift (getGroupRank c t group src_value) ;
         pg ← deref group ;
         work ← invoke (pg_recv pg outputs group_src_rank (default 0%Z tag)) ;
         wait work) ;;
      mret src_value
  end.

Definition broadcastMultiGPU (c : DistributedC10d) (t : ProcessGroupTables)
    (tensor_list : list Tensor) (src : Z) (group : ProcessGroupPtr)
    (async_op : bool) (src_tensor : Z) : ST (list PGCall) (option Work) :=
  if rankNotInGroup c group then mret None else
  lift (call (checkDefaultPg c)) ;;
  work ← (if decide (group = default_pg_ c) then
            pg ← deref (default_pg_ c) ;
            invoke (pg_broadcast pg tensor_list src src_tensor)
          else
            group_src_rank ← lift (getGroupRank c t group src) ;
            pg ← deref group ;
            invoke (pg_broadcast pg tensor_list group_src_rank src_tensor)) ;
  finish async_op work.

Definition broadcast (c : DistributedC10d) (t : ProcessGroupTables)
    (tensor : Tensor) (src : Z) (group : ProcessGroupPtr) (async_op : bool)
    : ST (list PGCall) (option Work) :=
  if rankNotInGroup c group then mret None else
  let tensors := [tensor] in
  lift (call (checkDefaultPg c)) ;;
  work ← (if decide (group = default_pg_ c) then
            pg ← deref group ;
            invoke (pg_broadcast pg tensors src 0)
          else
            group_src_rank ← lift (getGroupRank c t group src) ;
            pg ← deref group ;
            invoke (pg_broadcast pg tensors group_src_rank 0)) ;
  finish async_op work.

Definition allReduceMultiGPU (c : DistributedC10d) (tensor_list : list Tensor)
    (group : ProcessGroupPtr) (op : nat) (async_op : bool)
    : ST (list PGCall) (option Work) :=
  if rankNotInGroup c group then mret None else
  pg ← deref group ;
  work ← invoke (pg_allreduce pg tensor_list op) ;
  finish async_op work.

Definition allReduce (c : DistributedC10d) (tensor : Tensor)
    (group : ProcessGroupPtr) (op : nat) (async_op : bool)
    : ST (list PGCall) (option Work) :=
  if rankNotInGroup c group then mret None else
  let tensors := [tensor] in
  pg ← deref group ;
  work ← invoke (pg_allreduce pg tensors op) ;
  finish async_op work.

Definition gather (c : DistributedC10d) (t : ProcessGroupTables)
    (tensor : Tensor) (gather_list : option (list Tensor))
    (group : ProcessGroupPtr) (dst : Z) (async_op : bool)
    : ST (list PGCall) (option Work) :=
  if rankNotInGroup c group then mret None else
  pg ← deref group ;
  let my_rank := ProcessGroup_getRank pg in
  output_tensors ←
    lift (if decide (dst = my_rank) then
            match gather_list with
            | Some l => Ok [l]
            | None => Throw (c10_Error
                "Argument ``gather_list`` must be specified on destination rank")
            end
          else
            match gather_list with
            | None => Ok []
            | Some _ => Throw (c10_Error
                "Argument ``gather_list`` must NOT be specified on non-destination ranks.")
            end) ;
  let input_tensors := [tensor] in
  work ← (if decide (group = default_pg_ c) then
            invoke (pg_gather pg output_tensors input_tensors dst)
          else
            group_dst_rank ← lift (getGroupRank c t group dst) ;
            invoke (pg_gather pg output_tensors input_tensors group_dst_rank)) ;
  finish async_op work.

Definition scatter (c : DistributedC10d) (t : ProcessGroupTables)
    (tensor : Tensor) (scatter_list : list Tensor) (group : ProcessGroupPtr)
    (src : Z) (async_op : bool) : ST (list PGCall) (option Work) :=
  if rankNotInGroup c group then mret None else
  my_rank ← lift (getRank c (default_pg_ c)) ;
  let output_tensors := [tensor] in
  let input_tensors := if decide (src = my_rank) then [scatter_list] else [] in
  pg ← deref group ;
  work ← (if decide (group = default_pg_ c) then
            invoke (pg_scatter pg output_tensors input_tensors src)
          else
            group_src_rank ← lift (getGroupRank c t group src) ;
            invoke (pg_scatter pg output_tensors input_tensors group_src_rank)) ;
  finish async_op work.

Definition barrier (c : DistributedC10d) (group : ProcessGroupPtr)
    (async_op : bool) : ST (list PGCall) (option Work) :=
  if rankNotInGroup c group then mret None else
  pg ← deref group ;
  work ← invoke (pg_barrier pg) ;
  finish async_op work.


(** ** Predicates and examples the properties are stated with *)

(** When [CheckGraphEligibility] turns a graph output down: by the kind of
    the node that produces it. *)
Definition output_rejected (g : Graph) (output : Value) : Prop :=
  if is_construct (kind (node_of g output)) then
    Exists (λ input, cast_TensorType (type_of g input) = false)
           (inputs (node_of g output))
  else cast_TensorType (type_of g output) || cast_NoneType (type_of g output)
       = false.

#[global] Instance output_rejected_dec g o : Decision (output_rejected g o).
Proof. unfold output_rejected. destruct (is_construct _); apply _. Defined.

(** The reading of the design document, by the static type of the output:
    Tensor, None, or a Tuple/List whose every element is a Tensor. *)
Definition spec_supported_output_type (t : Type_) : bool :=
  match t with
  | TensorType | NoneType => true
  | TupleType ts => forallb cast_TensorType ts
  | ListType t' => cast_TensorType t'
  | _ => false
  end.

Definition spec_ineligible (g : Graph) : Prop :=
  Exists (λ n, kind n = prim_GetAttr) (g_nodes g) ∨
  Exists (λ o, spec_supported_output_type (type_of g o) = false) (g_outputs g).

(** [graph(%x : Tensor, %n : int): %l : Tensor[] = aten::split(%x, %n, %n);
    return (%l)] *)
Definition split_graph : Graph :=
  mkGraph [0; 1] [mkNode "aten::split" [0; 1; 1] [2]] [2]
    (λ v, match v with 1 => IntType | 2 => ListType TensorType | _ => TensorType end).

(** The passes [OptimizeGraph] runs, in order. *)
Definition fusion_passes : list Pass :=
  [ runOnGraph fb_concat_add_mul_replacenan_clip 1;
    runOnGraph fb_concat_add_mul_replacenan_clip 2;
    runOnGraph fb_concat_add_mul_replacenan_clip 3;
    runOnGraph fb_concat_add_mul_replacenan_clip 4;
    runOnGraph fb_casted_batch_one_hot_lengths 1;
    runOnGraph fb_concat_batch_matmul_batch_gather 1;
    runOnGraph fb_clip_ranges_gather_lengths_to_offsets 1;
    runOnGraph fb_clip_ranges_gather_sigrid_hash_offsets 1;
    runOnGraph fb_clip_ranges_gather_sigrid_hash_v3 1;
    runOnGraph fb_clip_ranges_gather 1 ].

Definition pass_sequence : list Pass :=
  [Inline; ConstantPropagation; Canonicalize; ConstantPropagation;
   RemoveTensorMutation; ConstantPropagation; EliminateDeadCode] ++
  (if FBCODE_CAFFE2 then fusion_passes else []) ++
  [ConstantPropagation].

(** [graph(%a : Tensor): %b : Tensor = aten::relu(%a); return (%a)], and a
    dead code elimination that drops the nodes none of whose outputs is
    used; the other passes find nothing to rewrite in this graph. *)
Definition dead_relu_graph : Graph :=
  mkGraph [0] [mkNode "aten::relu" [0] [1]] [0] (λ _, TensorType).

Definition drop_dead_nodes (g : Graph) : Graph :=
  mkGraph (g_inputs g)
          (List.filter (λ n, existsb (hasUses g) (outputs n)) (g_nodes g))
          (g_outputs g) (type_of g).

Definition only_dce (p : Pass) (g : Graph) : Graph :=
  match p with EliminateDeadCode => drop_dead_nodes g | _ => g end.

(** The heap after the passes [ps] have run, in order, on the graph object
    at [graph], which held [g]. *)
Definition after_passes (ps : list Pass) (graph : GraphPtr) (g : Graph)
    (h : Heap) : Heap :=
  mkHeap (<[graph := foldl (λ g p, pass_sem p g) g ps]> (graphs h))
         (passes_run h ++ ((λ p, (p, graph)) <$> ps)).

Definition runs (m : ST Heap unit) (graph : GraphPtr) (ps : list Pass) : Prop :=
  ∀ h g, graphs h !! graph = Some g → m h = (Ok tt, after_passes ps graph g h).

(** An exception other than the one of the schema check of [run]. *)
Definition not_schema_error (e : exn) : Prop := e ≠ c10_Error schema_msg.

Definition set_schema_ (rt : StaticRuntime) (sch : option FunctionSchema)
    : StaticRuntime :=
  mkStaticRuntime sch (opts_ rt) (inputs_ rt) (constants_ rt) (nodes_ rt)
                  (outputs_ rt) (planner_ rt).

Definition with_schema (sch : option FunctionSchema) (m : Machine) : Machine :=
  mkMachine (set_schema_ (runtime m) sch) (storages m) (executed m).


(** The sum of the recorded sizes of the groups, as a number. *)
Definition sum_sizes (gs : list (Z * list StorageImplPtr)) : Z :=
  foldr Z.add 0%Z gs.*1.

(** The recorded sizes are values of [size_t]. *)
Definition sizes_in_range (gs : list (Z * list StorageImplPtr)) : Prop :=
  Forall (λ ms : Z * list StorageImplPtr, (0 ≤ ms.1 < 2 ^ 64)%Z) gs.


(** ** A small concrete world for the examples

    An operator registry and callees with which the definitions above can
    be run on explicit graphs. *)
Definition ex_canRunOutOfPlace (n : Node) : bool :=
  bool_decide (kind n = "aten::add") || bool_decide (kind n = "aten::mul") ||
  bool_decide (kind n = "aten::reshape").
Definition ex_canRunNatively (n : Node) : bool :=
  bool_decide (kind n = "aten::transpose").
Definition ex_isViewOp (n : Node) : bool :=
  bool_decide (kind n = "aten::reshape").
Definition ex_getOperator (n : Node) : option bool := Some true.
Definition ex_toIValue (g : Graph) (v : Value) : option IValue :=
  Some (IOther 0).
Definition ex_allocate_buffer (n : Z) : Z := 4096%Z.
Definition ex_reset (s : StorageImpl) : StorageImpl := mkStorage 0 None.
Definition ex_checkAndNormalizeInputs (sch : FunctionSchema)
    (args : list IValue) (kwargs : gmap string IValue) : nat + list IValue :=
  inr (args ++ (map_to_list kwargs).*2).
(** Every node writes, to each of its outputs, a tensor on the storage
    numbered like the output Value. *)
Definition ex_fn (n : Node) (ins outs : list IValue) (mem : Storages)
    : nat + (list IValue * Storages) :=
  inr ((λ v, ITensor (Some v)) <$> outputs n, mem).

Definition ex_opts : InferenceModuleOptions := mkOpts false true true.

(** A planner with two groups and the storages behind them. *)
Definition ex_planner : MemoryPlanner :=
  mkMemoryPlanner [(0%Z, [0; 1]); (0%Z, [2])] 0 None [].
Definition ex_storages : Storages :=
  λ impl, mkStorage (100 * Z.of_nat (S impl)) (Some (Z.of_nat impl)).
Definition ex_runtime0 : StaticRuntime :=
  mkStaticRuntime None ex_opts [INone] [] [] [input_slot 0] None.
Definition ex_machine0 : Machine := mkMachine ex_runtime0 ex_storages [].


(** What the snapshot loop of the planner keeps true of its groups. *)
Definition grouping_inv (gr : Grouping) : Prop :=
  NoDup (mjoin (groups gr).*2) ∧
  ∀ impl, impl ∈ mjoin (groups gr).*2 → impl ∈ managed_storage_impls gr.

(** The outputs vector of every processed node has the size it is given
    by the constructor: one slot per output of its node. *)
Definition outputs_sized (rt : StaticRuntime) : Prop :=
  Forall (λ pn, length (pn_outputs_ pn) = length (outputs (node_ pn)))
         (nodes_ rt).

#[global] Instance outputs_sized_dec rt : Decision (outputs_sized rt).
Proof. unfold outputs_sized. apply _. Defined.

(** [should_manage] of a processed node: it has an out variant and is not a
    view op that has a graph input among its inputs. *)
Definition should_manage (g : Graph) (pnode : ProcessedNode) : Prop :=
  has_out_variant pnode = true ∧
  ¬ (isViewOp (node_ pnode) = true ∧
     ∃ i, i ∈ inputs (node_ pnode) ∧ i ∈ g_inputs g).

(** [v] is an input of a TupleConstruct/ListConstruct node that produces a
    graph output. *)
Definition output_element (g : Graph) (v : Value) : Prop :=
  ∃ o, o ∈ g_outputs g ∧ is_construct (kind (node_of g o)) = true ∧
       v ∈ inputs (node_of g o).

Definition managed (g : Graph) (rt : StaticRuntime) (v : Value) : Prop :=
  (∃ pnode, pnode ∈ nodes_ rt ∧ v ∈ outputs (node_ pnode) ∧
            should_manage g pnode ∧ cast_TensorType (type_of g v) = true) ∧
  (v ∉ g_outputs g) ∧
  ¬ output_element g v.


(** The nodes that use [v], by position. *)
Definition users (g : Graph) (v : Value) : gset nat :=
  list_to_set (uses g v).*1.

(** [v] is the output of a prim::Constant node. *)
Definition is_const (g : Graph) (v : Value) : Prop :=
  kind (node_of g v) = prim_Constant.

#[global] Instance is_const_dec g v : Decision (is_const g v).
Proof. unfold is_const. apply _. Defined.


(** The Values defined by the first [k] nodes. *)
Definition outs_upto (g : Graph) (k : nat) : list Value :=
  mjoin (outputs <$> take k (g_nodes g)).

(** What holds of the state of [LivenessMap] when [k] nodes have been
    visited and, of the next node, the outputs [added]. *)
Record sweep_inv (g : Graph) (k : nat) (added : list Value) (st : Liveness)
    : Prop := mkSweepInv {
  inv_dom : ∀ v, v ∈ dom (liveness_map st) ↔ v ∈ outs_upto g k ++ added;
  inv_live : dom (live_values st) ⊆ dom (liveness_map st);
  inv_sym : ∀ a b, interferes (liveness_map st) a b →
                   interferes (liveness_map st) b a;
  inv_irrefl : ∀ a, ¬ interferes (liveness_map st) a a;
  inv_pending : ∀ v S, live_values st !! v = Some S →
                  S ≠ ∅ ∧ S ⊆ users g v ∧
                  (¬ is_const g v → ∀ j, j ∈ S → (k ≤ j)%nat);
  inv_alive : ∀ v, v ∈ g_inputs g ∨ v ∈ g_outputs g ∨
                   (is_const g v ∧
                    ∃ j nd, (j < k)%nat ∧ g_nodes g !! j = Some nd ∧ v ∈ inputs nd) →
                   v ∈ always_alive st
}.


(** [graph(%a : Tensor, %b : Tensor): %c : Tensor = aten::add(%a, %b);
    %d : Tensor = aten::mul(%c, %c); return (%d)] *)
Definition add_mul_graph : Graph :=
  mkGraph [0; 1]
    [mkNode "aten::add" [0; 1] [2]; mkNode "aten::mul" [2; 2] [3]] [3]
    (λ _, TensorType).


(** The pairs the loop after the sweep records. *)
Definition augmented (g : Graph) (D : gset nat) (a b : nat) : Prop :=
  ∃ nd, nd ∈ g_nodes g ∧
  ∃ i, i ∈ inputs nd ∧
  ∃ o, o ∈ outputs nd ∧
       i ∈ D ∧ o ∈ D ∧ ((a = i ∧ b = o) ∨ (a = o ∧ b = i)).

(** How often [v] occurs among the inputs of the nodes [nds]. *)
Definition use_count (nds : list Node) (v : Value) : nat :=
  sum_list_with (λ nd, length (offsets_of v (inputs nd) 0)) nds.

(** When the loop of [ReplaceWithCopy] decides to replace a node, [db]
    being the alias analysis at hand. *)
Definition rewritten_by (db : list Value → list Value → bool) (g : Graph)
    (n : Node) : Prop :=
  ∃ c out, supported (kind n) = Some c ∧ outputs n = [out] ∧
           (length (uses g out) ≤ 1)%nat ∧ db [out] (g_outputs g) = false.

Definition rewritten (g : Graph) (n : Node) : Prop :=
  rewritten_by (mayContainAlias (with_fake_input g)) g n.

(** The supported nodes have the single output that [n->output()] asks
    for. *)
Definition single_outputs (nds : list Node) : Prop :=
  Forall (λ n, is_Some (supported (kind n)) → length (outputs n) = 1%nat) nds.

#[global] Instance single_outputs_dec nds : Decision (single_outputs nds).
Proof. unfold single_outputs. apply _. Defined.

(** A copy node takes the inputs of the node it replaces. *)
Definition copies (done : list (Node * option Node)) : Prop :=
  Forall (λ p : Node * option Node,
            ∀ new_node, p.2 = Some new_node → inputs new_node = inputs p.1) done.


(** What the loop has decided for a node it has visited. *)
Definition decided (db : list Value → list Value → bool) (g : Graph)
    (p : Node * option Node) : Prop :=
  match p.2 with
  | Some new_node =>
      ∃ c out, supported (kind p.1) = Some c ∧ outputs p.1 = [out] ∧
               (length (uses g out) ≤ 1)%nat ∧ db [out] (g_outputs g) = false ∧
               kind new_node = c ∧ inputs new_node = inputs p.1 ∧
               length (outputs new_node) = 1%nat
  | None => ¬ rewritten_by db g p.1
  end.

(** The renaming of the uses that the replacements [rs] amount to. *)
Definition renaming (rs : list (Value * Value)) (v : Value) : Value :=
  foldl (λ v (r : Value * Value), subst r.1 r.2 v) v rs.


(** [graph(%a, %b): %c = aten::add(%a, %b); %d = aten::mul(%c, %c);
    %e = aten::add(%d, %d); return (%e)], and a runtime of it as the first
    run leaves it: the two intermediate tensors are on one storage. *)
Definition chain_graph : Graph :=
  mkGraph [0; 1]
    [mkNode "aten::add" [0; 1] [2]; mkNode "aten::mul" [2; 2] [3];
     mkNode "aten::add" [3; 3] [4]] [4]
    (λ _, TensorType).

Definition chain_runtime : StaticRuntime :=
  mkStaticRuntime None ex_opts [INone; INone] []
    [mkProcessedNode (mkNode "aten::add" [0; 1] [2])
       [input_slot 0; input_slot 1] [ITensor (Some 7)] true true false;
     mkProcessedNode (mkNode "aten::mul" [2; 2] [3])
       [output_slot 0 0; output_slot 0 0] [ITensor (Some 7)] true true false;
     mkProcessedNode (mkNode "aten::add" [3; 3] [4])
       [output_slot 1 0; output_slot 1 0] [ITensor (Some 9)] true true false]
    [output_slot 2 0] None.

(** A may-alias analysis for the examples: two Values may alias when, going
    back through the view ops that produce them, they reach one Value. *)
Definition is_view_kind (k : Symbol) : bool :=
  bool_decide (k = aten_permute) || bool_decide (k = aten_narrow).

Fixpoint storage_root (fuel : nat) (g : Graph) (v : Value) : Value :=
  match fuel with
  | 0 => v
  | S fuel' =>
      if is_view_kind (kind (node_of g v)) then
        match inputs (node_of g v) with
        | self :: _ => storage_root fuel' g self
        | [] => v
        end
      else v
  end.

Definition views_alias (g : Graph) (xs ys : list Value) : bool :=
  existsb (λ x,
    existsb (λ y,
      bool_decide (storage_root (length (g_nodes g)) g x
                   = storage_root (length (g_nodes g)) g y)) ys) xs.

(** [graph(%a, %dims): %b = aten::permute(%a, %dims); %c = aten::relu(%a);
    return (%c)]: the output of the permute is not used. *)
Definition unused_permute_graph : Graph :=
  mkGraph [0; 1]
    [mkNode "aten::permute" [0; 1] [2]; mkNode "aten::relu" [0] [3]] [3]
    (λ _, TensorType).

(** [graph(%a, %dims): %b = aten::permute(%a, %dims); %c = aten::relu(%b);
    return (%c)]: the output of the permute is used once. *)
Definition permute_graph : Graph :=
  mkGraph [0; 1]
    [mkNode "aten::permute" [0; 1] [2]; mkNode "aten::relu" [2] [3]] [3]
    (λ _, TensorType).


(** What writing through an [IValue*] and running a node leave alone: the
    schema, the options, the output pointers, the planner and the number of
    inputs and of processed nodes. *)
Definition same_frame (rt rt' : StaticRuntime) : Prop :=
  schema_ rt' = schema_ rt ∧ opts_ rt' = opts_ rt ∧
  outputs_ rt' = outputs_ rt ∧ planner_ rt' = planner_ rt ∧
  length (inputs_ rt') = length (inputs_ rt) ∧
  length (nodes_ rt') = length (nodes_ rt).


(** The size [deallocate] records for a group: the largest aligned size of
    its storages, 0 for a group without storages. *)
Definition max_aligned_size (mem : Storages) (impls : list StorageImplPtr) : Z :=
  foldr Z.max 0%Z
        ((λ impl, compute_aligned_tensor_size (nbytes (mem impl))) <$> impls).


(** The nodes that the constructor of the runtime turns into processed
    nodes, and the constants, both in the order of the graph. *)
Definition processed_nodes (g : Graph) : list Node :=
  filter (λ n, is_Constant n = false) (g_nodes g).
Definition constant_nodes (g : Graph) : list Node :=
  filter (λ n, is_Constant n = true) (g_nodes g).

(** [p] addresses the slot of the value table that belongs to the Value
    [v]: [inputs_[i]] for graph input [i], [constants_[c]] for the output
    of the [c]-th constant, [nodes_[n].Output(i)] for output [i] of the
    [n]-th processed node. *)
Definition value_slot (g : Graph) (v : Value) (p : IValuePtr) : Prop :=
  (∃ i, g_inputs g !! i = Some v ∧ p = input_slot i) ∨
  (∃ c nd, constant_nodes g !! c = Some nd ∧ outputs nd = [v] ∧
           p = constant_slot c) ∨
  (∃ n nd i, processed_nodes g !! n = Some nd ∧ outputs nd !! i = Some v ∧
             p = output_slot n i).


(** The users of [v] that the sweep of [LivenessMap] still waits for when
    [k] nodes have been visited: all of them for a constant, which the
    sweep never drops from the live values. *)
Definition pending (g : Graph) (k : nat) (v : Value) : gset nat :=
  if decide (is_const g v) then users g v
  else filter (λ j, (k ≤ j)%nat) (users g v).

(** [a] is still waited for when the node that defines [b] is reached. *)
Definition live_at (g : Graph) (a b : Value) : Prop :=
  ∃ kb nd, g_nodes g !! kb = Some nd ∧ b ∈ outputs nd ∧ pending g kb a ≠ ∅.

(** The live values and the pairs recorded when [k] nodes have been
    visited and, of the next node, the outputs [added]. *)
Record sweep_exact (g : Graph) (k : nat) (added : list Value) (st : Liveness)
    : Prop := mkSweepExact {
  ex_live : ∀ v, live_values st !! v =
              if decide (v ∈ outs_upto g k ++ added ∧ pending g k v ≠ ∅)
              then Some (pending g k v) else None;
  ex_map : ∀ a b, interferes (liveness_map st) a b ↔
             ∃ i j, (outs_upto g k ++ added) !! i = Some a ∧
                    (outs_upto g k ++ added) !! j = Some b ∧
                    ((i < j)%nat ∧ live_at g a b ∨ (j < i)%nat ∧ live_at g b a)
}.


(** Process groups for the examples: the default group 0, and the group 1
    whose ranks 0 and 1 are the global ranks 5 and 7. *)
Definition ex_c10d : DistributedC10d :=
  mkDistributedC10d {[Some 1%nat := {[5%Z := 0%Z; 7%Z := 1%Z]}]} (Some 0%nat).
Definition ex_tables : ProcessGroupTables :=
  mkProcessGroupTables ∅ {[Some 1%nat := "workers"]}.
(** Every collective succeeds and returns a work numbered like the call;
    every wait succeeds; every message comes from rank 1 of the group. *)
Definition ex_collective (tr : list PGCall) (c : PGCall) : nat + nat :=
  inr (length tr).
Definition ex_wait (tr : list PGCall) (work : nat) : nat + bool := inr true.
Definition ex_sourceRank (tr : list PGCall) (work : nat) : Z := 1%Z.
Definition ex_checkDefaultPg (c : DistributedC10d) : nat + unit := inr tt.
Definition ex_getRank (pg : nat) : Z := 0%Z.

(** [graph(%x): %w = prim::Constant(); %y = aten::add(%x, %x);
    %t = prim::TupleConstruct(%y, %w); return (%t)], and a runtime of it
    with the outputs of a first run. *)
Definition const_tuple_graph : Graph :=
  mkGraph [0]
    [mkNode prim_Constant [] [1]; mkNode "aten::add" [0; 0] [2];
     mkNode prim_TupleConstruct [2; 1] [3]] [3]
    (λ v, if decide (v = 3) then TupleType [TensorType; TensorType]
          else TensorType).

Definition const_tuple_runtime : StaticRuntime :=
  mkStaticRuntime None ex_opts [INone] [ITensor (Some 1)]
    [mkProcessedNode (mkNode "aten::add" [0; 0] [2])
       [input_slot 0; input_slot 0] [ITensor (Some 2)] true true false;
     mkProcessedNode (mkNode prim_TupleConstruct [2; 1] [3])
       [output_slot 0 0; constant_slot 0]
       [ITuple [ITensor (Some 2); ITensor (Some 1)]] false false true]
    [output_slot 1 0] None.

(** The runtime of the chain of three nodes as the constructor leaves it,
    before the first run. *)
Definition chain_machine : Machine :=
  mkMachine
    (mkStaticRuntime None ex_opts [INone; INone] []
       ((λ pn, set_pn_outputs_ pn [INone]) <$> nodes_ chain_runtime)
       [output_slot 2 0] None)
    ex_storages [].

(** A runtime whose two outputs are one slot. *)
Definition twice_machine : Machine :=
  mkMachine
    (mkStaticRuntime None ex_opts [ITensor (Some 3)] [] []
       [input_slot 0; input_slot 0] None)
    ex_storages [].

(** [ex_planner] after a deallocate. *)
Definition ex_planner_sized : MemoryPlanner :=
  mkMemoryPlanner [(256%Z, [0; 1]); (320%Z, [2])] 576 None [].


(** What [check_for_memory_leak] accepts in the slot of an intermediate
    value: None, an undefined tensor, or a tensor whose storage has given
    its memory back. *)
Definition cleaned_up (mem : Storages) (ival : IValue) : Prop :=
  ival = INone ∨ ival = ITensor None ∨
  ∃ impl, ival = ITensor (Some impl) ∧ data (mem impl) = None.




(** The ranks of a process whose global rank is 5 and whose rank in group
    1 is 0: the default group 0 reports 5, group 1 reports 0. *)
Definition ex_ranks (pg : nat) : Z := if decide (pg = 0%nat) then 5%Z else 0%Z.


(** [v] is a Value object that the graph holds: a graph input or output,
    or an input or output of one of its nodes. *)
Definition in_graph (g : Graph) (v : Value) : Prop :=
  v ∈ g_inputs g ++ g_outputs g ++
      mjoin ((λ n, inputs n ++ outputs n) <$> g_nodes g).

#[global] Instance in_graph_dec g v : Decision (in_graph g v).
Proof. unfold in_graph. apply _. Defined.

(** The outputs of the copy nodes that the loop of [ReplaceWithCopy] has
    created. *)
Definition copy_outputs (l : list (Node * option Node)) : list Value :=
  mjoin ((λ p : Node * option Node, from_option outputs [] p.2) <$> l).


(** * Properties *)

(** Forget the parameters of the section that the goal does not depend on,
    so that the automation does not pick them up. *)
Ltac clear_params :=
  try clear pass_sem; try clear FBCODE_CAFFE2; try clear canRunOutOfPlace;
  try clear canRunNatively; try clear isViewOp; try clear has_out_variant;
  try clear getOperator;
  try clear toIValue; try clear gAlignment; try clear allocate_buffer;
  try clear StorageImpl_reset; try clear checkAndNormalizeInputs;
  try clear out_fn; try clear native_fn; try clear operation;
  try clear mayContainAlias; try clear ProcessGroup_getSize;
  try clear ProcessGroup_getRank; try clear unordered_iteration;
  try clear canReuseInputsOutputs; try clear canReuseInputs;
  try clear canReuseOutputs; try clear ProcessGroup_collective;
  try clear Work_wait; try clear Work_sourceRank; try clear checkDefaultPg.

Ltac tauto_goal := clear_params; tauto.

(** ** getGroupSize *)

(** C10. Called with the default process group, getGroupSize computes the
    size of the default group and drops it; what it returns is the size of
    the entry of the group in the group-ranks table, and it throws
    "The given group does not exist" when the table has no such entry. *)
Theorem getGroupSize_default_discarded (c : DistributedC10d) (pg : nat) :
  default_pg_ c = Some pg →
  (getGroupSize c (Some pg)).1 = [ProcessGroup_getSize pg] ∧
  (∀ ranks, pg_group_ranks_ c !! Some pg = Some ranks →
     (getGroupSize c (Some pg)).2 = Ok (Z.of_nat (size ranks))) ∧
  (pg_group_ranks_ c !! Some pg = None →
     (getGroupSize c (Some pg)).2 =
       Throw (c10_Error "The given group does not exist")).
Proof.
  intros Hdef. unfold getGroupSize. rewrite Hdef.
  rewrite decide_True by done. simpl. split; [done|]. split.
  - by intros ranks ->.
  - by intros ->.
Qed.

(** ** CheckGraphEligibility *)

Lemma Exists_equiv {A} (P Q : A → Prop) (l : list A) :
  (∀ x, P x ↔ Q x) → Exists P l ↔ Exists Q l.
Proof.
  intros H. rewrite !Exists_exists.
  split; intros (x & Hx & HP); exists x; (split; [done | by apply H]).
Qed.

Lemma for_each_unit_ok {A} (l : list A) (body : A → unit → result unit) :
  (∀ x, x ∈ l → body x tt = Ok tt) → for_each l body tt = Ok tt.
Proof.
  induction l as [|x l IH]; intros Hb; [done|]. simpl.
  rewrite Hb; [|left]. simpl. apply IH. intros y Hy. apply Hb. by right.
Qed.

Lemma for_each_unit_fails {A} (l : list A) (body : A → unit → result unit) :
  fails (for_each l body tt) ↔ Exists (λ x, fails (body x tt)) l.
Proof.
  induction l as [|x l IH]; simpl.
  - split; [intros [e He]; done | intros H; inversion H].
  - destruct (body x tt) as [[]|e] eqn:Hx; simpl.
    + rewrite IH. split; [by right|].
      intros H. inversion H as [?? [e He]|]; subst; [congruence|done].
    + split; [intros _; left; by exists e | intros _; by exists e].
Qed.

Lemma check_output_fails g o :
  fails (check_output g o tt) ↔ output_rejected g o.
Proof.
  unfold check_output, output_rejected.
  destruct (is_construct _).
  - rewrite for_each_unit_fails. apply Exists_equiv. intros input.
    unfold TORCH_CHECK. destruct (cast_TensorType _).
    + split; [intros [e He]; done | done].
    + split; [done | intros _; by eexists].
  - unfold TORCH_CHECK. destruct (_ || _).
    + split; [intros [e He]; done | done].
    + split; [done | intros _; by eexists].
Qed.

Lemma check_frozen_fails (l : list Node) :
  fails (for_each l
           (λ n _, if decide (kind n = prim_GetAttr)
                   then Throw (runtime_error "Cannot accelerate unfrozen graphs")
                   else Ok tt) tt)
  ↔ Exists (λ n, kind n = prim_GetAttr) l.
Proof.
  rewrite for_each_unit_fails. apply Exists_equiv. intros n.
  destruct (decide _).
  - split; [done | intros _; by eexists].
  - split; [intros [e He]; done | done].
Qed.

Lemma bind_unit_fails {B} (r : result unit) (k : result B) :
  fails (r ;; k) ↔ fails r ∨ fails k.
Proof.
  destruct r as [[]|e]; simpl.
  - split; [by right | intros [[e He]|H]; done].
  - split; [intros _; left; by exists e | intros _; by exists e].
Qed.

Lemma CheckGraphEligibility_fails g :
  fails (CheckGraphEligibility g) ↔
  Exists (λ n, kind n = prim_GetAttr) (g_nodes g) ∨
  Exists (output_rejected g) (g_outputs g).
Proof.
  unfold CheckGraphEligibility.
  rewrite bind_unit_fails, check_frozen_fails, for_each_unit_fails.
  apply or_iff_compat_l, Exists_equiv. intros o. apply check_output_fails.
Qed.

(** ** The pass pipeline *)

Lemma runs_run_pass p graph : runs (run_pass p graph) graph [p].
Proof. intros h g Hg. unfold run_pass. by rewrite Hg. Qed.

Lemma runs_mret graph : runs (mret tt) graph [].
Proof.
  intros h g Hg. unfold mret, ST_ret, after_passes. simpl.
  rewrite insert_id by done. rewrite app_nil_r. by destruct h.
Qed.

Lemma runs_seq m1 m2 graph ps1 ps2 :
  runs m1 graph ps1 → runs m2 graph ps2 → runs (m1 ;; m2) graph (ps1 ++ ps2).
Proof.
  intros H1 H2 h g Hg. unfold mbind, ST_bind. rewrite (H1 h g Hg).
  rewrite (H2 _ (foldl (λ g p, pass_sem p g) g ps1)).
  - unfold after_passes. simpl.
    by rewrite insert_insert_eq, foldl_app, fmap_app, app_assoc.
  - simpl. apply lookup_insert_eq.
Qed.

Lemma runs_PrepareGraphForStaticRuntime graph :
  runs (PrepareGraphForStaticRuntime graph) graph
       [Inline; ConstantPropagation; Canonicalize; ConstantPropagation;
        RemoveTensorMutation; ConstantPropagation; EliminateDeadCode].
Proof.
  unfold PrepareGraphForStaticRuntime.
  repeat (apply (runs_seq _ _ _ [_]); [apply runs_run_pass|]).
  apply runs_run_pass.
Qed.

Lemma runs_FuseInferenceOpsForSparseNN graph :
  runs (FuseInferenceOpsForSparseNN graph) graph
       (if FBCODE_CAFFE2 then fusion_passes else []).
Proof.
  unfold FuseInferenceOpsForSparseNN. destruct FBCODE_CAFFE2.
  - apply (runs_seq _ _ _ [_; _; _; _]).
    { unfold ConcatAddMulReplaceNaNClip.
      repeat (apply (runs_seq _ _ _ [_]); [apply runs_run_pass|]).
      apply runs_run_pass. }
    repeat (apply (runs_seq _ _ _ [_]); [apply runs_run_pass|]).
    apply runs_run_pass.
  - apply runs_mret.
Qed.

Lemma runs_OptimizeGraph graph :
  runs (OptimizeGraph graph) graph pass_sequence.
Proof.
  unfold OptimizeGraph, pass_sequence.
  apply runs_seq; [apply runs_PrepareGraphForStaticRuntime|].
  apply runs_seq; [apply runs_FuseInferenceOpsForSparseNN|].
  apply runs_run_pass.
Qed.

Lemma with_graph_lookup {A} (f : Graph → result A) h graph g :
  graphs h !! graph = Some g → with_graph graph f h = (f g, h).
Proof. intros Hg. unfold with_graph. by rewrite Hg. Qed.

Lemma after_passes_lookup ps graph g h :
  graphs (after_passes ps graph g h) !! graph
  = Some (foldl (λ g p, pass_sem p g) g ps).
Proof. unfold after_passes. cbn [graphs]. apply lookup_insert_eq. Qed.

(** What [init] does once the passes have run. *)
Lemma init_after_passes graph g h :
  graphs h !! graph = Some g →
  init graph h =
    let h1 := after_passes pass_sequence graph g h in
    let g1 := foldl (λ g p, pass_sem p g) g pass_sequence in
    match CheckGraphEligibility g1 with
    | Throw e => (Throw e, h1)
    | Ok _ =>
        match RemoveSelfFromGraphInput g1 with
        | Throw e => (Throw e, h1)
        | Ok g' => (Ok tt, mkHeap (<[graph := g']> (graphs h)) (passes_run h1))
        end
    end.
Proof.
  intros Hg. unfold init, mbind, ST_bind.
  rewrite (runs_OptimizeGraph graph h g Hg).
  rewrite !(with_graph_lookup _ _ _ _ (after_passes_lookup _ _ _ _)).
  cbv zeta. destruct (CheckGraphEligibility _) as [[]|e]; [|done].
  destruct (RemoveSelfFromGraphInput _) as [g'|e]; [|done].
  unfold set_graph, after_passes. cbn [graphs passes_run].
  by rewrite insert_insert_eq.
Qed.

(** C6, amended. OptimizeGraph runs exactly Inline, ConstantPropagation,
    Canonicalize, ConstantPropagation, RemoveTensorMutation,
    ConstantPropagation, EliminateDeadCode, the domain fusions when the
    feature flag is set, and a last ConstantPropagation, in that order and
    nothing else; every pass works in place on the graph object it is
    given, and an InferenceModule built from a graph keeps the pointer of
    the caller, whose graph object is the one that is rewritten. *)
Theorem OptimizeGraph_pass_sequence_in_place (h : Heap) (caller : GraphPtr)
    (g : Graph) :
  graphs h !! caller = Some g →
  OptimizeGraph caller h = (Ok tt, after_passes pass_sequence caller g h) ∧
  ∀ opts0 m h',
    InferenceModule_of_graph caller opts0 h = (Ok m, h') →
    graph m = caller ∧
    passes_run h' = passes_run h ++ ((λ p, (p, caller)) <$> pass_sequence) ∧
    ∃ g', RemoveSelfFromGraphInput (foldl (λ g p, pass_sem p g) g pass_sequence)
            = Ok g' ∧
          graphs h' = <[caller := g']> (graphs h).
Proof.
  intros Hg. pose proof (runs_OptimizeGraph caller h g Hg) as Hopt.
  split; [done|]. intros opts0 m h'.
  unfold InferenceModule_of_graph. unfold mbind at 1. unfold ST_bind.
  rewrite (init_after_passes _ _ _ Hg). cbv zeta.
  destruct (CheckGraphEligibility _) as [[]|e]; [|done].
  destruct (RemoveSelfFromGraphInput _) as [g'|e]; [|done].
  unfold mret, ST_ret. intros [= <- <-]. cbn [graph passes_run graphs].
  split; [done|]. split; [done|]. by exists g'.
Qed.

(** C5, amended. CheckGraphEligibility throws if and only if some node has
    kind prim::GetAttr, or some graph output is produced by a
    TupleConstruct/ListConstruct node one of whose inputs is not of Tensor
    type, or is produced by any other node (or is a graph input) and is
    neither of Tensor nor of None type; and the construction of the
    InferenceModule throws that same exception, so that no module exists
    that could be run. *)
Theorem CheckGraphEligibility_fails_iff (g : Graph) :
  (fails (CheckGraphEligibility g) ↔
     Exists (λ n, kind n = prim_GetAttr) (g_nodes g) ∨
     Exists (output_rejected g) (g_outputs g)) ∧
  ∀ h graph g0 opts0 e,
    graphs h !! graph = Some g0 →
    foldl (λ g p, pass_sem p g) g0 pass_sequence = g →
    CheckGraphEligibility g = Throw e →
    (InferenceModule_of_graph graph opts0 h).1 = Throw e.
Proof.
  split; [apply CheckGraphEligibility_fails|].
  intros h graph g0 opts0 e Hg <- He.
  unfold InferenceModule_of_graph. unfold mbind at 1. unfold ST_bind.
  rewrite (init_after_passes _ _ _ Hg). cbv zeta. by rewrite He.
Qed.

(** ** StaticRuntime::run *)

Lemma for_each_throws {A S} (P : exn → Prop) (l : list A)
    (body : A → S → result S) (s : S) (e : exn) :
  (∀ x s e, body x s = Throw e → P e) →
  for_each l body s = Throw e → P e.
Proof.
  intros Hb. revert s. induction l as [|x l IH]; intros s; simpl; [done|].
  destruct (body x s) as [s'|e'] eqn:Hx; simpl.
  - apply IH.
  - intros [= <-]. by eapply Hb.
Qed.

Lemma st_for_each_throws {A S} (P : exn → Prop) (l : list A)
    (body : A → ST S unit) (s s' : S) (e : exn) :
  (∀ x s s' e, body x s = (Throw e, s') → P e) →
  st_for_each l body s = (Throw e, s') → P e.
Proof.
  intros Hb. revert s. induction l as [|x l IH]; intros s; simpl.
  - by intros [=].
  - unfold mbind, ST_bind. destruct (body x s) as [[[]|e'] s1] eqn:Hx.
    + apply IH.
    + intros [= <- <-]. by eapply Hb.
Qed.

Lemma read_ivalue_throws rt p e :
  read_ivalue rt p = Throw e → not_schema_error e.
Proof.
  unfold read_ivalue. destruct (match p with null_ivalue => _ | _ => _ end);
    by intros [= <-].
Qed.

Lemma write_ivalue_throws p v rt e :
  write_ivalue p v rt = Throw e → not_schema_error e.
Proof.
  unfold write_ivalue. destruct (read_ivalue rt p) eqn:Hr; simpl; [done|].
  intros [= <-]. by eapply read_ivalue_throws.
Qed.

Lemma set_Input_throws p m m' e :
  set_Input p m = (Throw e, m') → not_schema_error e ∧ m' = m.
Proof.
  unfold set_Input, modify_runtime.
  destruct (write_ivalue _ _ _) eqn:Hw; [done|].
  intros [= <- <-]. split; [by eapply write_ivalue_throws | done].
Qed.

Lemma call_throws {A} (r : nat + A) e : call r = Throw e → not_schema_error e.
Proof. destruct r; simpl; by intros [= <-]. Qed.

Lemma dispatch_throws pn ins mem e :
  dispatch pn ins mem = Throw e → not_schema_error e.
Proof.
  unfold dispatch. destruct (fn_ pn); [apply call_throws|].
  destruct (native_fn_ pn); [apply call_throws|].
  destruct (op_ pn); simpl; [|by intros [= <-]].
  destruct (call _) eqn:Hc; simpl.
  - destruct (decide _); [by intros [= <-] | done].
  - intros [= <-]. by eapply call_throws.
Qed.

Lemma ProcessedNode_run_throws n m m' e :
  ProcessedNode_run n m = (Throw e, m') → not_schema_error e.
Proof.
  unfold ProcessedNode_run. destruct (nodes_ (runtime m) !! n) as [pn|].
  - destruct (input_values (runtime m) pn) as [ins|e'] eqn:Hi; simpl.
    + destruct (dispatch pn ins (storages m)) eqn:Hd; [done|].
      intros [= <- <-]. by eapply dispatch_throws.
    + intros [= <- <-]. revert Hi. unfold input_values.
      apply for_each_throws. intros p acc ex.
      destruct (read_ivalue (runtime m) p) eqn:Hr; simpl; [done|].
      intros [= <-]. by eapply read_ivalue_throws.
  - by intros [= <- <-].
Qed.

Lemma plan_values_throws g rt e :
  plan_values g rt = Throw e → not_schema_error e.
Proof.
  unfold plan_values. destruct (for_each _ _ _) eqn:Hf; simpl; [done|].
  intros [= <-]. revert Hf. apply for_each_throws. intros p pl ex.
  unfold plan_node. cbv zeta.
  destruct (if has_out_variant _ && isViewOp _ then _ else _).
  - apply for_each_throws. intros i pl' ey. unfold manage_output, Node_output.
    destruct (_ !! i); simpl; [by destruct (cast_TensorType _) | by intros [= <-]].
  - apply for_each_throws. intros i pl' ey. unfold leave_output, Node_output.
    destruct (_ !! i); simpl; [done | by intros [= <-]].
Qed.

Lemma group_output_throws managed should_share pnode i gr e :
  group_output managed should_share pnode i gr = Throw e → not_schema_error e.
Proof.
  unfold group_output.
  destruct (pn_outputs_ pnode !! i) as [ival|]; [|by intros [= <-]].
  destruct (outputs (node_ pnode) !! i) as [val|]; [|by intros [= <-]].
  destruct (bool_decide _); [|done].
  unfold TORCH_CHECK. destruct (isTensor ival); simpl; [|by intros [= <-]].
  unfold storage_impl_of. destruct ival as [|[impl|]| |]; simpl;
    try by intros [= <-].
  destruct (bool_decide _); [done|].
  destruct (shared gr !! val) as [idx|]; [|done].
  destruct (groups gr !! idx); [done | by intros [= <-]].
Qed.

Lemma MemoryPlanner_new_throws g rt should_share e :
  MemoryPlanner_new g rt should_share = Throw e → not_schema_error e.
Proof.
  unfold MemoryPlanner_new. destruct (plan_values g rt) as [pl|e'] eqn:Hp; simpl.
  - destruct (for_each _ _ _) eqn:Hf; simpl; [done|].
    intros [= <-]. revert Hf. apply for_each_throws. intros pn gr ex.
    unfold group_node. apply for_each_throws. intros i gr' ey.
    apply group_output_throws.
  - intros [= <-]. by eapply plan_values_throws.
Qed.

Lemma deallocate_throws p rt mem e :
  deallocate p rt mem = Throw e → not_schema_error e.
Proof.
  unfold deallocate. destruct (for_each _ _ _) eqn:Hf; simpl; [done|].
  intros [= <-]. revert Hf. apply for_each_throws. intros iv rt' ex.
  apply write_ivalue_throws.
Qed.

Lemma run_allocate_ok m :
  ∃ m1, run_allocate m = (Ok tt, m1) ∧
        schema_ (runtime m1) = schema_ (runtime m) ∧
        executed m1 = executed m.
Proof.
  unfold run_allocate. destruct (planner_ (runtime m)); eauto.
Qed.

Lemma set_Inputs_throw l m m' e :
  st_for_each l set_Input m = (Throw e, m') →
  not_schema_error e ∧ executed m' = executed m.
Proof.
  revert m. induction l as [|x l IH]; intros m; simpl; [by intros [=]|].
  unfold mbind, ST_bind. destruct (set_Input x m) as [[[]|e'] m1] eqn:Hx.
  - intros H. apply IH in H as [? ->]. split; [done|].
    revert Hx. unfold set_Input, modify_runtime.
    destruct (write_ivalue _ _ _); by intros [= <-].
  - intros [= <- <-]. apply set_Input_throws in Hx as [? ->]. done.
Qed.

Lemma run_bind_throw args kwargs m m' e :
  run_bind args kwargs m = (Throw e, m') →
  executed m' = executed m ∧
  (e = c10_Error schema_msg ↔ size kwargs ≠ 0 ∧ schema_ (runtime m) = None).
Proof.
  unfold run_bind. destruct (decide (size kwargs ≠ 0)) as [Hk|Hk].
  - unfold mbind, ST_bind. destruct (schema_ (runtime m)) as [sch|] eqn:Hs.
    + unfold lift. destruct (call _) as [s|e'] eqn:Hc.
      * intros H. apply set_Inputs_throw in H as [Hne ?]. split; [done|].
        split; [done | by intros [_ [=]]].
      * intros [= <- <-]. split; [done|]. apply call_throws in Hc.
        split; [done | by intros [_ [=]]].
    + intros [= <- <-]. done.
  - intros H. apply set_Inputs_throw in H as [Hne ?]. split; [done|].
    split; [done | by intros [? _]].
Qed.

Lemma run_nodes_throw m m' e :
  run_nodes m = (Throw e, m') → not_schema_error e.
Proof.
  unfold run_nodes. apply st_for_each_throws.
  intros n s s' ex. apply ProcessedNode_run_throws.
Qed.

Lemma run_cleanup_throw g m m' e :
  run_cleanup g m = (Throw e, m') → not_schema_error e.
Proof.
  unfold run_cleanup. destruct (cleanup_activations _); [|done].
  destruct (match planner_ (runtime m) with Some p => _ | None => _ end)
    as [p|e'] eqn:Hp.
  - destruct (deallocate _ _ _) eqn:Hd; [done|].
    intros [= <- <-]. by eapply deallocate_throws.
  - intros [= <- <-]. destruct (planner_ (runtime m)); [done|].
    by eapply MemoryPlanner_new_throws.
Qed.

Lemma move_out_throw p m m' e :
  move_out p m = (Throw e, m') → not_schema_error e.
Proof.
  unfold move_out. destruct (read_ivalue _ _) eqn:Hr.
  - destruct (write_ivalue _ _ _) eqn:Hw; [done|].
    intros [= <- <-]. by eapply write_ivalue_throws.
  - intros [= <- <-]. by eapply read_ivalue_throws.
Qed.

Lemma move_all_throw ps m m' e :
  move_all ps m = (Throw e, m') → not_schema_error e.
Proof.
  revert m. induction ps as [|p ps IH]; intros m; simpl; [by intros [=]|].
  unfold mbind, ST_bind. destruct (move_out p m) as [[v|e'] m1] eqn:Hp.
  - destruct (move_all ps m1) as [[vs|e'] m2] eqn:Ha; [by intros [=]|].
    intros [= <- <-]. by eapply IH.
  - intros [= <- <-]. by eapply move_out_throw.
Qed.

Lemma run_collect_throw m m' e :
  run_collect m = (Throw e, m') → not_schema_error e.
Proof.
  unfold run_collect. destruct (decide _).
  - unfold mbind, ST_bind. destruct (move_all _ m) as [[vs|e'] m1] eqn:Ha;
      [by intros [=]|].
    intros [= <- <-]. by eapply move_all_throw.
  - destruct (outputs_ (runtime m)); [by intros [= <- <-]|].
    apply move_out_throw.
Qed.

(** Where [run] can throw: in the binding of the inputs, with the state of
    that moment, or later with an exception of another kind. *)
Lemma run_throw g args kwargs m m' e :
  run g args kwargs m = (Throw e, m') →
  (∃ m1, run_allocate m = (Ok tt, m1) ∧
         run_bind args kwargs m1 = (Throw e, m')) ∨
  not_schema_error e.
Proof.
  unfold run, mbind, ST_bind.
  destruct (run_allocate_ok m) as (m1 & -> & _ & _).
  destruct (run_bind args kwargs m1) as [[[]|e1] m2] eqn:Hb.
  - destruct (run_nodes m2) as [[[]|e2] m3] eqn:Hn.
    + destruct (run_cleanup g m3) as [[[]|e3] m4] eqn:Hc.
      * intros H. right. by eapply run_collect_throw.
      * intros [= <- <-]. right. by eapply run_cleanup_throw.
    + intros [= <- <-]. right. by eapply run_nodes_throw.
  - intros [= <- <-]. left. by exists m1.
Qed.

Lemma set_Input_ok k v m :
  (k < length (inputs_ (runtime m)))%nat →
  set_Input (k, v) m =
    (Ok tt, mkMachine (set_inputs_ (runtime m) (<[k := v]> (inputs_ (runtime m))))
                      (storages m) (executed m)).
Proof.
  intros Hk. unfold set_Input, modify_runtime, write_ivalue, read_ivalue.
  cbn [fst snd]. destruct (lookup_lt_is_Some_2 _ _ Hk) as [x ->]. done.
Qed.

Lemma set_Inputs_from (l : list IValue) (k : nat) (m : Machine) :
  (k + length l ≤ length (inputs_ (runtime m)))%nat →
  st_for_each (imap (λ i v, ((k + i)%nat, v)) l) set_Input m =
    (Ok tt,
     mkMachine (set_inputs_ (runtime m)
                  (take k (inputs_ (runtime m)) ++ l ++
                   drop (k + length l) (inputs_ (runtime m))))
               (storages m) (executed m)).
Proof.
  revert k m. induction l as [|x l IH]; intros k m Hlen.
  - simpl. rewrite Nat.add_0_r, take_drop. unfold mret, ST_ret.
    by destruct m as [[] ? ?].
  - cbn [imap st_for_each length] in *. unfold mbind, ST_bind.
    rewrite Nat.add_0_r. rewrite set_Input_ok by lia.
    rewrite (imap_ext _ (λ i v, ((S k + i)%nat, v))); last first.
    { intros i v _. simpl. f_equal. lia. }
    rewrite IH; cbn [runtime set_inputs_ inputs_ storages executed].
    + do 3 f_equal.
      assert (is_Some (inputs_ (runtime m) !! k)) as [y Hy]
        by (apply lookup_lt_is_Some_2; lia).
      rewrite (take_S_r _ _ x); last first.
      { rewrite list_lookup_insert_eq; [done | lia]. }
      rewrite take_insert_ge by lia. rewrite <- app_assoc. simpl.
      rewrite drop_insert_lt by lia. by rewrite Nat.add_succ_r.
    + rewrite length_insert. lia.
Qed.

Lemma run_bind_positional args kwargs m :
  size kwargs = 0%nat →
  (length args ≤ length (inputs_ (runtime m)))%nat →
  run_bind args kwargs m =
    (Ok tt,
     mkMachine (set_inputs_ (runtime m)
                  (args ++ drop (length args) (inputs_ (runtime m))))
               (storages m) (executed m)).
Proof.
  intros Hk Hlen. unfold run_bind. rewrite decide_False by lia.
  rewrite (imap_ext _ (λ i v, ((0 + i)%nat, v))) by done.
  by rewrite set_Inputs_from.
Qed.

Lemma set_Inputs_schema l sch m :
  st_for_each l set_Input (with_schema sch m) =
    ((st_for_each l set_Input m).1, with_schema sch (st_for_each l set_Input m).2).
Proof.
  revert m. induction l as [|[k v] l IH]; intros m; [done|].
  cbn [st_for_each]. unfold mbind, ST_bind.
  assert (set_Input (k, v) (with_schema sch m) =
          ((set_Input (k, v) m).1, with_schema sch (set_Input (k, v) m).2)) as ->.
  { unfold set_Input, modify_runtime, write_ivalue, read_ivalue, with_schema.
    cbn [fst snd runtime set_schema_ inputs_ storages executed].
    by destruct (inputs_ (runtime m) !! k). }
  destruct (set_Input (k, v) m) as [[[]|e] m1]; cbn [fst snd]; [apply IH | done].
Qed.

(** C8. run(args, kwargs) throws the "Schema is not available" error if
    and only if kwargs is not empty and the module has no schema, and it
    does so before any node is executed; with empty kwargs the schema is
    not looked at, and the arguments are written to the input slots in
    their order. *)
Theorem run_schema_required (g : Graph) (args : list IValue)
    (kwargs : gmap string IValue) (m : Machine) :
  ((run g args kwargs m).1 = Throw (c10_Error schema_msg) ↔
     size kwargs ≠ 0%nat ∧ schema_ (runtime m) = None) ∧
  ((run g args kwargs m).1 = Throw (c10_Error schema_msg) →
     executed (run g args kwargs m).2 = executed m) ∧
  (size kwargs = 0%nat →
     ∀ sch, run_bind args kwargs (with_schema sch m) =
              ((run_bind args kwargs m).1,
               with_schema sch (run_bind args kwargs m).2)) ∧
  (size kwargs = 0%nat →
     (length args ≤ length (inputs_ (runtime m)))%nat →
     run_bind args kwargs m =
       (Ok tt,
        mkMachine (set_inputs_ (runtime m)
                     (args ++ drop (length args) (inputs_ (runtime m))))
                  (storages m) (executed m))).
Proof.
  assert (∀ m', run g args kwargs m = (Throw (c10_Error schema_msg), m') →
                (size kwargs ≠ 0%nat ∧ schema_ (runtime m) = None) ∧
                executed m' = executed m) as Hthrow.
  { intros m' H. apply run_throw in H as [(m1 & Ha & Hb)|Hne]; [|done].
    destruct (run_allocate_ok m) as (m1' & Ha' & Hs & He).
    rewrite Ha in Ha'. injection Ha' as <-.
    apply run_bind_throw in Hb as [He' Hiff]. rewrite <- Hs, <- He.
    split; [by apply Hiff | done]. }
  split_and!.
  - split.
    + destruct (run g args kwargs m) as [r m'] eqn:Hr. simpl. intros ->.
      by apply (Hthrow m').
    + intros [Hk Hs]. unfold run, mbind, ST_bind.
      destruct (run_allocate_ok m) as (m1 & -> & Hs1 & _).
      unfold run_bind. rewrite decide_True by done. unfold mbind, ST_bind.
      by rewrite Hs1, Hs.
  - destruct (run g args kwargs m) as [r m'] eqn:Hr. simpl. intros ->.
    by apply (Hthrow m').
  - intros Hk sch. unfold run_bind. rewrite decide_False by lia.
    apply set_Inputs_schema.
  - apply run_bind_positional.
Qed.

(** ** allocate and deallocate *)

Lemma size_t_range z : (0 ≤ size_t z < 2 ^ 64)%Z.
Proof. unfold size_t. apply Z.mod_pos_bound. lia. Qed.

Lemma size_t_small z : (0 ≤ z < 2 ^ 64)%Z → size_t z = z.
Proof. intros H. unfold size_t. by apply Z.mod_small. Qed.

Lemma size_t_add_l a b : size_t (size_t a + b) = size_t (a + b).
Proof. unfold size_t. by rewrite Zplus_mod_idemp_l. Qed.

Lemma compute_aligned_tensor_size_range n :
  (0 ≤ compute_aligned_tensor_size n < 2 ^ 64)%Z.
Proof.
  unfold compute_aligned_tensor_size.
  set (u := (n + gAlignment - 1)%Z). set (v := size_t (Z.lnot _)).
  assert (Z.land (size_t u) v = size_t (Z.land u v)) as ->.
  { unfold size_t. rewrite <- !(Z.land_ones _ 64) by lia.
    rewrite <- !Z.land_assoc. f_equal. apply Z.land_comm. }
  apply size_t_range.
Qed.

Lemma sum_sizes_cons ms gs : sum_sizes (ms :: gs) = (ms.1 + sum_sizes gs)%Z.
Proof. done. Qed.

Lemma deallocate_impls_range impls mx mem :
  (0 ≤ mx < 2 ^ 64)%Z →
  (0 ≤ (foldl deallocate_impl (mx, mem) impls).1 < 2 ^ 64)%Z.
Proof.
  revert mx mem. induction impls as [|impl impls IH]; intros mx mem Hmx; [done|].
  simpl. apply IH. cbn [fst snd].
  pose proof (compute_aligned_tensor_size_range (nbytes (mem impl))). lia.
Qed.

(** What the loop of [deallocate] over the groups leaves: the groups keep
    their storages, the sizes are values of [size_t], and the byte count
    has grown by their sum, in [size_t] arithmetic. *)
Lemma deallocate_groups gs d b0 :
  d_bytes d = size_t b0 →
  ∃ new,
    d_storage (foldl deallocate_group d gs) = d_storage d ++ new ∧
    new.*2 = gs.*2 ∧
    sizes_in_range new ∧
    d_bytes (foldl deallocate_group d gs) = size_t (b0 + sum_sizes new).
Proof.
  revert d b0. induction gs as [|ms gs IH]; intros d b0 Hb.
  - exists []. simpl. rewrite app_nil_r, Z.add_0_r. split_and!; try done.
    constructor.
  - simpl.
    set (r := foldl deallocate_impl (0%Z, d_storages d) ms.2).
    destruct (IH (deallocate_group d ms) (b0 + r.1)%Z) as (new & Hs & H2 & Hr & Hbytes).
    { unfold deallocate_group. cbn [d_bytes]. fold r.
      by rewrite Hb, size_t_add_l. }
    exists ((r.1, ms.2) :: new). split_and!.
    + rewrite Hs. unfold deallocate_group. cbn [d_storage]. fold r.
      by rewrite <- app_assoc.
    + rewrite !fmap_cons. cbn [snd]. by rewrite H2.
    + constructor; [|done]. cbn [fst]. by apply deallocate_impls_range.
    + rewrite Hbytes, sum_sizes_cons. cbn [fst]. f_equal. lia.
Qed.

Lemma deallocate_planner p rt mem p' rt' mem' :
  deallocate p rt mem = Ok (p', rt', mem') →
  (managed_storage_ p').*2 = (managed_storage_ p).*2 ∧
  sizes_in_range (managed_storage_ p') ∧
  managed_bytes_ p' = size_t (sum_sizes (managed_storage_ p')).
Proof.
  unfold deallocate. destruct (for_each _ _ _) as [rt1|]; [|done]. simpl.
  intros [= <- <- <-]. cbn [managed_storage_ managed_bytes_].
  destruct (deallocate_groups (managed_storage_ p) (mkDealloc [] 0 mem) 0)
    as (new & Hs & H2 & Hr & Hb); [done|].
  simpl in Hs. rewrite Hs, Hb. done.
Qed.

Lemma sum_sizes_nonneg gs : sizes_in_range gs → (0 ≤ sum_sizes gs)%Z.
Proof.
  induction 1 as [|ms gs Hms _ IH]; [done|]. rewrite sum_sizes_cons. lia.
Qed.

Lemma sum_sizes_app gs1 gs2 :
  sum_sizes (gs1 ++ gs2) = (sum_sizes gs1 + sum_sizes gs2)%Z.
Proof.
  induction gs1 as [|ms gs1 IH]; [done|].
  rewrite <- app_comm_cons, !sum_sizes_cons. lia.
Qed.

(** The walk of [allocate], from any point on. *)
Lemma allocate_walk_from start mb gs w o0 :
  sizes_in_range gs →
  offset w = size_t o0 →
  let w' := foldl (allocate_group start mb) w gs in
  offset w' = size_t (o0 + sum_sizes gs) ∧
  (∀ c, c ∈ set_data_ptr_calls w → c ∈ set_data_ptr_calls w') ∧
  (∀ k ms impl, gs !! k = Some ms → ms.1 ≠ 0%Z → impl ∈ ms.2 →
     (impl, size_t (o0 + sum_sizes (take k gs))) ∈ set_data_ptr_calls w') ∧
  ((0 ≤ o0)%Z → (o0 + sum_sizes gs ≤ mb)%Z → (mb < 2 ^ 64)%Z →
     dcheck_le w' = dcheck_le w).
Proof.
  intros Hr. revert w o0.
  induction Hr as [|ms gs Hms Hgs IH]; intros w o0 Ho; cbn zeta.
  - simpl. unfold sum_sizes. simpl. rewrite Z.add_0_r.
    split_and!; [done | done | | done]. intros k ms impl Hk. by destruct k.
  - cbn [foldl].
    pose proof (sum_sizes_cons ms gs) as Hsum.
    pose proof (sum_sizes_nonneg gs Hgs) as Hnn.
    set (w1 := allocate_group start mb w ms).
    assert (offset w1 = size_t (o0 + ms.1)) as Ho1.
    { unfold w1, allocate_group. destruct (decide (ms.1 = 0%Z)) as [-> |].
      - by rewrite Z.add_0_r.
      - cbn [offset]. by rewrite Ho, size_t_add_l. }
    destruct (IH w1 (o0 + ms.1)%Z Ho1) as (Hoff & Hmono & Hcalls & Hle).
    assert (∀ c, c ∈ set_data_ptr_calls w → c ∈ set_data_ptr_calls w1) as Hm1.
    { intros c Hc. unfold w1, allocate_group. destruct (decide _); [done|].
      cbn [set_data_ptr_calls]. apply elem_of_app. by left. }
    split_and!.
    + rewrite Hoff, Hsum. f_equal. lia.
    + intros c Hc. by apply Hmono, Hm1.
    + intros [|k] ms' impl Hk Hnz Himpl.
      * injection Hk as <-. apply Hmono. unfold w1, allocate_group.
        rewrite decide_False by done. cbn [set_data_ptr_calls].
        apply elem_of_app. right. apply list_elem_of_fmap. exists impl.
        split; [|done]. cbn [take]. unfold sum_sizes at 1. cbn [fmap list_fmap foldr].
        by rewrite Z.add_0_r, Ho.
      * specialize (Hcalls k ms' impl Hk Hnz Himpl).
        replace (o0 + sum_sizes (take (S k) (ms :: gs)))%Z
          with (o0 + ms.1 + sum_sizes (take k gs))%Z; [done|].
        cbn [take]. rewrite sum_sizes_cons. lia.
    + intros Ho0 Hmb Hlt. rewrite Hle by lia.
      unfold w1, allocate_group. destruct (decide _); [done|].
      cbn [dcheck_le]. rewrite Ho, size_t_add_l.
      rewrite size_t_small by lia. rewrite bool_decide_true by lia.
      by rewrite andb_true_r.
Qed.

(** C2. After deallocate(), allocate() is a no-op when managed_bytes is
    zero; otherwise it walks the groups in order, sets the data pointer of
    every storage of a group to the sum of the sizes of the groups before
    it, and the offset it reaches equals managed_bytes and the sum of the
    recorded sizes: the final DCHECK_EQ holds.  All of this is in size_t
    arithmetic; when the sum of the sizes fits a size_t it is the plain sum
    and every DCHECK_LE on the way holds as well. *)
Theorem allocate_after_deallocate (p : MemoryPlanner) (rt : StaticRuntime)
    (mem : Storages) (p' : MemoryPlanner) (rt' : StaticRuntime)
    (mem' : Storages) :
  deallocate p rt mem = Ok (p', rt', mem') →
  (managed_bytes_ p' = 0%Z → allocate p' mem' = (p', mem')) ∧
  (managed_bytes_ p' ≠ 0%Z →
     allocate p' mem' =
       (mkMemoryPlanner (managed_storage_ p') (managed_bytes_ p')
                        (Some (allocate_buffer (managed_bytes_ p')))
                        (unmanaged_values_ p'),
        walk_storages
          (allocate_walk p' mem' (allocate_buffer (managed_bytes_ p'))))) ∧
  ∀ start,
    let w := allocate_walk p' mem' start in
    offset w = managed_bytes_ p' ∧
    dcheck_eq p' w = true ∧
    offset w = size_t (sum_sizes (managed_storage_ p')) ∧
    (∀ k ms impl,
       managed_storage_ p' !! k = Some ms → ms.1 ≠ 0%Z → impl ∈ ms.2 →
       (impl, size_t (sum_sizes (take k (managed_storage_ p'))))
         ∈ set_data_ptr_calls w) ∧
    ((sum_sizes (managed_storage_ p') < 2 ^ 64)%Z →
       offset w = sum_sizes (managed_storage_ p') ∧ dcheck_le w = true).
Proof.
  intros Hd. apply deallocate_planner in Hd as (_ & Hr & Hb).
  split_and!.
  - intros H0. unfold allocate. by rewrite decide_True.
  - intros H0. unfold allocate. by rewrite decide_False.
  - intros start w.
    destruct (allocate_walk_from start (managed_bytes_ p') (managed_storage_ p')
                (mkWalk 0 mem' [] true) 0 Hr eq_refl)
      as (Hoff & _ & Hcalls & Hle).
    fold (allocate_walk p' mem' start) in Hoff, Hcalls, Hle. fold w in Hoff, Hcalls, Hle.
    rewrite Z.add_0_l in Hoff.
    assert (offset w = managed_bytes_ p') as Heq by (by rewrite Hoff, Hb).
    split_and!; try done.
    + unfold dcheck_eq. by rewrite bool_decide_true.
    + intros Hlt. pose proof (sum_sizes_nonneg _ Hr).
      rewrite Hoff. rewrite size_t_small by lia. split; [done|].
      rewrite Hle; [done | lia | | ].
      * rewrite Hb, size_t_small by lia. lia.
      * rewrite Hb. apply size_t_range.
Qed.

(** ** The storage groups of the planner *)

Lemma join_cons {A} (l : list A) (ls : list (list A)) :
  mjoin (l :: ls) = l ++ mjoin ls.
Proof. done. Qed.

Lemma NoDup_fst_functional {A B} (l : list (A * B)) x y1 y2 :
  NoDup l.*1 → (x, y1) ∈ l → (x, y2) ∈ l → y1 = y2.
Proof.
  induction l as [|[a b] l IH]; [by intros _ ?%elem_of_nil|].
  rewrite fmap_cons, NoDup_cons, !elem_of_cons. cbn [fst].
  intros [Hn Hnd] [[= -> ->]|H1] [[= ->]|H2]; try done.
  - exfalso. apply Hn. apply list_elem_of_fmap. by exists (a, y2).
  - exfalso. apply Hn. apply list_elem_of_fmap. by exists (a, y1).
  - by apply IH.
Qed.

Lemma grouped_insert (gs : list (Z * list StorageImplPtr)) idx ms impl :
  gs !! idx = Some ms →
  mjoin (<[idx := (ms.1, ms.2 ++ [impl])]> gs).*2 ≡ₚ impl :: mjoin gs.*2.
Proof.
  intros Hidx.
  rewrite insert_take_drop by (by eapply lookup_lt_Some).
  rewrite <- (take_drop_middle gs idx ms Hidx) at 3.
  rewrite !fmap_app, !fmap_cons, !join_app, !join_cons. cbn [snd].
  rewrite <- !app_assoc. rewrite (Permutation_app_comm [impl]).
  rewrite !app_assoc. symmetry. apply Permutation_cons_append.
Qed.

Lemma group_output_inv managed should_share pnode i gr gr' :
  grouping_inv gr →
  group_output managed should_share pnode i gr = Ok gr' →
  grouping_inv gr'.
Proof.
  intros [Hnd Hseen]. unfold group_output.
  destruct (pn_outputs_ pnode !! i) as [ival|]; [|done].
  destruct (outputs (node_ pnode) !! i) as [val|]; [|done].
  destruct (bool_decide _); [|by intros [= <-]].
  unfold TORCH_CHECK. destruct (isTensor ival); [|done]. simpl.
  destruct (storage_impl_of ival) as [impl|]; [|done]. simpl.
  destruct (bool_decide (impl ∈ _)) eqn:Hin; [by intros [= <-]|].
  apply bool_decide_eq_false in Hin.
  assert (impl ∉ mjoin (groups gr).*2) as Hfresh by (intros H; by apply Hin, Hseen).
  destruct (shared gr !! val) as [idx|].
  - destruct (groups gr !! idx) as [ms|] eqn:Hidx; [|done].
    intros [= <-]. unfold grouping_inv. cbn [groups managed_storage_impls].
    split.
    + rewrite (grouped_insert _ _ _ _ Hidx). by constructor.
    + intros x. rewrite (grouped_insert _ _ _ _ Hidx).
      rewrite elem_of_cons, elem_of_union, elem_of_singleton.
      intros [-> |Hx]; [by left | right; by apply Hseen].
  - intros [= <-]. unfold grouping_inv. cbn [groups managed_storage_impls].
    rewrite fmap_app, join_app. cbn [fmap list_fmap snd mjoin list_join].
    rewrite app_nil_r. split.
    + apply NoDup_app. split_and!; [done | | apply NoDup_singleton].
      intros x Hx ->%list_elem_of_singleton. done.
    + intros x. rewrite elem_of_app, list_elem_of_singleton, elem_of_union,
        elem_of_singleton.
      intros [Hx| ->]; [right; by apply Hseen | by left].
Qed.

Lemma for_each_inv {A S} (P : S → Prop) (l : list A) (body : A → S → result S)
    (s s' : S) :
  (∀ x s s', P s → body x s = Ok s' → P s') →
  P s → for_each l body s = Ok s' → P s'.
Proof.
  intros Hb. revert s. induction l as [|x l IH]; intros s Hs; simpl.
  - by intros [= <-].
  - destruct (body x s) as [s1|] eqn:Hx; [|done]. simpl.
    apply IH. by eapply Hb.
Qed.

Lemma MemoryPlanner_new_groups g rt should_share p :
  MemoryPlanner_new g rt should_share = Ok p →
  NoDup (mjoin (managed_storage_ p).*2).
Proof.
  unfold MemoryPlanner_new. destruct (plan_values g rt) as [pl|]; [|done]. simpl.
  destruct (for_each _ _ _) as [gr|] eqn:Hf; [|done]. simpl.
  intros [= <-]. cbn [managed_storage_].
  enough (grouping_inv gr) as [? _] by done.
  revert Hf. apply for_each_inv.
  - intros pn gr1 gr2 Hinv. unfold group_node. revert Hinv.
    apply for_each_inv. intros i gr3 gr4. apply group_output_inv.
  - split; [constructor | intros x Hx; by apply elem_of_nil in Hx].
Qed.

(** The storages whose data pointer the walk of [allocate] sets are, in
    order, those of the groups with a size. *)
Lemma allocate_walk_calls_NoDup start mb gs w :
  NoDup ((set_data_ptr_calls w).*1 ++ mjoin gs.*2) →
  NoDup (set_data_ptr_calls (foldl (allocate_group start mb) w gs)).*1.
Proof.
  revert w. induction gs as [|ms gs IH]; intros w Hnd.
  - simpl in *. by rewrite app_nil_r in Hnd.
  - cbn [foldl]. apply IH. rewrite fmap_cons, join_cons in Hnd.
    unfold allocate_group. destruct (decide _).
    + rewrite app_assoc in Hnd. apply NoDup_app in Hnd as (Hnd & Hd & Hr).
      apply NoDup_app in Hnd as (Hc & _ & _).
      apply NoDup_app. split_and!; [done | | done].
      intros x Hx. apply Hd. apply elem_of_app. by left.
    + cbn [set_data_ptr_calls]. rewrite fmap_app, <- list_fmap_compose.
      rewrite <- app_assoc.
      replace ((fst ∘ (λ impl : nat, (impl, offset w))) <$> ms.2) with ms.2; [done|].
      clear. generalize ms.2. intros l.
      induction l as [|x l IH]; [done|]. rewrite fmap_cons. by rewrite <- IH.
Qed.

(** C9. Every storage is in at most one group of managed_storage_ (and
    there only once): a storage met again in the snapshot is skipped.
    The runs of deallocate() keep the groups, and allocate() sets the data
    pointer of a storage to one offset only. *)
Theorem managed_storage_groups_disjoint (g : Graph) (rt : StaticRuntime)
    (should_share : gmap Value (list Value)) (p : MemoryPlanner) :
  MemoryPlanner_new g rt should_share = Ok p →
  NoDup (mjoin (managed_storage_ p).*2) ∧
  (∀ q rt1 mem1 q' rt1' mem1',
     (managed_storage_ q).*2 = (managed_storage_ p).*2 →
     deallocate q rt1 mem1 = Ok (q', rt1', mem1') →
     (managed_storage_ q').*2 = (managed_storage_ p).*2) ∧
  (∀ q mem start impl o1 o2,
     (managed_storage_ q).*2 = (managed_storage_ p).*2 →
     (impl, o1) ∈ set_data_ptr_calls (allocate_walk q mem start) →
     (impl, o2) ∈ set_data_ptr_calls (allocate_walk q mem start) →
     o1 = o2).
Proof.
  intros Hp. apply MemoryPlanner_new_groups in Hp. split_and!; [done | |].
  - intros q rt1 mem1 q' rt1' mem1' Hq Hd.
    apply deallocate_planner in Hd as (-> & _). done.
  - intros q mem start impl o1 o2 Hq. apply NoDup_fst_functional.
    unfold allocate_walk. apply allocate_walk_calls_NoDup. simpl.
    by rewrite Hq.
Qed.

(** ** The managed values of the planner *)

Lemma should_manage_spec g pnode :
  (if has_out_variant pnode && isViewOp (node_ pnode)
   then negb (existsb (λ i, bool_decide (i ∈ (list_to_set (g_inputs g) : gset Value)))
                      (inputs (node_ pnode)))
   else has_out_variant pnode) = true
  ↔ should_manage g pnode.
Proof.
  unfold should_manage.
  assert (existsb (λ i, bool_decide (i ∈ (list_to_set (g_inputs g) : gset Value)))
                  (inputs (node_ pnode)) = true
          ↔ ∃ i, i ∈ inputs (node_ pnode) ∧ i ∈ g_inputs g) as Hex.
  { rewrite existsb_exists. split.
    - intros (i & Hi & Hb). exists i. apply bool_decide_eq_true in Hb.
      split; [by apply list_elem_of_In | by apply elem_of_list_to_set in Hb].
    - intros (i & Hi & Hg). exists i.
      split; [by apply list_elem_of_In|].
      apply bool_decide_eq_true. by apply elem_of_list_to_set. }
  destruct (has_out_variant pnode), (isViewOp (node_ pnode)); simpl.
  - rewrite negb_true_iff, <- not_true_iff_false, Hex. split.
    + intros Hn. split; [done|]. by intros [_ H].
    + intros [_ Hn] H. by apply Hn.
  - split; [|done]. intros _. split; [done|]. by intros [? _].
  - split; [done | by intros [? _]].
  - split; [done | by intros [? _]].
Qed.

Lemma Node_output_lookup nd i v :
  outputs nd !! i = Some v → Node_output nd i = Ok v.
Proof. intros H. unfold Node_output. by rewrite H. Qed.

Lemma manage_output_ok g p i pl out :
  outputs (node_ p.2) !! i = Some out →
  manage_output g p i pl =
    Ok (if cast_TensorType (type_of g out) then
          mkPlan ({[out]} ∪ managed_values pl) (unmanaged_value_set pl)
                 (<[out := output_slot p.1 i]> (values_map pl))
        else pl).
Proof.
  intros H. unfold manage_output. rewrite (Node_output_lookup _ _ _ H).
  cbn [mbind result_bind]. by destruct (cast_TensorType _).
Qed.

Lemma leave_output_ok p i pl out :
  outputs (node_ p.2) !! i = Some out →
  leave_output p i pl =
    Ok (mkPlan (managed_values pl)
               ({[output_slot p.1 i]} ∪ unmanaged_value_set pl)
               (<[out := output_slot p.1 i]> (values_map pl))).
Proof.
  intros H. unfold leave_output. by rewrite (Node_output_lookup _ _ _ H).
Qed.

Lemma plan_outputs_managed g p cnt k pl :
  (k + cnt ≤ length (outputs (node_ p.2)))%nat →
  ∃ pl',
    for_each (seq k cnt) (manage_output g p) pl = Ok pl' ∧
    ∀ v, v ∈ managed_values pl' ↔
         v ∈ managed_values pl ∨
         ∃ i, (k ≤ i < k + cnt)%nat ∧ outputs (node_ p.2) !! i = Some v ∧
              cast_TensorType (type_of g v) = true.
Proof.
  revert k pl. induction cnt as [|cnt IH]; intros k pl Hlen.
  - exists pl. split; [done|]. intros v. split; [by left|].
    intros [?|(i & ? & _)]; [done | lia].
  - cbn [seq for_each].
    destruct (lookup_lt_is_Some_2 (outputs (node_ p.2)) k ltac:(lia))
      as [out Hout].
    rewrite (manage_output_ok _ _ _ _ _ Hout). cbn [mbind result_bind].
    destruct (cast_TensorType (type_of g out)) eqn:Ht.
    + edestruct (IH (S k)) as (pl' & -> & Hpl'); [lia|].
      exists pl'. split; [done|]. intros v. rewrite Hpl'. cbn [managed_values].
      rewrite elem_of_union, elem_of_singleton. split.
      * intros [[-> |?]|(i & ? & ? & ?)].
        -- right. exists k. split; [lia | done].
        -- by left.
        -- right. exists i. split; [lia | done].
      * intros [?|(i & Hi & Hv & Htv)]; [left; by right|].
        destruct (decide (i = k)) as [-> |].
        -- left. left. congruence.
        -- right. exists i. split; [lia | done].
    + edestruct (IH (S k) pl) as (pl' & -> & Hpl'); [lia|].
      exists pl'. split; [done|]. intros v. rewrite Hpl'. split.
      * intros [?|(i & ? & ? & ?)]; [by left|].
        right. exists i. split; [lia | done].
      * intros [?|(i & Hi & Hv & Htv)]; [by left|].
        destruct (decide (i = k)) as [-> |]; [congruence|].
        right. exists i. split; [lia | done].
Qed.

Lemma plan_outputs_unmanaged p cnt k pl :
  (k + cnt ≤ length (outputs (node_ p.2)))%nat →
  ∃ pl',
    for_each (seq k cnt) (leave_output p) pl = Ok pl' ∧
    managed_values pl' = managed_values pl.
Proof.
  revert k pl. induction cnt as [|cnt IH]; intros k pl Hlen.
  - by exists pl.
  - cbn [seq for_each].
    destruct (lookup_lt_is_Some_2 (outputs (node_ p.2)) k ltac:(lia))
      as [out Hout].
    rewrite (leave_output_ok _ _ _ _ Hout). cbn [mbind result_bind].
    edestruct (IH (S k)) as (pl' & -> & Hpl'); [lia|]. by exists pl'.
Qed.

Lemma plan_node_managed g p pl :
  length (pn_outputs_ p.2) = length (outputs (node_ p.2)) →
  ∃ pl',
    plan_node g (list_to_set (g_inputs g)) p pl = Ok pl' ∧
    ∀ v, v ∈ managed_values pl' ↔
         v ∈ managed_values pl ∨
         (should_manage g p.2 ∧ v ∈ outputs (node_ p.2) ∧
          cast_TensorType (type_of g v) = true).
Proof.
  intros Hlen. unfold plan_node. cbv zeta.
  pose proof (should_manage_spec g p.2) as Hsm.
  destruct (if has_out_variant p.2 && isViewOp (node_ p.2) then _ else _).
  - destruct (plan_outputs_managed g p (length (pn_outputs_ p.2)) 0 pl)
      as (pl' & -> & Hpl'); [lia|].
    exists pl'. split; [done|]. intros v. rewrite Hpl'.
    apply or_iff_compat_l. split.
    + intros (i & _ & Hi & Ht). split; [by apply Hsm|].
      split; [|done]. by eapply list_elem_of_lookup_2.
    + intros (_ & Hv & Ht). apply list_elem_of_lookup_1 in Hv as [i Hi].
      exists i. split; [|done]. apply lookup_lt_Some in Hi. lia.
  - destruct (plan_outputs_unmanaged p (length (pn_outputs_ p.2)) 0 pl)
      as (pl' & -> & Hpl'); [lia|].
    exists pl'. split; [done|]. intros v. rewrite Hpl'. split; [by left|].
    intros [?|[Hs _]]; [done|]. apply Hsm in Hs. done.
Qed.

Lemma plan_nodes_managed g (l : list (nat * ProcessedNode)) pl :
  Forall (λ p, length (pn_outputs_ p.2) = length (outputs (node_ p.2))) l →
  ∃ pl',
    for_each l (plan_node g (list_to_set (g_inputs g))) pl = Ok pl' ∧
    ∀ v, v ∈ managed_values pl' ↔
         v ∈ managed_values pl ∨
         ∃ p, p ∈ l ∧ should_manage g p.2 ∧ v ∈ outputs (node_ p.2) ∧
              cast_TensorType (type_of g v) = true.
Proof.
  intros Hl. revert pl. induction Hl as [|p l Hp Hl IH]; intros pl.
  - exists pl. split; [done|]. intros v. split; [by left|].
    intros [?|(p & Hp & _)]; [done | by apply elem_of_nil in Hp].
  - cbn [for_each].
    destruct (plan_node_managed g p pl Hp) as (pl1 & -> & Hpl1).
    cbn [mbind result_bind]. destruct (IH pl1) as (pl' & -> & Hpl').
    exists pl'. split; [done|]. intros v. rewrite Hpl', Hpl1. split.
    + intros [[?|?]|(q & Hq & ?)]; [by left | |].
      * right. exists p. split; [by left | done].
      * right. exists q. split; [by right | done].
    + intros [?|(q & Hq & ?)]; [left; by left|].
      apply elem_of_cons in Hq as [-> |Hq]; [left; by right|].
      right. by exists q.
Qed.

Lemma unmanage_element_managed gi input pl :
  managed_values (unmanage_element gi input pl) = managed_values pl ∖ {[input]}.
Proof.
  unfold unmanage_element, values_map_index. cbn [managed_values values_map].
  destruct (bool_decide _); [done|]. by destruct (values_map pl !! input).
Qed.

Lemma unmanage_elements_managed gi (l : list Value) pl v :
  v ∈ managed_values (foldl (λ pl input, unmanage_element gi input pl) pl l)
  ↔ v ∈ managed_values pl ∧ v ∉ l.
Proof.
  revert pl. induction l as [|x l IH]; intros pl; cbn [foldl].
  - split; [intros ?; split; [done | apply not_elem_of_nil] | by intros [? _]].
  - rewrite IH, unmanage_element_managed, elem_of_difference,
      elem_of_singleton, not_elem_of_cons. tauto_goal.
Qed.

Lemma unmanage_outputs_managed g gi (l : list Value) pl v :
  v ∈ managed_values
        (foldl (λ pl output, unmanage_output_elements g gi output pl) pl l)
  ↔ v ∈ managed_values pl ∧
    ¬ ∃ o, o ∈ l ∧ is_construct (kind (node_of g o)) = true ∧
           v ∈ inputs (node_of g o).
Proof.
  revert pl. induction l as [|x l IH]; intros pl; cbn [foldl].
  - split; [|by intros [? _]]. intros ?. split; [done|].
    intros (o & Ho & _). by apply elem_of_nil in Ho.
  - rewrite IH. unfold unmanage_output_elements.
    destruct (is_construct (kind (node_of g x))) eqn:Hc.
    + rewrite unmanage_elements_managed. split.
      * intros [[Hv Hn] Hr]. split; [done|]. intros (o & Ho & Hco & Hi).
        apply elem_of_cons in Ho as [-> |Ho]; [done|]. apply Hr. by exists o.
      * intros [Hv Hr]. split_and!; [done | |].
        -- intros Hi. apply Hr. exists x. split; [by left | done].
        -- intros (o & Ho & ?). apply Hr. exists o. split; [by right | done].
    + split.
      * intros [Hv Hr]. split; [done|]. intros (o & Ho & Hco & Hi).
        apply elem_of_cons in Ho as [-> |Ho]; [congruence|]. apply Hr. by exists o.
      * intros [Hv Hr]. split; [done|].
        intros (o & Ho & ?). apply Hr. exists o. split; [by right | done].
Qed.

Lemma erase_outputs_managed (l : list Value) pl v :
  v ∈ managed_values
        (foldl (λ pl output,
                  mkPlan (managed_values pl ∖ {[output]})
                         (unmanaged_value_set pl) (values_map pl)) pl l)
  ↔ v ∈ managed_values pl ∧ v ∉ l.
Proof.
  revert pl. induction l as [|x l IH]; intros pl; cbn [foldl].
  - split; [intros ?; split; [done | apply not_elem_of_nil] | by intros [? _]].
  - rewrite IH. cbn [managed_values].
    rewrite elem_of_difference, elem_of_singleton, not_elem_of_cons. tauto_goal.
Qed.

Lemma erase_slots_managed (l : list IValuePtr) pl :
  managed_values
    (foldl (λ pl output,
              mkPlan (managed_values pl) (unmanaged_value_set pl ∖ {[output]})
                     (values_map pl)) pl l)
  = managed_values pl.
Proof.
  revert pl. induction l as [|x l IH]; intros pl; cbn [foldl]; [done|].
  by rewrite IH.
Qed.

(** C1. A Value is in the managed set of the planner if and only if it is
    an output of a processed node that has an out variant and is not a view
    op with a graph input among its inputs, its static type is Tensor, it is
    not a graph output, and it is not an input of a TupleConstruct or
    ListConstruct node that produces a graph output. *)
Theorem managed_values_iff (g : Graph) (rt : StaticRuntime) :
  outputs_sized rt →
  ∃ pl, plan_values g rt = Ok pl ∧
        ∀ v, v ∈ managed_values pl ↔ managed g rt v.
Proof.
  intros Hsized. unfold plan_values. cbv zeta.
  destruct (plan_nodes_managed g (imap pair (nodes_ rt)) (mkPlan ∅ ∅ ∅))
    as (pl1 & -> & Hpl1).
  { apply Forall_forall. intros p Hp.
    apply elem_of_lookup_imap in Hp as (i & pn & -> & Hi).
    unfold outputs_sized in Hsized. rewrite Forall_forall in Hsized.
    apply Hsized. by eapply list_elem_of_lookup_2. }
  cbn [mbind result_bind]. eexists. split; [done|]. intros v.
  rewrite erase_slots_managed, erase_outputs_managed, unmanage_outputs_managed,
    Hpl1.
  unfold managed, output_element. cbn [managed_values].
  rewrite elem_of_empty. split.
  - intros [[[[]|(p & Hp & Hsm & Hv & Ht)] Hel] Hout].
    split_and!; [|done|done].
    apply elem_of_lookup_imap in Hp as (i & pn & -> & Hi).
    exists pn. split; [by eapply list_elem_of_lookup_2 | done].
  - intros [(pn & Hpn & Hv & Hsm & Ht) [Hout Hel]].
    split_and!; [|done|done]. right.
    apply list_elem_of_lookup_1 in Hpn as [i Hi].
    exists (i, pn). split; [by apply elem_of_lookup_imap_2 | done].
Qed.

(** ** Loops *)

Lemma for_each_app {A S} (l1 l2 : list A) (body : A → S → result S) (s : S) :
  for_each (l1 ++ l2) body s = s' ← for_each l1 body s; for_each l2 body s'.
Proof.
  revert s. induction l1 as [|x l1 IH]; intros s; [done|]. simpl.
  destruct (body x s); simpl; [apply IH | done].
Qed.

(** A loop over the positions and elements of a list, with an invariant
    that depends on the number of elements visited. *)
Lemma for_each_imap_inv {A St} (P : nat → St → Prop) (l : list A)
    (body : nat * A → St → result St) (s : St) :
  P 0 s →
  (∀ k x s, l !! k = Some x → P k s → ∃ s', body (k, x) s = Ok s' ∧ P (S k) s') →
  ∃ s', for_each (imap pair l) body s = Ok s' ∧ P (length l) s'.
Proof.
  intros H0. induction l as [|x l IH] using rev_ind; intros Hstep.
  - by exists s.
  - destruct IH as (s1 & Hs1 & HP1).
    { intros k y s2 Hk. apply Hstep. by apply lookup_app_l_Some. }
    rewrite imap_app, for_each_app, Hs1. cbn [mbind result_bind imap for_each].
    rewrite Nat.add_0_r.
    destruct (Hstep (length l) x s1) as (s' & Hs' & HP'); [|done|].
    { rewrite lookup_app_r by lia. by rewrite Nat.sub_diag. }
    exists s'. rewrite Hs'. split; [done|].
    rewrite length_app. simpl. by rewrite Nat.add_1_r.
Qed.

(** ** Interference maps *)

Lemma interferes_dom lm a b : interferes lm a b → a ∈ dom lm.
Proof. intros (s & Hs & _). apply elem_of_dom. by exists s. Qed.

Lemma at_insert_spec (k x : nat) (lm : gmap nat (gset nat)) :
  k ∈ dom lm →
  ∃ lm', at_insert k x lm = Ok lm' ∧ dom lm' = dom lm ∧
         ∀ a b, interferes lm' a b ↔ interferes lm a b ∨ (a = k ∧ b = x).
Proof. clear_params.
  intros [s Hs]%elem_of_dom. unfold at_insert. rewrite Hs.
  eexists. split; [done|]. split.
  - rewrite dom_insert_L. apply elem_of_dom_2 in Hs.
    apply subseteq_union_1_L. by apply singleton_subseteq_l.
  - intros a b. unfold interferes. destruct (decide (a = k)) as [-> |Hne].
    + rewrite lookup_insert_eq. split.
      * intros (s' & [= <-] & Hb).
        apply elem_of_union in Hb as [->%elem_of_singleton|Hb];
          [by right | left; by exists s].
      * intros [(s' & Hs' & Hb)|[_ ->]]; eexists; (split; [done|]).
        -- rewrite Hs in Hs'. injection Hs' as <-. set_solver.
        -- set_solver.
    + rewrite lookup_insert_ne by done. split; [by left|].
      by intros [?|[? _]].
Qed.

(** A loop that only records interferences, over maps of domain [D]. *)
Lemma edges_loop {A} (D : gset nat) (E : A → nat → nat → Prop) (l : list A)
    (body : A → gmap nat (gset nat) → result (gmap nat (gset nat)))
    (lm : gmap nat (gset nat)) :
  (∀ x lm, x ∈ l → dom lm = D →
     ∃ lm', body x lm = Ok lm' ∧ dom lm' = D ∧
            ∀ a b, interferes lm' a b ↔ interferes lm a b ∨ E x a b) →
  dom lm = D →
  ∃ lm', for_each l body lm = Ok lm' ∧ dom lm' = D ∧
         ∀ a b, interferes lm' a b ↔ interferes lm a b ∨ ∃ x, x ∈ l ∧ E x a b.
Proof.
  revert lm. induction l as [|x l IH]; intros lm Hbody Hdom.
  - exists lm. split_and!; [done..|]. intros a b. split; [by left|].
    intros [?|(x & Hx & _)]; [done | by apply elem_of_nil in Hx].
  - destruct (Hbody x lm) as (lm1 & Hb1 & Hd1 & He1); [by left | done |].
    destruct (IH lm1) as (lm' & Hb' & Hd' & He'); [|done|].
    { intros y lm2 Hy. apply Hbody. by right. }
    exists lm'. cbn [for_each]. rewrite Hb1. cbn [mbind result_bind].
    split_and!; [done..|]. intros a b. rewrite He', He1. split.
    + intros [[?|?]|(y & Hy & ?)]; [by left | |].
      * right. exists x. split; [by left | done].
      * right. exists y. split; [by right | done].
    + intros [?|(y & Hy & ?)]; [left; by left|].
      apply elem_of_cons in Hy as [-> |Hy]; [left; by right|].
      right. by exists y.
Qed.

(** ** add_live_value *)

Lemma users_spec g v j :
  j ∈ users g v ↔ ∃ nd, all_nodes g !! j = Some nd ∧ v ∈ inputs nd.
Proof.
  assert (∀ l i off, off ∈ offsets_of v l i → v ∈ l) as Hoff1.
  { intros l. induction l as [|x l IH]; intros i off; simpl.
    - by intros ?%elem_of_nil.
    - intros [Hx|Hx]%elem_of_app.
      + destruct (decide (x = v)) as [-> |]; [by left | by apply elem_of_nil in Hx].
      + right. by eapply IH. }
  assert (∀ l i, v ∈ l → ∃ off, off ∈ offsets_of v l i) as Hoff2.
  { intros l. induction l as [|x l IH]; intros i; simpl.
    - by intros ?%elem_of_nil.
    - intros [<-|Hx]%elem_of_cons.
      + exists i. rewrite decide_True by done. by left.
      + destruct (IH (S i) Hx) as [off Hoff]. exists off.
        apply elem_of_app. by right. }
  unfold users, uses. rewrite elem_of_list_to_set, list_elem_of_fmap. split.
  - intros ([j' off] & -> & Hu). apply list_elem_of_join in Hu as (l & Hu & Hl).
    apply elem_of_lookup_imap in Hl as (i & nd & -> & Hi).
    unfold uses_at in Hu. apply list_elem_of_fmap in Hu as (o & [= -> ->] & Ho).
    exists nd. split; [done|]. by eapply Hoff1.
  - intros (nd & Hj & Hv). destruct (Hoff2 _ 0 Hv) as [off Hoff].
    exists (j, off). split; [done|]. apply list_elem_of_join.
    exists (uses_at v j nd). split.
    + unfold uses_at. apply list_elem_of_fmap. by exists off.
    + by apply elem_of_lookup_imap_2.
Qed.

Lemma hasUses_users g v : hasUses g v = true ↔ users g v ≠ ∅.
Proof.
  unfold hasUses, users. rewrite negb_true_iff, bool_decide_eq_false.
  destruct (uses g v) as [|u l]; [done|]. split; [|done].
  intros _ H. assert (u.1 ∈ (∅ : gset nat)) as Hin; [|by apply elem_of_empty in Hin].
  rewrite <- H. apply elem_of_list_to_set. by left.
Qed.

Lemma at_insert_insert (v x : nat) (s : gset nat) (lv : gmap nat (gset nat)) :
  at_insert v x (<[v := s]> lv) = Ok (<[v := {[x]} ∪ s]> lv).
Proof. unfold at_insert. by rewrite lookup_insert_eq, insert_insert_eq. Qed.

(** The loop that records the users of a Value that enters the live set. *)
Lemma record_users (v : nat) (l : list (nat * nat)) (s : gset nat)
    (lv : gmap nat (gset nat)) :
  for_each l (λ u lv, at_insert v u.1 lv) (<[v := s]> lv)
  = Ok (<[v := list_to_set l.*1 ∪ s]> lv).
Proof.
  revert s. induction l as [|u l IH]; intros s.
  - simpl. f_equal. f_equal. by rewrite union_empty_l_L.
  - cbn [for_each]. rewrite at_insert_insert.
    cbn [mbind result_bind]. rewrite IH. f_equal. f_equal.
    rewrite fmap_cons, list_to_set_cons. apply set_eq. intros x.
    rewrite !elem_of_union. tauto_goal.
Qed.

Lemma interferes_reset (v : nat) (lm : gmap nat (gset nat)) a b :
  interferes (<[v := ∅]> lm) a b ↔ a ≠ v ∧ interferes lm a b.
Proof.
  unfold interferes. destruct (decide (a = v)) as [-> |Hne].
  - rewrite lookup_insert_eq. split; [|by intros [? _]].
    intros (s & [= <-] & Hb). by apply elem_of_empty in Hb.
  - rewrite lookup_insert_ne by done. split; [done | by intros [_ ?]].
Qed.

Lemma add_live_value_spec g v st :
  dom (live_values st) ⊆ dom (liveness_map st) →
  ∃ st',
    add_live_value g v st = Ok st' ∧
    always_alive st' = always_alive st ∧
    live_values st' =
      (if hasUses g v then <[v := users g v]> (live_values st)
       else live_values st) ∧
    dom (liveness_map st') = {[v]} ∪ dom (liveness_map st) ∧
    ∀ a b, interferes (liveness_map st') a b ↔
           (a ≠ v ∧ interferes (liveness_map st) a b) ∨
           (a = v ∧ b ∈ dom (live_values st)) ∨
           (b = v ∧ a ∈ dom (live_values st)).
Proof. clear_params.
  intros Hsub. unfold add_live_value. cbv zeta.
  set (D := dom (<[v := ∅]> (liveness_map st))).
  assert (D = {[v]} ∪ dom (liveness_map st)) as HD by apply dom_insert_L.
  destruct (edges_loop D (λ x a b, (a = v ∧ b = x) ∨ (a = x ∧ b = v))
              (map_to_list (live_values st)).*1
              (λ live_v lm, lm' ← at_insert v live_v lm; at_insert live_v v lm')
              (<[v := ∅]> (liveness_map st)))
    as (lm1 & -> & Hd1 & He1); [|done|].
  { intros x lm Hx Hdom.
    assert (x ∈ dom (live_values st)) as Hxl.
    { apply list_elem_of_fmap in Hx as ([x' s] & -> & Hx).
      apply elem_of_map_to_list in Hx. by apply elem_of_dom_2 in Hx. }
    destruct (at_insert_spec v x lm) as (lm2 & -> & Hd2 & He2).
    { rewrite Hdom, HD. apply elem_of_union. left. by apply elem_of_singleton. }
    cbn [mbind result_bind].
    destruct (at_insert_spec x v lm2) as (lm3 & -> & Hd3 & He3).
    { rewrite Hd2, Hdom, HD. apply elem_of_union. right. by apply Hsub. }
    exists lm3. split_and!; [done | congruence |].
    intros a b. rewrite He3, He2. tauto_goal. }
  cbn [mbind result_bind].
  assert (∃ lv1, for_each (uses g v) (λ u lv, at_insert v u.1 lv)
                   (if hasUses g v then <[v := ∅]> (live_values st)
                    else live_values st) = Ok lv1 ∧
                 lv1 = (if hasUses g v then <[v := users g v]> (live_values st)
                        else live_values st)) as (lv1 & -> & Hlv1).
  { destruct (hasUses g v) eqn:Hu.
    - eexists. split; [apply record_users|]. unfold users.
      by rewrite union_empty_r_L.
    - exists (live_values st). split; [|done].
      unfold hasUses in Hu. apply negb_false_iff, bool_decide_eq_true in Hu.
      by rewrite Hu. }
  cbn [mbind result_bind]. eexists. split; [done|].
  cbn [always_alive live_values liveness_map]. split_and!; [done | done | congruence |].
  intros a b. rewrite He1, interferes_reset. split.
  - intros [?|(x & Hx & [[-> ->]|[-> ->]])]; [by left | |].
    + right. left. split; [done|].
      apply list_elem_of_fmap in Hx as ([x' s] & -> & Hx).
      apply elem_of_map_to_list in Hx. by apply elem_of_dom_2 in Hx.
    + right. right. split; [done|].
      apply list_elem_of_fmap in Hx as ([x' s] & -> & Hx).
      apply elem_of_map_to_list in Hx. by apply elem_of_dom_2 in Hx.
  - intros [?|[[-> Hb]|[-> Ha]]]; [by left | |].
    + right. exists b. split; [|by left].
      apply elem_of_dom in Hb as [s Hs]. apply list_elem_of_fmap.
      exists (b, s). split; [done|]. by apply elem_of_map_to_list.
    + right. exists a. split; [|by right].
      apply elem_of_dom in Ha as [s Hs]. apply list_elem_of_fmap.
      exists (a, s). split; [done|]. by apply elem_of_map_to_list.
Qed.

(** ** traverse_node *)

Lemma traverse_node_spec g node (l : list Value) st1 dead1 :
  let s2 := foldl (λ s input, traverse_input g node input s) (st1, dead1) l in
  liveness_map s2.1 = liveness_map st1 ∧
  (∀ v, v ∈ always_alive s2.1 ↔
        v ∈ always_alive st1 ∨ (v ∈ l ∧ is_const g v)) ∧
  (∀ v, v ∈ l → ¬ is_const g v →
        live_values s2.1 !! v = (λ S, S ∖ {[node]}) <$> live_values st1 !! v) ∧
  (∀ v, ¬ (v ∈ l ∧ ¬ is_const g v) →
        live_values s2.1 !! v = live_values st1 !! v) ∧
  (∀ v, v ∈ s2.2 ↔
        v ∈ dead1 ∨
        (v ∈ l ∧ ¬ is_const g v ∧
         ∃ S, live_values st1 !! v = Some S ∧ S ∖ {[node]} = ∅)).
Proof.
  induction l as [|x l IH] using rev_ind; cbv zeta.
  - cbn [foldl fst snd]. split_and!; try done.
    + intros v. split; [by left|]. intros [?|[?%elem_of_nil _]]; done.
    + intros v ?%elem_of_nil. done.
    + intros v. split; [by left|]. intros [?|[?%elem_of_nil _]]; done.
  - rewrite foldl_app. cbn [foldl].
    destruct IH as (Hlm & Haa & Hlv1 & Hlv2 & Hdead).
    set (s2 := foldl (λ s input, traverse_input g node input s) (st1, dead1) l)
      in *.
    unfold traverse_input. fold (is_const g x).
    destruct (decide (is_const g x)) as [Hc|Hc].
    + cbn [fst snd liveness_map always_alive live_values]. split_and!.
      * done.
      * intros v. rewrite elem_of_union, elem_of_singleton, Haa, elem_of_app,
          list_elem_of_singleton.
        split; [intros [-> |[?|[? ?]]]; eauto | intros [?|[[?| ->] ?]]; eauto].
      * intros v [Hv| ->%list_elem_of_singleton]%elem_of_app Hnc; [|done].
        by apply Hlv1.
      * intros v Hv. apply Hlv2. intros [Hl Hnc]. apply Hv.
        split; [apply elem_of_app; by left | done].
      * intros v. rewrite Hdead, elem_of_app, list_elem_of_singleton.
        split; [intros [?|(? & ? & ?)]; eauto |].
        intros [?|([?| ->] & ? & ?)]; [eauto | eauto | done].
    + assert (∀ S : gset nat, (S ∖ {[node]}) ∖ {[node]} = S ∖ {[node]}) as Hidem.
      { intros S. apply set_eq. intros j.
        rewrite !elem_of_difference. tauto_goal. }
      assert (live_values s2.1 !! x = live_values st1 !! x ∨
              live_values s2.1 !! x
                = (λ S, S ∖ {[node]}) <$> live_values st1 !! x) as Hx.
      { destruct (decide (x ∈ l)); [right; by apply Hlv1 | left].
        apply Hlv2. by intros [? _]. }
      destruct (live_values s2.1 !! x) as [deps|] eqn:Hdeps.
      * assert (∃ S, live_values st1 !! x = Some S ∧
                     deps ∖ {[node]} = S ∖ {[node]}) as (S & HS & HSeq).
        { destruct (live_values st1 !! x) as [S|]; simpl in Hx.
          - exists S. split; [done|]. destruct Hx as [[= ->]|[= ->]]; [done|].
            apply Hidem.
          - by destruct Hx. }
        cbn [fst snd liveness_map always_alive live_values]. split_and!.
        -- done.
        -- intros v. rewrite Haa, elem_of_app, list_elem_of_singleton.
           split; [intros [?|[? ?]]; eauto |].
           intros [?|[[?| ->] ?]]; [eauto | eauto | done].
        -- intros v Hv Hnc. destruct (decide (v = x)) as [-> |Hne].
           ++ rewrite lookup_insert_eq, HS. simpl. by rewrite HSeq.
           ++ rewrite lookup_insert_ne by done. apply Hlv1; [|done].
              apply elem_of_app in Hv as [?|?%list_elem_of_singleton]; done.
        -- intros v Hv. destruct (decide (v = x)) as [-> |Hne].
           ++ exfalso. apply Hv. split; [|done]. apply elem_of_app. right.
              by apply list_elem_of_singleton.
           ++ rewrite lookup_insert_ne by done. apply Hlv2.
              intros [Hl ?]. apply Hv. split; [apply elem_of_app; by left | done].
        -- intros v. destruct (decide (size (deps ∖ {[node]}) = 0)) as [Hz|Hz].
           ++ apply size_empty_iff, leibniz_equiv in Hz.
              rewrite elem_of_app, list_elem_of_singleton, Hdead. split.
              ** intros [[?|(? & ? & ?)]| ->]; [eauto | |].
                 { right. split; [apply elem_of_app; by left | done]. }
                 right. split; [apply elem_of_app; right; by apply list_elem_of_singleton|].
                 split; [done|]. exists S. split; [done | congruence].
              ** intros [?|(Hv & Hnc & HS')]; [eauto|].
                 apply elem_of_app in Hv as [Hv| ->%list_elem_of_singleton];
                   [left; right; done | by right].
           ++ rewrite Hdead. split.
              ** intros [?|(? & ? & ?)]; [eauto|].
                 right. split; [apply elem_of_app; by left | done].
              ** intros [?|(Hv & Hnc & S' & HS' & HS'e)]; [eauto|].
                 apply elem_of_app in Hv as [Hv| ->%list_elem_of_singleton];
                   [right; eauto|].
                 exfalso. apply Hz. rewrite HS in HS'. injection HS' as <-.
                 rewrite HSeq, HS'e. apply size_empty.
      * assert (live_values st1 !! x = None) as HN.
        { destruct (live_values st1 !! x); simpl in Hx; [by destruct Hx | done]. }
        split_and!.
        -- done.
        -- intros v. rewrite Haa, elem_of_app, list_elem_of_singleton.
           split; [intros [?|[? ?]]; eauto |].
           intros [?|[[?| ->] ?]]; [eauto | eauto | done].
        -- intros v Hv Hnc.
           apply elem_of_app in Hv as [?| ->%list_elem_of_singleton];
             [by apply Hlv1|]. by rewrite Hdeps, HN.
        -- intros v Hv. destruct (decide (v = x)) as [-> |Hne];
             [by rewrite Hdeps, HN|].
           apply Hlv2. intros [Hl ?]. apply Hv.
           split; [apply elem_of_app; by left | done].
        -- intros v. rewrite Hdead. split.
           ++ intros [?|(? & ? & ?)]; [eauto|].
              right. split; [apply elem_of_app; by left | done].
           ++ intros [?|(Hv & Hnc & S' & HS' & HS'e)]; [eauto|].
              apply elem_of_app in Hv as [Hv| ->%list_elem_of_singleton];
                [right; eauto 10 | congruence].
Qed.

Lemma erase_dead_lookup (dead : list Value) (lv : gmap nat (gset nat)) v :
  foldl (λ lv d, delete d lv) lv dead !! v
  = if decide (v ∈ dead) then None else lv !! v.
Proof.
  revert lv. induction dead as [|d dead IH]; intros lv; cbn [foldl].
  - by rewrite decide_False by apply not_elem_of_nil.
  - rewrite IH. destruct (decide (v ∈ dead)) as [Hd|Hd].
    + rewrite decide_True; [done | by right].
    + destruct (decide (v = d)) as [-> |Hne].
      * rewrite lookup_delete_eq. rewrite decide_True; [done | by left].
      * rewrite lookup_delete_ne by done. rewrite decide_False; [done|].
        by intros [?|?]%elem_of_cons.
Qed.

(** ** Well-formed graphs *)

Lemma outs_upto_S g k nd :
  g_nodes g !! k = Some nd → outs_upto g (S k) = outs_upto g k ++ outputs nd.
Proof.
  intros Hk. unfold outs_upto. rewrite (take_S_r _ _ _ Hk), fmap_app, join_app.
  simpl. by rewrite app_nil_r.
Qed.

Lemma outs_upto_le g j k v :
  (j ≤ k)%nat → v ∈ outs_upto g j → v ∈ outs_upto g k.
Proof.
  intros Hjk. unfold outs_upto.
  rewrite <- (take_drop j (take k (g_nodes g))), take_take, Nat.min_l by done.
  rewrite fmap_app, join_app, elem_of_app. by left.
Qed.

Lemma outs_upto_all g k v :
  v ∈ outs_upto g k → v ∈ mjoin (outputs <$> g_nodes g).
Proof.
  unfold outs_upto. rewrite <- (take_drop k (g_nodes g)) at 2.
  rewrite fmap_app, join_app, elem_of_app. by left.
Qed.

Lemma wf_outputs_fresh g k nd :
  wf_graph g → g_nodes g !! k = Some nd → NoDup (outs_upto g k ++ outputs nd).
Proof.
  intros [Hnd _] Hk. apply NoDup_app in Hnd as (_ & _ & Hnd).
  rewrite <- (take_drop_middle _ _ _ Hk) in Hnd.
  rewrite fmap_app, join_app, fmap_cons, join_cons, app_assoc in Hnd.
  by apply NoDup_app in Hnd as (Hnd & _ & _).
Qed.

Lemma wf_users_later g k nd v j :
  wf_graph g → g_nodes g !! k = Some nd → v ∈ outputs nd → j ∈ users g v →
  (k < j)%nat.
Proof.
  intros Hwf Hk Hv Hj. pose proof (wf_outputs_fresh g k nd Hwf Hk) as Hfresh.
  destruct Hwf as [Hnd Hdef]. apply users_spec in Hj as (ndj & Hndj & Hvj).
  rewrite Forall_forall in Hdef.
  specialize (Hdef (j, ndj) (elem_of_lookup_imap_2 _ _ _ _ Hndj)).
  cbn [fst snd] in Hdef. rewrite Forall_forall in Hdef.
  specialize (Hdef v Hvj). unfold defined_before in Hdef.
  fold (outs_upto g j) in Hdef.
  destruct (decide (k < j)%nat) as [|Hge]; [done|]. exfalso.
  apply elem_of_app in Hdef as [Hin|Hin].
  - apply NoDup_app in Hnd as (_ & Hdisj & _). apply (Hdisj v Hin).
    apply (outs_upto_all g (S k)). rewrite (outs_upto_S _ _ _ Hk).
    apply elem_of_app. by right.
  - apply NoDup_app in Hfresh as (_ & Hdisj & _). apply (Hdisj v); [|done].
    apply (outs_upto_le g j k); [lia | done].
Qed.

Lemma for_each_prefix_inv {A St} (P : list A → St → Prop) (l : list A)
    (body : A → St → result St) (s : St) :
  P [] s →
  (∀ pre x post s, l = pre ++ x :: post → P pre s →
     ∃ s', body x s = Ok s' ∧ P (pre ++ [x]) s') →
  ∃ s', for_each l body s = Ok s' ∧ P l s'.
Proof.
  intros H0. induction l as [|x l IH] using rev_ind; intros Hstep.
  - by exists s.
  - destruct IH as (s1 & Hs1 & HP1).
    { intros pre y post s2 Hl. apply (Hstep pre y (post ++ [x])).
      rewrite Hl. by rewrite <- app_assoc. }
    rewrite for_each_app, Hs1. cbn [mbind result_bind for_each].
    destruct (Hstep l x [] s1) as (s' & Hs' & HP'); [done | done |].
    exists s'. by rewrite Hs'.
Qed.

(** ** The sweep over the nodes *)

Lemma add_live_value_inv g k nd pre v post st :
  wf_graph g → g_nodes g !! k = Some nd → outputs nd = pre ++ v :: post →
  sweep_inv g k pre st →
  ∃ st', add_live_value g v st = Ok st' ∧ sweep_inv g k (pre ++ [v]) st'.
Proof.
  intros Hwf Hk Hout [Hdom Hlive Hsym Hirr Hpend Halive].
  destruct (add_live_value_spec g v st Hlive) as (st' & Hst' & Haa & Hlv & Hd & He).
  exists st'. split; [done|].
  assert (v ∉ dom (liveness_map st)) as Hfresh.
  { rewrite Hdom. pose proof (wf_outputs_fresh g k nd Hwf Hk) as Hnd.
    rewrite Hout, app_assoc in Hnd. apply NoDup_app in Hnd as (_ & Hdisj & _).
    intros Hin. apply (Hdisj v Hin). by left. }
  assert (dom (live_values st') ⊆ {[v]} ∪ dom (live_values st)) as Hlvdom.
  { rewrite Hlv. destruct (hasUses g v).
    - rewrite dom_insert_L. done.
    - apply union_subseteq_r. }
  split.
  - intros v'. rewrite Hd, elem_of_union, elem_of_singleton, Hdom, !elem_of_app,
      list_elem_of_singleton. tauto_goal.
  - rewrite Hd. intros x Hx. apply Hlvdom in Hx.
    apply elem_of_union in Hx as [Hx|Hx]; apply elem_of_union;
      [by left | right; by apply Hlive].
  - intros a b. rewrite !He. intros [[Ha Hab]|[[-> Hb]|[-> Ha]]].
    + left. split; [|by apply Hsym]. intros ->. apply Hfresh.
      apply Hsym in Hab. by eapply interferes_dom.
    + right. right. done.
    + right. left. done.
  - intros a. rewrite He. intros [[_ Haa']|[[-> Ha]|[-> Ha]]].
    + by eapply Hirr.
    + by apply Hfresh, Hlive.
    + by apply Hfresh, Hlive.
  - intros v' S. rewrite Hlv.
    assert (hasUses g v = true → v' = v → S = users g v →
            S ≠ ∅ ∧ S ⊆ users g v ∧ (¬ is_const g v → ∀ j, j ∈ S → (k ≤ j)%nat))
      as Hnew.
    { intros Hu -> ->. split_and!; [by apply hasUses_users | done |].
      intros _ j Hj. apply Nat.lt_le_incl.
      apply (wf_users_later g k nd v j Hwf Hk); [|done].
      rewrite Hout. apply elem_of_app. right. by left. }
    destruct (hasUses g v) eqn:Hu; [|apply Hpend].
    destruct (decide (v' = v)) as [->|Hne].
    + rewrite lookup_insert_eq. intros [= <-]. by apply Hnew.
    + rewrite lookup_insert_ne by done. apply Hpend.
  - intros v' Hv'. rewrite Haa. by apply Halive.
Qed.

Lemma add_outputs_inv g k nd st :
  wf_graph g → g_nodes g !! k = Some nd → sweep_inv g k [] st →
  ∃ st', for_each (outputs nd) (add_live_value g) st = Ok st' ∧
         sweep_inv g k (outputs nd) st'.
Proof.
  intros Hwf Hk Hinv.
  apply (for_each_prefix_inv (λ pre st, sweep_inv g k pre st)); [done|].
  intros pre v post s Hout Hs. by eapply add_live_value_inv.
Qed.

Lemma traverse_inv g k nd st1 :
  g_nodes g !! k = Some nd → sweep_inv g k (outputs nd) st1 →
  let s := traverse_node g k nd (st1, []) in
  sweep_inv g (S k) [] (erase_dead s.2 s.1).
Proof.
  intros Hk [Hdom Hlive Hsym Hirr Hpend Halive]. cbv zeta.
  unfold traverse_node.
  destruct (traverse_node_spec g k (inputs nd) st1 [])
    as (Hlm & Haa & Hlv1 & Hlv2 & Hdead).
  set (s := foldl (λ s input, traverse_input g k input s) (st1, []) (inputs nd))
    in *.
  assert (∀ v S3, live_values (erase_dead s.2 s.1) !! v = Some S3 →
            ∃ S1, live_values st1 !! v = Some S1 ∧ S3 ≠ ∅ ∧
                  ((v ∈ inputs nd ∧ ¬ is_const g v ∧ S3 = S1 ∖ {[k]}) ∨
                   (¬ (v ∈ inputs nd ∧ ¬ is_const g v) ∧ S3 = S1))) as Hlv3.
  { intros v S3. unfold erase_dead. cbn [live_values].
    rewrite erase_dead_lookup. destruct (decide (v ∈ s.2)) as [|Hnd]; [done|].
    intros HS3. rewrite Hdead in Hnd.
    destruct (decide (v ∈ inputs nd ∧ ¬ is_const g v)) as [[Hin Hnc]|Hno].
    - rewrite (Hlv1 v Hin Hnc) in HS3.
      destruct (live_values st1 !! v) as [S1|] eqn:HS1; [|done].
      injection HS3 as <-. exists S1. split; [done|]. split.
      + intros He. apply Hnd. right. split_and!; [done | done |]. by exists S1.
      + left. done.
    - rewrite (Hlv2 v Hno) in HS3. exists S3. split; [done|].
      split; [by apply (Hpend v S3) | by right]. }
  split.
  - intros v. unfold erase_dead. cbn [liveness_map]. rewrite Hlm, Hdom.
    by rewrite (outs_upto_S _ _ _ Hk), app_nil_r.
  - unfold erase_dead at 2. cbn [liveness_map]. rewrite Hlm.
    intros v [S3 HS3]%elem_of_dom. apply Hlv3 in HS3 as (S1 & HS1 & _).
    apply Hlive. by apply elem_of_dom_2 in HS1.
  - unfold erase_dead. cbn [liveness_map]. by rewrite Hlm.
  - unfold erase_dead. cbn [liveness_map]. by rewrite Hlm.
  - intros v S3 HS3. apply Hlv3 in HS3 as (S1 & HS1 & Hne & Hcase).
    destruct (Hpend v S1 HS1) as (_ & Hsub & Hge). split; [done|].
    destruct Hcase as [(Hin & Hnc & ->)|[Hno ->]].
    + split; [intros j Hj; apply Hsub; by apply elem_of_difference in Hj as [? _]|].
      intros _ j [Hj Hjk]%elem_of_difference.
      rewrite not_elem_of_singleton in Hjk. specialize (Hge Hnc j Hj). lia.
    + split; [done|]. intros Hnc j Hj. specialize (Hge Hnc j Hj).
      destruct (decide (j = k)) as [->|]; [|lia]. exfalso. apply Hno.
      split; [|done]. apply Hsub, users_spec in Hj as (nd' & Hnd' & Hv).
      unfold all_nodes in Hnd'.
      rewrite lookup_app_l in Hnd' by (by eapply lookup_lt_Some). congruence.
  - intros v Hv. unfold erase_dead. cbn [always_alive]. rewrite Haa.
    destruct Hv as [Hv|[Hv|(Hc & j & nd' & Hj & Hnd' & Hin)]].
    + left. apply Halive. by left.
    + left. apply Halive. right. by left.
    + destruct (decide (j = k)) as [->|Hne].
      * right. split; [congruence | done].
      * left. apply Halive. right. right. split; [done|].
        exists j, nd'. split; [lia | done].
Qed.

Lemma sweep_ok g :
  wf_graph g →
  ∃ st, sweep g = Ok st ∧ sweep_inv g (length (g_nodes g)) [] st.
Proof.
  intros Hwf. unfold sweep.
  apply (for_each_imap_inv (λ k st, sweep_inv g k [] st)).
  - split; cbn [liveness_map live_values always_alive].
    + intros v. rewrite dom_empty_L. split; [by intros ?%elem_of_empty|].
      by intros ?%elem_of_nil.
    + by rewrite dom_empty_L.
    + intros a b (s & Hs & _). by rewrite lookup_empty in Hs.
    + intros a (s & Hs & _). by rewrite lookup_empty in Hs.
    + intros v S Hs. by rewrite lookup_empty in Hs.
    + intros v [Hv|[Hv|(_ & j & _ & Hj & _)]]; [| |lia].
      * apply elem_of_union. left. by apply elem_of_list_to_set.
      * apply elem_of_union. right. by apply elem_of_list_to_set.
  - intros k nd st Hk Hinv. unfold sweep_node. cbn [fst snd].
    destruct (add_outputs_inv g k nd st Hwf Hk Hinv) as (st1 & -> & Hinv1).
    cbn [mbind result_bind]. eexists. split; [done|].
    by apply traverse_inv.
Qed.

(** ** LivenessMap *)

Lemma interferes_lookup lm m n :
  interferes lm m n ↔ n ∈ default (∅ : gset nat) (lm !! m).
Proof.
  unfold interferes. destruct (lm !! m) as [s|]; simpl.
  - split; [by intros (s' & [= <-] & ?) | intros ?; by exists s].
  - split; [by intros (s' & [=] & _) | by intros ?%elem_of_empty].
Qed.

Lemma live_always_alive g st :
  sweep_inv g (length (g_nodes g)) [] st →
  dom (live_values st) ⊆ always_alive st.
Proof.
  intros [_ _ _ _ Hpend Halive] v [S HS]%elem_of_dom.
  destruct (Hpend v S HS) as (Hne & Hsub & Hge).
  apply set_choose_L in Hne as [j Hj]. apply Halive.
  pose proof (Hsub j Hj) as Hu. apply users_spec in Hu as (nd & Hnd & Hv).
  unfold all_nodes in Hnd. apply lookup_app_Some in Hnd as [Hnd|[Hlen Hnd]].
  - right. right. pose proof (lookup_lt_Some _ _ _ Hnd) as Hlt.
    destruct (decide (is_const g v)) as [Hc|Hnc].
    + split; [done|]. by exists j, nd.
    + specialize (Hge Hnc j Hj). lia.
  - right. left. apply list_lookup_singleton_Some in Hnd as [_ <-]. done.
Qed.

Lemma check_always_alive_ok st :
  dom (live_values st) ⊆ always_alive st → check_always_alive st = Ok tt.
Proof.
  intros Hsub. unfold check_always_alive. apply for_each_unit_ok.
  intros v Hv. apply list_elem_of_fmap in Hv as ([v' S] & -> & Hv).
  apply elem_of_map_to_list, elem_of_dom_2 in Hv.
  unfold TORCH_CHECK. rewrite bool_decide_true; [done | by apply Hsub].
Qed.

Lemma interfere_spec (D : gset nat) i o lm :
  dom lm = D →
  ∃ lm', interfere i o lm = Ok lm' ∧ dom lm' = D ∧
         ∀ a b, interferes lm' a b ↔
                interferes lm a b ∨
                (i ∈ D ∧ o ∈ D ∧ ((a = i ∧ b = o) ∨ (a = o ∧ b = i))).
Proof.
  intros Hdom. unfold interfere.
  destruct (bool_decide (i ∈ dom lm)) eqn:Hi;
    [destruct (bool_decide (o ∈ dom lm)) eqn:Ho|]; cbn [andb].
  - apply bool_decide_eq_true in Hi, Ho.
    destruct (at_insert_spec i o lm Hi) as (lm1 & -> & Hd1 & He1).
    cbn [mbind result_bind].
    destruct (at_insert_spec o i lm1) as (lm2 & -> & Hd2 & He2); [by rewrite Hd1|].
    exists lm2. split_and!; [done | congruence |].
    intros a b. rewrite He2, He1. rewrite <- Hdom. tauto_goal.
  - apply bool_decide_eq_false in Ho. exists lm. split_and!; [done..|].
    intros a b. rewrite <- Hdom. tauto_goal.
  - apply bool_decide_eq_false in Hi. exists lm. split_and!; [done..|].
    intros a b. rewrite <- Hdom. tauto_goal.
Qed.

Lemma augment_spec g lm :
  ∃ lm', for_each (g_nodes g) interfere_node lm = Ok lm' ∧
         dom lm' = dom lm ∧
         ∀ a b, interferes lm' a b ↔ interferes lm a b ∨ augmented g (dom lm) a b.
Proof.
  apply (edges_loop (dom lm)
           (λ nd a b, ∃ i, i ∈ inputs nd ∧ ∃ o, o ∈ outputs nd ∧
              i ∈ dom lm ∧ o ∈ dom lm ∧ ((a = i ∧ b = o) ∨ (a = o ∧ b = i))));
    [|done].
  intros nd lm1 _ Hd1. unfold interfere_node.
  apply (edges_loop (dom lm)
           (λ i a b, ∃ o, o ∈ outputs nd ∧
              i ∈ dom lm ∧ o ∈ dom lm ∧ ((a = i ∧ b = o) ∨ (a = o ∧ b = i))));
    [|done].
  intros i lm2 _ Hd2.
  apply (edges_loop (dom lm)
           (λ o a b, i ∈ dom lm ∧ o ∈ dom lm ∧ ((a = i ∧ b = o) ∨ (a = o ∧ b = i))));
    [|done].
  intros o lm3 _ Hd3. by apply interfere_spec.
Qed.

(** What [LivenessMap] returns for a well-formed graph. *)
Lemma LivenessMap_ok g :
  wf_graph g →
  ∃ st lm,
    sweep g = Ok st ∧
    sweep_inv g (length (g_nodes g)) [] st ∧
    LivenessMap g = Ok (lm, always_alive st) ∧
    dom lm = dom (liveness_map st) ∧
    ∀ a b, interferes lm a b ↔
           interferes (liveness_map st) a b ∨
           augmented g (dom (liveness_map st)) a b.
Proof.
  intros Hwf. destruct (sweep_ok g Hwf) as (st & Hst & Hinv).
  destruct (augment_spec g (liveness_map st)) as (lm & Hlm & Hd & He).
  exists st, lm. split_and!; [done | done | | done | done].
  unfold LivenessMap. rewrite Hst. cbn [mbind result_bind].
  rewrite (check_always_alive_ok st (live_always_alive g st Hinv)).
  cbn [mbind result_bind]. by rewrite Hlm.
Qed.

Lemma LivenessMap_relation g :
  wf_graph g →
  ∃ st lm,
    sweep g = Ok st ∧
    sweep_inv g (length (g_nodes g)) [] st ∧
    LivenessMap g = Ok (lm, always_alive st) ∧
    dom lm = dom (liveness_map st) ∧
    (∀ a b, interferes lm a b ↔
            interferes (liveness_map st) a b ∨
            augmented g (dom (liveness_map st)) a b) ∧
    (∀ m n, interferes lm m n → interferes lm n m) ∧
    (∀ v, ¬ interferes lm v v).
Proof.
  intros Hwf. destruct (LivenessMap_ok g Hwf) as (st & lm & Hst & Hinv & Hlm & Hd & He).
  exists st, lm. split_and!; try done.
  - intros m n. rewrite !He. intros [H|(nd & Hnd & i & Hi & o & Ho & ? & ? & Hc)].
    + left. by apply (inv_sym _ _ _ _ Hinv).
    + right. exists nd. split; [done|]. exists i. split; [done|].
      exists o. split; [done|]. split_and!; [done | done | tauto_goal].
  - intros v. rewrite He. intros [H|(nd & Hnd & i & Hi & o & Ho & _ & _ & Hc)].
    + by apply (inv_irrefl _ _ _ _ Hinv) in H.
    + assert (i = o) as -> by (destruct Hc as [[-> ->]|[-> ->]]; done).
      apply list_elem_of_lookup_1 in Hnd as [k Hk].
      assert (k < k)%nat; [|lia].
      apply (wf_users_later g k nd o k Hwf Hk Ho). apply users_spec.
      exists nd. split; [|done]. unfold all_nodes.
      rewrite lookup_app_l by (by eapply lookup_lt_Some). done.
Qed.

(** C3. For a well-formed graph the liveness map that LivenessMap returns
    is symmetric and no Value is in its own set; every Value left in the
    live set by the sweep is in always_alive, so that the check passes and
    LivenessMap returns. *)
Theorem LivenessMap_symmetric_irreflexive (g : Graph) :
  wf_graph g →
  ∃ st lm,
    sweep g = Ok st ∧
    dom (live_values st) ⊆ always_alive st ∧
    check_always_alive st = Ok tt ∧
    LivenessMap g = Ok (lm, always_alive st) ∧
    (∀ m n, interferes lm m n → interferes lm n m) ∧
    (∀ v, ¬ interferes lm v v).
Proof.
  intros Hwf.
  destruct (LivenessMap_relation g Hwf)
    as (st & lm & Hst & Hinv & Hlm & _ & _ & Hsym & Hirr).
  pose proof (live_always_alive g st Hinv) as Hlive.
  exists st, lm.
  split_and!; [done | done | by apply check_always_alive_ok | done..].
Qed.

(** C4, amended. After the sweep, for every node of a well-formed graph
    and every pair (I, O) of an input I of the node that is not a graph
    input (it is the output of an earlier node) and an output O of the
    node, O is in liveness_map[I] and I is in liveness_map[O]; a graph
    input has no entry in the liveness map and is in no set of it. *)
Theorem LivenessMap_inputs_interfere_outputs (g : Graph) :
  wf_graph g →
  ∃ lm aa,
    LivenessMap g = Ok (lm, aa) ∧
    (∀ nd i o, nd ∈ g_nodes g → i ∈ inputs nd → o ∈ outputs nd →
               i ∉ g_inputs g → interferes lm i o ∧ interferes lm o i) ∧
    (∀ i v, i ∈ g_inputs g →
            lm !! i = None ∧ ¬ interferes lm i v ∧ ¬ interferes lm v i).
Proof.
  intros Hwf.
  destruct (LivenessMap_relation g Hwf)
    as (st & lm & Hst & Hinv & Hlm & Hd & He & Hsym & _).
  exists lm, (always_alive st). split; [done|].
  assert (∀ v, v ∈ dom lm ↔ v ∈ mjoin (outputs <$> g_nodes g)) as Hdom.
  { intros v. rewrite Hd, (inv_dom _ _ _ _ Hinv), app_nil_r.
    unfold outs_upto. by rewrite firstn_all. }
  split.
  - intros nd i o Hnd Hi Ho Hni.
    assert (o ∈ dom lm) as Hod.
    { apply Hdom, list_elem_of_join. exists (outputs nd). split; [done|].
      apply list_elem_of_fmap. by exists nd. }
    assert (i ∈ dom lm) as Hid.
    { apply Hdom. apply list_elem_of_lookup_1 in Hnd as [k Hk].
      destruct Hwf as [_ Hdef]. rewrite Forall_forall in Hdef.
      assert ((k, nd) ∈ imap pair (all_nodes g)) as Hin.
      { apply elem_of_lookup_imap_2. unfold all_nodes.
        rewrite lookup_app_l by (by eapply lookup_lt_Some). done. }
      specialize (Hdef _ Hin). cbn [fst snd] in Hdef.
      rewrite Forall_forall in Hdef. specialize (Hdef i Hi).
      unfold defined_before in Hdef.
      apply elem_of_app in Hdef as [?|Hdef]; [done|].
      by apply (outs_upto_all g k). }
    rewrite Hd in Hid, Hod.
    split; apply He; right; exists nd; (split; [done|]); exists i;
      (split; [done|]); exists o; (split; [done|]); split_and!; try done;
      [by left | by right].
  - intros i v Hi.
    assert (i ∉ dom lm) as Hnd.
    { rewrite Hdom. destruct Hwf as [Hnd _].
      apply NoDup_app in Hnd as (_ & Hdisj & _). by apply Hdisj. }
    split_and!.
    + by apply not_elem_of_dom.
    + intros H. by apply interferes_dom in H.
    + intros H. apply Hsym in H. by apply interferes_dom in H.
Qed.

(** ** ReplaceWithCopy *)

Lemma offsets_of_unused v l i : v ∉ l → offsets_of v l i = [].
Proof.
  revert i. induction l as [|x l IH]; intros i Hv; [done|]. simpl.
  apply not_elem_of_cons in Hv as [Hne Hv].
  rewrite decide_False by done. by apply IH.
Qed.

Lemma length_join_imap {A B} (f : nat → A → list B) (h : A → nat) (l : list A) :
  (∀ i x, length (f i x) = h x) →
  length (mjoin (imap f l)) = sum_list_with h l.
Proof.
  revert f. induction l as [|x l IH]; intros f Hf; [done|].
  cbn [imap mjoin list_join sum_list_with]. rewrite length_app, Hf.
  f_equal. apply IH. intros i y. apply Hf.
Qed.

Lemma length_uses g v : length (uses g v) = use_count (all_nodes g) v.
Proof.
  unfold uses, use_count. apply length_join_imap. intros i nd.
  unfold uses_at. by rewrite length_fmap.
Qed.

Lemma use_count_app nds1 nds2 v :
  use_count (nds1 ++ nds2) v = (use_count nds1 v + use_count nds2 v)%nat.
Proof. unfold use_count. apply sum_list_with_app. Qed.

Lemma use_count_unused nds v :
  (∀ nd, nd ∈ nds → v ∉ inputs nd) → use_count nds v = 0%nat.
Proof.
  induction nds as [|nd nds IH]; intros Hv; [done|].
  unfold use_count in *. cbn [sum_list_with].
  rewrite offsets_of_unused by (apply Hv; by left).
  rewrite IH; [done|]. intros nd' Hnd'. apply Hv. by right.
Qed.

Lemma expand_inputs done nd :
  copies done → nd ∈ mjoin (expand <$> done) →
  ∃ p, p ∈ done ∧ inputs nd = inputs p.1.
Proof.
  intros Hc Hnd. apply list_elem_of_join in Hnd as (l & Hnd & Hl).
  apply list_elem_of_fmap in Hl as (p & -> & Hp). exists p. split; [done|].
  unfold copies in Hc. rewrite Forall_forall in Hc. specialize (Hc p Hp).
  unfold expand in Hnd. destruct p.2 as [new_node|].
  - apply elem_of_cons in Hnd as [->|Hnd]; [by apply Hc|].
    by apply list_elem_of_singleton in Hnd as ->.
  - by apply list_elem_of_singleton in Hnd as ->.
Qed.

(** In a well-formed graph the nodes up to the producer of a Value do not
    use it. *)
Lemma wf_unused_before g k n out j nd :
  wf_graph g → g_nodes g !! k = Some n → out ∈ outputs n →
  g_nodes g !! j = Some nd → (j ≤ k)%nat → out ∉ inputs nd.
Proof.
  intros Hwf Hk Hout Hj Hle Hin.
  assert (k < j)%nat; [|lia].
  apply (wf_users_later g k n out j Hwf Hk Hout). apply users_spec.
  exists nd. split; [|done]. unfold all_nodes.
  rewrite lookup_app_l by (by eapply lookup_lt_Some). done.
Qed.

(** While the loop runs, the output of the node it looks at has the uses
    it has in the graph the pass was given. *)
Lemma uses_during_collect g done n rest out :
  wf_graph g → g_nodes g = done.*1 ++ n :: rest → copies done →
  out ∈ outputs n →
  length (uses (mkGraph (g_inputs g) (mjoin (expand <$> done) ++ n :: rest)
                        (g_outputs g) (type_of g)) out)
  = length (uses g out).
Proof.
  intros Hwf Hnodes Hc Hout. rewrite !length_uses. unfold all_nodes.
  cbn [g_nodes]. unfold return_node at 1. cbn [g_outputs].
  fold (return_node g). rewrite Hnodes, <- !app_assoc, !use_count_app.
  f_equal.
  assert (g_nodes g !! length done = Some n) as Hk.
  { rewrite Hnodes, lookup_app_r by (by rewrite length_fmap).
    by rewrite length_fmap, Nat.sub_diag. }
  assert (∀ p, p ∈ done → out ∉ inputs p.1) as Hunused.
  { intros p Hp. apply list_elem_of_lookup_1 in Hp as [j Hj].
    apply (wf_unused_before g (length done) n out j p.1 Hwf Hk Hout).
    - rewrite Hnodes, lookup_app_l by (rewrite length_fmap; by eapply lookup_lt_Some).
      by rewrite list_lookup_fmap, Hj.
    - apply lookup_lt_Some in Hj. lia. }
  rewrite !use_count_unused; [done | |].
  - intros nd Hnd. apply list_elem_of_fmap in Hnd as (p & -> & Hp).
    by apply Hunused.
  - intros nd Hnd. apply expand_inputs in Hnd as (p & Hp & ->); [|done].
    by apply Hunused.
Qed.

Lemma collect_spec db g todo done :
  wf_graph g → g_nodes g = done.*1 ++ todo → copies done →
  single_outputs todo → Forall (decided db g) done →
  ∃ l, collect db g done todo = Ok l ∧ l.*1 = g_nodes g ∧
       Forall (decided db g) l.
Proof.
  intros Hwf. revert done.
  induction todo as [|n rest IH]; intros done Hnodes Hc Hsingle Hdone.
  - exists done. rewrite app_nil_r in Hnodes. by split_and!.
  - apply Forall_cons in Hsingle as [Hn Hrest].
    assert (∀ o : option Node,
              decided db g (n, o) →
              (∀ new_node, o = Some new_node → inputs new_node = inputs n) →
              ∃ l, collect db g (done ++ [(n, o)]) rest = Ok l ∧
                   l.*1 = g_nodes g ∧ Forall (decided db g) l) as Hnext.
    { intros o Hdec Hcopy. apply IH; [| |done|].
      - rewrite fmap_app, <- app_assoc. done.
      - apply Forall_app. split; [done|]. apply Forall_singleton. done.
      - apply Forall_app. split; [done|]. by apply Forall_singleton. }
    cbn [collect]. destruct (supported (kind n)) as [c|] eqn:Hsup.
    + destruct (outputs n) as [|out [|? ?]] eqn:Hout;
        [specialize (Hn ltac:(done)); done | | specialize (Hn ltac:(done)); done].
      unfold Node_output1. rewrite Hout. cbn [mbind result_bind].
      rewrite (uses_during_collect g done n rest out Hwf Hnodes Hc)
        by (rewrite Hout; by left).
      destruct (decide (1 < length (uses g out))%nat) as [Hmany|Hfew].
      { apply Hnext; [|done]. intros (c' & out' & _ & Hout' & Hle & _).
        cbn [fst] in *. rewrite Hout in Hout'. injection Hout' as <-. lia. }
      destruct (db [out] (g_outputs g)) eqn:Hdb.
      { apply Hnext; [|done]. intros (c' & out' & _ & Hout' & _ & Hdb').
        cbn [fst] in *. rewrite Hout in Hout'. injection Hout' as <-.
        congruence. }
      apply Hnext.
      * exists c, out. cbn [fst snd kind inputs outputs length].
        split_and!; try done. lia.
      * by intros new_node [= <-].
    + apply Hnext; [|done]. intros (c' & out' & Hsup' & _). cbn [fst] in *.
      congruence.
Qed.

Lemma replace_all_spec rs nd :
  kind (replace_all rs nd) = kind nd ∧
  outputs (replace_all rs nd) = outputs nd ∧
  inputs (replace_all rs nd) = renaming rs <$> inputs nd.
Proof.
  revert nd. unfold replace_all, renaming.
  induction rs as [|r rs IH]; intros nd; cbn [foldl].
  - split_and!; [done | done |]. by rewrite list_fmap_id.
  - destruct (IH (rename r.1 r.2 nd)) as (-> & -> & ->).
    cbn [rename kind inputs outputs]. split_and!; [done | done |].
    by rewrite <- list_fmap_compose.
Qed.

Lemma renaming_other rs v : v ∉ rs.*1 → renaming rs v = v.
Proof.
  unfold renaming. revert v. induction rs as [|r rs IH]; intros v Hv; [done|].
  rewrite fmap_cons in Hv. apply not_elem_of_cons in Hv as [Hne Hv].
  cbn [foldl]. unfold subst at 2. rewrite decide_False by done. by apply IH.
Qed.

Lemma replacements_old db g l v :
  Forall (decided db g) l → v ∈ (replacements l).*1 →
  ∃ n, n ∈ l.*1 ∧ rewritten_by db g n ∧ outputs n = [v].
Proof.
  intros Hdec Hv. apply list_elem_of_fmap in Hv as ([old new] & -> & Hr).
  unfold replacements in Hr. apply list_elem_of_omap in Hr as (p & Hp & Hsome).
  rewrite Forall_forall in Hdec. specialize (Hdec p Hp). unfold decided in Hdec.
  destruct p.2 as [new_node|]; [|done]. cbn [mbind option_bind] in Hsome.
  destruct Hdec as (c & out & Hsup & Hout & Hle & Hdb & _).
  rewrite Hout in Hsome. cbn [head mbind option_bind] in Hsome.
  destruct (head (outputs new_node)); [|done]. injection Hsome as <- <-.
  exists p.1. split; [apply list_elem_of_fmap; by exists p|].
  split; [by exists c, out | done].
Qed.

(** *** The Values of the copies *)

Lemma in_graph_iff g v :
  in_graph g v ↔
  v ∈ g_inputs g ∨ v ∈ g_outputs g ∨
  ∃ nd, nd ∈ g_nodes g ∧ (v ∈ inputs nd ∨ v ∈ outputs nd).
Proof.
  unfold in_graph. rewrite !elem_of_app, list_elem_of_join.
  do 2 apply or_iff_compat_l. split.
  - intros (l & Hv & (nd & -> & Hnd)%list_elem_of_fmap).
    exists nd. split; [done |]. by apply elem_of_app in Hv.
  - intros (nd & Hnd & Hv). exists (inputs nd ++ outputs nd).
    split; [by apply elem_of_app |]. apply list_elem_of_fmap. by exists nd.
Qed.

Lemma fresh_value_above g v : in_graph g v → (v < fresh_value g)%nat.
Proof.
  unfold in_graph, fresh_value. intros Hv.
  apply max_list_elem_of_le in Hv. lia.
Qed.

Lemma copy_outputs_snoc done (p : Node * option Node) :
  copy_outputs (done ++ [p]) = copy_outputs done ++ from_option outputs [] p.2.
Proof.
  unfold copy_outputs. rewrite fmap_app, join_app.
  cbn [fmap list_fmap mjoin list_join]. by rewrite app_nil_r.
Qed.

(** The graph the loop looks at holds the Values of the graph the pass
    was given and the outputs of the copies created so far. *)
Lemma in_graph_during_collect g done todo v :
  g_nodes g = done.*1 ++ todo →
  in_graph g v ∨ v ∈ copy_outputs done →
  in_graph (mkGraph (g_inputs g) (mjoin (expand <$> done) ++ todo)
                    (g_outputs g) (type_of g)) v.
Proof.
  intros Hnodes Hv. apply in_graph_iff. cbn [g_inputs g_outputs g_nodes].
  assert (∀ p, p ∈ done → p.1 ∈ mjoin (expand <$> done)) as Hold.
  { intros p Hp. apply list_elem_of_join. exists (expand p).
    split; [| apply list_elem_of_fmap; by exists p].
    unfold expand. destruct p.2; [right; left | left]. }
  destruct Hv as [Hv | Hv].
  - apply in_graph_iff in Hv as [? | [? | (nd & Hnd & Hv)]];
      [by left | right; by left |].
    right; right. exists nd. split; [| done].
    rewrite Hnodes in Hnd. apply elem_of_app in Hnd as [Hnd | Hnd];
      apply elem_of_app; [left | by right].
    apply list_elem_of_fmap in Hnd as (p & -> & Hp). by apply Hold.
  - unfold copy_outputs in Hv.
    apply list_elem_of_join in Hv as (l & Hv & (p & -> & Hp)%list_elem_of_fmap).
    destruct p.2 as [nn|] eqn:Hnn; [| by apply elem_of_nil in Hv].
    right; right. exists nn. split; [| by right].
    apply elem_of_app. left. apply list_elem_of_join. exists (expand p).
    split; [| apply list_elem_of_fmap; by exists p].
    unfold expand. rewrite Hnn. left.
Qed.

(** Every copy gets an output that the graph does not hold and that no
    earlier copy has. *)
Lemma collect_fresh db g todo done l :
  g_nodes g = done.*1 ++ todo →
  collect db g done todo = Ok l →
  (∀ w, w ∈ copy_outputs done → ¬ in_graph g w) → NoDup (copy_outputs done) →
  (∀ w, w ∈ copy_outputs l → ¬ in_graph g w) ∧ NoDup (copy_outputs l).
Proof.
  revert done. induction todo as [|n rest IH]; intros done Hnodes Hcol Hnew Hnd.
  - injection Hcol as <-. by split.
  - assert (collect db g (done ++ [(n, None)]) rest = Ok l →
            (∀ w, w ∈ copy_outputs l → ¬ in_graph g w) ∧
            NoDup (copy_outputs l)) as Hskip.
    { intros Hl'. apply (IH (done ++ [(n, None)])); [| done | |].
      - by rewrite fmap_app, <- app_assoc.
      - rewrite copy_outputs_snoc. cbn [snd from_option].
        by rewrite app_nil_r.
      - rewrite copy_outputs_snoc. cbn [snd from_option].
        by rewrite app_nil_r. }
    cbn [collect] in Hcol.
    destruct (supported (kind n)) as [c|]; [| by apply Hskip].
    destruct (Node_output1 n) as [out|]; [| done].
    cbn [mbind result_bind] in Hcol.
    destruct (decide (1 < length (uses _ out))%nat); [by apply Hskip |].
    destruct (db [out] (g_outputs g)); [by apply Hskip |].
    set (cur := mkGraph (g_inputs g) (mjoin (expand <$> done) ++ n :: rest)
                        (g_outputs g) (type_of g)) in *.
    assert (∀ v, in_graph g v ∨ v ∈ copy_outputs done →
                 v ≠ fresh_value cur) as Hfresh.
    { intros v Hv ->.
      apply (in_graph_during_collect g done (n :: rest) _ Hnodes) in Hv.
      apply fresh_value_above in Hv. fold cur in Hv. lia. }
    apply (IH (done ++ [(n, Some (mkNode c (inputs n) [fresh_value cur]))]));
      [| done | |].
    + by rewrite fmap_app, <- app_assoc.
    + rewrite copy_outputs_snoc. cbn [snd from_option outputs].
      intros w [Hw | ->%list_elem_of_singleton]%elem_of_app; [by apply Hnew |].
      intros Hin. by apply (Hfresh (fresh_value cur)); [left |].
    + rewrite copy_outputs_snoc. cbn [snd from_option outputs].
      apply NoDup_app. split; [done |]. split; [| apply NoDup_singleton].
      intros w Hw ->%list_elem_of_singleton.
      by apply (Hfresh (fresh_value cur)); [right |].
Qed.

Lemma NoDup_snd_functional {A B} (l : list (A * B)) x1 x2 y :
  NoDup l.*2 → (x1, y) ∈ l → (x2, y) ∈ l → x1 = x2.
Proof.
  induction l as [|[a b] l IH]; [by intros _ ?%elem_of_nil |].
  rewrite fmap_cons, NoDup_cons, !elem_of_cons. cbn [snd].
  intros [Hn Hnd] [H1 | H1] [H2 | H2].
  - congruence.
  - exfalso. apply Hn. apply list_elem_of_fmap. exists (x2, y).
    split; [simpl; congruence | done].
  - exfalso. apply Hn. apply list_elem_of_fmap. exists (x1, y).
    split; [simpl; congruence | done].
  - by apply IH.
Qed.

(** The vector [replacement]: one pair for every copy, of the output of
    the node and the output of its copy. *)
Lemma replacements_spec db g (l : list (Node * option Node)) :
  Forall (decided db g) l →
  NoDup (mjoin (outputs <$> l.*1)) → NoDup (copy_outputs l) →
  NoDup (replacements l).*1 ∧ NoDup (replacements l).*2 ∧
  (∀ v, v ∈ (replacements l).*1 → v ∈ mjoin (outputs <$> l.*1)) ∧
  (∀ w, w ∈ (replacements l).*2 → w ∈ copy_outputs l) ∧
  (∀ p nn, p ∈ l → p.2 = Some nn →
     ∃ out w, outputs p.1 = [out] ∧ outputs nn = [w] ∧
              (out, w) ∈ replacements l).
Proof.
  induction l as [|p l IH]; intros Hdec Hold Hnew.
  - split_and!; try apply NoDup_nil_2; try (by intros ? ?%elem_of_nil).
    by intros p nn ?%elem_of_nil.
  - apply Forall_cons in Hdec as [Hp Hdec].
    rewrite fmap_cons, fmap_cons, join_cons in Hold.
    apply NoDup_app in Hold as (_ & Hdisj & Hold).
    unfold copy_outputs in Hnew. rewrite fmap_cons, join_cons in Hnew.
    apply NoDup_app in Hnew as (_ & Hdisj' & Hnew).
    destruct (IH Hdec Hold Hnew) as (H1 & H2 & H3 & H4 & H5).
    unfold decided in Hp. unfold replacements. cbn [omap list_omap].
    fold (replacements l).
    destruct p as [n [nn|]]; cbn [fst snd mbind option_bind] in *.
    + destruct Hp as (c & out & _ & Hout & _ & _ & _ & _ & Hlen).
      destruct (outputs nn) as [|w [|? ?]] eqn:Hw; try done.
      rewrite Hout. cbn [head mbind option_bind from_option] in *.
      rewrite !fmap_cons. cbn [fst snd].
      fold (copy_outputs l) in *.
      change (copy_outputs ((n, Some nn) :: l))
        with (outputs nn ++ copy_outputs l).
      change (mjoin (outputs n :: (outputs <$> l.*1)))
        with (outputs n ++ mjoin (outputs <$> l.*1)).
      rewrite Hw.
      split_and!.
      * apply NoDup_cons. split; [| done]. intros Hin.
        apply (Hdisj out); [rewrite Hout; left | by apply H3].
      * apply NoDup_cons. split; [| done]. intros Hin.
        apply (Hdisj' w); [rewrite Hw; left | by apply H4].
      * intros v [-> | Hv]%elem_of_cons; apply elem_of_app;
          [left; rewrite Hout; left | right; by apply H3].
      * intros v [-> | Hv]%elem_of_cons; apply elem_of_app;
          [left; left | right; by apply H4].
      * intros q qn [-> | Hq]%elem_of_cons Hqn.
        -- injection Hqn as <-. exists out, w. split_and!; [done | done | left].
        -- destruct (H5 q qn Hq Hqn) as (o & x & ? & ? & ?).
           exists o, x. split_and!; [done | done | by right].
    + fold (copy_outputs l) in *.
      change (copy_outputs ((n, None) :: l)) with (copy_outputs l).
      change (mjoin (outputs n :: (outputs <$> l.*1)))
        with (outputs n ++ mjoin (outputs <$> l.*1)).
      split_and!; [done | done | | done |].
      * intros v Hv. apply elem_of_app. right. by apply H3.
      * intros q qn [-> | Hq]%elem_of_cons Hqn; [done |].
        by apply H5.
Qed.

Lemma renaming_pair rs v w :
  (v, w) ∈ rs → NoDup rs.*1 → (∀ x, x ∈ rs.*2 → x ∉ rs.*1) →
  renaming rs v = w.
Proof.
  unfold renaming. revert v.
  induction rs as [|[a b] rs IH]; intros v Hin Hnd Hdisj;
    [by apply elem_of_nil in Hin |].
  rewrite fmap_cons in Hnd. apply NoDup_cons in Hnd as [Ha Hnd].
  cbn [foldl fst snd]. apply elem_of_cons in Hin as [[= <- <-] | Hin].
  - unfold subst at 2. rewrite decide_True by done.
    apply (renaming_other rs w). intros Hw.
    apply (Hdisj w); [rewrite fmap_cons; left | rewrite fmap_cons; by right].
  - unfold subst at 2. rewrite decide_False.
    + apply IH; [done | done |]. intros x Hx Hx'.
      apply (Hdisj x); rewrite fmap_cons; by right.
    + intros ->. apply Ha. apply list_elem_of_fmap. by exists (a, w).
Qed.


(** C7, amended. On a well-formed graph whose supported nodes have their
    single output, ReplaceWithCopy rewrites a node to its copy variant
    exactly when its kind is in the table (aten::permute to
    static_runtime::permute_copy, aten::narrow to aten::narrow_copy), its
    output has at most one use, and the alias analysis of the graph with the
    inputs replaced by the pure producer says that the output may not alias
    a graph output.  Every other node keeps its kind and its outputs.  The
    copy of a rewritten node has one output, a Value that the graph did not
    hold and that no other copy has, and the inputs of all nodes and the
    graph outputs are kept but for the outputs of rewritten nodes, each of
    which becomes the output of the copy of its node. *)
Theorem ReplaceWithCopy_rewrites (g : Graph) :
  wf_graph g → single_outputs (g_nodes g) →
  ∃ g' sigma,
    ReplaceWithCopy g = Ok g' ∧
    g_inputs g' = g_inputs g ∧
    g_outputs g' = sigma <$> g_outputs g ∧
    length (g_nodes g') = length (g_nodes g) ∧
    (∀ v, sigma v ≠ v →
          ∃ n, n ∈ g_nodes g ∧ rewritten g n ∧ outputs n = [v]) ∧
    (∀ v w, in_graph g v → in_graph g w → sigma v = sigma w → v = w) ∧
    ∀ k n, g_nodes g !! k = Some n →
      ∃ n', g_nodes g' !! k = Some n' ∧
            inputs n' = sigma <$> inputs n ∧
            (rewritten g n →
               supported (kind n) = Some (kind n') ∧
               ∃ out, outputs n = [out] ∧ outputs n' = [sigma out] ∧
                      ¬ in_graph g (sigma out)) ∧
            (¬ rewritten g n → kind n' = kind n ∧ outputs n' = outputs n).
Proof.
  intros Hwf Hsingle. unfold ReplaceWithCopy. cbv zeta.
  set (db := mayContainAlias (with_fake_input g)).
  destruct (collect_spec db g (g_nodes g) [] Hwf eq_refl)
    as (l & Hcol & Hl & Hdec);
    [by apply Forall_nil | done | by apply Forall_nil |].
  rewrite Hcol. cbn [mbind result_bind]. set (rs := replacements l).
  (* the copies have new outputs, the pairs of the replacement follow *)
  destruct (collect_fresh db g (g_nodes g) [] l eq_refl Hcol)
    as [Hnew Hnd]; [by intros w ?%elem_of_nil | apply NoDup_nil_2 |].
  assert (NoDup (mjoin (outputs <$> l.*1))) as Hold.
  { rewrite Hl. destruct Hwf as [Hwf _].
    by apply NoDup_app in Hwf as (_ & _ & ?). }
  destruct (replacements_spec db g l Hdec Hold Hnd)
    as (Hrs1 & Hrs2 & Hin1 & Hin2 & Hpair).
  fold rs in Hrs1, Hrs2, Hin1, Hin2, Hpair.
  assert (∀ v, v ∈ rs.*1 → in_graph g v) as Hgraph.
  { intros v Hv. apply Hin1 in Hv. rewrite Hl in Hv.
    apply list_elem_of_join in Hv
      as (os & Hv & (nd & -> & Hnd')%list_elem_of_fmap).
    apply in_graph_iff. right; right. exists nd. split; [done | by right]. }
  assert (∀ x, x ∈ rs.*2 → x ∉ rs.*1) as Hdisj.
  { intros x Hx Hx'. apply (Hnew x); [by apply Hin2 | by apply Hgraph]. }
  assert (∀ v w, (v, w) ∈ rs → renaming rs v = w ∧ ¬ in_graph g w) as Hsigma.
  { intros v w Hvw. split; [by apply renaming_pair |].
    apply Hnew, Hin2. apply list_elem_of_fmap. by exists (v, w). }
  eexists. exists (renaming rs). split; [done|]. cbn [g_inputs g_outputs g_nodes].
  split_and!; [done | done | | | |].
  - by rewrite length_fmap, <- Hl, length_fmap.
  - intros v Hv. destruct (decide (v ∈ rs.*1)) as [Hin|Hnin].
    + apply (replacements_old db g l v Hdec) in Hin as (n & Hn & Hrw & Hout).
      exists n. rewrite <- Hl. done.
    + by apply renaming_other in Hnin.
  - intros v w Hv Hw Heq.
    assert (∀ x, x ∈ rs.*1 → ∃ y, (x, y) ∈ rs) as Hsnd.
    { intros x ([x' y] & -> & Hxy)%list_elem_of_fmap. by exists y. }
    destruct (decide (v ∈ rs.*1)) as [Hv1 | Hv1],
             (decide (w ∈ rs.*1)) as [Hw1 | Hw1].
    + destruct (Hsnd v Hv1) as [y Hy], (Hsnd w Hw1) as [z Hz].
      destruct (Hsigma v y Hy) as [Hsv _], (Hsigma w z Hz) as [Hsw _].
      assert (y = z) as -> by congruence.
      exact (NoDup_snd_functional rs v w z Hrs2 Hy Hz).
    + destruct (Hsnd v Hv1) as [y Hy]. destruct (Hsigma v y Hy) as [Hsv Hny].
      rewrite (renaming_other rs w Hw1) in Heq. exfalso. apply Hny. congruence.
    + destruct (Hsnd w Hw1) as [z Hz]. destruct (Hsigma w z Hz) as [Hsw Hnz].
      rewrite (renaming_other rs v Hv1) in Heq. exfalso. apply Hnz. congruence.
    + by rewrite (renaming_other rs v Hv1), (renaming_other rs w Hw1) in Heq.
  - intros k n Hk. rewrite <- Hl, list_lookup_fmap in Hk.
    destruct (l !! k) as [p|] eqn:Hp; [|done]. injection Hk as <-.
    rewrite list_lookup_fmap, Hp. cbn [fmap option_fmap option_map].
    eexists. split; [done|].
    destruct (replace_all_spec rs (default p.1 p.2)) as (Hkind & Houts & Hins).
    rewrite Hkind, Houts, Hins.
    pose proof (list_elem_of_lookup_2 _ _ _ Hp) as Hpl.
    rewrite Forall_forall in Hdec.
    specialize (Hdec p Hpl).
    unfold decided in Hdec. destruct p.2 as [new_node|] eqn:Hp2; cbn [default id].
    + destruct Hdec as (c & out & Hsup & Hout & Hle & Hdb & Hk' & Hin' & Hlen).
      split_and!; [by rewrite Hin' | |].
      * intros _. split; [by rewrite Hk' |].
        destruct (Hpair p new_node Hpl Hp2) as (o & w & Ho & Hw & How).
        destruct (Hsigma o w How) as [Hso Hnw].
        exists o. split; [done |]. rewrite Hso. by split.
      * intros Hno. exfalso. apply Hno. by exists c, out.
    + split_and!; [done | by intros ? | done].
Qed.

(** ** The size of the output vectors is an invariant of the runtime *)

Lemma ProcessedNode_new_spec node ins e pn :
  ProcessedNode_new node ins e = Ok pn →
  node_ pn = node ∧
  length (pn_outputs_ pn) = length (outputs node) ∧
  fn_ pn = e && canRunOutOfPlace node.
Proof.
  unfold ProcessedNode_new.
  destruct (if needs_operator (kind node) then _ else _) as [has_op|]; [|done].
  cbn [mbind result_bind]. destruct (e && canRunOutOfPlace node) eqn:He.
  - intros [= <-]. cbn. by rewrite length_replicate.
  - destruct (canRunNatively node); intros [= <-]; cbn;
      by rewrite length_replicate.
Qed.

Lemma StaticRuntime_new_sized g sch opts0 rt :
  StaticRuntime_new g sch opts0 = Ok rt → outputs_sized rt.
Proof.
  unfold StaticRuntime_new. cbv zeta.
  destruct (for_each (g_nodes g) (build_constant g) _) as [b1|] eqn:H1; [|done].
  cbn [mbind result_bind].
  destruct (for_each (g_nodes g) register_constant _) as [b1'|] eqn:H1'; [|done].
  cbn [mbind result_bind].
  destruct (for_each (g_nodes g) (build_node opts0) _) as [b2|] eqn:H2; [|done].
  cbn [mbind result_bind].
  destruct (for_each (g_outputs g) _ _) as [outs|]; [|done].
  cbn [mbind result_bind]. intros [= <-]. unfold outputs_sized. cbn [nodes_].
  set (sized := λ b : Build,
         Forall (λ pn, length (pn_outputs_ pn) = length (outputs (node_ pn)))
                (b_nodes b)).
  assert (sized b1) as Hb1.
  { revert H1. apply for_each_inv; [|by apply Forall_nil].
    intros nd b b' Hb. unfold build_constant.
    destruct (negb (is_Constant nd)); [by intros [= <-]|].
    destruct (Node_output1 nd); [|done]. cbn [mbind result_bind].
    destruct (TORCH_CHECK _ _); [|done]. cbn [mbind result_bind].
    destruct (toIValue g a); [|done]. by intros [= <-]. }
  assert (sized b1'.2) as Hb1'.
  { revert H1'. apply (for_each_inv (λ s : nat * Build, sized s.2)); [|done].
    intros nd s s' Hs. unfold register_constant.
    destruct (negb (is_Constant nd)); [by intros [= <-]|].
    destruct (Node_output1 nd); [|done]. by intros [= <-]. }
  revert H2. apply (for_each_inv sized); [|done].
  intros nd b b' Hb. unfold build_node.
  destruct (is_Constant nd); [by intros [= <-]|].
  destruct (for_each (inputs nd) _ _) as [ins|]; [|done].
  cbn [mbind result_bind].
  destruct (ProcessedNode_new nd ins _) as [pn|] eqn:Hpn; [|done].
  cbn [mbind result_bind]. intros [= <-]. unfold sized. cbn [b_nodes].
  apply Forall_app. split; [done|]. apply Forall_singleton.
  apply ProcessedNode_new_spec in Hpn as (-> & -> & _). done.
Qed.

Lemma write_ivalue_sized p v rt rt' :
  outputs_sized rt → write_ivalue p v rt = Ok rt' → outputs_sized rt'.
Proof.
  intros Hs. unfold write_ivalue. destruct (read_ivalue rt p); [|done].
  cbn [mbind result_bind]. intros [= <-].
  destruct p as [|i|i|n i]; try done.
  unfold outputs_sized. cbn [set_nodes_ nodes_].
  unfold outputs_sized in Hs. rewrite Forall_forall in Hs.
  apply Forall_forall. intros pn Hpn.
  apply list_elem_of_lookup_1 in Hpn as [k Hk].
  destruct (decide (k = n)) as [->|Hne].
  - rewrite list_lookup_alter_eq in Hk.
    destruct (nodes_ rt !! n) as [pn0|] eqn:Hn; [|done].
    injection Hk as <-. cbn. rewrite length_insert.
    apply Hs. by eapply list_elem_of_lookup_2.
  - rewrite list_lookup_alter_ne in Hk by done.
    apply Hs. by eapply list_elem_of_lookup_2.
Qed.

Lemma st_for_each_inv {A St} (P : St → Prop) (l : list A)
    (body : A → ST St unit) (s s' : St) (r : result unit) :
  (∀ x s r s', P s → body x s = (r, s') → P s') →
  P s → st_for_each l body s = (r, s') → P s'.
Proof.
  intros Hb. revert s. induction l as [|x l IH]; intros s Hs; simpl.
  - by intros [= <- <-].
  - unfold mbind, ST_bind. destruct (body x s) as [[[]|e] s1] eqn:Hx.
    + apply IH. by eapply Hb.
    + intros [= <- <-]. by eapply Hb.
Qed.

Lemma ProcessedNode_run_sized n m r m' :
  outputs_sized (runtime m) → ProcessedNode_run n m = (r, m') →
  outputs_sized (runtime m').
Proof.
  intros Hs. unfold ProcessedNode_run.
  destruct (nodes_ (runtime m) !! n) as [pn|] eqn:Hn; [|by intros [= <- <-]].
  destruct (_ ≫= _) as [out|e]; intros [= <- <-]; [|done].
  unfold outputs_sized in *. cbn [runtime set_nodes_ nodes_].
  rewrite Forall_forall in Hs. apply Forall_forall. intros pn' Hpn'.
  apply list_elem_of_lookup_1 in Hpn' as [k Hk].
  destruct (decide (k = n)) as [->|Hne].
  - rewrite list_lookup_insert_eq in Hk by (by eapply lookup_lt_Some).
    injection Hk as <-. cbn. rewrite length_resize.
    apply Hs. by eapply list_elem_of_lookup_2.
  - rewrite list_lookup_insert_ne in Hk by done.
    apply Hs. by eapply list_elem_of_lookup_2.
Qed.

(** The runtime that [run] hands to the constructor of the planner, and
    the one it leaves, have output vectors of the size of their nodes. *)
Lemma run_sized g args kwargs m :
  outputs_sized (runtime m) →
  outputs_sized (runtime (run g args kwargs m).2).
Proof.
  intros Hs.
  assert (∀ l m r m', outputs_sized (runtime m) →
            st_for_each l set_Input m = (r, m') → outputs_sized (runtime m'))
    as Hinputs.
  { intros l m0 r m' Hm0. revert Hm0.
    apply (st_for_each_inv (λ m, outputs_sized (runtime m))).
    intros x s r' s' Hsz. unfold set_Input, modify_runtime.
    destruct (write_ivalue _ _ _) as [rt|] eqn:Hw; intros [= <- <-]; [|done].
    by eapply write_ivalue_sized. }
  assert (∀ p m v m', outputs_sized (runtime m) →
            move_out p m = (v, m') → outputs_sized (runtime m')) as Hmove.
  { intros p m0 v m' Hm0. unfold move_out.
    destruct (read_ivalue _ _); [|by intros [= <- <-]].
    destruct (write_ivalue _ _ _) as [rt|] eqn:Hw; intros [= <- <-]; [|done].
    by eapply write_ivalue_sized. }
  unfold run, mbind, ST_bind.
  destruct (run_allocate m) as [ra m1] eqn:Ha.
  assert (outputs_sized (runtime m1) ∧ ra = Ok tt) as [Hs1 ->].
  { revert Ha. unfold run_allocate.
    destruct (planner_ (runtime m)); by intros [= <- <-]. }
  destruct (run_bind args kwargs m1) as [rb m2] eqn:Hb.
  assert (outputs_sized (runtime m2)) as Hs2.
  { revert Hb. unfold run_bind. destruct (decide _); [|by apply Hinputs].
    unfold mbind, ST_bind. destruct (schema_ (runtime m1));
      [|by intros [= <- <-]].
    unfold lift. destruct (call _); [by apply Hinputs | by intros [= <- <-]]. }
  destruct rb as [[]|e]; [|done].
  destruct (run_nodes m2) as [rn m3] eqn:Hn.
  assert (outputs_sized (runtime m3)) as Hs3.
  { revert Hn. unfold run_nodes.
    apply (st_for_each_inv (λ m, outputs_sized (runtime m))); [|done].
    intros n s r s' Hsz. by apply ProcessedNode_run_sized. }
  destruct rn as [[]|e]; [|done].
  destruct (run_cleanup g m3) as [rc m4] eqn:Hc.
  assert (outputs_sized (runtime m4)) as Hs4.
  { revert Hc. unfold run_cleanup.
    destruct (cleanup_activations _); [|by intros [= <- <-]].
    destruct (match planner_ (runtime m3) with Some p => _ | None => _ end)
      as [p|]; [|by intros [= <- <-]].
    destruct (deallocate p (runtime m3) (storages m3)) as [[[p' rt'] mem']|] eqn:Hd;
      intros [= <- <-]; [|done].
    cbn [runtime fst snd]. unfold outputs_sized.
    cbn [set_inputs_ set_planner_ nodes_].
    revert Hd. unfold deallocate.
    destruct (for_each _ _ _) as [rt1|] eqn:Hf; [|done].
    cbn [mbind result_bind]. intros [= _ <- _]. revert Hf.
    apply (for_each_inv outputs_sized); [|done].
    intros iv rt0 rt0'. apply write_ivalue_sized. }
  destruct rc as [[]|e]; [|done].
  unfold run_collect. destruct (decide _).
  - unfold mbind, ST_bind.
    assert (∀ ps m, outputs_sized (runtime m) →
              outputs_sized (runtime (move_all ps m).2)) as Hall.
    { intros ps. induction ps as [|p ps IH]; intros m0 Hm0; [done|].
      cbn [move_all]. unfold mbind, ST_bind.
      destruct (move_out p m0) as [[v|e] m5] eqn:Hp;
        [|cbn; by eapply Hmove].
      specialize (IH m5 (Hmove _ _ _ _ Hm0 Hp)).
      by destruct (move_all ps m5) as [[vs|e] m6]. }
    specialize (Hall (outputs_ (runtime m4)) m4 Hs4).
    by destruct (move_all _ m4) as [[vs|e] m5].
  - destruct (outputs_ (runtime m4)) as [|p ?]; [done|].
    destruct (move_out p m4) as [v m5] eqn:Hp. by eapply Hmove.
Qed.

(** ** The rank tables of DistributedC10d *)

Lemma getGroupRank_ok c t group rank r :
  getGroupRank c t group rank = Ok r ↔
  group ≠ default_pg_ c ∧
  ∃ m, pg_group_ranks_ c !! group = Some m ∧ m !! rank = Some r.
Proof.
  unfold getGroupRank, TORCH_CHECK. case_bool_decide as Hd; simpl.
  - destruct (pg_group_ranks_ c !! group) as [m|] eqn:Hm.
    + destruct (m !! rank) as [r'|] eqn:Hr.
      * split.
        -- intros [= <-]. split; [done|]. by exists m.
        -- intros (_ & m' & [= <-] & Hr'). congruence.
      * split; [done|]. intros (_ & m' & [= <-] & Hr'). congruence.
    + split; [done|]. by intros (_ & m' & ? & _).
  - split; [done|]. by intros (? & _).
Qed.

Lemma getGlobalRank_ok c group group_rank p :
  (∀ m, unordered_iteration m ≡ₚ map_to_list m) →
  getGlobalRank c group group_rank = Ok p →
  group ≠ default_pg_ c ∧
  ∃ m, pg_group_ranks_ c !! group = Some m ∧ m !! p = Some group_rank.
Proof.
  intros Hperm. unfold getGlobalRank, TORCH_CHECK.
  case_bool_decide as Hd; simpl; [|done].
  destruct (pg_group_ranks_ c !! group) as [m|] eqn:Hm; [|done].
  destruct (list_find _ _) as [[i q]|] eqn:Hf; [|done].
  intros [= <-]. split; [done|]. exists m. split; [done|].
  apply list_find_Some in Hf as (Hq & Hr & _).
  apply elem_of_map_to_list. destruct q as [q1 q2]. simpl in *. subst q2.
  rewrite <- (Hperm m). by eapply list_elem_of_lookup_2.
Qed.

(** X1. For a null group, getRank and getWorldSize answer -1 when a default
    group is set, and getRank dereferences the null pointer when none is
    set.  For a non-null group getRank returns the rank the group reports,
    whether or not the group is registered, while getWorldSize returns the
    number of ranks registered for the group and throws "The given group
    does not exist" when the group is not registered. *)
Theorem getRank_getWorldSize_cases (c : DistributedC10d) :
  (default_pg_ c ≠ None →
     getRank c None = Ok (-1)%Z ∧ getWorldSize c None = ([], Ok (-1)%Z)) ∧
  (default_pg_ c = None →
     getRank c None = Throw (undefined_behaviour "group->getRank()")) ∧
  (∀ pg, getRank c (Some pg) = Ok (ProcessGroup_getRank pg)) ∧
  (∀ pg ranks, pg_group_ranks_ c !! Some pg = Some ranks →
     (getWorldSize c (Some pg)).2 = Ok (Z.of_nat (size ranks))) ∧
  (∀ pg, pg_group_ranks_ c !! Some pg = None →
     (getWorldSize c (Some pg)).2 =
       Throw (c10_Error "The given group does not exist")).
Proof.
  assert (∀ pg, rankNotInGroup c (Some pg) = false) as Hin.
  { intros pg. unfold rankNotInGroup. by case_decide. }
  split_and!.
  - intros Hd. unfold getWorldSize, getRank, rankNotInGroup.
    rewrite decide_False by done. by rewrite bool_decide_eq_true_2.
  - intros Hd. unfold getRank, rankNotInGroup. by rewrite decide_True.
  - intros pg. unfold getRank. by rewrite Hin.
  - intros pg ranks Hr. unfold getWorldSize, getGroupSize. rewrite Hin, Hr.
    case_decide as Hd; [|done]. by rewrite <- Hd.
  - intros pg Hr. unfold getWorldSize, getGroupSize. rewrite Hin, Hr.
    case_decide as Hd; [|done]. by rewrite <- Hd.
Qed.

(** X2. getGlobalRank throws exactly when the group is the default group,
    is not registered, or has no member with the given group rank; the
    three cases have the messages of the three checks, tried in this
    order. *)
Theorem getGlobalRank_throws (c : DistributedC10d) (group : ProcessGroupPtr)
    (group_rank : Z) :
  (∀ m, unordered_iteration m ≡ₚ map_to_list m) →
  (group = default_pg_ c →
     getGlobalRank c group group_rank = Throw (c10_Error
       "group.WORLD does not have local rank to global rank mapping")) ∧
  (group ≠ default_pg_ c → pg_group_ranks_ c !! group = None →
     getGlobalRank c group group_rank =
       Throw (c10_Error "The given group does not exist")) ∧
  (∀ m, group ≠ default_pg_ c → pg_group_ranks_ c !! group = Some m →
     (∀ p, m !! p ≠ Some group_rank) →
     getGlobalRank c group group_rank =
       Throw (c10_Error "The group rank is not part of the group")) ∧
  (∀ m p, group ≠ default_pg_ c → pg_group_ranks_ c !! group = Some m →
     m !! p = Some group_rank →
     ∃ q, getGlobalRank c group group_rank = Ok q ∧ m !! q = Some group_rank).
Proof.
  intros Hperm. unfold getGlobalRank, TORCH_CHECK. split_and!.
  - intros ->. by rewrite bool_decide_eq_false_2 by (by intros ?).
  - intros Hd ->. by rewrite bool_decide_eq_true_2.
  - intros m Hd -> Hno. rewrite bool_decide_eq_true_2 by done. simpl.
    destruct (list_find _ _) as [[i q]|] eqn:Hf; [|done].
    apply list_find_Some in Hf as (Hq & Hr & _). exfalso.
    apply (Hno q.1). apply elem_of_map_to_list. rewrite <- (Hperm m).
    destruct q as [q1 q2]. simpl in *. subst q2.
    by eapply list_elem_of_lookup_2.
  - intros m p Hd -> Hp. rewrite bool_decide_eq_true_2 by done. simpl.
    destruct (list_find (λ p0 : Z * Z, p0.2 = group_rank)
                (unordered_iteration m)) as [[i q]|] eqn:Hf.
    + exists q.1. split; [done|].
      apply list_find_Some in Hf as (Hq & Hr & _).
      apply elem_of_map_to_list. rewrite <- (Hperm m).
      destruct q as [q1 q2]. simpl in *. subst q2.
      by eapply list_elem_of_lookup_2.
    + exfalso. apply list_find_None in Hf.
      rewrite Forall_forall in Hf. apply (Hf (p, group_rank)); [|done].
      rewrite (Hperm m). by apply elem_of_map_to_list.
Qed.

(** X3. Going from a group rank to the global rank and back is the
    identity: if getGlobalRank gives P for the group rank R, getGroupRank
    gives R for P.  The other way round holds when no two members of the
    group have the same group rank. *)
Theorem getGlobalRank_getGroupRank (c : DistributedC10d)
    (t : ProcessGroupTables) (group : ProcessGroupPtr) (p r : Z) :
  (∀ m, unordered_iteration m ≡ₚ map_to_list m) →
  (getGlobalRank c group r = Ok p → getGroupRank c t group p = Ok r) ∧
  ((∀ m p1 p2 r', pg_group_ranks_ c !! group = Some m →
      m !! p1 = Some r' → m !! p2 = Some r' → p1 = p2) →
   getGroupRank c t group p = Ok r → getGlobalRank c group r = Ok p).
Proof.
  intros Hperm. split.
  - intros H. apply getGlobalRank_ok in H as (Hd & m & Hm & Hp); [|done].
    apply getGroupRank_ok. split; [done|]. by exists m.
  - intros Hinj H. apply getGroupRank_ok in H as (Hd & m & Hm & Hp).
    destruct (getGlobalRank c group r) as [q|e] eqn:Hq.
    + apply getGlobalRank_ok in Hq as (_ & m' & Hm' & Hq); [|done].
      assert (m' = m) as -> by congruence.
      f_equal. by eapply Hinj.
    + exfalso. revert Hq. unfold getGlobalRank, TORCH_CHECK.
      rewrite bool_decide_eq_true_2 by done. simpl. rewrite Hm.
      destruct (list_find _ _) as [[i q]|] eqn:Hf; [done|]. intros _.
      apply list_find_None in Hf. rewrite Forall_forall in Hf.
      apply (Hf (p, r)); [|done]. rewrite (Hperm m).
      by apply elem_of_map_to_list.
Qed.

(** X4. getGroupRank succeeds exactly for a registered group other than the
    default group and a global rank that is a key of its table, and then
    returns the entry; for a rank that is not a key the message names the
    rank in decimal and the group by its registered name, or "Unknown". *)
Theorem getGroupRank_cases (c : DistributedC10d) (t : ProcessGroupTables)
    (group : ProcessGroupPtr) (rank : Z) :
  (∀ r, getGroupRank c t group rank = Ok r ↔
        group ≠ default_pg_ c ∧
        ∃ m, pg_group_ranks_ c !! group = Some m ∧ m !! rank = Some r) ∧
  (group = default_pg_ c →
     getGroupRank c t group rank = Throw (c10_Error
       "group.WORLD does not have local rank to global rank mapping")) ∧
  (∀ m, group ≠ default_pg_ c → pg_group_ranks_ c !! group = Some m →
     m !! rank = None →
     getGroupRank c t group rank =
       Throw (c10_Error ("The global rank " +:+ pretty rank +:+
                         " is not part of the group " +:+
                         default "Unknown" (pg_names_ t !! group)))).
Proof.
  split_and!.
  - intros r. apply getGroupRank_ok.
  - intros ->. unfold getGroupRank, TORCH_CHECK.
    by rewrite bool_decide_eq_false_2 by (by intros ?).
  - intros m Hd Hm Hr. unfold getGroupRank, TORCH_CHECK.
    rewrite bool_decide_eq_true_2 by done. simpl. by rewrite Hm, Hr.
Qed.


(** ** compute_aligned_tensor_size, for an alignment that is a power of two *)

Lemma compute_aligned_tensor_size_formula (k n : Z) :
  gAlignment = (2 ^ k)%Z → (0 ≤ k < 64)%Z →
  compute_aligned_tensor_size n =
    (size_t (n + gAlignment - 1) - size_t (n + gAlignment - 1) mod gAlignment)%Z.
Proof.
  intros HA Hk. unfold compute_aligned_tensor_size.
  pose proof (size_t_range (n + gAlignment - 1)) as Hx.
  set (x := size_t (n + gAlignment - 1)) in *.
  assert (0 < 2 ^ k ≤ 2 ^ 63)%Z as Hpow.
  { split; [apply Z.pow_pos_nonneg; lia|].
    apply Z.pow_le_mono_r; lia. }
  assert (size_t (gAlignment - 1) = Z.ones k) as ->.
  { rewrite Z.ones_equiv, HA. apply size_t_small. lia. }
  assert (Z.land x (size_t (Z.lnot (Z.ones k))) = Z.ldiff x (Z.ones k)) as ->.
  { unfold size_t. rewrite <- (Z.land_ones _ 64) by lia.
    rewrite (Z.land_comm (Z.lnot _)), Z.land_assoc.
    assert (Z.land x (Z.ones 64) = x) as ->.
    { rewrite Z.land_ones by lia. apply Z.mod_small. lia. }
    by rewrite Z.ldiff_land. }
  rewrite Z.ldiff_ones_r by lia.
  rewrite Z.shiftl_mul_pow2, Z.shiftr_div_pow2 by lia.
  rewrite HA. rewrite (Z.mod_eq x (2 ^ k)) by lia. lia.
Qed.

(** X5. With an alignment that is a power of two, a size that can be
    rounded up without leaving size_t becomes the least multiple of the
    alignment that is not below it; a size that is a multiple already is
    returned as it is. *)
Theorem compute_aligned_tensor_size_rounds_up (k n : Z) :
  gAlignment = (2 ^ k)%Z → (0 ≤ k < 64)%Z →
  (0 ≤ n)%Z → (n + gAlignment - 1 < 2 ^ 64)%Z →
  (compute_aligned_tensor_size n mod gAlignment = 0)%Z ∧
  (n ≤ compute_aligned_tensor_size n < n + gAlignment)%Z ∧
  (∀ r, (r mod gAlignment = 0)%Z → (n ≤ r)%Z →
        (compute_aligned_tensor_size n ≤ r)%Z) ∧
  ((n mod gAlignment = 0)%Z → compute_aligned_tensor_size n = n).
Proof.
  intros HA Hk Hn Hfit.
  rewrite (compute_aligned_tensor_size_formula k n HA Hk).
  assert (0 < gAlignment)%Z as Hpos.
  { rewrite HA. apply Z.pow_pos_nonneg; lia. }
  rewrite size_t_small by lia.
  set (x := (n + gAlignment - 1)%Z).
  pose proof (Z.mod_pos_bound x gAlignment Hpos) as Hm.
  assert ((x - x mod gAlignment) mod gAlignment = 0)%Z as Hmul.
  { rewrite Zminus_mod, Z.mod_mod, Z.sub_diag by lia. by apply Z.mod_0_l, Z.neq_sym, Z.lt_neq. }
  assert (∀ r, (r mod gAlignment = 0)%Z → (n ≤ r)%Z →
               (x - x mod gAlignment ≤ r)%Z) as Hleast.
  { intros r Hr Hnr.
    apply Z.mod_divide in Hr as [q ->]; [|lia].
    apply Z.mod_divide in Hmul as [q' Hq']; [|lia].
    rewrite Hq'. apply Z.mul_le_mono_nonneg_r; [lia|].
    destruct (decide (q' ≤ q)%Z) as [|Hgt]; [done|]. exfalso.
    assert (q + 1 ≤ q')%Z as Hq1 by lia.
    assert ((q + 1) * gAlignment ≤ q' * gAlignment)%Z by nia.
    subst x. lia. }
  split_and!; [done| subst x; lia | subst x; lia | done |].
  intros Hal. apply Z.le_antisymm; [by apply Hleast | subst x; lia].
Qed.

(** X6. A size so close to the top of size_t that rounding it up to the
    alignment overflows is rounded to a value below the alignment that is a
    multiple of it, that is to 0. *)
Theorem compute_aligned_tensor_size_wraps (k n : Z) :
  gAlignment = (2 ^ k)%Z → (0 ≤ k < 64)%Z →
  (2 ^ 64 - gAlignment < n < 2 ^ 64)%Z →
  compute_aligned_tensor_size n = 0%Z.
Proof.
  intros HA Hk Hn.
  rewrite (compute_aligned_tensor_size_formula k n HA Hk).
  assert (0 < gAlignment ≤ 2 ^ 63)%Z as Hpos.
  { rewrite HA. split; [apply Z.pow_pos_nonneg; lia|].
    apply Z.pow_le_mono_r; lia. }
  assert (size_t (n + gAlignment - 1) = n + gAlignment - 1 - 2 ^ 64)%Z as ->.
  { unfold size_t. symmetry. apply (Z.mod_unique_pos _ _ 1); lia. }
  rewrite Z.mod_small by lia. lia.
Qed.


(** ** ProcessedNode *)

(** X7. The constructor of ProcessedNode throws exactly when the node is
    not a ListConstruct, TupleConstruct or ListUnpack node and its operator
    is not found or has no operation, whether or not an out variant or a
    native implementation would run the node.  Otherwise the node gets one
    empty slot per output and at most one of fn_ and native_fn_: the out
    variant when out variants are enabled and the node has one, else the
    native implementation when the node has one. *)
Theorem ProcessedNode_new_cases (node : Node) (ins : list IValuePtr)
    (enable_out_variants : bool) :
  (fails (ProcessedNode_new node ins enable_out_variants) ↔
     needs_operator (kind node) = true ∧ getOperator node ≠ Some true) ∧
  ∀ pn, ProcessedNode_new node ins enable_out_variants = Ok pn →
    node_ pn = node ∧ pn_inputs_ pn = ins ∧
    pn_outputs_ pn = replicate (length (outputs node)) INone ∧
    op_ pn = needs_operator (kind node) ∧
    fn_ pn = enable_out_variants && canRunOutOfPlace node ∧
    native_fn_ pn =
      negb (enable_out_variants && canRunOutOfPlace node) && canRunNatively node ∧
    fn_ pn && native_fn_ pn = false.
Proof.
  unfold ProcessedNode_new, fails, TORCH_CHECK.
  destruct (needs_operator (kind node)); simpl.
  - destruct (getOperator node) as [[|]|]; simpl.
    + split.
      * split; [|by intros [_ ?]].
        intros [e He]. exfalso. revert He.
        destruct (_ && _); [done|]. by destruct (canRunNatively node).
      * intros pn.
        destruct (enable_out_variants && canRunOutOfPlace node);
          [|destruct (canRunNatively node)]; by intros [= <-].
    + split; [|done]. split; [done|]. by eexists.
    + split; [|done]. split; [done|]. by eexists.
  - split.
    + split; [|by intros [? _]].
      intros [e He]. exfalso. revert He.
      destruct (_ && _); [done|]. by destruct (canRunNatively node).
    + intros pn.
      destruct (enable_out_variants && canRunOutOfPlace node);
        [|destruct (canRunNatively node)]; by intros [= <-].
Qed.

(** X8. A ListConstruct, TupleConstruct or ListUnpack node that has neither
    an out variant in use nor a native implementation is constructed
    without an operation; running it calls through the empty op_. *)
Theorem ProcessedNode_run_without_operation (node : Node)
    (ins : list IValuePtr) (enable_out_variants : bool) :
  needs_operator (kind node) = false →
  enable_out_variants && canRunOutOfPlace node = false →
  canRunNatively node = false →
  ∃ pn, ProcessedNode_new node ins enable_out_variants = Ok pn ∧
        ∀ vals mem, dispatch pn vals mem = Throw (undefined_behaviour "op_").
Proof.
  intros Hk Hout Hnat. unfold ProcessedNode_new. rewrite Hk, Hout, Hnat.
  simpl. eexists. split; [done|]. intros vals mem. by unfold dispatch.
Qed.

(** ** RemoveSelfFromGraphInput *)

Lemma hasUses_spec g v :
  hasUses g v = true ↔ ∃ nd, nd ∈ all_nodes g ∧ v ∈ inputs nd.
Proof.
  rewrite hasUses_users. split.
  - intros Hne. apply set_choose_L in Hne as [j Hj].
    apply users_spec in Hj as (nd & Hnd & Hv). exists nd. split; [|done].
    by eapply list_elem_of_lookup_2.
  - intros (nd & Hnd & Hv). apply list_elem_of_lookup_1 in Hnd as [j Hj].
    intros He. assert (j ∈ users g v) as Hin by (apply users_spec; eauto).
    rewrite He in Hin. by apply not_elem_of_empty in Hin.
Qed.

(** X9. RemoveSelfFromGraphInput throws on a graph without inputs, and on
    a graph whose first input is of module type and is consumed by a node
    or returned.  It leaves a graph whose first input is not of module type
    as it is, and otherwise removes the first input and nothing else; a
    well-formed graph stays well-formed. *)
Theorem RemoveSelfFromGraphInput_cases (g : Graph) :
  (g_inputs g = [] → fails (RemoveSelfFromGraphInput g)) ∧
  (∀ self rest, g_inputs g = self :: rest →
     (is_module (type_of g self) = false → RemoveSelfFromGraphInput g = Ok g) ∧
     (is_module (type_of g self) = true →
        (∃ nd, nd ∈ all_nodes g ∧ self ∈ inputs nd) →
        fails (RemoveSelfFromGraphInput g)) ∧
     (is_module (type_of g self) = true →
        (∀ nd, nd ∈ all_nodes g → self ∉ inputs nd) →
        RemoveSelfFromGraphInput g =
          Ok (mkGraph rest (g_nodes g) (g_outputs g) (type_of g)))) ∧
  (∀ g', wf_graph g → RemoveSelfFromGraphInput g = Ok g' → wf_graph g').
Proof.
  unfold RemoveSelfFromGraphInput. split_and!.
  - intros ->. by eexists.
  - intros self rest Hin. rewrite Hin. split_and!.
    + by intros ->.
    + intros -> Hex. apply hasUses_spec in Hex. rewrite Hex. simpl.
      by eexists.
    + intros -> Hno. destruct (hasUses g self) eqn:Hu.
      * apply hasUses_spec in Hu as (nd & Hnd & Hv). by destruct (Hno nd).
      * simpl. unfold eraseInput0. by rewrite Hin.
  - intros g' Hwf. destruct (g_inputs g) as [|self rest] eqn:Hin; [done|].
    destruct (is_module (type_of g self)); [|by intros [= <-]].
    destruct (hasUses g self) eqn:Hu; [done|]. simpl. intros [= <-].
    assert (∀ nd, nd ∈ all_nodes g → self ∉ inputs nd) as Hno.
    { intros nd Hnd Hv. assert (hasUses g self = true) as Hc
        by (apply hasUses_spec; eauto). congruence. }
    destruct Hwf as [Hnd Huse]. unfold wf_graph, eraseInput0.
    rewrite Hin in Hnd. simpl in Hnd. apply NoDup_cons in Hnd as [_ Hnd].
    split; [by rewrite Hin|].
    unfold all_nodes, return_node in *. simpl.
    rewrite Forall_forall in Huse. rewrite Forall_forall.
    intros [j nd] Hj. specialize (Huse _ Hj). simpl in *.
    rewrite Forall_forall in Huse. rewrite Forall_forall. intros v Hv.
    specialize (Huse v Hv). unfold defined_before in *. simpl.
    rewrite Hin in Huse. simpl in Huse.
    apply elem_of_cons in Huse as [-> | Huse]; [|by rewrite Hin].
    exfalso. apply elem_of_lookup_imap_1 in Hj as (k & y & [= <- <-] & Hk).
    apply (Hno nd); [|done]. by eapply list_elem_of_lookup_2.
Qed.


(** ** GetOptimizableValues *)

Lemma classify_fold ok (l : list Value) (r : gset Value * gset Value) v :
  (v ∈ (foldl (classify ok) r l).1 ↔ v ∈ r.1 ∨ (ok = true ∧ v ∈ l)) ∧
  (v ∈ (foldl (classify ok) r l).2 ↔ v ∈ r.2 ∨ (ok = false ∧ v ∈ l)).
Proof.
  revert r. induction l as [|x l IH]; intros r; simpl.
  - split; (split; [by left | intros [?|[_ H]]; [done | by inversion H]]).
  - destruct (IH (classify ok r x)) as [IH1 IH2]. rewrite IH1, IH2.
    unfold classify. destruct ok; simpl; rewrite ?elem_of_union,
      ?elem_of_singleton, ?elem_of_cons; clear_params; clear IH IH1 IH2;
      split; intuition congruence.
Qed.

Lemma optimizable_nodes (l : list Node) (r : gset Value * gset Value) v :
  (v ∈ (foldl optimizable_node r l).1 ↔
     v ∈ r.1 ∨ ∃ n, n ∈ l ∧
       ((canRunOutOfPlace n && canReuseInputsOutputs n && canReuseInputs n = true
         ∧ v ∈ inputs n) ∨
        (canRunOutOfPlace n && canReuseInputsOutputs n && canReuseOutputs n = true
         ∧ v ∈ outputs n))) ∧
  (v ∈ (foldl optimizable_node r l).2 ↔
     v ∈ r.2 ∨ ∃ n, n ∈ l ∧
       ((canRunOutOfPlace n && canReuseInputsOutputs n && canReuseInputs n = false
         ∧ v ∈ inputs n) ∨
        (canRunOutOfPlace n && canReuseInputsOutputs n && canReuseOutputs n = false
         ∧ v ∈ outputs n))).
Proof.
  revert r. induction l as [|n l IH]; intros r; simpl.
  - split; (split; [by left | intros [?|(n & H & _)]; [done | by inversion H]]).
  - destruct (IH (optimizable_node r n)) as [IH1 IH2]. rewrite IH1, IH2.
    unfold optimizable_node.
    destruct (classify_fold
      (canRunOutOfPlace n && canReuseInputsOutputs n && canReuseOutputs n)
      (outputs n)
      (foldl (classify (canRunOutOfPlace n && canReuseInputsOutputs n &&
                        canReuseInputs n)) r (inputs n)) v) as [-> ->].
    destruct (classify_fold
      (canRunOutOfPlace n && canReuseInputsOutputs n && canReuseInputs n)
      (inputs n) r v) as [-> ->].
    split.
    + split.
      * intros [[[?|[? ?]]|[? ?]]|(n' & ? & ?)]; [by left|right..].
        -- exists n. split; [left|]; eauto.
        -- exists n. split; [left|]; eauto.
        -- exists n'. split; [by right|done].
      * intros [?|(n' & Hn' & H)]; [by left; left; left|].
        apply elem_of_cons in Hn' as [-> | Hn']; [|right; eauto].
        left. destruct H as [[? ?]|[? ?]]; [left; right | right]; done.
    + split.
      * intros [[[?|[? ?]]|[? ?]]|(n' & ? & ?)]; [by left|right..].
        -- exists n. split; [left|]; eauto.
        -- exists n. split; [left|]; eauto.
        -- exists n'. split; [by right|done].
      * intros [?|(n' & Hn' & H)]; [by left; left; left|].
        apply elem_of_cons in Hn' as [-> | Hn']; [|right; eauto].
        left. destruct H as [[? ?]|[? ?]]; [left; right | right]; done.
Qed.

Lemma erase_all (l : list Value) (s : gset Value) v :
  v ∈ foldl (λ can_reuse x, can_reuse ∖ {[x]}) s l ↔ v ∈ s ∧ v ∉ l.
Proof.
  revert s. induction l as [|x l IH]; intros s; simpl.
  - split; [intros Hv; split; [done | by intros Hx; inversion Hx] | by intros [? _]].
  - rewrite IH, elem_of_difference, elem_of_singleton, not_elem_of_cons.
    clear_params. clear IH. tauto.
Qed.

(** X10. A Value is returned by GetOptimizableValues exactly when it is an
    input or an output of some node of the graph, every node that takes it
    as an input can run out of place and can reuse its inputs and outputs
    and its inputs, and every node that has it as an output can run out of
    place and can reuse its inputs and outputs and its outputs. *)
Theorem GetOptimizableValues_iff (g : Graph) (v : Value) :
  v ∈ GetOptimizableValues g ↔
  (∃ n, n ∈ g_nodes g ∧ (v ∈ inputs n ∨ v ∈ outputs n)) ∧
  (∀ n, n ∈ g_nodes g → v ∈ inputs n →
     canRunOutOfPlace n && canReuseInputsOutputs n && canReuseInputs n = true) ∧
  (∀ n, n ∈ g_nodes g → v ∈ outputs n →
     canRunOutOfPlace n && canReuseInputsOutputs n && canReuseOutputs n = true).
Proof.
  unfold GetOptimizableValues. rewrite erase_all, elem_of_elements.
  destruct (optimizable_nodes (g_nodes g) (∅, ∅) v) as [-> ->]. simpl.
  split.
  - intros [[H0|(n & Hn & H)] Hnot]; [by apply not_elem_of_empty in H0|].
    split; [exists n; split; [done|]; destruct H as [[_ ?]|[_ ?]]; eauto|].
    split; intros n' Hn' Hv; apply not_false_iff_true; intros Hf;
      apply Hnot; right; exists n'; split; eauto.
  - intros ((n & Hn & H) & HI & HO). split.
    + right. exists n. split; [done|]. destruct H as [H|H]; [left|right]; eauto.
    + intros [H0|(n' & Hn' & [[Hf Hv]|[Hf Hv]])];
        [by apply not_elem_of_empty in H0| |].
      * rewrite (HI n' Hn' Hv) in Hf. done.
      * rewrite (HO n' Hn' Hv) in Hf. done.
Qed.


(** ** The entries of the liveness map and the set always_alive *)

Lemma for_each_imap_inv_ok {A St} (P : nat → St → Prop) (l : list A)
    (body : nat * A → St → result St) (s s' : St) :
  P 0%nat s →
  (∀ k x s s', l !! k = Some x → P k s → body (k, x) s = Ok s' → P (S k) s') →
  for_each (imap pair l) body s = Ok s' → P (length l) s'.
Proof.
  intros H0. revert s'. induction l as [|x l IH] using rev_ind; intros s' Hstep.
  - by intros [= <-].
  - rewrite imap_app, for_each_app.
    destruct (for_each (imap pair l) body s) as [s1|] eqn:Hs1; [|done].
    cbn [mbind result_bind imap for_each]. rewrite Nat.add_0_r.
    destruct (body (length l, x) s1) as [s2|] eqn:Hs2; [|done].
    intros [= <-]. rewrite length_app. simpl. rewrite Nat.add_1_r.
    apply (Hstep (length l) x s1).
    + rewrite lookup_app_r by lia. by rewrite Nat.sub_diag.
    + apply IH; [|done]. intros k y t t' Hk. apply Hstep.
      by apply lookup_app_l_Some.
    + done.
Qed.

Lemma add_live_value_alive g v st st' :
  add_live_value g v st = Ok st' → always_alive st' = always_alive st.
Proof.
  unfold add_live_value.
  destruct (for_each _ _ (<[v:=∅]> (liveness_map st))) as [lm1|]; [|done].
  cbn [mbind result_bind].
  destruct (for_each (uses g v) _ _) as [lv1|]; [|done].
  by intros [= <-].
Qed.

Lemma sweep_always_alive g st :
  sweep g = Ok st →
  ∀ v, v ∈ always_alive st ↔
       v ∈ g_inputs g ∨ v ∈ g_outputs g ∨
       (is_const g v ∧ ∃ nd, nd ∈ g_nodes g ∧ v ∈ inputs nd).
Proof.
  intros Hs.
  assert (∀ v, v ∈ always_alive st ↔
               v ∈ g_inputs g ∨ v ∈ g_outputs g ∨
               (is_const g v ∧ ∃ j nd, (j < length (g_nodes g))%nat ∧
                  g_nodes g !! j = Some nd ∧ v ∈ inputs nd)) as H.
  { revert Hs. unfold sweep.
    apply (for_each_imap_inv_ok (λ k st, ∀ v, v ∈ always_alive st ↔
               v ∈ g_inputs g ∨ v ∈ g_outputs g ∨
               (is_const g v ∧ ∃ j nd, (j < k)%nat ∧
                  g_nodes g !! j = Some nd ∧ v ∈ inputs nd))).
    - intros v. cbn [always_alive].
      rewrite elem_of_union, !elem_of_list_to_set. split.
      + intros [?|?]; [by left | by right; left].
      + intros [?|[?|(_ & j & _ & Hj & _)]]; [by left | by right | lia].
    - intros k nd s s' Hk HP. unfold sweep_node. cbn [fst snd].
      destruct (for_each (outputs nd) (add_live_value g) s) as [st1|] eqn:H1;
        [|done].
      cbn [mbind result_bind]. intros [= <-] v. unfold erase_dead.
      cbn [always_alive].
      assert (always_alive st1 = always_alive s) as Hal.
      { revert H1. apply (for_each_inv (λ t, always_alive t = always_alive s));
          [|done]. intros x t t' Ht Hx. rewrite <- Ht.
        by eapply add_live_value_alive. }
      destruct (traverse_node_spec g k (inputs nd) st1 []) as (_ & Ha & _).
      unfold traverse_node. rewrite Ha, Hal, HP. split.
      + intros [[?|[?|(Hc & j & nd' & Hj & Hnd' & Hv)]]|[Hv Hc]].
        * by left.
        * by right; left.
        * right; right. split; [done|]. exists j, nd'. split; [lia|done].
        * right; right. split; [done|]. exists k, nd. split; [lia|done].
      + intros [?|[?|(Hc & j & nd' & Hj & Hnd' & Hv)]].
        * by left; left.
        * by left; right; left.
        * destruct (decide (j = k)) as [->|Hne].
          -- right. split; [|done]. by replace nd with nd' by congruence.
          -- left; right; right. split; [done|]. exists j, nd'.
             split; [lia|done]. }
  intros v. rewrite H. split.
  - intros [?|[?|(Hc & j & nd & _ & Hj & Hv)]]; [by left | by right; left|].
    right; right. split; [done|]. exists nd. split; [|done].
    by eapply list_elem_of_lookup_2.
  - intros [?|[?|(Hc & nd & Hnd & Hv)]]; [by left | by right; left|].
    right; right. split; [done|].
    apply list_elem_of_lookup_1 in Hnd as [j Hj]. exists j, nd.
    split; [by eapply lookup_lt_Some | done].
Qed.

(** X11. For a well-formed graph LivenessMap returns a map with an entry
    for exactly the outputs of the nodes of the graph, used or not,
    constants included, and a set always_alive made of exactly the graph
    inputs, the graph outputs and the constants that some node of the graph
    takes as an input. *)
Theorem LivenessMap_entries (g : Graph) :
  wf_graph g →
  ∃ lm aa,
    LivenessMap g = Ok (lm, aa) ∧
    (∀ v, v ∈ dom lm ↔ ∃ nd, nd ∈ g_nodes g ∧ v ∈ outputs nd) ∧
    (∀ v, v ∈ aa ↔
          v ∈ g_inputs g ∨ v ∈ g_outputs g ∨
          (is_const g v ∧ ∃ nd, nd ∈ g_nodes g ∧ v ∈ inputs nd)).
Proof.
  intros Hwf.
  destruct (LivenessMap_relation g Hwf) as (st & lm & Hst & Hinv & Hlm & Hd & _).
  exists lm, (always_alive st). split; [done|]. split.
  - intros v. rewrite Hd, (inv_dom _ _ _ _ Hinv), app_nil_r. unfold outs_upto.
    rewrite firstn_all, list_elem_of_join. split.
    + intros (l & Hv & Hl). apply list_elem_of_fmap in Hl as (nd & -> & Hnd).
      by exists nd.
    + intros (nd & Hnd & Hv). exists (outputs nd). split; [done|].
      apply list_elem_of_fmap. by exists nd.
  - by apply sweep_always_alive.
Qed.


(** ** StaticRuntime::run: what is executed, cleaned up and returned *)

Lemma same_frame_refl rt : same_frame rt rt.
Proof. by unfold same_frame. Qed.

Lemma same_frame_trans rt1 rt2 rt3 :
  same_frame rt1 rt2 → same_frame rt2 rt3 → same_frame rt1 rt3.
Proof.
  unfold same_frame. intros (?&?&?&?&?&?) (?&?&?&?&?&?).
  split_and!; congruence.
Qed.

Lemma write_ivalue_frame p v rt rt' :
  write_ivalue p v rt = Ok rt' → same_frame rt rt'.
Proof.
  unfold write_ivalue. destruct (read_ivalue rt p); [|done].
  cbn [mbind result_bind]. intros [= <-]. unfold same_frame.
  destruct p as [|i|i|n i]; cbn; split_and!; try done.
  - by rewrite length_insert.
  - by rewrite length_alter.
Qed.

Lemma read_write_ivalue p v rt rt' q :
  write_ivalue p v rt = Ok rt' →
  read_ivalue rt' q = if decide (q = p) then Ok v else read_ivalue rt q.
Proof.
  unfold write_ivalue. destruct (read_ivalue rt p) as [v0|] eqn:Hr; [|done].
  cbn [mbind result_bind]. intros [= <-].
  destruct p as [|i|i|n i].
  - done.
  - unfold read_ivalue in Hr.
    destruct (inputs_ rt !! i) as [w|] eqn:Hi; [|done].
    destruct q as [|j|j|n' j]; try (by rewrite decide_False).
    unfold read_ivalue. cbn [set_inputs_ inputs_].
    destruct (decide (j = i)) as [->|Hne].
    + rewrite decide_True by done.
      by rewrite list_lookup_insert_eq by (by eapply lookup_lt_Some).
    + rewrite decide_False by congruence.
      by rewrite list_lookup_insert_ne.
  - unfold read_ivalue in Hr.
    destruct (constants_ rt !! i) as [w|] eqn:Hi; [|done].
    destruct q as [|j|j|n' j]; try (by rewrite decide_False).
    unfold read_ivalue. cbn [set_constants_ constants_].
    destruct (decide (j = i)) as [->|Hne].
    + rewrite decide_True by done.
      by rewrite list_lookup_insert_eq by (by eapply lookup_lt_Some).
    + rewrite decide_False by congruence.
      by rewrite list_lookup_insert_ne.
  - unfold read_ivalue in Hr.
    destruct (nodes_ rt !! n) as [pn|] eqn:Hn; [|done]. simpl in Hr.
    destruct (pn_outputs_ pn !! i) as [w|] eqn:Hi; [|done].
    destruct q as [|j|j|n' j]; try (by rewrite decide_False).
    unfold read_ivalue. cbn [set_nodes_ nodes_].
    destruct (decide (n' = n)) as [->|Hne].
    + rewrite list_lookup_alter_eq, Hn. simpl.
      destruct (decide (j = i)) as [->|Hne'].
      * rewrite decide_True by done.
        by rewrite list_lookup_insert_eq by (by eapply lookup_lt_Some).
      * rewrite decide_False by congruence.
        by rewrite list_lookup_insert_ne.
    + rewrite decide_False by congruence.
      by rewrite list_lookup_alter_ne.
Qed.

Lemma set_Input_frame p m r m' :
  set_Input p m = (r, m') →
  same_frame (runtime m) (runtime m') ∧ executed m' = executed m.
Proof.
  unfold set_Input, modify_runtime.
  destruct (write_ivalue _ _ _) as [rt|] eqn:Hw; intros [= <- <-].
  - split; [|done]. by eapply write_ivalue_frame.
  - split; [apply same_frame_refl | done].
Qed.

Lemma run_bind_frame args kwargs m r m' :
  run_bind args kwargs m = (r, m') →
  same_frame (runtime m) (runtime m') ∧ executed m' = executed m.
Proof.
  assert (∀ l m r m', st_for_each l set_Input m = (r, m') →
            same_frame (runtime m) (runtime m') ∧ executed m' = executed m)
    as Hloop.
  { intros l m0 r0 m0'.
    apply (st_for_each_inv (λ s, same_frame (runtime m0) (runtime s) ∧
                                 executed s = executed m0)).
    - intros x s r1 s' [Hf He] Hx. apply set_Input_frame in Hx as [Hf' He'].
      split; [by eapply same_frame_trans | congruence].
    - split; [apply same_frame_refl | done]. }
  unfold run_bind. case_decide; [|apply Hloop].
  unfold mbind, ST_bind, lift.
  destruct (schema_ (runtime m)) as [sch|].
  - destruct (call _) as [s|e].
    + apply Hloop.
    + intros [= <- <-]. split; [apply same_frame_refl | done].
  - intros [= <- <-]. split; [apply same_frame_refl | done].
Qed.

Lemma ProcessedNode_run_frame n m r m' :
  (n < length (nodes_ (runtime m)))%nat →
  ProcessedNode_run n m = (r, m') →
  same_frame (runtime m) (runtime m') ∧ inputs_ (runtime m') = inputs_ (runtime m) ∧
  executed m' = executed m ++ [n].
Proof.
  intros Hn. unfold ProcessedNode_run.
  destruct (nodes_ (runtime m) !! n) as [pn|] eqn:Hpn.
  - destruct (_ ≫= _) as [out|e]; intros [= <- <-]; cbn.
    + split; [|done]. unfold same_frame. cbn.
      split_and!; try done. by rewrite length_insert.
    + split; [apply same_frame_refl | done].
  - apply lookup_ge_None in Hpn. lia.
Qed.

Lemma run_nodes_from cnt a m r m' :
  (a + cnt ≤ length (nodes_ (runtime m)))%nat →
  st_for_each (seq a cnt) ProcessedNode_run m = (r, m') →
  same_frame (runtime m) (runtime m') ∧ inputs_ (runtime m') = inputs_ (runtime m) ∧
  (r = Ok tt → executed m' = executed m ++ seq a cnt) ∧
  (∀ e, r = Throw e →
     ∃ c, (c < cnt)%nat ∧ executed m' = executed m ++ seq a (S c)).
Proof.
  revert a m. induction cnt as [|cnt IH]; intros a m Hle; simpl.
  - unfold mret, ST_ret. intros [= <- <-]. rewrite app_nil_r.
    split_and!; [apply same_frame_refl | done | done | done].
  - unfold mbind, ST_bind.
    destruct (ProcessedNode_run a m) as [[[]|e1] m1] eqn:H1.
    + apply ProcessedNode_run_frame in H1 as (Hf1 & Hi1 & He1); [|lia].
      intros H2. apply IH in H2 as (Hf2 & Hi2 & Hok & Hth).
      2:{ destruct Hf1 as (_&_&_&_&_&->). lia. }
      split_and!.
      * by eapply same_frame_trans.
      * congruence.
      * intros Hr. rewrite (Hok Hr), He1, <- app_assoc. done.
      * intros e Hr. destruct (Hth e Hr) as (c & Hc & Hex).
        exists (S c). split; [lia|]. rewrite Hex, He1, <- app_assoc. done.
    + intros [= <- <-].
      apply ProcessedNode_run_frame in H1 as (Hf1 & Hi1 & He1); [|lia].
      split_and!; [done | done | done |].
      intros e [= <-]. exists 0%nat. split; [lia|]. by rewrite He1.
Qed.

Lemma run_allocate_frame m :
  ∃ m1, run_allocate m = (Ok tt, m1) ∧
    schema_ (runtime m1) = schema_ (runtime m) ∧
    opts_ (runtime m1) = opts_ (runtime m) ∧
    outputs_ (runtime m1) = outputs_ (runtime m) ∧
    inputs_ (runtime m1) = inputs_ (runtime m) ∧
    nodes_ (runtime m1) = nodes_ (runtime m) ∧
    planner_ (runtime m1) =
      (λ p, (allocate p (storages m)).1) <$> planner_ (runtime m) ∧
    executed m1 = executed m.
Proof.
  unfold run_allocate. destruct (planner_ (runtime m)) as [p|] eqn:Hp.
  - eexists. split; [done|]. by cbn.
  - by exists m.
Qed.

Lemma run_cleanup_executed g m r m' :
  run_cleanup g m = (r, m') → executed m' = executed m.
Proof.
  unfold run_cleanup. destruct (cleanup_activations _); [|by intros [= <- <-]].
  destruct (match planner_ (runtime m) with Some p => Ok p | None => _ end)
    as [p|e]; [|by intros [= <- <-]].
  destruct (deallocate p (runtime m) (storages m)) as [[[p' rt'] mem']|e];
    by intros [= <- <-].
Qed.

Lemma move_out_frame p m r m' :
  move_out p m = (r, m') →
  same_frame (runtime m) (runtime m') ∧ executed m' = executed m.
Proof.
  unfold move_out. destruct (read_ivalue _ _) as [v|].
  - destruct (write_ivalue _ _ _) as [rt|] eqn:Hw; intros [= <- <-].
    + split; [|done]. by eapply write_ivalue_frame.
    + split; [apply same_frame_refl | done].
  - intros [= <- <-]. split; [apply same_frame_refl | done].
Qed.

Lemma move_all_frame ps m r m' :
  move_all ps m = (r, m') →
  same_frame (runtime m) (runtime m') ∧ executed m' = executed m.
Proof.
  revert m r m'. induction ps as [|p ps IH]; intros m r m'; simpl.
  - intros [= <- <-]. split; [apply same_frame_refl | done].
  - unfold mbind, ST_bind.
    destruct (move_out p m) as [[v|e] m1] eqn:H1.
    + apply move_out_frame in H1 as [Hf1 He1].
      destruct (move_all ps m1) as [[vs|e] m2] eqn:H2.
      * apply IH in H2 as [Hf2 He2]. intros [= <- <-].
        split; [by eapply same_frame_trans | congruence].
      * apply IH in H2 as [Hf2 He2]. intros [= <- <-].
        split; [by eapply same_frame_trans | congruence].
    + apply move_out_frame in H1 as [Hf1 He1]. by intros [= <- <-].
Qed.

Lemma run_collect_frame m r m' :
  run_collect m = (r, m') →
  same_frame (runtime m) (runtime m') ∧ executed m' = executed m.
Proof.
  unfold run_collect. case_decide.
  - unfold mbind, ST_bind.
    destruct (move_all _ m) as [[vs|e] m1] eqn:H1;
      apply move_all_frame in H1; by intros [= <- <-].
  - destruct (outputs_ (runtime m)) as [|p ?].
    + intros [= <- <-]. split; [apply same_frame_refl | done].
    + apply move_out_frame.
Qed.

(** X12. run executes the processed nodes in the order of nodes_, each
    once: when it returns, the nodes executed are all of them, in order;
    when it throws, they are the nodes up to the one that threw, or none or
    all of them when the exception comes from another step. *)
Theorem run_executes_in_order (g : Graph) (args : list IValue)
    (kwargs : gmap string IValue) (m : Machine) :
  let r := run g args kwargs m in
  let n := length (nodes_ (runtime m)) in
  (∀ v, r.1 = Ok v → executed r.2 = executed m ++ seq 0 n) ∧
  (∀ e, r.1 = Throw e →
     ∃ c, (c ≤ n)%nat ∧ executed r.2 = executed m ++ seq 0 c).
Proof.
  cbn zeta. unfold run, mbind, ST_bind.
  destruct (run_allocate_frame m) as (m1 & -> & _ & _ & _ & _ & Hn1 & _ & He1).
  destruct (run_bind args kwargs m1) as [[[]|e2] m2] eqn:H2;
    apply run_bind_frame in H2 as [(_&_&_&_&_&Hn2) He2].
  2:{ cbn. split; [done|]. intros e _. exists 0%nat. split; [lia|].
      rewrite app_nil_r. congruence. }
  destruct (run_nodes m2) as [[[]|e3] m3] eqn:H3; unfold run_nodes in H3;
    apply run_nodes_from in H3 as (_ & _ & Hok & Hth); try lia.
  2:{ cbn. split; [done|]. intros e _.
      destruct (Hth e3 eq_refl) as (c & Hc & Hex). exists (S c).
      split; [rewrite <- Hn1, <- Hn2; lia|]. rewrite Hex. congruence. }
  specialize (Hok eq_refl).
  assert (executed m3 = executed m ++ seq 0 (length (nodes_ (runtime m))))
    as He3 by (rewrite Hok, <- Hn1, <- Hn2; congruence).
  destruct (run_cleanup g m3) as [[[]|e4] m4] eqn:H4;
    apply run_cleanup_executed in H4.
  2:{ cbn. split; [done|]. intros e _. eexists. split; [|by rewrite H4]. lia. }
  destruct (run_collect m4) as [[v|e5] m5] eqn:H5;
    apply run_collect_frame in H5 as [_ He5]; cbn.
  - split; [|done]. intros _ _. congruence.
  - split; [done|]. intros e _. eexists. split; [|by rewrite He5, H4]. lia.
Qed.


Lemma write_None_inputs p rt rt' :
  write_ivalue p INone rt = Ok rt' →
  Forall (λ v, v = INone) (inputs_ rt) → Forall (λ v, v = INone) (inputs_ rt').
Proof.
  unfold write_ivalue. destruct (read_ivalue rt p); [|done].
  cbn [mbind result_bind]. intros [= <-] Hall.
  destruct p as [|i|i|n i]; cbn; try done.
  by apply Forall_insert.
Qed.

Lemma move_out_inputs p m r m' :
  move_out p m = (r, m') →
  Forall (λ v, v = INone) (inputs_ (runtime m)) →
  Forall (λ v, v = INone) (inputs_ (runtime m')).
Proof.
  unfold move_out. destruct (read_ivalue _ _) as [v|]; [|by intros [= <- <-]].
  destruct (write_ivalue _ _ _) as [rt|] eqn:Hw; intros [= <- <-]; [|done].
  by eapply write_None_inputs.
Qed.

Lemma move_all_inputs ps m r m' :
  move_all ps m = (r, m') →
  Forall (λ v, v = INone) (inputs_ (runtime m)) →
  Forall (λ v, v = INone) (inputs_ (runtime m')).
Proof.
  revert m r m'. induction ps as [|p ps IH]; intros m r m'; simpl.
  - by intros [= <- <-].
  - unfold mbind, ST_bind.
    destruct (move_out p m) as [[v|e] m1] eqn:H1.
    + destruct (move_all ps m1) as [[vs|e] m2] eqn:H2; intros [= <- <-] Hall;
        eapply IH; eauto using move_out_inputs.
    + intros [= <- <-]. by eapply move_out_inputs.
Qed.

Lemma run_collect_inputs m r m' :
  run_collect m = (r, m') →
  Forall (λ v, v = INone) (inputs_ (runtime m)) →
  Forall (λ v, v = INone) (inputs_ (runtime m')).
Proof.
  unfold run_collect. case_decide.
  - unfold mbind, ST_bind.
    destruct (move_all _ m) as [[vs|e] m1] eqn:H1; intros [= <- <-];
      by eapply move_all_inputs.
  - destruct (outputs_ (runtime m)) as [|p ?]; [by intros [= <- <-]|].
    apply move_out_inputs.
Qed.

(** X13. When run returns and cleanup_activations is set, every input slot
    of the runtime is None and the runtime has a planner whose buffer has
    been given back.  When cleanup_activations is not set, run never
    creates a planner: the planner is the one it had, after allocate(), and
    a runtime without a planner stays without one. *)
Theorem run_cleanup_activations (g : Graph) (args : list IValue)
    (kwargs : gmap string IValue) (m : Machine) (v : IValue) (m' : Machine) :
  run g args kwargs m = (Ok v, m') →
  (cleanup_activations (opts_ (runtime m)) = true →
     Forall (λ iv, iv = INone) (inputs_ (runtime m')) ∧
     ∃ p, planner_ (runtime m') = Some p ∧ buffer_ p = None) ∧
  (cleanup_activations (opts_ (runtime m)) = false →
     planner_ (runtime m') =
       (λ p, (allocate p (storages m)).1) <$> planner_ (runtime m)).
Proof.
  unfold run, mbind, ST_bind.
  destruct (run_allocate_frame m) as (m1 & -> & _ & Ho1 & _ & _ & _ & Hp1 & _).
  destruct (run_bind args kwargs m1) as [[[]|e2] m2] eqn:H2; [|done].
  apply run_bind_frame in H2 as [(_ & Ho2 & _ & Hp2 & _ & Hn2) _].
  destruct (run_nodes m2) as [[[]|e3] m3] eqn:H3; [|done].
  unfold run_nodes in H3.
  apply run_nodes_from in H3 as ((_ & Ho3 & _ & Hp3 & _) & _); [|lia].
  assert (opts_ (runtime m3) = opts_ (runtime m)) as Ho by congruence.
  assert (planner_ (runtime m3) =
          (λ p, (allocate p (storages m)).1) <$> planner_ (runtime m)) as Hp
    by congruence.
  destruct (run_cleanup g m3) as [[[]|e4] m4] eqn:H4; [|done].
  intros H5. pose proof (run_collect_inputs _ _ _ H5) as Hin.
  apply run_collect_frame in H5 as [(_ & _ & _ & Hp5 & _) _].
  revert H4. unfold run_cleanup. rewrite Ho. split.
  - intros Hc. rewrite Hc in H4.
    destruct (match planner_ (runtime m3) with Some p => Ok p | None => _ end)
      as [p|e]; [|done].
    unfold deallocate in H4.
    destruct (for_each (unmanaged_values_ p) _ (runtime m3)) as [rt'|];
      [|done].
    cbn [mbind result_bind] in H4. injection H4 as <-.
    cbn in Hin, Hp5. split.
    + apply Hin. apply Forall_fmap. by apply Forall_true.
    + rewrite Hp5. by eexists.
  - intros Hc. rewrite Hc in H4. injection H4 as <-. congruence.
Qed.

Lemma move_all_spec ps m vs m' :
  move_all ps m = (Ok vs, m') →
  length vs = length ps ∧
  (∀ q, read_ivalue (runtime m') q =
        if decide (q ∈ ps) then Ok INone else read_ivalue (runtime m) q) ∧
  (∀ i p, ps !! i = Some p →
     ∃ w, read_ivalue (runtime m) p = Ok w ∧
          vs !! i = Some (if decide (p ∈ take i ps) then INone else w)).
Proof.
  revert m vs m'. induction ps as [|p ps IH]; intros m vs m'; cbn [move_all].
  - intros [= <- <-]. split; [done|]. split; [|done].
    intros q. by rewrite decide_False by (by intros ?%elem_of_nil).
  - unfold mbind, ST_bind.
    destruct (move_out p m) as [[v|e] m1] eqn:H1; [|done].
    destruct (move_all ps m1) as [[vs'|e] m2] eqn:H2; [|done].
    intros [= <- <-]. apply IH in H2 as (Hlen & Hread & Hvs).
    revert H1. unfold move_out.
    destruct (read_ivalue (runtime m) p) as [v0|] eqn:Hr; [|done].
    destruct (write_ivalue p INone (runtime m)) as [rt1|] eqn:Hw; [|done].
    intros [= <- <-]. cbn [runtime] in *.
    pose proof (λ q, read_write_ivalue p INone _ _ q Hw) as Hrw.
    split; [simpl; by rewrite Hlen|]. split.
    + intros q. rewrite Hread, Hrw.
      destruct (decide (q = p)) as [->|Hne].
      * rewrite (decide_True (P := p ∈ p :: ps)) by left. by case_decide.
      * destruct (decide (q ∈ ps)) as [Hin|Hnin].
        -- by rewrite decide_True by (by right).
        -- rewrite decide_False; [done|]. by intros [?|?]%elem_of_cons.
    + intros [|i] p' Hp'; simpl in Hp'; simpl.
      * injection Hp' as <-. by exists v0.
      * destruct (Hvs i p' Hp') as (w1 & Hw1 & Hi). rewrite Hrw in Hw1.
        destruct (decide (p' = p)) as [->|Hne].
        -- exists v0. split; [done|]. injection Hw1 as <-.
           rewrite Hi, (decide_True (P := p ∈ p :: take i ps)) by left.
           by case_decide.
        -- exists w1. split; [done|]. rewrite Hi.
           destruct (decide (p' ∈ take i ps)) as [Hin|Hnin].
           ++ by rewrite decide_True by (by right).
           ++ rewrite decide_False; [done|]. by intros [?|?]%elem_of_cons.
Qed.

(** X14. The last step of run moves the outputs out of the runtime: every
    slot that outputs_ points to is None afterwards and no other slot
    changes.  With one output the result is the value of its slot; with
    several it is a tuple with one element per output, the value of the
    slot for the first occurrence of a pointer and None for a later
    occurrence of the same pointer.  A runtime without outputs reads
    outputs_[0] of an empty vector. *)
Theorem run_collect_moves_outputs (m : Machine) (v : IValue) (m' : Machine) :
  run_collect m = (Ok v, m') →
  let outs := outputs_ (runtime m) in
  outs ≠ [] ∧
  (∀ q, read_ivalue (runtime m') q =
        if decide (q ∈ outs) then Ok INone else read_ivalue (runtime m) q) ∧
  (∀ p, outs = [p] → read_ivalue (runtime m) p = Ok v) ∧
  ((1 < length outs)%nat →
     ∃ vs, v = ITuple vs ∧ length vs = length outs ∧
       ∀ i p, outs !! i = Some p →
         ∃ w, read_ivalue (runtime m) p = Ok w ∧
              vs !! i = Some (if decide (p ∈ take i outs) then INone else w)).
Proof.
  unfold run_collect. cbn zeta. case_decide as Hlen.
  - unfold mbind, ST_bind.
    destruct (move_all _ m) as [[vs|e] m1] eqn:H1; [|done].
    intros [= <- <-]. apply move_all_spec in H1 as (Hl & Hread & Hvs).
    split_and!.
    + intros He. rewrite He in Hlen. simpl in Hlen. lia.
    + done.
    + intros p He. rewrite He in Hlen. simpl in Hlen. lia.
    + intros _. by exists vs.
  - destruct (outputs_ (runtime m)) as [|p [|p' rest]] eqn:Ho;
      [done| |simpl in Hlen; lia].
    unfold move_out.
    destruct (read_ivalue (runtime m) p) as [v0|] eqn:Hr; [|done].
    destruct (write_ivalue p INone (runtime m)) as [rt1|] eqn:Hw; [|done].
    intros [= <- <-]. cbn [runtime].
    split_and!; [done| |by intros ? [= <-]|simpl; lia].
    intros q. rewrite (read_write_ivalue _ _ _ _ q Hw).
    destruct (decide (q = p)) as [->|Hne].
    + by rewrite decide_True by left.
    + rewrite decide_False; [done|]. by intros ?%list_elem_of_singleton.
Qed.


(** ** deallocate: the value table and the storages *)

Lemma write_ivalue_fails p v rt :
  (∀ w, read_ivalue rt p = Ok w → ∃ rt', write_ivalue p v rt = Ok rt') ∧
  (∀ e, read_ivalue rt p = Throw e → write_ivalue p v rt = Throw e).
Proof.
  unfold write_ivalue. split.
  - intros w ->. cbn [mbind result_bind]. by eexists.
  - by intros e ->.
Qed.

Lemma read_ivalue_error rt p e :
  read_ivalue rt p = Throw e → e = undefined_behaviour "IValue*".
Proof.
  unfold read_ivalue.
  by destruct (match p with null_ivalue => _ | _ => _ end); intros [= <-].
Qed.

Lemma reset_values (l : list IValuePtr) (rt : StaticRuntime) :
  ((∀ q, q ∈ l → ∃ w, read_ivalue rt q = Ok w) →
     ∃ rt', for_each l (λ iv rt, write_ivalue iv INone rt) rt = Ok rt' ∧
            same_frame rt rt' ∧
            ∀ q, read_ivalue rt' q =
                 if decide (q ∈ l) then Ok INone else read_ivalue rt q) ∧
  (∀ q e, q ∈ l → read_ivalue rt q = Throw e →
     for_each l (λ iv rt, write_ivalue iv INone rt) rt =
       Throw (undefined_behaviour "IValue*")).
Proof.
  revert rt. induction l as [|p l IH]; intros rt.
  - split.
    + intros _. exists rt. split; [done|]. split; [apply same_frame_refl|].
      intros q. by rewrite decide_False by (by intros ?%elem_of_nil).
    + intros q e Hq. by apply elem_of_nil in Hq.
  - cbn [for_each]. destruct (read_ivalue rt p) as [w|e0] eqn:Hp.
    + destruct (proj1 (write_ivalue_fails p INone rt) w Hp) as [rt1 Hw].
      rewrite Hw. cbn [mbind result_bind].
      pose proof (λ q, read_write_ivalue p INone rt rt1 q Hw) as Hrw.
      destruct (IH rt1) as [IHok IHth]. split.
      * intros Hall. destruct IHok as (rt' & Hrt' & Hf & Hread).
        { intros q Hq. rewrite Hrw. case_decide; [by eexists|].
          apply Hall. by right. }
        exists rt'. split; [done|].
        split; [eapply same_frame_trans; [by eapply write_ivalue_frame|done]|].
        intros q. rewrite Hread, Hrw.
        destruct (decide (q = p)) as [->|Hne].
        -- rewrite (decide_True (P := p ∈ p :: l)) by left. by case_decide.
        -- destruct (decide (q ∈ l)) as [Hin|Hnin].
           ++ by rewrite decide_True by (by right).
           ++ rewrite decide_False; [done|]. by intros [?|?]%elem_of_cons.
      * intros q e Hq He. apply elem_of_cons in Hq as [->|Hq]; [congruence|].
        apply (IHth q e Hq). rewrite Hrw. case_decide; [congruence|done].
    + rewrite (proj2 (write_ivalue_fails p INone rt) e0 Hp).
      cbn [mbind result_bind]. split.
      * intros Hall. destruct (Hall p) as [w Hw]; [left|congruence].
      * intros q e _ _. f_equal. by eapply read_ivalue_error.
Qed.

(** X15. deallocate throws exactly when a pointer in unmanaged_values_ is
    null or addresses no slot of the runtime, which is a write through an
    invalid pointer.  Otherwise it sets every slot that unmanaged_values_
    points to to None, leaves every other slot of the value table as it
    is, gives the buffer back and keeps unmanaged_values_. *)
Theorem deallocate_unmanaged_values (p : MemoryPlanner) (rt : StaticRuntime)
    (mem : Storages) :
  ((∃ q e, q ∈ unmanaged_values_ p ∧ read_ivalue rt q = Throw e) →
     deallocate p rt mem = Throw (undefined_behaviour "IValue*")) ∧
  ((∀ q, q ∈ unmanaged_values_ p → ∃ w, read_ivalue rt q = Ok w) →
     ∃ p' rt' mem',
       deallocate p rt mem = Ok (p', rt', mem') ∧
       same_frame rt rt' ∧
       (∀ q, read_ivalue rt' q =
             if decide (q ∈ unmanaged_values_ p) then Ok INone
             else read_ivalue rt q) ∧
       buffer_ p' = None ∧ unmanaged_values_ p' = unmanaged_values_ p).
Proof.
  unfold deallocate.
  destruct (reset_values (unmanaged_values_ p) rt) as [Hok Hth]. split.
  - intros (q & e & Hq & He). by rewrite (Hth q e Hq He).
  - intros Hall. destruct (Hok Hall) as (rt' & -> & Hf & Hread).
    cbn [mbind result_bind]. by eexists _, _, _.
Qed.

Lemma fn_insert_all {B} (x : B) (l : list nat) (mem : nat → B) (i : nat) :
  foldl (λ mem impl, <[impl := x]> mem) mem l i =
    if decide (i ∈ l) then x else mem i.
Proof.
  revert mem. induction l as [|j l IH]; intros mem; cbn [foldl].
  - by rewrite decide_False by (by intros ?%elem_of_nil).
  - rewrite IH. destruct (decide (i ∈ l)) as [Hin|Hnin].
    + by rewrite decide_True by (by right).
    + destruct (decide (i = j)) as [->|Hne].
      * rewrite decide_True by left. by rewrite fn_lookup_insert.
      * rewrite decide_False by (by intros [?|?]%elem_of_cons).
        by rewrite fn_lookup_insert_ne.
Qed.

Lemma deallocate_impls (impls : list StorageImplPtr) (mx : Z) (mem : Storages) :
  NoDup impls → (0 ≤ mx)%Z →
  (foldl deallocate_impl (mx, mem) impls).1 =
    Z.max mx (max_aligned_size mem impls) ∧
  ∀ i, (foldl deallocate_impl (mx, mem) impls).2 i =
       if decide (i ∈ impls) then StorageImpl_reset (mem i) else mem i.
Proof.
  revert mx mem. induction impls as [|j l IH]; intros mx mem Hnd Hmx.
  - cbn [foldl fst snd]. split.
    + unfold max_aligned_size. cbn [fmap list_fmap foldr]. lia.
    + intros i. by rewrite decide_False by (by intros ?%elem_of_nil).
  - apply NoDup_cons in Hnd as [Hj Hnd]. cbn [foldl].
    unfold deallocate_impl at 2. cbn [fst snd]. unfold Storages in *.
    pose proof (compute_aligned_tensor_size_range (nbytes (mem j))) as Hr.
    destruct (IH (Z.max mx (compute_aligned_tensor_size (nbytes (mem j))))
                 (<[j := StorageImpl_reset (mem j)]> mem) Hnd) as [IH1 IH2];
      [lia|].
    split.
    + rewrite IH1.
      assert (max_aligned_size (<[j:=StorageImpl_reset (mem j)]> mem) l
              = max_aligned_size mem l) as ->.
      { unfold max_aligned_size. f_equal. apply list_fmap_ext.
        intros k i Hi. rewrite fn_lookup_insert_ne; [done|].
        intros ->. apply Hj. by eapply list_elem_of_lookup_2. }
      unfold max_aligned_size. cbn [fmap list_fmap foldr]. lia.
    + intros i. rewrite IH2.
      destruct (decide (i = j)) as [->|Hne].
      * rewrite decide_False by done. rewrite fn_lookup_insert.
        by rewrite decide_True by left.
      * rewrite fn_lookup_insert_ne by done.
        destruct (decide (i ∈ l)) as [Hin|Hnin].
        -- by rewrite decide_True by (by right).
        -- by rewrite decide_False by (by intros [?|?]%elem_of_cons).
Qed.



Lemma max_aligned_size_nonneg mem impls : (0 ≤ max_aligned_size mem impls)%Z.
Proof.
  unfold max_aligned_size.
  induction impls as [|i l IH]; cbn [fmap list_fmap foldr]; lia.
Qed.

Lemma max_aligned_size_ext (mem1 mem2 : Storages) impls :
  (∀ i, i ∈ impls → mem1 i = mem2 i) →
  max_aligned_size mem1 impls = max_aligned_size mem2 impls.
Proof.
  intros H. unfold max_aligned_size. f_equal. apply list_fmap_ext.
  intros k i Hi. rewrite H; [done|]. by eapply list_elem_of_lookup_2.
Qed.

Lemma deallocate_groups_exact (gs : list (Z * list StorageImplPtr)) (d : Dealloc) :
  NoDup (mjoin gs.*2) →
  d_storage (foldl deallocate_group d gs) =
    d_storage d ++ ((λ ms, (max_aligned_size (d_storages d) ms.2, ms.2)) <$> gs) ∧
  ∀ i, d_storages (foldl deallocate_group d gs) i =
       if decide (i ∈ mjoin gs.*2) then StorageImpl_reset (d_storages d i)
       else d_storages d i.
Proof.
  revert d. induction gs as [|ms gs IH]; intros d Hnd.
  - cbn [foldl fmap list_fmap]. rewrite app_nil_r. split; [done|].
    intros i. by rewrite decide_False by (by intros ?%elem_of_nil).
  - rewrite fmap_cons, join_cons in Hnd.
    apply NoDup_app in Hnd as (Hnd1 & Hdisj & Hnd2). cbn [foldl].
    destruct (IH (deallocate_group d ms) Hnd2) as [IH1 IH2].
    destruct (deallocate_impls ms.2 0 (d_storages d) Hnd1) as [Hmax Hmem];
      [done|].
    pose proof (max_aligned_size_nonneg (d_storages d) ms.2) as Hpos.
    assert (d_storage (deallocate_group d ms) =
            d_storage d ++
              [((foldl deallocate_impl (0%Z, d_storages d) ms.2).1, ms.2)])
      as Hs1 by done.
    assert (d_storages (deallocate_group d ms) =
            (foldl deallocate_impl (0%Z, d_storages d) ms.2).2) as Hs2 by done.
    rewrite Hs1, Hs2 in IH1. rewrite Hs2 in IH2. split.
    + rewrite IH1, Hmax, <- app_assoc. f_equal. rewrite fmap_cons.
      cbn [app]. rewrite Z.max_r by done. f_equal.
      apply list_fmap_ext. intros k ms' Hms'.
      f_equal. apply max_aligned_size_ext. intros i Hi. rewrite Hmem.
      rewrite decide_False; [done|]. intros Hin. apply (Hdisj i Hin).
      apply list_elem_of_join. exists ms'.2. split; [done|].
      apply list_elem_of_fmap. exists ms'. split; [done|].
      by eapply list_elem_of_lookup_2.
    + intros i. rewrite IH2, Hmem, fmap_cons, join_cons.
      destruct (decide (i ∈ ms.2)) as [Hin|Hnin].
      * rewrite decide_False by (by apply Hdisj).
        by rewrite decide_True by (apply elem_of_app; by left).
      * destruct (decide (i ∈ mjoin gs.*2)) as [Hin'|Hnin'].
        -- by rewrite decide_True by (apply elem_of_app; by right).
        -- by rewrite decide_False by (by intros [?|?]%elem_of_app).
Qed.

(** X16. When no storage is listed twice in managed_storage_, deallocate
    records for every group the largest aligned size that its storages have
    before the call, 0 for a group without storages, and keeps the storages
    of the group; it resets every storage of every group and touches no
    other storage. *)
Theorem deallocate_storages (p : MemoryPlanner) (rt : StaticRuntime)
    (mem : Storages) (p' : MemoryPlanner) (rt' : StaticRuntime)
    (mem' : Storages) :
  NoDup (mjoin (managed_storage_ p).*2) →
  deallocate p rt mem = Ok (p', rt', mem') →
  managed_storage_ p' =
    (λ ms, (max_aligned_size mem ms.2, ms.2)) <$> managed_storage_ p ∧
  ∀ impl, mem' impl =
          if decide (impl ∈ mjoin (managed_storage_ p).*2)
          then StorageImpl_reset (mem impl) else mem impl.
Proof.
  intros Hnd. unfold deallocate.
  destruct (for_each (unmanaged_values_ p) _ rt) as [rt1|]; [|done].
  cbn [mbind result_bind]. intros [= <- <- <-]. cbn [managed_storage_].
  destruct (deallocate_groups_exact (managed_storage_ p) (mkDealloc [] 0 mem) Hnd)
    as [H1 H2].
  by split.
Qed.


(** ** allocate: the storages after the walk *)

Lemma sum_take_mono gs (j k : nat) :
  sizes_in_range gs → (j ≤ k)%nat →
  (sum_sizes (take j gs) ≤ sum_sizes (take k gs))%Z.
Proof.
  intros Hr. revert j k. induction Hr as [|ms gs Hms Hr IH]; intros j k Hjk.
  - by rewrite !take_nil.
  - destruct j as [|j], k as [|k]; try lia; cbn [take].
    + rewrite sum_sizes_cons.
      assert (0 ≤ sum_sizes (take k gs))%Z.
      { apply sum_sizes_nonneg. unfold sizes_in_range. by apply Forall_take. }
      change (sum_sizes []) with 0%Z. lia.
    + rewrite !sum_sizes_cons. specialize (IH j k). lia.
Qed.

Lemma sum_take_next gs (k : nat) ms :
  gs !! k = Some ms →
  sum_sizes (take (S k) gs) = (sum_sizes (take k gs) + ms.1)%Z.
Proof.
  intros Hk. rewrite (take_S_r _ _ _ Hk), sum_sizes_app, sum_sizes_cons.
  change (sum_sizes []) with 0%Z. lia.
Qed.

Lemma allocate_walk_storages start mb gs w o0 :
  NoDup (mjoin gs.*2) → sizes_in_range gs →
  offset w = o0 → (0 ≤ o0)%Z → (o0 + sum_sizes gs < 2 ^ 64)%Z →
  (∀ k ms impl, gs !! k = Some ms → ms.1 ≠ 0%Z → impl ∈ ms.2 →
     walk_storages (foldl (allocate_group start mb) w gs) impl =
       mkStorage ms.1 (Some (start + (o0 + sum_sizes (take k gs)))%Z)) ∧
  (∀ impl, (∀ ms, ms ∈ gs → impl ∈ ms.2 → ms.1 = 0%Z) →
     walk_storages (foldl (allocate_group start mb) w gs) impl =
       walk_storages w impl).
Proof.
  revert w o0. induction gs as [|ms gs IH]; intros w o0 Hnd Hr Ho Ho0 Hfit.
  - split; [by intros k ms impl ?|done].
  - rewrite fmap_cons, join_cons in Hnd.
    apply NoDup_app in Hnd as (Hnd1 & Hdisj & Hnd2).
    apply Forall_cons in Hr as [Hms Hr].
    pose proof (sum_sizes_nonneg gs Hr) as Hpos.
    rewrite sum_sizes_cons in Hfit. cbn [foldl].
    assert (offset (allocate_group start mb w ms) = o0 + ms.1)%Z as Ho1.
    { unfold allocate_group. case_decide as Hz; [lia|].
      cbn [offset]. rewrite Ho. apply size_t_small. lia. }
    assert (∀ impl, walk_storages (allocate_group start mb w ms) impl =
              if decide (ms.1 ≠ 0%Z ∧ impl ∈ ms.2)
              then mkStorage ms.1 (Some (start + o0)%Z)
              else walk_storages w impl) as Hw1.
    { intros impl. unfold allocate_group. case_decide as Hz.
      - by rewrite decide_False by (by intros [? _]).
      - cbn [walk_storages]. unfold Storages in *. rewrite fn_insert_all, Ho.
        destruct (decide (impl ∈ ms.2)).
        + by rewrite decide_True.
        + by rewrite decide_False by (by intros [_ ?]). }
    destruct (IH (allocate_group start mb w ms) (o0 + ms.1)%Z Hnd2 Hr Ho1)
      as [IH1 IH2]; [lia | lia |].
    split.
    + intros [|k] ms' impl Hk Hnz Hin.
      * injection Hk as <-. rewrite IH2.
        -- rewrite Hw1, decide_True by done. do 2 f_equal.
           change (sum_sizes (take 0 (ms :: gs))) with 0%Z. lia.
        -- intros ms' Hms' Hin'. exfalso. apply (Hdisj impl Hin).
           apply list_elem_of_join. exists ms'.2. split; [done|].
           apply list_elem_of_fmap. by exists ms'.
      * rewrite (IH1 k ms' impl Hk Hnz Hin). do 2 f_equal.
        cbn [take]. rewrite sum_sizes_cons. lia.
    + intros impl Hz. rewrite IH2.
      * rewrite Hw1. rewrite decide_False; [done|]. intros [Hnz Hin].
        apply Hnz, (Hz ms); [left | done].
      * intros ms' Hms'. apply Hz. by right.
Qed.

(** X17. When the recorded sizes add up to managed_bytes_ without leaving
    size_t and no storage is listed twice, allocate gives every storage of
    a group of non-zero size the size of the group and the address of the
    buffer plus the sizes of the groups before it, and leaves the storages
    of groups of size 0 and all other storages as they are.  The memory of
    two different groups does not overlap, and all of it lies inside the
    buffer of managed_bytes_ bytes. *)
Theorem allocate_ranges (p : MemoryPlanner) (mem : Storages) :
  NoDup (mjoin (managed_storage_ p).*2) →
  sizes_in_range (managed_storage_ p) →
  managed_bytes_ p = sum_sizes (managed_storage_ p) →
  (managed_bytes_ p < 2 ^ 64)%Z → managed_bytes_ p ≠ 0%Z →
  let gs := managed_storage_ p in
  let start := allocate_buffer (managed_bytes_ p) in
  let mem' := (allocate p mem).2 in
  (∀ k ms impl, gs !! k = Some ms → ms.1 ≠ 0%Z → impl ∈ ms.2 →
     mem' impl = mkStorage ms.1 (Some (start + sum_sizes (take k gs))%Z)) ∧
  (∀ impl, (∀ ms, ms ∈ gs → impl ∈ ms.2 → ms.1 = 0%Z) → mem' impl = mem impl) ∧
  (∀ k1 k2 ms1 ms2 i1 i2,
     (k1 < k2)%nat → gs !! k1 = Some ms1 → gs !! k2 = Some ms2 →
     ms1.1 ≠ 0%Z → ms2.1 ≠ 0%Z → i1 ∈ ms1.2 → i2 ∈ ms2.2 →
     ∃ a1 a2, data (mem' i1) = Some a1 ∧ data (mem' i2) = Some a2 ∧
              (start ≤ a1)%Z ∧ (a1 + nbytes (mem' i1) ≤ a2)%Z ∧
              (a2 + nbytes (mem' i2) ≤ start + managed_bytes_ p)%Z).
Proof.
  intros Hnd Hr Hsum Hfit Hnz. cbn zeta. unfold allocate.
  rewrite decide_False by done. cbn [snd]. unfold allocate_walk.
  destruct (allocate_walk_storages (allocate_buffer (managed_bytes_ p))
              (managed_bytes_ p) (managed_storage_ p)
              (mkWalk 0 mem [] true) 0%Z Hnd Hr eq_refl) as [H1 H2];
    [lia | lia |].
  assert (∀ k ms impl, managed_storage_ p !! k = Some ms → ms.1 ≠ 0%Z →
            impl ∈ ms.2 →
            walk_storages
              (foldl (allocate_group (allocate_buffer (managed_bytes_ p))
                        (managed_bytes_ p)) (mkWalk 0 mem [] true)
                     (managed_storage_ p)) impl =
            mkStorage ms.1 (Some (allocate_buffer (managed_bytes_ p) +
                             sum_sizes (take k (managed_storage_ p)))%Z)) as H1'.
  { intros k ms impl Hk Hms Hin. rewrite (H1 k ms impl Hk Hms Hin).
    by rewrite Z.add_0_l. }
  split_and!; [done | done |].
  intros k1 k2 ms1 ms2 i1 i2 Hlt Hk1 Hk2 Hz1 Hz2 Hi1 Hi2.
  rewrite (H1' k1 ms1 i1 Hk1 Hz1 Hi1), (H1' k2 ms2 i2 Hk2 Hz2 Hi2).
  cbn [data nbytes]. eexists _, _. split; [done|]. split; [done|].
  pose proof (sum_take_next _ _ _ Hk1) as Hn1.
  pose proof (sum_take_next _ _ _ Hk2) as Hn2.
  pose proof (sum_take_mono (managed_storage_ p) (S k1) k2 Hr) as Hm1.
  pose proof (sum_take_mono (managed_storage_ p) (S k2)
                (length (managed_storage_ p)) Hr) as Hm2.
  rewrite firstn_all in Hm2.
  assert (0 ≤ sum_sizes (take k1 (managed_storage_ p)))%Z.
  { apply sum_sizes_nonneg. unfold sizes_in_range. by apply Forall_take. }
  apply lookup_lt_Some in Hk2. lia.
Qed.


(** ** MemoryPlanner::MemoryPlanner: the groups and the unmanaged values *)

Lemma for_each_inv_elem {A S} (P : S → Prop) (l : list A)
    (body : A → S → result S) (s s' : S) :
  (∀ x s s', x ∈ l → P s → body x s = Ok s' → P s') →
  P s → for_each l body s = Ok s' → P s'.
Proof.
  revert s. induction l as [|x l IH]; intros s Hstep Hs; simpl.
  - by intros [= <-].
  - destruct (body x s) as [s1|] eqn:Hx; [|done]. cbn [mbind result_bind].
    apply IH.
    + intros y t t' Hy. apply Hstep. by right.
    + eapply Hstep; [left | done | done].
Qed.

Lemma foldl_inv {A S} (P : S → Prop) (f : S → A → S) (l : list A) (s : S) :
  (∀ s x, x ∈ l → P s → P (f s x)) → P s → P (foldl f s l).
Proof.
  revert s. induction l as [|x l IH]; intros s Hstep Hs; simpl; [done|].
  apply IH.
  - intros t y Hy. apply Hstep. by right.
  - apply Hstep; [left | done].
Qed.

(** Something that one step of a fold brings about, and that no step
    undoes. *)
Lemma foldl_event {A S} (Q R : S → Prop) (f : S → A → S) (l : list A) (s : S)
    (x : A) :
  x ∈ l →
  (∀ s y, Q s → Q (f s y)) → (∀ s y, R s → R (f s y)) →
  (∀ s, Q s → R (f s x)) →
  Q s → R (foldl f s l).
Proof.
  intros Hx HQ HR Hev. revert s. induction l as [|y l IH]; intros s Hs.
  - by apply elem_of_nil in Hx.
  - simpl. apply elem_of_cons in Hx as [<-|Hx].
    + apply (foldl_inv R); [|by apply Hev]. intros t z _. apply HR.
    + apply IH; [done|]. by apply HQ.
Qed.

(** X18. The planner that run creates is built without a sharing map; each
    of its groups then holds exactly one storage, and its recorded size is
    0 until the first deallocate. *)
Theorem MemoryPlanner_new_unshared (g : Graph) (rt : StaticRuntime)
    (p : MemoryPlanner) :
  MemoryPlanner_new g rt ∅ = Ok p →
  Forall (λ ms : Z * list StorageImplPtr, ms.1 = 0%Z ∧ ∃ impl, ms.2 = [impl])
         (managed_storage_ p).
Proof.
  unfold MemoryPlanner_new. destruct (plan_values g rt) as [pl|]; [|done].
  cbn [mbind result_bind].
  destruct (for_each (nodes_ rt) _ _) as [gr|] eqn:Hgr; [|done].
  cbn [mbind result_bind]. intros [= <-]. cbn [managed_storage_].
  set (P := λ gr : Grouping,
         shared gr = ∅ ∧
         Forall (λ ms : Z * list StorageImplPtr, ms.1 = 0%Z ∧ ∃ impl, ms.2 = [impl])
                (groups gr)).
  assert (P gr) as [_ H]; [|done].
  revert Hgr. apply (for_each_inv P); [|by split].
  intros pnode gr1 gr2 HP. unfold group_node. apply (for_each_inv P); [|done].
  clear. intros i gr gr' [Hsh Hall]. unfold group_output.
  destruct (pn_outputs_ pnode !! i) as [ival|]; [|done].
  destruct (outputs (node_ pnode) !! i) as [val|]; [|done].
  case_bool_decide; [|by intros [= <-]].
  destruct (TORCH_CHECK _ _); [|done]. cbn [mbind result_bind].
  destruct (storage_impl_of ival) as [impl|]; [|done]. cbn [mbind result_bind].
  case_bool_decide; [by intros [= <-]|].
  rewrite Hsh, lookup_empty. intros [= <-]. split.
  - cbn [shared]. unfold record_shared. by rewrite lookup_empty.
  - cbn [groups]. apply Forall_app. split; [done|]. apply Forall_singleton.
    split; [done|]. by eexists.
Qed.

Lemma plan_node_values_map g gi (p : nat * ProcessedNode) pl pl' v :
  plan_node g gi p pl = Ok pl' →
  is_Some (values_map pl' !! v) →
  is_Some (values_map pl !! v) ∨ v ∈ outputs (node_ p.2).
Proof.
  unfold plan_node. cbv zeta.
  set (P := λ pl' : Plan, is_Some (values_map pl' !! v) →
         is_Some (values_map pl !! v) ∨ v ∈ outputs (node_ p.2)).
  destruct (if has_out_variant p.2 && isViewOp (node_ p.2) then _ else _).
  - apply (for_each_inv P); [|by left].
    intros i s s' Hs. unfold manage_output, Node_output.
    destruct (outputs (node_ p.2) !! i) as [out|] eqn:Hi; [|done].
    cbn [mbind result_bind].
    destruct (cast_TensorType _); intros [= <-]; [|done].
    unfold P. cbn [values_map]. destruct (decide (v = out)) as [->|Hne].
    + intros _. right. by eapply list_elem_of_lookup_2.
    + by rewrite lookup_insert_ne.
  - apply (for_each_inv P); [|by left].
    intros i s s' Hs. unfold leave_output, Node_output.
    destruct (outputs (node_ p.2) !! i) as [out|] eqn:Hi; [|done].
    cbn [mbind result_bind]. intros [= <-].
    unfold P. cbn [values_map]. destruct (decide (v = out)) as [->|Hne].
    + intros _. right. by eapply list_elem_of_lookup_2.
    + by rewrite lookup_insert_ne.
Qed.

Lemma erase_slots_unmanaged (l : list IValuePtr) pl q :
  q ∉ l → q ∈ unmanaged_value_set pl →
  q ∈ unmanaged_value_set
        (foldl (λ pl output,
                  mkPlan (managed_values pl) (unmanaged_value_set pl ∖ {[output]})
                         (values_map pl)) pl l).
Proof.
  intros Hq. apply (foldl_inv (λ pl, q ∈ unmanaged_value_set pl)).
  intros s x Hx Hs. cbn [unmanaged_value_set].
  apply elem_of_difference. split; [done|]. intros ->%elem_of_singleton. done.
Qed.

Lemma plan_values_null g rt pl v :
  output_element g v → v ∉ g_inputs g →
  (∀ pn, pn ∈ nodes_ rt → v ∉ outputs (node_ pn)) →
  null_ivalue ∉ outputs_ rt →
  plan_values g rt = Ok pl →
  null_ivalue ∈ unmanaged_value_set pl.
Proof.
  intros (o & Ho & Hc & Hv) Hin Hnot Hnull. unfold plan_values. cbv zeta.
  destruct (for_each (imap pair (nodes_ rt)) _ _) as [pl0|] eqn:H0; [|done].
  cbn [mbind result_bind]. intros [= <-].
  set (Q := λ pl : Plan, ∀ q, values_map pl !! v = Some q → q = null_ivalue).
  set (R := λ pl : Plan, null_ivalue ∈ unmanaged_value_set pl).
  assert (Q pl0) as HQ0.
  { assert (¬ is_Some (values_map pl0 !! v)) as Hno.
    { revert H0. apply (for_each_inv_elem (λ pl, ¬ is_Some (values_map pl !! v))).
      - intros [k pn] s s' Hk Hs Hstep Hsome.
        apply (plan_node_values_map _ _ _ _ _ v Hstep) in Hsome as [?|Hout];
          [done|].
        apply elem_of_lookup_imap_1 in Hk as (k' & pn' & [= <- <-] & Hk').
        apply (Hnot pn); [|done]. by eapply list_elem_of_lookup_2.
      - cbn [values_map]. rewrite lookup_empty. by intros [? ?]. }
    intros q Hq. destruct Hno. by eexists. }
  assert (∀ gi s y, Q s → Q (unmanage_element gi y s)) as HQe.
  { intros gi s y Hs. unfold unmanage_element, values_map_index. cbv zeta.
    destruct (bool_decide (y ∈ gi)); [done|]. cbn [values_map].
    destruct (values_map s !! y) as [q0|] eqn:Hy; [done|].
    unfold Q. cbn [snd values_map]. intros q.
    destruct (decide (y = v)) as [->|Hne].
    - rewrite lookup_insert_eq. by intros [= <-].
    - rewrite lookup_insert_ne by done. apply Hs. }
  assert (∀ gi s y, R s → R (unmanage_element gi y s)) as HRe.
  { intros gi s y Hs. unfold unmanage_element, R. cbv zeta.
    destruct (bool_decide (y ∈ gi)); [done|]. cbn [unmanaged_value_set].
    apply elem_of_union. right.
    unfold values_map_index. cbn [values_map].
    by destruct (values_map s !! y). }
  apply erase_slots_unmanaged; [done|].
  apply (foldl_inv (λ pl, null_ivalue ∈ unmanaged_value_set pl)); [done|].
  change (R (foldl (λ pl output,
                      unmanage_output_elements g (list_to_set (g_inputs g))
                                               output pl) pl0 (g_outputs g))).
  apply (foldl_event Q R _ _ _ o Ho).
  - intros s y Hs. unfold unmanage_output_elements. cbv zeta.
    destruct (is_construct (kind (node_of g y))); [|done].
    apply (foldl_inv Q); [|done]. intros t z _. apply HQe.
  - intros s y Hs. unfold unmanage_output_elements. cbv zeta.
    destruct (is_construct (kind (node_of g y))); [|done].
    apply (foldl_inv R); [|done]. intros t z _. apply HRe.
  - intros s Hs. unfold unmanage_output_elements. cbv zeta. rewrite Hc.
    apply (foldl_event Q R _ _ _ v Hv); [apply HQe | apply HRe | | done].
    intros t Ht. unfold unmanage_element, R. cbv zeta.
    rewrite bool_decide_eq_false_2 by (by rewrite elem_of_list_to_set).
    cbn [unmanaged_value_set]. apply elem_of_union. left.
    apply elem_of_singleton. unfold values_map_index. cbn [values_map].
    destruct (values_map t !! v) as [q|] eqn:Hq; [|done]. cbn [fst].
    symmetry. by apply Ht.
  - done.
Qed.

(** X19. When an element of an output Tuple or List is neither a graph
    input nor an output of a processed node, as is the case for the output
    of a prim::Constant node, the constructor of the planner looks it up in
    values_map, gets the null pointer of a fresh entry and puts it into
    unmanaged_values_; every deallocate of this planner then writes through
    the null pointer. *)
Theorem MemoryPlanner_null_unmanaged_value (g : Graph) (rt : StaticRuntime)
    (should_share : gmap Value (list Value)) (p : MemoryPlanner) (v : Value) :
  output_element g v → v ∉ g_inputs g →
  (∀ pn, pn ∈ nodes_ rt → v ∉ outputs (node_ pn)) →
  null_ivalue ∉ outputs_ rt →
  MemoryPlanner_new g rt should_share = Ok p →
  null_ivalue ∈ unmanaged_values_ p ∧
  ∀ rt' mem, deallocate p rt' mem = Throw (undefined_behaviour "IValue*").
Proof.
  intros Hel Hin Hnot Hnull. unfold MemoryPlanner_new.
  destruct (plan_values g rt) as [pl|] eqn:Hpl; [|done].
  cbn [mbind result_bind].
  destruct (for_each (nodes_ rt) _ _) as [gr|]; [|done].
  cbn [mbind result_bind]. intros [= <-]. cbn [unmanaged_values_].
  assert (null_ivalue ∈ elements (unmanaged_value_set pl)) as Hn.
  { apply elem_of_elements. by eapply plan_values_null. }
  split; [done|]. intros rt' mem. unfold deallocate. cbn [unmanaged_values_].
  destruct (reset_values (elements (unmanaged_value_set pl)) rt') as [_ Hth].
  by rewrite (Hth null_ivalue (undefined_behaviour "IValue*") Hn).
Qed.


(** ** StaticRuntime::StaticRuntime: the value table *)

Lemma for_each_prefix_inv_ok {A St} (P : list A → St → Prop) (l : list A)
    (body : A → St → result St) (s s' : St) :
  P [] s →
  (∀ pre x post s s', l = pre ++ x :: post → P pre s → body x s = Ok s' →
     P (pre ++ [x]) s') →
  for_each l body s = Ok s' → P l s'.
Proof.
  intros H0. revert s'. induction l as [|x l IH] using rev_ind; intros s' Hstep.
  - by intros [= <-].
  - rewrite for_each_app.
    destruct (for_each l body s) as [s1|] eqn:Hs1; [|done].
    cbn [mbind result_bind for_each].
    destruct (body x s1) as [s2|] eqn:Hs2; [|done]. intros [= <-].
    apply (Hstep l x [] s1); [done| |done].
    apply IH; [|done]. intros pre y post t t' Hl.
    apply (Hstep pre y (post ++ [x])). rewrite Hl. by rewrite <- app_assoc.
Qed.

Lemma collect_map_at {K V} `{Countable K} (m : gmap K V) (l : list K)
    (acc0 acc : list V) :
  for_each l (λ x acc, p ← map_at m x; Ok (acc ++ [p])) acc0 = Ok acc →
  ∃ ps, acc = acc0 ++ ps ∧ Forall2 (λ x p, m !! x = Some p) l ps.
Proof.
  revert acc0. induction l as [|x l IH]; intros acc0; simpl.
  - intros [= <-]. exists []. rewrite app_nil_r. split; [done | constructor].
  - destruct (map_at m x) as [p|] eqn:Hx; [|done].
    cbn [mbind result_bind]. intros Hl.
    apply IH in Hl as (ps & -> & Hps). exists (p :: ps).
    rewrite <- app_assoc. split; [done|]. constructor; [|done].
    unfold map_at in Hx. destruct (m !! x); congruence.
Qed.

Lemma foldl_register {V} (F : nat → V) (l : list nat) (m : gmap nat V) v q :
  foldl (λ m (p : nat * nat), <[p.2 := F p.1]> m) m (imap pair l) !! v = Some q →
  m !! v = Some q ∨ ∃ i, l !! i = Some v ∧ q = F i.
Proof.
  induction l as [|x l IH] using rev_ind; [by left|].
  rewrite imap_app, foldl_app. cbn [imap foldl fst snd].
  rewrite Nat.add_0_r. destruct (decide (v = x)) as [->|Hne].
  - rewrite lookup_insert_eq. intros [= <-]. right. exists (length l).
    split; [|done]. rewrite lookup_app_r by lia. by rewrite Nat.sub_diag.
  - rewrite lookup_insert_ne by done. intros Hv.
    apply IH in Hv as [?|(i & Hi & ->)]; [by left|]. right. exists i.
    split; [|done]. by apply lookup_app_l_Some.
Qed.

Lemma filter_middle {A} (P : A → Prop) `{∀ x, Decision (P x)}
    (pre post : list A) (x : A) :
  P x → filter P (pre ++ x :: post) !! length (filter P pre) = Some x.
Proof.
  intros Hx. rewrite filter_app, filter_cons_True by done.
  rewrite lookup_app_r by lia. by rewrite Nat.sub_diag.
Qed.

Lemma ProcessedNode_new_fields node ins e pn :
  ProcessedNode_new node ins e = Ok pn →
  node_ pn = node ∧ pn_inputs_ pn = ins ∧
  pn_outputs_ pn = replicate (length (outputs node)) INone.
Proof.
  unfold ProcessedNode_new.
  destruct (if needs_operator (kind node) then _ else _); [|done].
  cbn [mbind result_bind].
  destruct (e && canRunOutOfPlace node); [|destruct (canRunNatively node)];
    by intros [= <-].
Qed.

Lemma sublist_join {A} (l1 l2 : list (list A)) :
  sublist l1 l2 → sublist (mjoin l1) (mjoin l2).
Proof.
  induction 1 as [|x l1 l2 _ IH|x l1 l2 _ IH]; simpl.
  - done.
  - by apply sublist_app.
  - by apply sublist_inserts_l.
Qed.

Lemma NoDup_join_unique {A} (ls : list (list A)) (a b : nat) (l l' : list A)
    (v : A) :
  NoDup (mjoin ls) → ls !! a = Some l → ls !! b = Some l' →
  v ∈ l → v ∈ l' → a = b.
Proof.
  revert a b. induction ls as [|x ls IH]; intros a b Hnd Ha Hb Hv Hv';
    [done|].
  rewrite join_cons in Hnd. apply NoDup_app in Hnd as (_ & Hdisj & Hnd).
  assert (∀ c m, ls !! c = Some m → v ∈ m → v ∈ mjoin ls) as Hin.
  { intros c m Hc Hm. apply list_elem_of_join. exists m. split; [done|].
    by eapply list_elem_of_lookup_2. }
  destruct a as [|a], b as [|b]; simpl in *.
  - done.
  - injection Ha as <-. destruct (Hdisj v Hv). by eapply Hin.
  - injection Hb as <-. destruct (Hdisj v Hv'). by eapply Hin.
  - f_equal. by eapply IH.
Qed.

Lemma NoDup_join_elem {A} (ls : list (list A)) (l : list A) :
  NoDup (mjoin ls) → l ∈ ls → NoDup l.
Proof.
  induction ls as [|x ls IH]; intros Hnd Hl; [by apply elem_of_nil in Hl|].
  rewrite join_cons in Hnd. apply NoDup_app in Hnd as (Hx & _ & Hnd).
  apply elem_of_cons in Hl as [->|Hl]; [done | by apply IH].
Qed.

Lemma value_slot_unique g v p p' :
  wf_graph g → value_slot g v p → value_slot g v p' → p = p'.
Proof.
  intros [Hnd _]. apply NoDup_app in Hnd as (Hin & Hdisj & Hout).
  assert (∀ P `{∀ x, Decision (P x)},
            NoDup (mjoin (outputs <$> filter P (g_nodes g)))) as Hsub.
  { intros P ?.
    apply (sublist_NoDup _ (mjoin (outputs <$> g_nodes g))); [exact Hout|].
    apply sublist_join, fmap_sublist, sublist_filter. }
  assert (∀ nd, nd ∈ g_nodes g → v ∈ outputs nd →
            v ∈ mjoin (outputs <$> g_nodes g)) as Hmem.
  { intros nd Hnd Hv. apply list_elem_of_join. exists (outputs nd).
    split; [done|]. apply list_elem_of_fmap. by exists nd. }
  assert (∀ P `{∀ x, Decision (P x)} n nd,
            filter P (g_nodes g) !! n = Some nd → nd ∈ g_nodes g ∧ P nd) as Hfil.
  { intros P ? n nd Hn. apply list_elem_of_lookup_2 in Hn.
    apply list_elem_of_filter in Hn. tauto_goal. }
  unfold value_slot, constant_nodes, processed_nodes.
  intros [(i & Hi & ->)|[(c & nd & Hc & Ho & ->)|(n & nd & i & Hn & Hi & ->)]]
         [(i' & Hi' & ->)|[(c' & nd' & Hc' & Ho' & ->)|(n' & nd' & i' & Hn' & Hi' & ->)]].
  - f_equal. exact (NoDup_lookup _ _ _ _ Hin Hi Hi').
  - exfalso. apply Hfil in Hc' as [Hg _].
    apply (Hdisj v); [by eapply list_elem_of_lookup_2|].
    apply (Hmem nd' Hg). rewrite Ho'. by left.
  - exfalso. apply Hfil in Hn' as [Hg _].
    apply (Hdisj v); [by eapply list_elem_of_lookup_2|].
    apply (Hmem nd' Hg). by eapply list_elem_of_lookup_2.
  - exfalso. apply Hfil in Hc as [Hg _].
    apply (Hdisj v); [by eapply list_elem_of_lookup_2|].
    apply (Hmem nd Hg). rewrite Ho. by left.
  - f_equal.
    apply (NoDup_join_unique _ c c' (outputs nd) (outputs nd') v
             (Hsub (λ n, is_Constant n = true) _)).
    + by rewrite list_lookup_fmap, Hc.
    + by rewrite list_lookup_fmap, Hc'.
    + rewrite Ho. by left.
    + rewrite Ho'. by left.
  - exfalso. apply Hfil in Hc as [Hg Hk]. apply Hfil in Hn' as [Hg' Hk'].
    apply list_elem_of_lookup_1 in Hg as [k Hg].
    apply list_elem_of_lookup_1 in Hg' as [k' Hg'].
    assert (k = k') as <-.
    { apply (NoDup_join_unique (outputs <$> g_nodes g) k k' (outputs nd)
               (outputs nd') v Hout).
      - by rewrite list_lookup_fmap, Hg.
      - by rewrite list_lookup_fmap, Hg'.
      - rewrite Ho. by left.
      - by eapply list_elem_of_lookup_2. }
    congruence.
  - exfalso. apply Hfil in Hn as [Hg _].
    apply (Hdisj v); [by eapply list_elem_of_lookup_2|].
    apply (Hmem nd Hg). by eapply list_elem_of_lookup_2.
  - exfalso. apply Hfil in Hn as [Hg Hk]. apply Hfil in Hc' as [Hg' Hk'].
    apply list_elem_of_lookup_1 in Hg as [k Hg].
    apply list_elem_of_lookup_1 in Hg' as [k' Hg'].
    assert (k = k') as <-.
    { apply (NoDup_join_unique (outputs <$> g_nodes g) k k' (outputs nd)
               (outputs nd') v Hout).
      - by rewrite list_lookup_fmap, Hg.
      - by rewrite list_lookup_fmap, Hg'.
      - by eapply list_elem_of_lookup_2.
      - rewrite Ho'. by left. }
    congruence.
  - assert (n = n') as <-.
    { apply (NoDup_join_unique _ n n' (outputs nd) (outputs nd') v
               (Hsub (λ n, is_Constant n = false) _)).
      - by rewrite list_lookup_fmap, Hn.
      - by rewrite list_lookup_fmap, Hn'.
      - by eapply list_elem_of_lookup_2.
      - by eapply list_elem_of_lookup_2. }
    assert (nd' = nd) as -> by congruence. f_equal.
    eapply NoDup_lookup; [|done|done].
    apply (NoDup_join_elem (outputs <$> g_nodes g)); [done|].
    apply list_elem_of_fmap. exists nd. split; [done|].
    by apply (Hfil (λ n, is_Constant n = false) _ n nd).
Qed.


Lemma StaticRuntime_new_layout g sch opts0 rt :
  StaticRuntime_new g sch opts0 = Ok rt →
  node_ <$> nodes_ rt = processed_nodes g ∧
  length (constants_ rt) = length (constant_nodes g) ∧
  inputs_ rt = replicate (length (g_inputs g)) INone ∧
  Forall (λ pn, Forall2 (value_slot g) (inputs (node_ pn)) (pn_inputs_ pn) ∧
                pn_outputs_ pn = replicate (length (outputs (node_ pn))) INone)
         (nodes_ rt) ∧
  Forall2 (value_slot g) (g_outputs g) (outputs_ rt) ∧
  schema_ rt = sch ∧ opts_ rt = opts0 ∧ planner_ rt = None.
Proof.
  unfold StaticRuntime_new. cbv zeta.
  destruct (for_each (g_nodes g) (build_constant g) _) as [b1|] eqn:H1; [|done].
  cbn [mbind result_bind].
  destruct (for_each (g_nodes g) register_constant _) as [b1'|] eqn:H1'; [|done].
  cbn [mbind result_bind].
  destruct (for_each (g_nodes g) (build_node opts0) _) as [b2|] eqn:H2; [|done].
  cbn [mbind result_bind].
  destruct (for_each (g_outputs g) _ _) as [outs|] eqn:H3; [|done].
  cbn [mbind result_bind]. intros [= <-].
  cbn [nodes_ constants_ inputs_ outputs_ schema_ opts_ planner_].
  set (sound := λ m : gmap nat IValuePtr, ∀ v p, m !! v = Some p → value_slot g v p).
  (* the constants are collected *)
  assert (b_nodes b1 = [] ∧ sound (val_to_ival b1) ∧
          length (b_constants b1) = length (constant_nodes g)) as (Hn1 & Hs1 & Hc1).
  { revert H1.
    apply (for_each_prefix_inv_ok (λ pre b,
             b_nodes b = [] ∧ sound (val_to_ival b) ∧
             length (b_constants b) =
               length (filter (λ n, is_Constant n = true) pre))).
    - split; [done|]. split; [|done]. intros v p Hv. cbn [val_to_ival] in Hv.
      apply foldl_register in Hv as [Hv|(i & Hi & ->)].
      + by rewrite lookup_empty in Hv.
      + left. by exists i.
    - intros pre nd post b b' Hl (Hn & Hs & Hc). unfold build_constant.
      rewrite filter_app. destruct (is_Constant nd) eqn:Hk; cbn [negb].
      + destruct (Node_output1 nd); [|done]. cbn [mbind result_bind].
        destruct (TORCH_CHECK _ _); [|done]. cbn [mbind result_bind].
        destruct (toIValue g a); [|done]. intros [= <-].
        cbn [b_nodes val_to_ival b_constants].
        split; [done|]. split; [done|].
        rewrite filter_cons_True by done.
        rewrite !length_app, Hc. done.
      + intros [= <-]. split; [done|]. split; [done|].
        rewrite filter_cons_False by (by rewrite Hk).
        by rewrite filter_nil, app_nil_r. }
  (* the constants are registered *)
  assert ((b_nodes b1'.2 = [] ∧ sound (val_to_ival b1'.2) ∧
           b_constants b1'.2 = b_constants b1) ∧
          b1'.1 = length (constant_nodes g)) as [(Hn1' & Hs1' & Hc1') _].
  { revert H1'.
    apply (for_each_prefix_inv_ok (λ pre (s : nat * Build),
             (b_nodes s.2 = [] ∧ sound (val_to_ival s.2) ∧
              b_constants s.2 = b_constants b1) ∧
             s.1 = length (filter (λ n, is_Constant n = true) pre)));
      [done|].
    intros pre nd post s s' Hl ((Hn & Hs & Hc) & Hcnt).
    unfold register_constant. rewrite filter_app.
    destruct (is_Constant nd) eqn:Hk; cbn [negb].
    - unfold Node_output1. destruct (outputs nd) as [|v [|? ?]] eqn:Ho;
        [done| |done].
      cbn [mbind result_bind]. intros [= <-].
      cbn [b_nodes val_to_ival b_constants fst snd]. split_and!; try done.
      + intros w p. destruct (decide (w = v)) as [->|Hne].
        * rewrite lookup_insert_eq. intros [= <-]. right; left.
          exists s.1, nd. split; [|done]. rewrite Hcnt. unfold constant_nodes.
          rewrite Hl. by apply filter_middle.
        * rewrite lookup_insert_ne by done. apply Hs.
      + rewrite filter_cons_True by done. rewrite length_app, Hcnt. simpl. lia.
    - intros [= <-]. split; [done|].
      rewrite filter_cons_False by (by rewrite Hk).
      by rewrite filter_nil, app_nil_r. }
  (* the processed nodes are built *)
  assert (sound (val_to_ival b2) ∧ b_constants b2 = b_constants b1 ∧
          node_ <$> b_nodes b2 = processed_nodes g ∧
          Forall (λ pn, Forall2 (value_slot g) (inputs (node_ pn)) (pn_inputs_ pn) ∧
                        pn_outputs_ pn =
                          replicate (length (outputs (node_ pn))) INone)
                 (b_nodes b2)) as (Hs2 & Hc2 & Hn2 & Hall).
  { revert H2.
    apply (for_each_prefix_inv_ok (λ pre b,
             sound (val_to_ival b) ∧ b_constants b = b_constants b1 ∧
             node_ <$> b_nodes b = filter (λ n, is_Constant n = false) pre ∧
             Forall (λ pn, Forall2 (value_slot g) (inputs (node_ pn))
                                   (pn_inputs_ pn) ∧
                           pn_outputs_ pn =
                             replicate (length (outputs (node_ pn))) INone)
                    (b_nodes b))).
    - split; [done|]. split; [done|]. rewrite Hn1'. by split.
    - intros pre nd post b b' Hl (Hs & Hc & Hn & Hf). unfold build_node.
      rewrite filter_app. destruct (is_Constant nd) eqn:Hk.
      + intros [= <-]. split_and!; try done.
        rewrite filter_cons_False by (by rewrite Hk).
        by rewrite filter_nil, app_nil_r.
      + destruct (for_each (inputs nd) _ _) as [ins|] eqn:Hins; [|done].
        cbn [mbind result_bind].
        destruct (ProcessedNode_new nd ins _) as [pn|] eqn:Hpn; [|done].
        cbn [mbind result_bind]. intros [= <-].
        cbn [b_nodes val_to_ival b_constants].
        apply ProcessedNode_new_fields in Hpn as (Hnode & Hpi & Hpo).
        apply collect_map_at in Hins as (ps & -> & Hps). simpl in Hpi.
        split_and!.
        * intros w p Hw. apply foldl_register in Hw as [Hw|(i & Hi & ->)];
            [by apply Hs|].
          right; right. exists (length (b_nodes b)), nd, i.
          split; [|done]. unfold processed_nodes. rewrite Hl.
          replace (length (b_nodes b)) with
            (length (filter (λ n, is_Constant n = false) pre))
            by (by rewrite <- Hn, length_fmap).
          by apply filter_middle.
        * done.
        * rewrite fmap_app, Hn, filter_cons_True by done.
          simpl. by rewrite Hnode.
        * apply Forall_app. split; [done|]. apply Forall_singleton.
          rewrite Hnode, Hpi, Hpo. split; [|done].
          eapply Forall2_impl; [done|]. intros w p Hw. by apply Hs. }
  apply collect_map_at in H3 as (ps & -> & Hps).
  split_and!; try done.
  - congruence.
  - simpl. eapply Forall2_impl; [done|]. intros w p Hw. by apply Hs2.
Qed.

(** X20. The runtime that the constructor builds has one processed node
    for every node of the graph that is not a prim::Constant, in the order
    of the graph, one entry of constants_ per prim::Constant node and one
    empty input slot per graph input.  Every input pointer of a processed
    node and every output pointer of the runtime addresses the slot of the
    Value it stands for, and the outputs of the processed nodes are empty
    slots, one per output of the node.  In a well-formed graph a Value has
    one slot only. *)
Theorem StaticRuntime_new_slots (g : Graph) (sch : option FunctionSchema)
    (opts0 : InferenceModuleOptions) (rt : StaticRuntime) :
  StaticRuntime_new g sch opts0 = Ok rt →
  node_ <$> nodes_ rt = processed_nodes g ∧
  length (constants_ rt) = length (constant_nodes g) ∧
  inputs_ rt = replicate (length (g_inputs g)) INone ∧
  Forall (λ pn, Forall2 (value_slot g) (inputs (node_ pn)) (pn_inputs_ pn) ∧
                pn_outputs_ pn = replicate (length (outputs (node_ pn))) INone)
         (nodes_ rt) ∧
  Forall2 (value_slot g) (g_outputs g) (outputs_ rt) ∧
  schema_ rt = sch ∧ opts_ rt = opts0 ∧ planner_ rt = None ∧
  (wf_graph g → ∀ v p p', value_slot g v p → value_slot g v p' → p = p').
Proof.
  intros Hrt.
  destruct (StaticRuntime_new_layout g sch opts0 rt Hrt)
    as (Hnodes & Hconsts & Hins & Hslots & Houts & Hsch & Hopts & Hpl).
  split_and!; try done.
  intros Hwf v p p'. by apply value_slot_unique.
Qed.


(** ** The collectives of DistributedC10d *)

Lemma rankNotInGroup_null c : default_pg_ c ≠ None → rankNotInGroup c None = true.
Proof.
  intros Hd. unfold rankNotInGroup. rewrite decide_False by done.
  by rewrite bool_decide_eq_true_2.
Qed.

Lemma rankNotInGroup_some c pg : rankNotInGroup c (Some pg) = false.
Proof. unfold rankNotInGroup. by case_decide. Qed.

(** X21. When a default group is set, every collective called with a null
    group returns at once, a null work (recv: -1), without a call of
    checkDefaultPg, of a process group or of a work. *)
Theorem collectives_skip_null_group (c : DistributedC10d)
    (t : ProcessGroupTables) (tr : list PGCall) :
  default_pg_ c ≠ None →
  (∀ x dst tag, isend c t x dst None tag tr = (Ok None, tr)) ∧
  (∀ x src tag, irecv c t x src None tag tr = (Ok None, tr)) ∧
  (∀ x dst tag, send c t x dst None tag tr = (Ok tt, tr)) ∧
  (∀ x src tag, recv c t x src None tag tr = (Ok (-1)%Z, tr)) ∧
  (∀ l src a st, broadcastMultiGPU c t l src None a st tr = (Ok None, tr)) ∧
  (∀ x src a, broadcast c t x src None a tr = (Ok None, tr)) ∧
  (∀ l op a, allReduceMultiGPU c l None op a tr = (Ok None, tr)) ∧
  (∀ x op a, allReduce c x None op a tr = (Ok None, tr)) ∧
  (∀ x l dst a, gather c t x l None dst a tr = (Ok None, tr)) ∧
  (∀ x l src a, scatter c t x l None src a tr = (Ok None, tr)) ∧
  (∀ a, barrier c None a tr = (Ok None, tr)).
Proof.
  intros Hd. pose proof (rankNotInGroup_null c Hd) as Hn.
  unfold isend, irecv, send, recv, broadcastMultiGPU, broadcast,
    allReduceMultiGPU, allReduce, gather, scatter, barrier, isend.
  unfold mbind, ST_bind. rewrite Hn. by split_and!.
Qed.

(** X22. send to a group that is not the default group translates the
    destination from a global rank to a rank of the group before anything
    is sent: when the translation throws, send throws the same and no
    process group is called; otherwise the group is asked to send to the
    translated rank with the tag, or tag 0 when none is given, and send
    waits for the work that the group returns. *)
Theorem send_translates_rank (c : DistributedC10d) (t : ProcessGroupTables)
    (tensor : Tensor) (dst : Z) (pg : nat) (tag : option Z)
    (tr : list PGCall) :
  default_pg_ c ≠ Some pg → checkDefaultPg c = inr tt →
  (∀ e, getGroupRank c t (Some pg) dst = Throw e →
        send c t tensor dst (Some pg) tag tr = (Throw e, tr)) ∧
  (∀ r w, getGroupRank c t (Some pg) dst = Ok r →
     let sent := pg_send pg [tensor] r (default 0%Z tag) in
     ProcessGroup_collective tr sent = inr w →
     send c t tensor dst (Some pg) tag tr =
       (call (Work_wait (tr ++ [sent]) w) ;; Ok tt,
        tr ++ [sent] ++ [work_wait w])).
Proof.
  intros Hd Hcheck.
  unfold send, isend, mbind, ST_bind, lift, deref, invoke, wait, mret, ST_ret.
  rewrite rankNotInGroup_some, Hcheck. cbn [call].
  rewrite decide_False by congruence. split.
  - by intros e ->.
  - intros r w Hr. cbn zeta. intros Hw. rewrite Hr. unfold lift.
    rewrite Hw. cbn [call]. by rewrite <- app_assoc.
Qed.

(** X23. recv with a source returns that source.  recv from any source on
    a group that is not the default group asks the group for a message from
    any source, waits for the work, reads the rank of the sender from it
    and returns a global rank that the table of the group maps to the rank
    of the sender. *)
Theorem recv_returns_global_rank (c : DistributedC10d)
    (t : ProcessGroupTables) (tensor : Tensor) (group : ProcessGroupPtr)
    (tag : option Z) (tr tr' : list PGCall) (r : Z) :
  (∀ m, unordered_iteration m ≡ₚ map_to_list m) →
  rankNotInGroup c group = false →
  (∀ s, recv c t tensor (Some s) group tag tr = (Ok r, tr') → r = s) ∧
  (group ≠ default_pg_ c →
   recv c t tensor None group tag tr = (Ok r, tr') →
   ∃ pg w,
     group = Some pg ∧
     let asked := pg_recvAnysource pg [tensor] (default 0%Z tag) in
     ProcessGroup_collective tr asked = inr w ∧
     tr' = tr ++ [asked; work_wait w; work_sourceRank w] ∧
     getGroupRank c t group r =
       Ok (Work_sourceRank (tr ++ [asked; work_wait w]) w)).
Proof.
  intros Hperm Hin. unfold recv. rewrite Hin. split.
  - intros s. unfold mbind, ST_bind, mret, ST_ret.
    destruct (if decide (group = default_pg_ c) then _ else _) as [[[]|e] tr1];
      by intros [= <- <-].
  - intros Hd.
    unfold mbind, ST_bind, deref, lift, invoke, wait, sourceRank, mret, ST_ret.
    destruct group as [pg|]; [|done].
    destruct (ProcessGroup_collective tr
                (pg_recvAnysource pg [tensor] (default 0%Z tag)))
      as [e|w] eqn:Hw; [done|].
    cbn [call]. destruct (Work_wait _ w) as [e|b]; [done|].
    cbn [call mbind result_bind]. rewrite decide_False by done.
    destruct (getGlobalRank c (Some pg) _) as [q|e] eqn:Hq; [|done].
    intros [= <- <-]. exists pg, w. split; [done|]. cbn zeta.
    split; [done|]. rewrite <- !app_assoc. split; [done|].
    apply getGlobalRank_ok in Hq as (_ & m & Hm & Hr); [|done].
    apply getGroupRank_ok. split; [done|]. exists m. split; [done|].
    by rewrite <- app_assoc in Hr.
Qed.

(** X24. gather decides whether it is called on the destination by
    comparing dst with the rank that the given group reports, and scatter
    by comparing src with the rank that the default group reports, also
    when the given group is another group.  On the destination gather
    throws when no gather_list is given, elsewhere it throws when one is
    given, in both cases before it calls the group; otherwise it hands the
    gather_list, or no list, to the group.  scatter hands scatter_list to
    the group on the source and an empty list elsewhere.  On a group other
    than the default group both pass the rank that getGroupRank gives for
    the root, and throw what getGroupRank throws before they call the
    group. *)
Theorem gather_scatter_root (c : DistributedC10d) (t : ProcessGroupTables)
    (tensor : Tensor) (pg dpg : nat) (root : Z) (async_op : bool)
    (tr : list PGCall) :
  default_pg_ c = Some dpg →
  (root = ProcessGroup_getRank pg →
     gather c t tensor None (Some pg) root async_op tr =
       (Throw (c10_Error
          "Argument ``gather_list`` must be specified on destination rank"),
        tr)) ∧
  (∀ l, root ≠ ProcessGroup_getRank pg →
     gather c t tensor (Some l) (Some pg) root async_op tr =
       (Throw (c10_Error
          "Argument ``gather_list`` must NOT be specified on non-destination ranks."),
        tr)) ∧
  (∀ l, scatter c t tensor l (Some dpg) root async_op tr =
     (work ← invoke (pg_scatter dpg [tensor]
                       (if decide (root = ProcessGroup_getRank dpg)
                        then [l] else []) root) ;
      finish async_op work) tr) ∧
  (∀ l r, pg ≠ dpg → getGroupRank c t (Some pg) root = Ok r →
     scatter c t tensor l (Some pg) root async_op tr =
       (work ← invoke (pg_scatter pg [tensor]
                         (if decide (root = ProcessGroup_getRank dpg)
                          then [l] else []) r) ;
        finish async_op work) tr) ∧
  (∀ l e, pg ≠ dpg → getGroupRank c t (Some pg) root = Throw e →
     scatter c t tensor l (Some pg) root async_op tr = (Throw e, tr)) ∧
  (∀ gl r, pg ≠ dpg → getGroupRank c t (Some pg) root = Ok r →
     (root = ProcessGroup_getRank pg ↔ is_Some gl) →
     gather c t tensor gl (Some pg) root async_op tr =
       (work ← invoke (pg_gather pg (option_list gl) [tensor] r) ;
        finish async_op work) tr) ∧
  (∀ gl, (root = ProcessGroup_getRank dpg ↔ is_Some gl) →
     gather c t tensor gl (Some dpg) root async_op tr =
       (work ← invoke (pg_gather dpg (option_list gl) [tensor] root) ;
        finish async_op work) tr) ∧
  (∀ gl e, pg ≠ dpg → getGroupRank c t (Some pg) root = Throw e →
     (root = ProcessGroup_getRank pg ↔ is_Some gl) →
     gather c t tensor gl (Some pg) root async_op tr = (Throw e, tr)).
Proof.
  intros Hd.
  assert (∀ q (gl : option (list Tensor)),
            (root = ProcessGroup_getRank q ↔ is_Some gl) →
            (if decide (root = ProcessGroup_getRank q) then
               match gl with
               | Some l => Ok [l]
               | None => Throw (c10_Error
                   "Argument ``gather_list`` must be specified on destination rank")
               end
             else
               match gl with
               | None => Ok []
               | Some _ => Throw (c10_Error
                   "Argument ``gather_list`` must NOT be specified on non-destination ranks.")
               end) = Ok (option_list gl)) as Hlist.
  { intros q gl Hiff. destruct (decide (root = ProcessGroup_getRank q)) as [Hq|Hq].
    - apply Hiff in Hq as [l ->]. done.
    - destruct gl as [l|]; [| done]. destruct Hq. apply Hiff. by eexists. }
  split_and!.
  - intros ->. unfold gather, mbind, ST_bind, deref, lift.
    rewrite rankNotInGroup_some. by rewrite decide_True.
  - intros l Hr. unfold gather, mbind, ST_bind, deref, lift.
    rewrite rankNotInGroup_some. by rewrite decide_False.
  - intros l. unfold scatter, getRank. rewrite !rankNotInGroup_some, Hd.
    rewrite rankNotInGroup_some.
    unfold mbind, ST_bind, deref, lift. by rewrite decide_True.
  - intros l r Hne Hr. unfold scatter, getRank.
    rewrite !rankNotInGroup_some, Hd, rankNotInGroup_some.
    unfold mbind, ST_bind, deref, lift.
    rewrite decide_False by congruence. by rewrite Hr.
  - intros l e Hne He. unfold scatter, getRank.
    rewrite !rankNotInGroup_some, Hd, rankNotInGroup_some.
    unfold mbind, ST_bind, deref, lift.
    rewrite decide_False by congruence. by rewrite He.
  - intros gl r Hne Hr Hiff. unfold gather, mbind, ST_bind, deref, lift.
    rewrite rankNotInGroup_some, (Hlist pg gl Hiff), Hd.
    rewrite decide_False by congruence. by rewrite Hr.
  - intros gl Hiff. unfold gather, mbind, ST_bind, deref, lift.
    rewrite rankNotInGroup_some, (Hlist dpg gl Hiff), Hd.
    by rewrite decide_True.
  - intros gl e Hne He Hiff. unfold gather, mbind, ST_bind, deref, lift.
    rewrite rankNotInGroup_some, (Hlist pg gl Hiff), Hd.
    rewrite decide_False by congruence. by rewrite He.
Qed.


(** ** The lifetimes behind the liveness map *)

Lemma wf_outputs_NoDup g : wf_graph g → NoDup (mjoin (outputs <$> g_nodes g)).
Proof. intros [Hnd _]. by apply NoDup_app in Hnd as (_ & _ & ?). Qed.

Lemma pending_defined g k nd v :
  wf_graph g → g_nodes g !! k = Some nd → v ∈ outputs nd →
  pending g k v = users g v.
Proof.
  intros Hwf Hk Hv. unfold pending. case_decide; [done|].
  apply set_eq. intros j. rewrite elem_of_filter. split; [by intros [_ ?]|].
  intros Hj. split; [|done]. apply Nat.lt_le_incl.
  by apply (wf_users_later g k nd v j).
Qed.

Lemma pending_next g k nd v :
  g_nodes g !! k = Some nd →
  pending g (S k) v =
    if decide (v ∈ inputs nd ∧ ¬ is_const g v) then pending g k v ∖ {[k]}
    else pending g k v.
Proof.
  intros Hk. unfold pending. destruct (decide (is_const g v)) as [Hc|Hc].
  - by rewrite decide_False by (by intros [_ ?]).
  - apply set_eq. intros j. case_decide as Hin.
    + rewrite elem_of_difference, !elem_of_filter, not_elem_of_singleton.
      split; [intros [? ?]; split_and!; [lia | done | lia]|].
      intros [[? ?] ?]. split; [lia | done].
    + rewrite !elem_of_filter. split; [intros [? ?]; split; [lia | done]|].
      intros [Hle Hj]. split; [|done].
      destruct (decide (j = k)) as [->|]; [|lia]. exfalso. apply Hin.
      split; [|done]. apply users_spec in Hj as (nd' & Hnd' & Hv).
      unfold all_nodes in Hnd'.
      rewrite lookup_app_l in Hnd' by (by eapply lookup_lt_Some). congruence.
Qed.

Lemma add_live_value_exact g k nd pre v post st st' :
  wf_graph g → g_nodes g !! k = Some nd → outputs nd = pre ++ v :: post →
  sweep_inv g k pre st → sweep_exact g k pre st →
  add_live_value g v st = Ok st' → sweep_exact g k (pre ++ [v]) st'.
Proof.
  intros Hwf Hk Hout [Hdom Hlive _ _ _ _] [Hex Hmap] Hst'.
  destruct (add_live_value_spec g v st Hlive) as (st1 & Hst1 & _ & Hlv & _ & He).
  assert (st1 = st') as -> by congruence. clear Hst1.
  set (D := outs_upto g k ++ pre) in *.
  assert (v ∉ D) as Hfresh.
  { pose proof (wf_outputs_fresh g k nd Hwf Hk) as Hnd.
    rewrite Hout, app_assoc in Hnd. apply NoDup_app in Hnd as (_ & Hdisj & _).
    intros Hin. apply (Hdisj v Hin). by left. }
  assert (v ∈ outputs nd) as Hvout.
  { rewrite Hout. apply elem_of_app. right. by left. }
  assert (∀ a, a ∈ dom (live_values st) ↔ a ∈ D ∧ pending g k a ≠ ∅) as Hdomlv.
  { intros a. rewrite elem_of_dom, Hex. case_decide; [|split; [by intros [? ?]|done]].
    split; [done|]. intros _. by eexists. }
  assert (∀ a, live_at g a v ↔ pending g k a ≠ ∅) as Hlive_v.
  { intros a. split.
    - intros (kb & nd' & Hkb & Hv' & Hp).
      assert (kb = k) as -> ; [|done].
      apply (NoDup_join_unique (outputs <$> g_nodes g) kb k (outputs nd')
               (outputs nd) v (wf_outputs_NoDup g Hwf)); try done.
      + by rewrite list_lookup_fmap, Hkb.
      + by rewrite list_lookup_fmap, Hk.
    - intros Hp. by exists k, nd. }
  assert (outs_upto g k ++ pre ++ [v] = D ++ [v]) as HD by (by rewrite app_assoc).
  split.
  - intros w. rewrite Hlv, HD. destruct (decide (w = v)) as [->|Hne].
    + rewrite (pending_defined g k nd v Hwf Hk Hvout).
      destruct (hasUses g v) eqn:Hu.
      * rewrite lookup_insert_eq. rewrite decide_True; [done|].
        split; [apply elem_of_app; right; by left | by apply hasUses_users].
      * rewrite Hex, decide_False by (by intros [? _]).
        rewrite decide_False; [done|]. intros [_ Hne].
        apply hasUses_users in Hne. congruence.
    + assert ((if hasUses g v then <[v:=users g v]> (live_values st)
               else live_values st) !! w = live_values st !! w) as ->.
      { destruct (hasUses g v); [by rewrite lookup_insert_ne|done]. }
      rewrite Hex. apply decide_ext. rewrite elem_of_app, list_elem_of_singleton.
      clear_params. clear - Hne. tauto.
  - intros a b. rewrite He, HD. split.
    + intros [[Ha Hab]|[[-> Hb]|[-> Ha]]].
      * apply Hmap in Hab as (i & j & Hi & Hj & Hc). exists i, j.
        split; [by apply lookup_app_l_Some|].
        split; [by apply lookup_app_l_Some | done].
      * apply Hdomlv in Hb as [HbD Hp].
        apply list_elem_of_lookup_1 in HbD as [j Hj].
        exists (length D), j. split_and!.
        -- rewrite lookup_app_r by lia. by rewrite Nat.sub_diag.
        -- by apply lookup_app_l_Some.
        -- right. split; [by eapply lookup_lt_Some | by apply Hlive_v].
      * apply Hdomlv in Ha as [HaD Hp].
        apply list_elem_of_lookup_1 in HaD as [i Hi].
        exists i, (length D). split_and!.
        -- by apply lookup_app_l_Some.
        -- rewrite lookup_app_r by lia. by rewrite Nat.sub_diag.
        -- left. split; [by eapply lookup_lt_Some | by apply Hlive_v].
    + intros (i & j & Hi & Hj & Hc).
      assert (∀ n x, (D ++ [v]) !! n = Some x →
                (n < length D)%nat ∧ D !! n = Some x ∧ x ≠ v ∨
                n = length D ∧ x = v) as Hsplit.
      { intros n x Hn. apply lookup_app_Some in Hn as [Hn|[Hle Hn]].
        - left. split_and!; [by eapply lookup_lt_Some | done |].
          intros ->. apply Hfresh. by eapply list_elem_of_lookup_2.
        - right. apply list_lookup_singleton_Some in Hn as [? ->]. split; [lia|done]. }
      apply Hsplit in Hi as [(Hil & Hi & Hav)|[-> ->]];
        apply Hsplit in Hj as [(Hjl & Hj & Hbv)|[-> ->]].
      * left. split; [done|]. apply Hmap. by exists i, j.
      * right; right. split; [done|]. apply Hdomlv.
        split; [by eapply list_elem_of_lookup_2|].
        destruct Hc as [[_ Hl]|[? _]]; [by apply Hlive_v | lia].
      * right; left. split; [done|]. apply Hdomlv.
        split; [by eapply list_elem_of_lookup_2|].
        destruct Hc as [[? _]|[_ Hl]]; [lia | by apply Hlive_v].
      * lia.
Qed.

Lemma traverse_exact g k nd st1 :
  g_nodes g !! k = Some nd → sweep_exact g k (outputs nd) st1 →
  let s := traverse_node g k nd (st1, []) in
  sweep_exact g (S k) [] (erase_dead s.2 s.1).
Proof.
  intros Hk [Hex Hmap]. cbv zeta. unfold traverse_node.
  destruct (traverse_node_spec g k (inputs nd) st1 [])
    as (Hlm & _ & Hlv1 & Hlv2 & Hdead).
  set (s := foldl (λ s input, traverse_input g k input s) (st1, []) (inputs nd))
    in *.
  assert (outs_upto g (S k) ++ [] = outs_upto g k ++ outputs nd) as HD
    by (by rewrite (outs_upto_S _ _ _ Hk), app_nil_r).
  split.
  - intros v. unfold erase_dead. cbn [live_values]. rewrite erase_dead_lookup, HD.
    rewrite (pending_next g k nd v Hk).
    destruct (decide (v ∈ inputs nd ∧ ¬ is_const g v)) as [[Hin Hnc]|Hno].
    + rewrite (Hlv1 v Hin Hnc), Hex.
      destruct (decide (v ∈ outs_upto g k ++ outputs nd ∧ pending g k v ≠ ∅))
        as [[HvD Hp]|Hn].
      * cbn [fmap option_fmap option_map].
        destruct (decide (pending g k v ∖ {[k]} = ∅)) as [He|Hne].
        -- rewrite decide_True.
           ++ by rewrite decide_False by (by intros [_ ?]).
           ++ apply Hdead. right. split_and!; [done | done |].
              exists (pending g k v). split; [|done].
              rewrite Hex. by rewrite decide_True.
        -- rewrite decide_False.
           ++ by rewrite decide_True.
           ++ rewrite Hdead. intros [Hd|(_ & _ & S & HS & He)];
                [by apply elem_of_nil in Hd|].
              rewrite Hex, decide_True in HS by done. injection HS as <-. done.
      * cbn [fmap option_fmap option_map].
        rewrite decide_False.
        -- rewrite decide_False; [done|].
           intros [HvD Hp]. apply Hn. split; [done|]. intros He.
           rewrite He in Hp. apply Hp. apply set_eq. intros j.
           rewrite elem_of_difference. split; [|by intros ?%elem_of_empty].
           by intros [?%elem_of_empty _].
        -- rewrite Hdead. intros [Hd|(_ & _ & S & HS & _)];
             [by apply elem_of_nil in Hd|].
           by rewrite Hex, decide_False in HS by done.
    + rewrite (Hlv2 v Hno), Hex. rewrite decide_False; [done|].
      rewrite Hdead. intros [Hd|(? & ? & _)]; [by apply elem_of_nil in Hd|].
      by apply Hno.
  - intros a b. unfold erase_dead. cbn [liveness_map]. rewrite Hlm, HD.
    apply Hmap.
Qed.


Lemma sweep_exact_ok g :
  wf_graph g →
  ∃ st, sweep g = Ok st ∧ sweep_inv g (length (g_nodes g)) [] st ∧
        sweep_exact g (length (g_nodes g)) [] st.
Proof.
  intros Hwf. unfold sweep.
  apply (for_each_imap_inv (λ k st, sweep_inv g k [] st ∧ sweep_exact g k [] st)).
  - split.
    + split; cbn [liveness_map live_values always_alive].
      * intros v. rewrite dom_empty_L. split; [by intros ?%elem_of_empty|].
        by intros ?%elem_of_nil.
      * by rewrite dom_empty_L.
      * intros a b (s & Hs & _). by rewrite lookup_empty in Hs.
      * intros a (s & Hs & _). by rewrite lookup_empty in Hs.
      * intros v S Hs. by rewrite lookup_empty in Hs.
      * intros v [Hv|[Hv|(_ & j & _ & Hj & _)]]; [| |lia].
        -- apply elem_of_union. left. by apply elem_of_list_to_set.
        -- apply elem_of_union. right. by apply elem_of_list_to_set.
    + split; cbn [liveness_map live_values].
      * intros v. rewrite lookup_empty.
        by rewrite decide_False by (by intros [?%elem_of_nil _]).
      * intros a b. split.
        -- intros (s & Hs & _). by rewrite lookup_empty in Hs.
        -- by intros (i & j & Hi & _).
  - intros k nd st Hk [Hinv Hex]. unfold sweep_node. cbn [fst snd].
    destruct (for_each_prefix_inv
                (λ pre st, sweep_inv g k pre st ∧ sweep_exact g k pre st)
                (outputs nd) (add_live_value g) st) as (st1 & Hst1 & Hinv1 & Hex1).
    + done.
    + intros pre x post s Hl [Hi He].
      destruct (add_live_value_inv g k nd pre x post s Hwf Hk Hl Hi)
        as (s' & Hs' & Hi').
      exists s'. split; [done|]. split; [done|].
      by eapply add_live_value_exact.
    + rewrite Hst1. cbn [mbind result_bind]. eexists. split; [done|].
      split; [by apply traverse_inv | by apply traverse_exact].
Qed.

Lemma pending_nonempty g k a :
  pending g k a ≠ ∅ ↔ ∃ j, j ∈ users g a ∧ (is_const g a ∨ (k ≤ j)%nat).
Proof.
  unfold pending. case_decide as Hc.
  - split.
    + intros [j Hj]%set_choose_L. exists j. split; [done | by left].
    + intros (j & Hj & _) He. rewrite He in Hj. by apply elem_of_empty in Hj.
  - split.
    + intros [j Hj]%set_choose_L. apply elem_of_filter in Hj as [? ?].
      exists j. split; [done | by right].
    + intros (j & Hj & [?|Hle]) He; [done|].
      assert (j ∈ filter (λ j, (k ≤ j)%nat) (users g a)) as Hin
        by (by apply elem_of_filter).
      rewrite He in Hin. by apply elem_of_empty in Hin.
Qed.

Lemma live_at_iff g a b kb nb :
  wf_graph g → g_nodes g !! kb = Some nb → b ∈ outputs nb →
  live_at g a b ↔ pending g kb a ≠ ∅.
Proof.
  intros Hwf Hkb Hb. split.
  - intros (k' & nd' & Hk' & Hb' & Hp).
    assert (k' = kb) as -> ; [|done].
    apply (NoDup_join_unique (outputs <$> g_nodes g) k' kb (outputs nd')
             (outputs nb) b (wf_outputs_NoDup g Hwf)); try done.
    + by rewrite list_lookup_fmap, Hk'.
    + by rewrite list_lookup_fmap, Hkb.
  - intros Hp. by exists kb, nb.
Qed.

Lemma outs_upto_all_nodes g :
  outs_upto g (length (g_nodes g)) = mjoin (outputs <$> g_nodes g).
Proof. unfold outs_upto. by rewrite firstn_all. Qed.

Lemma output_index g k nd i v :
  g_nodes g !! k = Some nd → outputs nd !! i = Some v →
  mjoin (outputs <$> g_nodes g) !! (length (outs_upto g k) + i)%nat = Some v.
Proof.
  intros Hk Hi. rewrite <- (take_drop_middle _ _ _ Hk) at 1.
  rewrite fmap_app, join_app, fmap_cons, join_cons.
  fold (outs_upto g k). rewrite lookup_app_r by lia.
  replace (length (outs_upto g k) + i - length (outs_upto g k))%nat with i by lia.
  by apply lookup_app_l_Some.
Qed.

Lemma outs_upto_length_S g k :
  (length (outs_upto g k) ≤ length (outs_upto g (S k)))%nat.
Proof.
  destruct (g_nodes g !! k) as [nd|] eqn:Hk.
  - rewrite (outs_upto_S _ _ _ Hk), length_app. lia.
  - apply lookup_ge_None in Hk. unfold outs_upto.
    by rewrite !take_ge by lia.
Qed.

Lemma outs_upto_length_mono g j k :
  (j ≤ k)%nat → (length (outs_upto g j) ≤ length (outs_upto g k))%nat.
Proof.
  induction 1 as [|k _ IH]; [done|].
  pose proof (outs_upto_length_S g k). lia.
Qed.

Lemma output_index_lt g ka kb na ia a :
  g_nodes g !! ka = Some na → outputs na !! ia = Some a → (ka < kb)%nat →
  (length (outs_upto g ka) + ia < length (outs_upto g kb))%nat.
Proof.
  intros Hka Hia Hlt.
  pose proof (outs_upto_length_mono g (S ka) kb Hlt) as Hm.
  rewrite (outs_upto_S _ _ _ Hka), length_app in Hm.
  apply lookup_lt_Some in Hia. lia.
Qed.

(** X25. In the map that LivenessMap returns for a well-formed graph, two
    Values defined by different nodes interfere exactly when the one
    defined first is still needed when the other is defined: it has a use
    in the defining node of the other or in a later node, the return
    counting as the last node, or it is a constant with a use.  Two
    outputs of one node interfere exactly when the earlier of them has a
    use.  The loop over the inputs and outputs of every node that follows
    the sweep adds no pair to those of the sweep. *)
Theorem LivenessMap_lifetimes (g : Graph) :
  wf_graph g →
  ∃ st lm aa,
    sweep g = Ok st ∧ LivenessMap g = Ok (lm, aa) ∧
    (∀ a b, interferes lm a b ↔ interferes (liveness_map st) a b) ∧
    (∀ ka kb na nb a b,
       g_nodes g !! ka = Some na → g_nodes g !! kb = Some nb →
       a ∈ outputs na → b ∈ outputs nb → (ka < kb)%nat →
       (interferes lm a b ↔
        ∃ j, j ∈ users g a ∧ (is_const g a ∨ (kb ≤ j)%nat))) ∧
    (∀ k nd ia ib a b,
       g_nodes g !! k = Some nd →
       outputs nd !! ia = Some a → outputs nd !! ib = Some b → (ia < ib)%nat →
       (interferes lm a b ↔ users g a ≠ ∅)).
Proof.
  intros Hwf.
  destruct (sweep_exact_ok g Hwf) as (st & Hst & Hinv & [Hex Hmap]).
  destruct (LivenessMap_ok g Hwf) as (st' & lm & Hst' & _ & Hlm & Hd & He).
  assert (st' = st) as -> by congruence.
  rewrite app_nil_r, outs_upto_all_nodes in Hmap.
  set (D := mjoin (outputs <$> g_nodes g)) in *.
  pose proof (wf_outputs_NoDup g Hwf) as HndD. fold D in HndD.
  (* a pair of Values at known positions *)
  assert (∀ i j a b, D !! i = Some a → D !! j = Some b → (i < j)%nat →
            (interferes (liveness_map st) a b ↔ live_at g a b)) as Hpair.
  { intros i j a b Hi Hj Hlt. rewrite Hmap. split.
    - intros (i' & j' & Hi' & Hj' & Hc).
      assert (i' = i) as -> by (by eapply NoDup_lookup).
      assert (j' = j) as -> by (by eapply NoDup_lookup).
      destruct Hc as [[_ ?]|[? _]]; [done | lia].
    - intros Hl. exists i, j. split; [done|]. split; [done|]. by left. }
  (* the pairs of the last loop are pairs of the sweep *)
  assert (∀ a b, augmented g (dom (liveness_map st)) a b →
                 interferes (liveness_map st) a b) as Haug.
  { intros a b (nd & Hnd & i & Hi & o & Ho & HiD & HoD & Hc).
    assert (interferes (liveness_map st) i o) as Hio.
    { apply list_elem_of_lookup_1 in Hnd as [k Hk].
      apply list_elem_of_lookup_1 in Ho as [io Hio].
      pose proof (output_index g k nd io o Hk Hio) as Hjo. fold D in Hjo.
      assert (i ∈ outs_upto g k) as Hik.
      { destruct Hwf as [Hnodup Huse]. rewrite Forall_forall in Huse.
        assert ((k, nd) ∈ imap pair (all_nodes g)) as Hin.
        { apply elem_of_lookup_imap. exists k, nd. split; [done|].
          unfold all_nodes. by apply lookup_app_l_Some. }
        specialize (Huse _ Hin). rewrite Forall_forall in Huse.
        specialize (Huse i Hi). unfold defined_before in Huse. cbn in Huse.
        apply elem_of_app in Huse as [Hgi|?]; [|done]. exfalso.
        apply NoDup_app in Hnodup as (_ & Hdisj & _). apply (Hdisj i Hgi).
        apply (inv_dom _ _ _ _ Hinv) in HiD.
        by rewrite app_nil_r, outs_upto_all_nodes in HiD. }
      apply list_elem_of_lookup_1 in Hik as [ii Hii].
      assert (D !! ii = Some i) as HDi.
      { unfold D. rewrite <- (take_drop k (g_nodes g)), fmap_app, join_app.
        by apply lookup_app_l_Some. }
      apply (Hpair ii (length (outs_upto g k) + io)%nat); [done | done | |].
      - apply lookup_lt_Some in Hii. lia.
      - exists k, nd. split; [done|].
        split; [by eapply list_elem_of_lookup_2|].
        apply pending_nonempty. exists k. split; [|by right].
        apply users_spec. exists nd. split; [|done]. unfold all_nodes.
        by apply lookup_app_l_Some. }
    destruct Hc as [[-> ->]|[-> ->]]; [done|].
    by apply (inv_sym _ _ _ _ Hinv). }
  assert (∀ a b, interferes lm a b ↔ interferes (liveness_map st) a b) as Hsame.
  { intros a b. rewrite He. split; [intros [?|?]; [done | by apply Haug] | by left]. }
  exists st, lm, (always_alive st). split_and!; [done | done | done | |].
  - intros ka kb na nb a b Hka Hkb Ha Hb Hlt.
    apply list_elem_of_lookup_1 in Ha as [ia Hia].
    apply list_elem_of_lookup_1 in Hb as [ib Hib].
    pose proof (output_index g ka na ia a Hka Hia) as Hi.
    pose proof (output_index g kb nb ib b Hkb Hib) as Hj.
    pose proof (output_index_lt g ka kb na ia a Hka Hia Hlt) as Hlt'.
    rewrite Hsame, (Hpair _ _ a b Hi Hj) by lia.
    rewrite (live_at_iff g a b kb nb Hwf Hkb) by (by eapply list_elem_of_lookup_2).
    apply pending_nonempty.
  - intros k nd ia ib a b Hk Hia Hib Hlt.
    pose proof (output_index g k nd ia a Hk Hia) as Hi.
    pose proof (output_index g k nd ib b Hk Hib) as Hj.
    rewrite Hsame, (Hpair _ _ a b Hi Hj) by lia.
    rewrite (live_at_iff g a b k nd Hwf Hk) by (by eapply list_elem_of_lookup_2).
    by rewrite (pending_defined g k nd a Hwf Hk)
      by (by eapply list_elem_of_lookup_2).
Qed.


(** ** StaticRuntime::run(const std::vector<at::Tensor>&) *)

Lemma collect_tensors (els : list IValue) (acc ts : list (option StorageImplPtr)) :
  for_each els (λ el out, t ← toTensor el; Ok (out ++ [t])) acc = Ok ts →
  ∃ ts', ts = acc ++ ts' ∧ els = ITensor <$> ts'.
Proof.
  revert acc. induction els as [|el els IH]; intros acc; simpl.
  - intros [= <-]. exists []. by rewrite app_nil_r.
  - destruct el as [|t|?|?]; try done. cbn [toTensor mbind result_bind].
    intros H. apply IH in H as (ts' & -> & ->). exists (t :: ts').
    by rewrite <- app_assoc.
Qed.

Lemma run_tensors_eq g inps m :
  run_tensors g inps m =
    match run g (ITensor <$> inps) ∅ m with
    | (Ok v, m1) =>
        (match v with
         | ITuple els =>
             for_each els (λ el out, t ← toTensor el; Ok (out ++ [t])) []
         | _ => t ← toTensor v; Ok [t]
         end, m1)
    | (Throw e, m1) => (Throw e, m1)
    end.
Proof.
  unfold run_tensors. cbv zeta. unfold mbind at 1, ST_bind at 1.
  destruct (run g (ITensor <$> inps) ∅ m) as [[v|e] m1]; [|done].
  unfold lift, mbind, ST_bind, mret, ST_ret.
  destruct v as [|t|els|n]; done.
Qed.

(** X26. run on a vector of tensors never needs the schema.  When it
    returns, run on the arguments without keyword arguments has returned a
    tensor, which is the only element of the result, or a tuple of tensors,
    whose elements are the result.  When run returns None, a value that is
    no tensor or a tuple with an element that is no tensor, the overload
    throws after the nodes have been executed. *)
Theorem run_tensors_result (g : Graph) (inps : list (option StorageImplPtr))
    (m : Machine) :
  (run_tensors g inps m).1 ≠ Throw (c10_Error schema_msg) ∧
  (∀ ts m', run_tensors g inps m = (Ok ts, m') →
     ∃ v, run g (ITensor <$> inps) ∅ m = (Ok v, m') ∧
          (v = ITuple (ITensor <$> ts) ∨ ∃ t, v = ITensor t ∧ ts = [t])) ∧
  (∀ v m', run g (ITensor <$> inps) ∅ m = (Ok v, m') →
     (v = INone ∨ (∃ n, v = IOther n) ∨
      ∃ els, v = ITuple els ∧ ∃ el, el ∈ els ∧ isTensor el = false) →
     fails (run_tensors g inps m).1 ∧ (run_tensors g inps m).2 = m').
Proof.
  rewrite run_tensors_eq.
  destruct (run g (ITensor <$> inps) ∅ m) as [[v|e] m1] eqn:Hrun.
  - split_and!.
    + destruct v as [|t|els|n]; cbn; try done.
      destruct (for_each els _ []) as [ts|e] eqn:Hts; [done|].
      assert (e ≠ c10_Error schema_msg) as Hne; [|congruence].
      revert Hts. apply (for_each_throws (λ e, e ≠ c10_Error schema_msg)).
      intros el out e'. destruct el; cbn; by intros [= <-].
    + intros ts m' H. exists v. revert H.
      destruct v as [|t|els|n]; cbn; try done.
      * intros [= <- <-]. split; [done|]. right. by exists t.
      * destruct (for_each els _ []) as [ts'|e] eqn:Hts; [|done].
        intros [= <- <-]. apply collect_tensors in Hts as (ts'' & -> & ->).
        split; [done|]. by left.
    + intros v' m' [= <- <-] Hbad.
      destruct Hbad as [->|[[n ->]|(els & -> & el & Hel & Hnt)]].
      * split; [by eexists | done].
      * split; [by eexists | done].
      * cbn [fst snd]. split; [|done].
        destruct (for_each els _ []) as [ts|e] eqn:Hts; [|by eexists].
        apply collect_tensors in Hts as (ts' & _ & ->).
        apply list_elem_of_fmap in Hel as (t & -> & _). done.
  - split_and!; [|done|done]. cbn. intros [= ->].
    apply run_throw in Hrun as [(m2 & _ & Hb)|Hns]; [|by apply Hns].
    apply run_bind_throw in Hb as [_ Hb].
    destruct (proj1 Hb eq_refl) as [Hsz _]. by rewrite map_size_empty in Hsz.
Qed.


(** ** StaticRuntime::check_for_memory_leak *)

Lemma for_each_unit_iff {A} (l : list A) (body : A → unit → result unit) :
  for_each l body tt = Ok tt ↔ ∀ x, x ∈ l → body x tt = Ok tt.
Proof.
  split; [| apply for_each_unit_ok].
  induction l as [|x l IH]; simpl; [by intros _ y ?%elem_of_nil |].
  destruct (body x tt) as [[]|e] eqn:Hx; simpl; [| done].
  intros Hl y [-> | Hy]%elem_of_cons; [done | by apply IH].
Qed.

Lemma for_each_throws_elem {A S} (P : exn → Prop) (l : list A)
    (body : A → S → result S) (s : S) (e : exn) :
  (∀ x s e, x ∈ l → body x s = Throw e → P e) →
  for_each l body s = Throw e → P e.
Proof.
  revert s. induction l as [|x l IH]; intros s Hb; simpl; [done |].
  destruct (body x s) as [s' | e'] eqn:Hx; simpl.
  - apply IH. intros y s0 e0 Hy. apply Hb. by right.
  - intros [= <-]. eapply Hb; [left | done].
Qed.

Lemma check_intermediate_ok mem msg ival :
  check_intermediate mem msg ival = Ok tt ↔ cleaned_up mem ival.
Proof.
  unfold check_intermediate, cleaned_up.
  destruct ival as [|[impl|]|els|n]; simpl.
  - split; [by left | done].
  - unfold TORCH_CHECK. case_bool_decide as Hd.
    + split; [| done]. intros _. right; right. by exists impl.
    + split; [done |]. intros [? | [? | (i & [= <-] & ?)]]; done.
  - split; [by right; left | done].
  - split; [done |]. intros [? | [? | (i & ? & ?)]]; done.
  - split; [done |]. intros [? | [? | (i & ? & ?)]]; done.
Qed.

Lemma check_intermediate_error mem msg ival e :
  check_intermediate mem msg ival = Throw e → e = c10_Error msg.
Proof.
  unfold check_intermediate, TORCH_CHECK.
  destruct ival as [|[impl|]|els|n]; simpl; try done.
  - case_bool_decide; [done | by intros [= <-]].
  - by intros [= <-].
  - by intros [= <-].
Qed.

Lemma check_node_output_ok rt mem b n pn i ival :
  nodes_ rt !! n = Some pn → pn_outputs_ pn !! i = Some ival →
  check_node_output rt mem b n i tt = Ok tt ↔
  if decide (output_slot n i ∈ outputs_ rt) then b = true → ival = INone
  else cleaned_up mem ival.
Proof.
  intros Hn Hi. unfold check_node_output, read_ivalue. simpl.
  rewrite Hn. simpl. rewrite Hi. simpl.
  destruct (decide (output_slot n i ∈ outputs_ rt)) as [Hin | Hin].
  - rewrite bool_decide_eq_false_2 by (by intros ?).
    destruct b; [| by split].
    unfold TORCH_CHECK.
    destruct ival; simpl; split; try done; intros H; by specialize (H eq_refl).
  - rewrite bool_decide_eq_true_2 by done. apply check_intermediate_ok.
Qed.

Lemma check_node_output_error rt mem b n i e :
  check_node_output rt mem b n i tt = Throw e →
  e = c10_Error (leak_msg n i) ∨ ∀ ival, read_ivalue rt (output_slot n i) ≠ Ok ival.
Proof.
  unfold check_node_output.
  destruct (read_ivalue rt (output_slot n i)) as [ival | e'] eqn:Hr; simpl;
    [| intros _; by right].
  intros He. left. case_bool_decide.
  - by eapply check_intermediate_error.
  - destruct b; [| done]. unfold TORCH_CHECK in He.
    destruct (isNone ival); [done | by injection He as <-].
Qed.

Lemma check_for_memory_leak_returns rt mem output_returned :
  check_for_memory_leak rt mem output_returned = Ok tt ↔
  (cleanup_activations (opts_ rt) = true →
   Forall (λ v, v = INone) (inputs_ rt) ∧
   ∀ n pn i ival,
     nodes_ rt !! n = Some pn → pn_outputs_ pn !! i = Some ival →
     if decide (output_slot n i ∈ outputs_ rt)
     then output_returned = true → ival = INone
     else cleaned_up mem ival).
Proof.
  unfold check_for_memory_leak.
  destruct (cleanup_activations (opts_ rt)); simpl; [| by split].
  set (ins := for_each (imap pair (inputs_ rt)) _ tt).
  set (outs := for_each (imap pair (nodes_ rt)) _ tt).
  assert (ins = Ok tt ↔ Forall (λ v, v = INone) (inputs_ rt)) as Hins.
  { unfold ins. rewrite for_each_unit_iff, Forall_lookup. split.
    - intros H i v Hv. specialize (H (i, v)). simpl in H.
      unfold TORCH_CHECK in H. destruct v; try done;
        (discriminate H; apply elem_of_lookup_imap; eexists i, _; by split).
    - intros H [i v] (i' & v' & [= -> ->] & Hv)%elem_of_lookup_imap.
      simpl. by rewrite (H _ _ Hv). }
  assert (outs = Ok tt ↔
          ∀ n pn i ival,
            nodes_ rt !! n = Some pn → pn_outputs_ pn !! i = Some ival →
            if decide (output_slot n i ∈ outputs_ rt)
            then output_returned = true → ival = INone
            else cleaned_up mem ival) as Houts.
  { unfold outs. rewrite for_each_unit_iff. split.
    - intros H n pn i ival Hn Hi.
      assert ((n, pn) ∈ imap pair (nodes_ rt)) as Hin
        by (apply elem_of_lookup_imap; by exists n, pn).
      specialize (H (n, pn) Hin). simpl in H.
      rewrite for_each_unit_iff in H.
      apply (check_node_output_ok rt mem output_returned n pn i ival Hn Hi).
      apply H. apply elem_of_seq. apply lookup_lt_Some in Hi. lia.
    - intros H [n pn] (n' & pn' & [= -> ->] & Hn)%elem_of_lookup_imap.
      simpl. apply for_each_unit_iff. intros i [_ Hi]%elem_of_seq.
      destruct (lookup_lt_is_Some_2 (pn_outputs_ pn') i) as [ival Hival];
        [lia |].
      apply (check_node_output_ok rt mem output_returned n' pn' i ival Hn Hival).
      by apply (H n' pn' i ival). }
  destruct ins as [[] | e] eqn:Hi; simpl.
  - rewrite Houts. split; [intros H _; split; [by apply Hins | done] |].
    intros H. by apply H.
  - split; [done |]. intros H. destruct (H eq_refl) as [H1 _].
    apply Hins in H1. done.
Qed.

(** X27. check_for_memory_leak does nothing when cleanup_activations is
    not set.  Otherwise it returns exactly when every input slot is None,
    every output slot of a processed node that outputs_ does not point to
    holds None, an undefined tensor or a tensor whose storage has no
    memory, and, if the outputs are said to be returned, every output slot
    of a processed node that outputs_ points to holds None.  Slots of
    inputs and constants that outputs_ points to are not looked at.  When
    it does not return it throws a c10::Error. *)
Theorem check_for_memory_leak_iff (rt : StaticRuntime) (mem : Storages)
    (output_returned : bool) :
  (check_for_memory_leak rt mem output_returned = Ok tt ↔
   (cleanup_activations (opts_ rt) = true →
    Forall (λ v, v = INone) (inputs_ rt) ∧
    ∀ n pn i ival,
      nodes_ rt !! n = Some pn → pn_outputs_ pn !! i = Some ival →
      if decide (output_slot n i ∈ outputs_ rt)
      then output_returned = true → ival = INone
      else cleaned_up mem ival)) ∧
  (∀ e, check_for_memory_leak rt mem output_returned = Throw e →
        ∃ msg, e = c10_Error msg).
Proof.
  split; [apply check_for_memory_leak_returns |].
  unfold check_for_memory_leak.
  destruct (cleanup_activations (opts_ rt)); simpl; [| done].
  set (ins := for_each (imap pair (inputs_ rt)) _ tt).
  set (outs := for_each (imap pair (nodes_ rt)) _ tt).
  intros e He. destruct ins as [[] | e'] eqn:Hi; simpl in He.
  - unfold outs in He.
    apply (for_each_throws_elem (λ e, ∃ msg, e = c10_Error msg)) in He;
      [done |].
    intros [n pn] [] e1 (n' & pn' & [= -> ->] & Hn)%elem_of_lookup_imap H1.
    simpl in H1.
    apply (for_each_throws_elem (λ e, ∃ msg, e = c10_Error msg)) in H1;
      [done |].
    intros i [] e2 [_ Hlt]%elem_of_seq H2.
    apply check_node_output_error in H2 as [-> | Hread]; [by eexists |].
    destruct (lookup_lt_is_Some_2 (pn_outputs_ pn') i) as [ival Hival];
      [lia |].
    destruct (Hread ival). unfold read_ivalue. simpl.
    rewrite Hn. simpl. by rewrite Hival.
  - injection He as <-. unfold ins in Hi.
    apply (for_each_throws (λ e, ∃ msg, e = c10_Error msg)) in Hi; [done |].
    intros [i v] [] e1 H1. simpl in H1. unfold TORCH_CHECK in H1.
    destruct (isNone v); [done | injection H1 as <-; by eexists].
Qed.


Lemma rankNotInGroup_default c : rankNotInGroup c (default_pg_ c) = false.
Proof. unfold rankNotInGroup. by rewrite decide_True. Qed.

(** X28. When no default group is set, a null group is the default group
    and passes the guard of every collective: recv, allReduce, gather and
    barrier call a method through the null group pointer, and scatter asks
    the null default group for its rank.  isend, irecv, send and broadcast
    call checkDefaultPg first and go through the null pointer when it
    returns.  getBackend does not reject the group but looks the null
    pointer up in pg_map_. *)
Theorem null_group_without_default (c : DistributedC10d)
    (t : ProcessGroupTables) (tr : list PGCall) :
  default_pg_ c = None →
  (∀ x src tag, recv c t x src None tag tr = (Throw (undefined_behaviour "group->"), tr)) ∧
  (∀ l op a, allReduceMultiGPU c l None op a tr = (Throw (undefined_behaviour "group->"), tr)) ∧
  (∀ x op a, allReduce c x None op a tr = (Throw (undefined_behaviour "group->"), tr)) ∧
  (∀ x l dst a, gather c t x l None dst a tr = (Throw (undefined_behaviour "group->"), tr)) ∧
  (∀ a, barrier c None a tr = (Throw (undefined_behaviour "group->"), tr)) ∧
  (∀ x l src a, scatter c t x l None src a tr =
     (Throw (undefined_behaviour "group->getRank()"), tr)) ∧
  (∀ x dst tag, isend c t x dst None tag tr =
     (call (checkDefaultPg c) ;; Throw (undefined_behaviour "group->"), tr)) ∧
  (∀ x src tag, irecv c t x src None tag tr =
     (call (checkDefaultPg c) ;; Throw (undefined_behaviour "group->"), tr)) ∧
  (∀ x dst tag, send c t x dst None tag tr =
     (call (checkDefaultPg c) ;; Throw (undefined_behaviour "group->"), tr)) ∧
  (∀ l src a st, broadcastMultiGPU c t l src None a st tr =
     (call (checkDefaultPg c) ;; Throw (undefined_behaviour "group->"), tr)) ∧
  (∀ x src a, broadcast c t x src None a tr =
     (call (checkDefaultPg c) ;; Throw (undefined_behaviour "group->"), tr)) ∧
  getBackend c t None =
    match pg_map_ t !! None with
    | Some p => Ok p.1
    | None => Throw (c10_Error "The given group does not exist")
    end.
Proof.
  intros Hd.
  pose proof (rankNotInGroup_default c) as Hr. rewrite Hd in Hr.
  unfold recv, allReduceMultiGPU, allReduce, gather, barrier, scatter, send,
    isend, irecv, broadcastMultiGPU, broadcast, getBackend, getRank.
  rewrite Hd, Hr. unfold deref, lift, mbind, ST_bind. cbn [negb TORCH_CHECK].
  split_and!; try done.
  - intros x [s|] tag; [| done]. cbn beta. by rewrite decide_True by done.
  - intros x dst tag. destruct (call (checkDefaultPg c)) as [[]|e]; [| done].
    by rewrite decide_True by done.
  - intros x src tag. destruct (call (checkDefaultPg c)) as [[]|e]; [| done].
    by rewrite decide_True by done.
  - intros x dst tag. destruct (call (checkDefaultPg c)) as [[]|e]; [| done].
    by rewrite decide_True by done.
  - intros l src a st. destruct (call (checkDefaultPg c)) as [[]|e]; [| done].
    by rewrite decide_True by done.
  - intros x src a. destruct (call (checkDefaultPg c)) as [[]|e]; [| done].
    by rewrite decide_True by done.
Qed.




(** ** The first run: what the planner covers *)

Lemma imap_pair_split {A} (l : list A) (pre post : list (nat * A)) x :
  imap pair l = pre ++ x :: post →
  x.1 = length pre ∧ l !! x.1 = Some x.2 ∧
  ∀ y, y ∈ pre → (y.1 < length pre)%nat ∧ l !! y.1 = Some y.2.
Proof.
  intros Hl.
  assert (∀ k y, (pre ++ x :: post) !! k = Some y → y.1 = k ∧ l !! k = Some y.2)
    as Hk.
  { intros k y. rewrite <- Hl, list_lookup_imap.
    destruct (l !! k) as [a|]; [| done]. by intros [= <-]. }
  destruct (Hk (length pre) x) as [H1 H2].
  { by rewrite lookup_app_r, Nat.sub_diag by lia. }
  split; [done |]. split; [by rewrite H1 |].
  intros y [k Hy]%list_elem_of_lookup_1.
  destruct (Hk k y) as [H3 H4]; [by rewrite lookup_app_l by (by eapply lookup_lt_Some) |].
  rewrite H3. split; [by eapply lookup_lt_Some | done].
Qed.

Lemma plan_outputs_cover (f : nat → Plan → result Plan)
    (p : nat * ProcessedNode) (cnt : nat) (pl pl' : Plan) :
  NoDup (outputs (node_ p.2)) →
  (∀ i s s', f i s = Ok s' →
     ∃ out, outputs (node_ p.2) !! i = Some out ∧
       values_map s' = <[out := output_slot p.1 i]> (values_map s) ∧
       unmanaged_value_set s ⊆ unmanaged_value_set s' ∧
       managed_values s ⊆ managed_values s' ∧
       (output_slot p.1 i ∈ unmanaged_value_set s' ∨ out ∈ managed_values s')) →
  for_each (seq 0 cnt) f pl = Ok pl' →
  unmanaged_value_set pl ⊆ unmanaged_value_set pl' ∧
  managed_values pl ⊆ managed_values pl' ∧
  (∀ v, v ∉ outputs (node_ p.2) → values_map pl' !! v = values_map pl !! v) ∧
  (∀ i out, outputs (node_ p.2) !! i = Some out → (i < cnt)%nat →
     (output_slot p.1 i ∈ unmanaged_value_set pl' ∨ out ∈ managed_values pl') ∧
     values_map pl' !! out = Some (output_slot p.1 i)).
Proof.
  intros Hnd Hf Hloop.
  set (Q := λ (pre : list nat) (s : Plan),
         unmanaged_value_set pl ⊆ unmanaged_value_set s ∧
         managed_values pl ⊆ managed_values s ∧
         (∀ v, v ∉ outputs (node_ p.2) → values_map s !! v = values_map pl !! v) ∧
         (∀ i out, i ∈ pre → outputs (node_ p.2) !! i = Some out →
            (output_slot p.1 i ∈ unmanaged_value_set s ∨ out ∈ managed_values s) ∧
            values_map s !! out = Some (output_slot p.1 i))).
  assert (Q (seq 0 cnt) pl') as (H1 & H2 & H3 & H4).
  { revert Hloop. apply (for_each_prefix_inv_ok Q).
    - split; [done |]. split; [done |]. split; [done |].
      by intros i out ?%elem_of_nil.
    - intros pre x post s s' Hl (H1 & H2 & H3 & H4) Hx.
      destruct (Hf x s s' Hx) as (outx & Hox & Hvm & Hu & Hm & Hnew).
      assert (x ∉ pre) as Hxpre.
      { pose proof (NoDup_seq 0 cnt) as Hs. rewrite Hl in Hs.
        apply NoDup_app in Hs as (_ & Hs & _). intros Hin.
        apply (Hs x Hin). left. }
      split; [by etrans |]. split; [by etrans |]. split.
      + intros v Hv. rewrite Hvm, lookup_insert_ne; [by apply H3 |].
        intros ->. apply Hv. by eapply list_elem_of_lookup_2.
      + intros i out [Hi | ->%list_elem_of_singleton]%elem_of_app Ho.
        * destruct (H4 i out Hi Ho) as [Hor Hv]. split.
          -- destruct Hor as [? | ?]; [left; by apply Hu | right; by apply Hm].
          -- rewrite Hvm, lookup_insert_ne; [done |]. intros <-.
             assert (x = i) as -> by exact (NoDup_lookup _ _ _ _ Hnd Hox Ho).
             done.
        * assert (out = outx) as -> by congruence.
          split; [done |]. by rewrite Hvm, lookup_insert_eq. }
  split; [done |]. split; [done |]. split; [done |].
  intros i out Ho Hi. apply H4; [| done]. apply elem_of_seq. lia.
Qed.

Lemma plan_node_cover g gi (p : nat * ProcessedNode) pl pl' :
  plan_node g gi p pl = Ok pl' →
  NoDup (outputs (node_ p.2)) →
  (has_out_variant p.2 = true →
   ∀ v, v ∈ outputs (node_ p.2) → cast_TensorType (type_of g v) = true) →
  unmanaged_value_set pl ⊆ unmanaged_value_set pl' ∧
  managed_values pl ⊆ managed_values pl' ∧
  (∀ v, v ∉ outputs (node_ p.2) → values_map pl' !! v = values_map pl !! v) ∧
  (∀ i out, outputs (node_ p.2) !! i = Some out →
     (i < length (pn_outputs_ p.2))%nat →
     (output_slot p.1 i ∈ unmanaged_value_set pl' ∨ out ∈ managed_values pl') ∧
     values_map pl' !! out = Some (output_slot p.1 i)).
Proof.
  intros Hplan Hnd Hty. revert Hplan. unfold plan_node. cbv zeta.
  destruct (if has_out_variant p.2 && isViewOp (node_ p.2) then _ else _)
    eqn:Hsm.
  - assert (has_out_variant p.2 = true) as Hov
      by (by destruct (has_out_variant p.2)).
    apply plan_outputs_cover; [done |].
    intros i s s'. unfold manage_output, Node_output.
    destruct (outputs (node_ p.2) !! i) as [out|] eqn:Hi; [| done].
    cbn [mbind result_bind].
    rewrite (Hty Hov out) by (by eapply list_elem_of_lookup_2).
    intros [= <-]. exists out. cbn [values_map unmanaged_value_set managed_values].
    split_and!; [done | done | done | apply union_subseteq_r |].
    right. apply elem_of_union. left. by apply elem_of_singleton.
  - apply plan_outputs_cover; [done |].
    intros i s s'. unfold leave_output, Node_output.
    destruct (outputs (node_ p.2) !! i) as [out|] eqn:Hi; [| done].
    cbn [mbind result_bind]. intros [= <-]. exists out.
    cbn [values_map unmanaged_value_set managed_values].
    split_and!; [done | done | apply union_subseteq_r | done |].
    left. apply elem_of_union. left. by apply elem_of_singleton.
Qed.


Lemma unmanage_element_cover gi input pl out slot :
  out ∉ gi →
  values_map pl !! out = Some slot ∧
    (slot ∈ unmanaged_value_set pl ∨ out ∈ managed_values pl) →
  values_map (unmanage_element gi input pl) !! out = Some slot ∧
    (slot ∈ unmanaged_value_set (unmanage_element gi input pl) ∨
     out ∈ managed_values (unmanage_element gi input pl)).
Proof.
  intros Hgi [Hvm Hor]. unfold unmanage_element, values_map_index. cbv zeta.
  cbn [values_map].
  case_bool_decide as Hin; cbn [values_map unmanaged_value_set managed_values].
  - split; [done |]. destruct Hor as [? | Hm]; [by left | right].
    apply elem_of_difference. split; [done |].
    intros ->%elem_of_singleton. done.
  - destruct (values_map pl !! input) as [q|] eqn:Hq;
      cbn [fst snd values_map unmanaged_value_set managed_values].
    + split; [done |]. destruct (decide (input = out)) as [-> | Hne].
      * left. apply elem_of_union. left. apply elem_of_singleton. congruence.
      * destruct Hor as [? | Hm].
        -- left. apply elem_of_union. by right.
        -- right. apply elem_of_difference. split; [done |].
           intros ?%elem_of_singleton. congruence.
    + assert (input ≠ out) as Hne by congruence.
      split; [by rewrite lookup_insert_ne |].
      destruct Hor as [? | Hm].
      * left. apply elem_of_union. by right.
      * right. apply elem_of_difference. split; [done |].
        intros ?%elem_of_singleton. congruence.
Qed.

Lemma plan_values_cover g rt pl :
  plan_values g rt = Ok pl →
  (∀ n pn i n' pn' i' out,
     nodes_ rt !! n = Some pn → outputs (node_ pn) !! i = Some out →
     nodes_ rt !! n' = Some pn' → outputs (node_ pn') !! i' = Some out →
     n = n' ∧ i = i') →
  (∀ n pn i out,
     nodes_ rt !! n = Some pn → outputs (node_ pn) !! i = Some out →
     (out ∉ g_inputs g) ∧
     (out ∈ g_outputs g → output_slot n i ∈ outputs_ rt)) →
  (∀ pn v, pn ∈ nodes_ rt → has_out_variant pn = true →
           v ∈ outputs (node_ pn) → cast_TensorType (type_of g v) = true) →
  ∀ n pn i out,
    nodes_ rt !! n = Some pn → outputs (node_ pn) !! i = Some out →
    (i < length (pn_outputs_ pn))%nat → output_slot n i ∉ outputs_ rt →
    output_slot n i ∈ unmanaged_value_set pl ∨ out ∈ managed_values pl.
Proof.
  intros Hpl Huniq Hio Hty n pn i out Hn Hi Hlt Hnot.
  destruct (Hio n pn i out Hn Hi) as [Hnin Hout].
  revert Hpl. unfold plan_values. cbv zeta.
  destruct (for_each (imap pair (nodes_ rt)) _ _) as [pl0|] eqn:H0; [| done].
  cbn [mbind result_bind]. intros [= <-].
  set (slot := output_slot n i) in *.
  set (I := λ s : Plan,
         values_map s !! out = Some slot ∧
         (slot ∈ unmanaged_value_set s ∨ out ∈ managed_values s)).
  assert (I pl0) as HI0.
  { set (P := λ (pre : list (nat * ProcessedNode)) (s : Plan),
           ∀ y j v, y ∈ pre → outputs (node_ y.2) !! j = Some v →
             (j < length (pn_outputs_ y.2))%nat →
             (output_slot y.1 j ∈ unmanaged_value_set s ∨ v ∈ managed_values s) ∧
             values_map s !! v = Some (output_slot y.1 j)).
    assert (P (imap pair (nodes_ rt)) pl0) as HP.
    { revert H0. apply (for_each_prefix_inv_ok P).
      - by intros y j v ?%elem_of_nil.
      - intros pre x post s s' Hl HPs Hx.
        destruct (imap_pair_split _ _ _ _ Hl) as (Hx1 & Hx2 & Hpre).
        destruct (plan_node_cover g _ x s s' Hx) as (Hu & Hm & Hvm & Hnew).
        { apply NoDup_alt. intros a b v Ha Hb.
          by destruct (Huniq x.1 x.2 a x.1 x.2 b v Hx2 Ha Hx2 Hb). }
        { intros Hov v Hv. apply (Hty x.2); [| done | done].
          by eapply list_elem_of_lookup_2. }
        intros y j v [Hy | ->%list_elem_of_singleton]%elem_of_app Hj Hjl.
        + destruct (HPs y j v Hy Hj Hjl) as [Hor Hv].
          destruct (Hpre y Hy) as [Hy1 Hy2]. split.
          * destruct Hor; [left; by apply Hu | right; by apply Hm].
          * rewrite Hvm; [done |].
            intros [b Hb]%list_elem_of_lookup_1.
            destruct (Huniq y.1 y.2 j x.1 x.2 b v Hy2 Hj Hx2 Hb). lia.
        + by apply Hnew. }
    destruct (HP (n, pn) i out) as [Hor Hv]; [| done | done | by split].
    apply elem_of_lookup_imap. by exists n, pn. }
  assert (out ∉ (list_to_set (g_inputs g) : gset Value)) as Hgi
    by (by rewrite elem_of_list_to_set).
  assert (I (foldl (λ pl output,
                      unmanage_output_elements g (list_to_set (g_inputs g))
                                               output pl)
                   pl0 (g_outputs g))) as [_ HI1].
  { apply (foldl_inv I); [| done]. intros s o _ Hs.
    unfold unmanage_output_elements. cbv zeta.
    destruct (is_construct (kind (node_of g o))); [| done].
    apply (foldl_inv I); [| done]. intros t z _ Ht.
    by apply unmanage_element_cover. }
  set (J := λ s : Plan,
         slot ∈ unmanaged_value_set s ∨ out ∈ managed_values s).
  apply (foldl_inv J).
  { intros s q Hq Hs. unfold J. cbn [unmanaged_value_set managed_values].
    destruct Hs as [Hs | Hs]; [left | by right].
    apply elem_of_difference. split; [done |].
    intros ->%elem_of_singleton. done. }
  apply (foldl_inv J); [| done].
  intros s o Ho Hs. unfold J. cbn [unmanaged_value_set managed_values].
  destruct Hs as [Hs | Hs]; [by left | right].
  apply elem_of_difference. split; [done |].
  intros ->%elem_of_singleton. apply Hnot. by apply Hout.
Qed.


Lemma group_output_cover managed pnode i gr gr' :
  group_output managed ∅ pnode i gr = Ok gr' →
  shared gr = ∅ →
  (∀ impl, impl ∈ managed_storage_impls gr → impl ∈ mjoin (groups gr).*2) →
  shared gr' = ∅ ∧
  (∀ impl, impl ∈ managed_storage_impls gr' → impl ∈ mjoin (groups gr').*2) ∧
  (∀ impl, impl ∈ mjoin (groups gr).*2 → impl ∈ mjoin (groups gr').*2) ∧
  (∀ val, outputs (node_ pnode) !! i = Some val → val ∈ managed →
     ∃ impl, pn_outputs_ pnode !! i = Some (ITensor (Some impl)) ∧
             impl ∈ mjoin (groups gr').*2).
Proof.
  unfold group_output. intros Hstep Hsh Hseen.
  destruct (pn_outputs_ pnode !! i) as [ival|]; [| done].
  destruct (outputs (node_ pnode) !! i) as [val|]; [| done].
  case_bool_decide as Hm.
  2:{ injection Hstep as <-. split_and!; try done. by intros v [= <-]. }
  destruct (TORCH_CHECK _ _); [| done]. cbn [mbind result_bind] in Hstep.
  destruct ival as [|[impl|]|els|k]; try done.
  cbn [storage_impl_of mbind result_bind] in Hstep.
  case_bool_decide as Hs.
  - injection Hstep as <-. split_and!; try done.
    intros v [= <-] _. exists impl. split; [done |]. by apply Hseen.
  - rewrite Hsh, lookup_empty in Hstep. injection Hstep as <-.
    cbn [shared managed_storage_impls groups].
    assert (∀ x, x ∈ mjoin (groups gr ++ [(0%Z, [impl])]).*2 ↔
                 x ∈ mjoin (groups gr).*2 ∨ x = impl) as Hjoin.
    { intros x. rewrite fmap_app, join_app, elem_of_app.
      cbn [fmap list_fmap snd mjoin list_join app].
      by rewrite list_elem_of_singleton. }
    split_and!.
    + unfold record_shared. by rewrite lookup_empty.
    + intros x [->%elem_of_singleton | Hx]%elem_of_union; apply Hjoin;
        [by right | left; by apply Hseen].
    + intros x Hx. apply Hjoin. by left.
    + intros v [= <-] _. exists impl. split; [done |]. apply Hjoin. by right.
Qed.

Lemma group_node_cover managed pnode gr gr' :
  group_node managed ∅ pnode gr = Ok gr' →
  shared gr = ∅ →
  (∀ impl, impl ∈ managed_storage_impls gr → impl ∈ mjoin (groups gr).*2) →
  shared gr' = ∅ ∧
  (∀ impl, impl ∈ managed_storage_impls gr' → impl ∈ mjoin (groups gr').*2) ∧
  (∀ impl, impl ∈ mjoin (groups gr).*2 → impl ∈ mjoin (groups gr').*2) ∧
  (∀ i val, outputs (node_ pnode) !! i = Some val →
     (i < length (pn_outputs_ pnode))%nat → val ∈ managed →
     ∃ impl, pn_outputs_ pnode !! i = Some (ITensor (Some impl)) ∧
             impl ∈ mjoin (groups gr').*2).
Proof.
  unfold group_node. intros Hloop Hsh Hseen.
  set (Q := λ (pre : list nat) (s : Grouping),
         shared s = ∅ ∧
         (∀ impl, impl ∈ managed_storage_impls s → impl ∈ mjoin (groups s).*2) ∧
         (∀ impl, impl ∈ mjoin (groups gr).*2 → impl ∈ mjoin (groups s).*2) ∧
         (∀ i val, i ∈ pre → outputs (node_ pnode) !! i = Some val →
            val ∈ managed →
            ∃ impl, pn_outputs_ pnode !! i = Some (ITensor (Some impl)) ∧
                    impl ∈ mjoin (groups s).*2)).
  assert (Q (seq 0 (length (pn_outputs_ pnode))) gr') as (H1 & H2 & H3 & H4).
  { revert Hloop. apply (for_each_prefix_inv_ok Q).
    - split_and!; try done. by intros i val ?%elem_of_nil.
    - intros pre x post s s' _ (H1 & H2 & H3 & H4) Hx.
      destruct (group_output_cover managed pnode x s s' Hx H1 H2)
        as (H1' & H2' & Hmono & Hnew).
      split_and!; [done | done | intros impl Hi; by apply Hmono, H3 |].
      intros i val [Hi | ->%list_elem_of_singleton]%elem_of_app Hval Hm.
      + destruct (H4 i val Hi Hval Hm) as (impl & Ho & Hg).
        exists impl. split; [done | by apply Hmono].
      + by apply (Hnew val). }
  split_and!; try done.
  intros i val Hval Hlt Hm. apply (H4 i val); [| done | done].
  apply elem_of_seq. lia.
Qed.

Lemma group_nodes_cover managed (l : list ProcessedNode) gr :
  for_each l (group_node managed ∅) (mkGrouping ∅ ∅ []) = Ok gr →
  ∀ pn i val,
    pn ∈ l → outputs (node_ pn) !! i = Some val →
    (i < length (pn_outputs_ pn))%nat → val ∈ managed →
    ∃ impl, pn_outputs_ pn !! i = Some (ITensor (Some impl)) ∧
            impl ∈ mjoin (groups gr).*2.
Proof.
  intros Hloop.
  set (P := λ (pre : list ProcessedNode) (s : Grouping),
         shared s = ∅ ∧
         (∀ impl, impl ∈ managed_storage_impls s → impl ∈ mjoin (groups s).*2) ∧
         (∀ pn i val, pn ∈ pre → outputs (node_ pn) !! i = Some val →
            (i < length (pn_outputs_ pn))%nat → val ∈ managed →
            ∃ impl, pn_outputs_ pn !! i = Some (ITensor (Some impl)) ∧
                    impl ∈ mjoin (groups s).*2)).
  assert (P l gr) as (_ & _ & H); [| done].
  revert Hloop. apply (for_each_prefix_inv_ok P).
  - split_and!; try done. by intros pn i val ?%elem_of_nil.
  - intros pre x post s s' _ (H1 & H2 & H3) Hx.
    destruct (group_node_cover managed x s s' Hx H1 H2)
      as (H1' & H2' & Hmono & Hnew).
    split_and!; [done | done |].
    intros pn i val [Hpn | ->%list_elem_of_singleton]%elem_of_app Hval Hlt Hm.
    + destruct (H3 pn i val Hpn Hval Hlt Hm) as (impl & Ho & Hg).
      exists impl. split; [done | by apply Hmono].
    + by apply (Hnew i val).
Qed.


Lemma read_output_slot rt n i ival :
  read_ivalue rt (output_slot n i) = Ok ival ↔
  ∃ pn, nodes_ rt !! n = Some pn ∧ pn_outputs_ pn !! i = Some ival.
Proof.
  unfold read_ivalue. destruct (nodes_ rt !! n) as [pn|]; simpl.
  - destruct (pn_outputs_ pn !! i) as [w|] eqn:Hi.
    + split.
      * intros [= <-]. by exists pn.
      * intros (pn' & [= <-] & Hw). congruence.
    + split; [done |]. intros (pn' & [= <-] & Hw). congruence.
  - split; [done |]. by intros (pn' & Hpn & _).
Qed.

Lemma built_slots g rt :
  wf_graph g → node_ <$> nodes_ rt = processed_nodes g →
  Forall2 (value_slot g) (g_outputs g) (outputs_ rt) →
  (∀ n pn i n' pn' i' out,
     nodes_ rt !! n = Some pn → outputs (node_ pn) !! i = Some out →
     nodes_ rt !! n' = Some pn' → outputs (node_ pn') !! i' = Some out →
     n = n' ∧ i = i') ∧
  (∀ n pn i out,
     nodes_ rt !! n = Some pn → outputs (node_ pn) !! i = Some out →
     (out ∉ g_inputs g) ∧
     (out ∈ g_outputs g → output_slot n i ∈ outputs_ rt)).
Proof.
  intros Hwf Hnodes Houts.
  assert (∀ n pn i out,
            nodes_ rt !! n = Some pn → outputs (node_ pn) !! i = Some out →
            value_slot g out (output_slot n i)) as Hslot.
  { intros n pn i out Hn Hi. right; right. exists n, (node_ pn), i.
    split; [| done]. by rewrite <- Hnodes, list_lookup_fmap, Hn. }
  split.
  - intros n pn i n' pn' i' out Hn Hi Hn' Hi'.
    pose proof (value_slot_unique g out _ _ Hwf (Hslot _ _ _ _ Hn Hi)
                  (Hslot _ _ _ _ Hn' Hi')) as Heq.
    by injection Heq.
  - intros n pn i out Hn Hi. split.
    + intros [k Hk]%list_elem_of_lookup_1.
      assert (value_slot g out (input_slot k)) as Hin by (left; by exists k).
      pose proof (value_slot_unique g out _ _ Hwf (Hslot _ _ _ _ Hn Hi) Hin).
      done.
    + intros [k Hk]%list_elem_of_lookup_1.
      destruct (Forall2_lookup_l _ _ _ _ _ Houts Hk) as (p & Hp & Hv).
      rewrite (value_slot_unique g out _ _ Hwf (Hslot _ _ _ _ Hn Hi) Hv).
      by eapply list_elem_of_lookup_2.
Qed.

Lemma planner_covers g rt p :
  MemoryPlanner_new g rt ∅ = Ok p →
  wf_graph g → node_ <$> nodes_ rt = processed_nodes g →
  Forall2 (value_slot g) (g_outputs g) (outputs_ rt) → outputs_sized rt →
  (∀ pn v, node_ pn ∈ g_nodes g → has_out_variant pn = true →
           v ∈ outputs (node_ pn) → cast_TensorType (type_of g v) = true) →
  ∀ n i ival,
    read_ivalue rt (output_slot n i) = Ok ival →
    output_slot n i ∉ outputs_ rt →
    output_slot n i ∈ unmanaged_values_ p ∨
    ∃ impl, ival = ITensor (Some impl) ∧ impl ∈ mjoin (managed_storage_ p).*2.
Proof.
  intros Hp Hwf Hnodes Houts Hsized Hty n i ival Hread Hnot.
  destruct (built_slots g rt Hwf Hnodes Houts) as [Huniq Hio].
  apply read_output_slot in Hread as (pn & Hn & Hi).
  assert (length (pn_outputs_ pn) = length (outputs (node_ pn))) as Hlen.
  { unfold outputs_sized in Hsized. rewrite Forall_forall in Hsized.
    apply Hsized. by eapply list_elem_of_lookup_2. }
  assert (i < length (pn_outputs_ pn))%nat as Hlt by (by eapply lookup_lt_Some).
  destruct (lookup_lt_is_Some_2 (outputs (node_ pn)) i) as [out Hout]; [lia |].
  revert Hp. unfold MemoryPlanner_new.
  destruct (plan_values g rt) as [pl|] eqn:Hpl; [| done].
  cbn [mbind result_bind].
  destruct (for_each (nodes_ rt) _ _) as [gr|] eqn:Hgr; [| done].
  cbn [mbind result_bind]. intros [= <-].
  cbn [unmanaged_values_ managed_storage_].
  assert (∀ pn v, pn ∈ nodes_ rt → has_out_variant pn = true →
            v ∈ outputs (node_ pn) → cast_TensorType (type_of g v) = true)
    as Hty'.
  { intros pn0 v Hpn0. apply Hty.
    assert (node_ pn0 ∈ processed_nodes g) as Hin
      by (rewrite <- Hnodes; apply list_elem_of_fmap; by exists pn0).
    unfold processed_nodes in Hin. by apply list_elem_of_filter in Hin as [_ ?]. }
  destruct (plan_values_cover g rt pl Hpl Huniq Hio Hty' n pn i out Hn Hout
              Hlt Hnot) as [Hu | Hm].
  - left. by apply elem_of_elements.
  - right.
    destruct (group_nodes_cover _ _ _ Hgr pn i out) as (impl & Himpl & Hg);
      [by eapply list_elem_of_lookup_2 | done | done | done |].
    exists impl. split; [congruence | done].
Qed.

Lemma write_ivalue_node_ p v rt rt' :
  write_ivalue p v rt = Ok rt' → node_ <$> nodes_ rt' = node_ <$> nodes_ rt.
Proof.
  unfold write_ivalue. destruct (read_ivalue rt p); [| done].
  cbn [mbind result_bind]. intros [= <-]. destruct p as [| k | k | n k]; try done.
  cbn [set_nodes_ nodes_]. apply list_eq. intros j.
  rewrite !list_lookup_fmap. destruct (decide (j = n)) as [-> | Hne].
  - rewrite list_lookup_alter_eq. by destruct (nodes_ rt !! n).
  - by rewrite list_lookup_alter_ne.
Qed.

Lemma ProcessedNode_run_node_ n m r m' :
  ProcessedNode_run n m = (r, m') →
  node_ <$> nodes_ (runtime m') = node_ <$> nodes_ (runtime m).
Proof.
  unfold ProcessedNode_run.
  destruct (nodes_ (runtime m) !! n) as [pn|] eqn:Hn; [| by intros [= <- <-]].
  destruct (_ ≫= _); intros [= <- <-]; [| done].
  cbn [runtime set_nodes_ nodes_]. rewrite list_fmap_insert.
  apply list_insert_id. by rewrite list_lookup_fmap, Hn.
Qed.


Lemma move_all_storages ps m r m' :
  move_all ps m = (r, m') → storages m' = storages m.
Proof.
  revert m r m'. induction ps as [|p ps IH]; intros m r m'; cbn [move_all].
  - by intros [= <- <-].
  - unfold mbind, ST_bind.
    destruct (move_out p m) as [[v|e] m1] eqn:H1.
    + assert (storages m1 = storages m) as <-.
      { revert H1. unfold move_out. destruct (read_ivalue _ _); [| by intros [=]].
        destruct (write_ivalue _ _ _); by intros [= <- <-]. }
      destruct (move_all ps m1) as [[vs|e] m2] eqn:H2; intros [= <- <-];
        by eapply IH.
    + revert H1. unfold move_out. destruct (read_ivalue _ _).
      * destruct (write_ivalue _ _ _); by intros [= <- <-] [= <- <-].
      * by intros [= <- <-] [= <- <-].
Qed.

Lemma run_collect_reads m v m' :
  run_collect m = (Ok v, m') →
  storages m' = storages m ∧
  ∀ q, read_ivalue (runtime m') q =
       if decide (q ∈ outputs_ (runtime m)) then Ok INone
       else read_ivalue (runtime m) q.
Proof.
  unfold run_collect. case_decide as Hlen.
  - unfold mbind, ST_bind.
    destruct (move_all _ m) as [[vs|e] m1] eqn:H1; [| done].
    intros [= <- <-]. split; [by eapply move_all_storages |].
    by apply move_all_spec in H1 as (_ & Hread & _).
  - destruct (outputs_ (runtime m)) as [|p [|p' rest]] eqn:Ho;
      [done | | simpl in Hlen; lia].
    intros H1.
    assert (move_all [p] m = (Ok [v], m')) as Hall
      by (cbn [move_all]; unfold mbind, ST_bind; by rewrite H1).
    split; [by eapply move_all_storages |].
    by apply move_all_spec in Hall as (_ & Hread & _).
Qed.

Lemma deallocate_reads p rt mem p' rt' mem' :
  deallocate p rt mem = Ok (p', rt', mem') →
  NoDup (mjoin (managed_storage_ p).*2) →
  same_frame rt rt' ∧
  (∀ q, read_ivalue rt' q =
        if decide (q ∈ unmanaged_values_ p) then Ok INone
        else read_ivalue rt q) ∧
  (∀ impl, mem' impl =
           if decide (impl ∈ mjoin (managed_storage_ p).*2)
           then StorageImpl_reset (mem impl) else mem impl).
Proof.
  unfold deallocate. intros Hd Hnd.
  destruct (reset_values (unmanaged_values_ p) rt) as [Hok Hth].
  destruct (for_each (unmanaged_values_ p) _ rt) as [rt1|] eqn:Hloop; [| done].
  cbn [mbind result_bind] in Hd. injection Hd as <- <- <-.
  destruct Hok as (rt2 & Hrt2 & Hf & Hread).
  { intros q Hq. destruct (read_ivalue rt q) as [w|e] eqn:Hr; [by eexists |].
    by specialize (Hth q e Hq Hr). }
  injection Hrt2 as <-.
  split; [done |]. split; [done |].
  by destruct (deallocate_groups_exact (managed_storage_ p)
                 (mkDealloc [] 0 mem) Hnd) as [_ H2].
Qed.


(** X30. The first run of a freshly constructed runtime of a well-formed
    graph leaves nothing behind that check_for_memory_leak objects to,
    whether or not the outputs count as returned, provided that
    StorageImpl::reset() leaves a storage without memory and that every
    output of a node of the graph with an out variant is of Tensor type:
    the inputs are None, the outputs have been moved out, and every other
    output slot is None or holds a tensor whose storage the planner has
    reset. *)
Theorem first_run_passes_leak_check (g : Graph) (sch : option FunctionSchema)
    (opts0 : InferenceModuleOptions) (rt0 : StaticRuntime) (mem : Storages)
    (args : list IValue) (kwargs : gmap string IValue) (v : IValue)
    (m' : Machine) (output_returned : bool) :
  wf_graph g →
  StaticRuntime_new g sch opts0 = Ok rt0 →
  (∀ s, data (StorageImpl_reset s) = None) →
  (∀ pn val, node_ pn ∈ g_nodes g → has_out_variant pn = true →
             val ∈ outputs (node_ pn) →
             cast_TensorType (type_of g val) = true) →
  run g args kwargs (mkMachine rt0 mem []) = (Ok v, m') →
  check_for_memory_leak (runtime m') (storages m') output_returned = Ok tt.
Proof.
  intros Hwf Hnew Hreset Hty.
  destruct (StaticRuntime_new_layout g sch opts0 rt0 Hnew)
    as (Hnodes & _ & _ & _ & Houts & _ & _ & Hpl0).
  pose proof (StaticRuntime_new_sized g sch opts0 rt0 Hnew) as Hsz0.
  set (m0 := mkMachine rt0 mem []).
  (* what the binding of the inputs and the nodes keep *)
  set (K := λ m : Machine,
         node_ <$> nodes_ (runtime m) = processed_nodes g ∧
         outputs_sized (runtime m) ∧
         outputs_ (runtime m) = outputs_ rt0 ∧
         planner_ (runtime m) = None ∧ opts_ (runtime m) = opts_ rt0).
  assert (K m0) as HK0 by done.
  assert (∀ p m r m1, K m → set_Input p m = (r, m1) → K m1) as Hset.
  { intros p m r m1 (H1 & H2 & H3 & H4 & H5). unfold set_Input, modify_runtime.
    destruct (write_ivalue _ _ _) as [rt|] eqn:Hw; intros [= <- <-]; [| done].
    pose proof (write_ivalue_frame _ _ _ _ Hw) as (_ & Hop & Hou & Hp & _).
    unfold K. cbn [runtime].
    split_and!; [| by eapply write_ivalue_sized | congruence..].
    by rewrite (write_ivalue_node_ _ _ _ _ Hw). }
  unfold run, mbind, ST_bind.
  assert (run_allocate m0 = (Ok tt, m0)) as ->
    by (unfold run_allocate; cbn [runtime m0]; by rewrite Hpl0).
  destruct (run_bind args kwargs m0) as [[[]|e2] m2] eqn:H2; [| done].
  assert (K m2) as HK2.
  { revert H2. unfold run_bind. case_decide.
    - unfold mbind, ST_bind, lift. destruct (schema_ (runtime m0)); [| done].
      destruct (call _); [| done].
      apply (st_for_each_inv K); [| done]. intros x s r s' Hs. by apply Hset.
    - apply (st_for_each_inv K); [| done]. intros x s r s' Hs. by apply Hset. }
  destruct (run_nodes m2) as [[[]|e3] m3] eqn:H3; [| done].
  assert (K m3) as (Hn3 & Hs3 & Ho3 & Hp3 & Hopt3).
  { revert H3. unfold run_nodes. apply (st_for_each_inv K); [| done].
    intros n s r s' (H1 & H2' & H3 & H4 & H5) Hrun.
    pose proof (ProcessedNode_run_node_ _ _ _ _ Hrun) as Hnode.
    pose proof (ProcessedNode_run_sized _ _ _ _ H2' Hrun) as Hsz.
    assert (outputs_ (runtime s') = outputs_ (runtime s) ∧
            planner_ (runtime s') = planner_ (runtime s) ∧
            opts_ (runtime s') = opts_ (runtime s)) as (Ha & Hb & Hc).
    { revert Hrun. unfold ProcessedNode_run.
      destruct (nodes_ (runtime s) !! n); [destruct (_ ≫= _) |];
        by intros [= <- <-]. }
    split_and!; congruence. }
  destruct (run_cleanup g m3) as [[[]|e4] m4] eqn:H4; [| done].
  intros H5. apply check_for_memory_leak_returns. intros Hclean.
  pose proof (run_collect_frame _ _ _ H5) as [(_ & Hopt5 & Hout5 & _) _].
  destruct (run_collect_reads _ _ _ H5) as [Hmem5 Hread5].
  revert H4. unfold run_cleanup.
  destruct (cleanup_activations (opts_ (runtime m3))) eqn:Hc3.
  2:{ intros [= <-]. congruence. }
  rewrite Hp3.
  destruct (MemoryPlanner_new g (runtime m3) ∅) as [p|] eqn:Hp; [| done].
  destruct (deallocate p (runtime m3) (storages m3)) as [[[p' rt'] mem']|]
    eqn:Hd; [| done].
  intros [= <-]. cbn [fst snd runtime storages] in *.
  pose proof (MemoryPlanner_new_groups _ _ _ _ Hp) as Hnd.
  destruct (deallocate_reads _ _ _ _ _ _ Hd Hnd)
    as ((_ & _ & Hout4 & _) & Hread4 & Hmem4).
  split.
  - apply (run_collect_inputs _ _ _ H5). cbn [runtime set_inputs_ inputs_].
    apply Forall_fmap. by apply Forall_true.
  - intros n pn i ival Hn Hi.
    assert (read_ivalue (runtime m') (output_slot n i) = Ok ival) as Hr
      by (apply read_output_slot; by exists pn).
    rewrite Hread5 in Hr. rewrite Hout5.
    cbn [set_inputs_ set_planner_ outputs_] in *.
    destruct (decide (output_slot n i ∈ outputs_ rt')) as [Hin | Hnin].
    + intros _. congruence.
    + assert (read_ivalue rt' (output_slot n i) = Ok ival) as Hr' by exact Hr.
      rewrite Hread4 in Hr'. rewrite Hmem5.
      destruct (decide (output_slot n i ∈ unmanaged_values_ p)) as [Hu | Hu].
      * left. congruence.
      * assert (Forall2 (value_slot g) (g_outputs g) (outputs_ (runtime m3)))
          as Houts3 by (by rewrite Ho3).
        destruct (planner_covers g (runtime m3) p Hp Hwf Hn3 Houts3 Hs3 Hty
                    n i ival Hr') as [? | (impl & -> & Himpl)];
          [congruence | done |].
        right; right. exists impl. split; [done |].
        rewrite Hmem4, decide_True by done. apply Hreset.
Qed.


End StaticRuntime.

(** * The properties at explicit inputs *)

(** The default group is not in the table: the size that was computed is
    dropped and the lookup throws. *)
Lemma getGroupSize_default_discarded_witness :
  getGroupSize (λ _, 4%Z) (mkDistributedC10d ∅ (Some 0)) (Some 0)
  = ([4%Z], Throw (c10_Error "The given group does not exist")).
Proof.
  destruct (getGroupSize_default_discarded (λ _, 4%Z)
              (mkDistributedC10d ∅ (Some 0)) 0 eq_refl) as (H1 & _ & H3).
  specialize (H3 eq_refl).
  destruct (getGroupSize _ _ _) as [dropped r]. simpl in *. by subst.
Defined.

(** C5: a graph whose only output is a list of tensors produced by
    aten::split is turned down, although each of its outputs is a list of
    tensors and no node is a prim::GetAttr. *)
Lemma CheckGraphEligibility_split_counterexample :
  fails (CheckGraphEligibility split_graph) ∧ ¬ spec_ineligible split_graph.
Proof.
  split.
  - eexists. vm_compute. reflexivity.
  - intros [H|H]; apply Exists_exists in H as (x & Hx & HP).
    + apply list_elem_of_In in Hx. simpl in Hx. destruct Hx as [<-|[]].
      vm_compute in HP. discriminate.
    + apply list_elem_of_In in Hx. simpl in Hx. destruct Hx as [<-|[]].
      vm_compute in HP. discriminate.
Qed.

Lemma CheckGraphEligibility_fails_iff_witness :
  (InferenceModule_of_graph (λ _ g, g) false 0 ex_opts
     (mkHeap {[0 := split_graph]} [])).1
  = Throw (c10_Error
      "Static Runtime expects output type as None or Tensor, but got ").
Proof.
  apply (proj2 (CheckGraphEligibility_fails_iff (λ _ g, g) false split_graph)
           (mkHeap {[0 := split_graph]} []) 0 split_graph ex_opts).
  - reflexivity.
  - reflexivity.
  - vm_compute. reflexivity.
Defined.

(** C6: the InferenceModule built from the caller's graph pointer has
    rewritten the caller's graph object: the dead node is gone from it. *)
Lemma InferenceModule_mutates_caller_graph_counterexample :
  let h := mkHeap {[0 := dead_relu_graph]} [] in
  let h' := (InferenceModule_of_graph only_dce false 0 ex_opts h).2 in
  g_nodes <$> graphs h !! 0 = Some [mkNode "aten::relu" [0] [1]] ∧
  g_nodes <$> graphs h' !! 0 = Some [].
Proof. split; vm_compute; reflexivity. Qed.

Lemma OptimizeGraph_pass_sequence_in_place_witness :
  passes_run (OptimizeGraph only_dce false 0
                (mkHeap {[0 := dead_relu_graph]} [])).2
  = [(Inline, 0); (ConstantPropagation, 0); (Canonicalize, 0);
     (ConstantPropagation, 0); (RemoveTensorMutation, 0);
     (ConstantPropagation, 0); (EliminateDeadCode, 0);
     (ConstantPropagation, 0)].
Proof.
  assert (graphs (mkHeap {[0 := dead_relu_graph]} []) !! 0
          = Some dead_relu_graph) as Hg by reflexivity.
  rewrite (proj1 (OptimizeGraph_pass_sequence_in_place only_dce false
                    (mkHeap {[0 := dead_relu_graph]} []) 0 dead_relu_graph Hg)).
  reflexivity.
Defined.

Lemma run_schema_required_witness :
  (run ex_isViewOp fn_ 64 ex_allocate_buffer ex_reset ex_checkAndNormalizeInputs
       ex_fn ex_fn ex_fn dead_relu_graph [INone] {["dim" := IOther 0]}
       ex_machine0).1
  = Throw (c10_Error schema_msg).
Proof.
  apply (proj1 (run_schema_required ex_isViewOp fn_ 64 ex_allocate_buffer ex_reset
                  ex_checkAndNormalizeInputs ex_fn ex_fn ex_fn dead_relu_graph
                  [INone] {["dim" := IOther 0]} ex_machine0)).
  split; [by rewrite map_size_singleton | reflexivity].
Defined.

Lemma allocate_after_deallocate_witness :
  match deallocate 64 ex_reset ex_planner ex_runtime0 ex_storages with
  | Ok (p', _, mem') =>
      managed_bytes_ p' = 576%Z ∧
      offset (allocate_walk p' mem' 4096) = 576%Z
  | Throw _ => False
  end.
Proof.
  destruct (deallocate 64 ex_reset ex_planner ex_runtime0 ex_storages)
    as [[[p' rt'] mem']|e] eqn:Hd.
  - destruct (allocate_after_deallocate 64 ex_allocate_buffer ex_reset _ _ _ _ _ _ Hd)
      as (_ & _ & Hw).
    destruct (Hw 4096%Z) as (Hoff & _).
    assert (managed_bytes_ p' = 576%Z) as Hb.
    { vm_compute in Hd. by injection Hd as <- _ _. }
    split; [done | by rewrite Hoff].
  - vm_compute in Hd. discriminate.
Defined.

(** The runtime the constructor builds for the chain of three nodes:
    [chain_runtime] is this runtime with the outputs of a first run. *)
Example StaticRuntime_new_chain :
  StaticRuntime_new ex_canRunOutOfPlace ex_canRunNatively ex_getOperator
    ex_toIValue chain_graph None ex_opts
  = Ok (mkStaticRuntime None ex_opts [INone; INone] []
          ((λ pn, set_pn_outputs_ pn [INone]) <$> nodes_ chain_runtime)
          [output_slot 2 0] None).
Proof. vm_compute. reflexivity. Qed.

Lemma managed_values_iff_witness :
  ∃ pl, plan_values ex_isViewOp fn_ chain_graph chain_runtime = Ok pl ∧
        ∀ v, v ∈ managed_values pl ↔ managed ex_isViewOp fn_ chain_graph chain_runtime v.
Proof.
  apply (managed_values_iff ex_isViewOp fn_ chain_graph chain_runtime).
  apply (bool_decide_unpack _). vm_compute. exact I.
Defined.

Lemma managed_storage_groups_disjoint_witness :
  match MemoryPlanner_new ex_isViewOp fn_ chain_graph chain_runtime ∅ with
  | Ok p => managed_storage_ p = [(0%Z, [7])] ∧
            NoDup (mjoin (managed_storage_ p).*2)
  | Throw _ => False
  end.
Proof.
  destruct (MemoryPlanner_new ex_isViewOp fn_ chain_graph chain_runtime ∅)
    as [p|e] eqn:Hp.
  - split.
    + vm_compute in Hp. by injection Hp as <-.
    + apply (managed_storage_groups_disjoint ex_isViewOp fn_ 64 ex_reset
               chain_graph chain_runtime ∅ p Hp).
  - vm_compute in Hp. discriminate.
Defined.

Lemma LivenessMap_symmetric_irreflexive_witness :
  ∃ st lm,
    sweep chain_graph = Ok st ∧
    dom (live_values st) ⊆ always_alive st ∧
    check_always_alive st = Ok tt ∧
    LivenessMap chain_graph = Ok (lm, always_alive st) ∧
    (∀ m n, interferes lm m n → interferes lm n m) ∧
    (∀ v, ¬ interferes lm v v).
Proof.
  apply (LivenessMap_symmetric_irreflexive chain_graph).
  apply (bool_decide_unpack _). vm_compute. exact I.
Defined.

(** C4: the add node of the graph has the graph input 0 among its inputs
    and the output 2, and neither is in the set of the other. *)
Lemma LivenessMap_graph_input_counterexample :
  mkNode "aten::add" [0; 1] [2] ∈ g_nodes add_mul_graph ∧
  match LivenessMap add_mul_graph with
  | Ok (lm, _) => ¬ interferes lm 0 2 ∧ ¬ interferes lm 2 0
  | Throw _ => False
  end.
Proof.
  split; [by left|].
  destruct (LivenessMap add_mul_graph) as [[lm aa]|e] eqn:Hlm.
  - vm_compute in Hlm. injection Hlm as <- _.
    split; rewrite interferes_lookup; intros H; vm_compute in H; done.
  - vm_compute in Hlm. discriminate.
Qed.

Lemma LivenessMap_inputs_interfere_outputs_witness :
  ∃ lm aa,
    LivenessMap chain_graph = Ok (lm, aa) ∧
    interferes lm 2 3 ∧ interferes lm 3 2.
Proof.
  destruct (LivenessMap_inputs_interfere_outputs chain_graph)
    as (lm & aa & Hlm & Hpairs & _).
  { apply (bool_decide_unpack _). vm_compute. exact I. }
  exists lm, aa. split; [done|].
  apply (Hpairs (mkNode "aten::mul" [2; 2] [3]) 2 3).
  - right. by left.
  - by left.
  - by left.
  - intros [?|[?|?%elem_of_nil]%elem_of_cons]%elem_of_cons; done.
Defined.

(** C7: the permute node is rewritten although its output has no use. *)
Lemma ReplaceWithCopy_unused_output_counterexample :
  g_nodes unused_permute_graph !! 0 = Some (mkNode "aten::permute" [0; 1] [2]) ∧
  uses unused_permute_graph 2 = [] ∧
  match ReplaceWithCopy views_alias unused_permute_graph with
  | Ok g' => kind <$> g_nodes g' = ["static_runtime::permute_copy"; "aten::relu"]
  | Throw _ => False
  end.
Proof. split_and!; vm_compute; reflexivity. Qed.

Lemma ReplaceWithCopy_rewrites_witness :
  ∃ g', ReplaceWithCopy views_alias permute_graph = Ok g' ∧
        length (g_nodes g') = 2 ∧
        g_nodes g' = [mkNode "static_runtime::permute_copy" [0; 1] [4];
                      mkNode "aten::relu" [4] [3]].
Proof.
  destruct (ReplaceWithCopy_rewrites views_alias permute_graph)
    as (g' & sigma & Hg' & _ & _ & Hlen & _).
  - apply (bool_decide_unpack _). vm_compute. exact I.
  - apply (bool_decide_unpack _). vm_compute. exact I.
  - exists g'. split; [done |]. split; [done |].
    pose proof Hg' as Hrun. vm_compute in Hrun. injection Hrun as <-.
    reflexivity.
Defined.

(** ** Instances of the further properties *)

Lemma getGlobalRank_throws_witness :
  getGlobalRank map_to_list ex_c10d (Some 0%nat) 1 = Throw (c10_Error
    "group.WORLD does not have local rank to global rank mapping") ∧
  getGlobalRank map_to_list ex_c10d (Some 2%nat) 1 =
    Throw (c10_Error "The given group does not exist") ∧
  getGlobalRank map_to_list ex_c10d (Some 1%nat) 2 =
    Throw (c10_Error "The group rank is not part of the group") ∧
  getGlobalRank map_to_list ex_c10d (Some 1%nat) 1 = Ok 7%Z.
Proof.
  split_and!.
  - apply (getGlobalRank_throws map_to_list ex_c10d (Some 0%nat) 1);
      [done | reflexivity].
  - apply (getGlobalRank_throws map_to_list ex_c10d (Some 2%nat) 1);
      [done | discriminate | reflexivity].
  - apply (getGlobalRank_throws map_to_list ex_c10d (Some 1%nat) 2
             (λ _, reflexivity _))
      with (m := {[5%Z := 0%Z; 7%Z := 1%Z]});
      [discriminate | reflexivity |].
    intros p Hp.
    destruct (decide (p = 5%Z)) as [-> | H5]; [vm_compute in Hp; discriminate |].
    rewrite lookup_insert_ne in Hp by done.
    apply lookup_singleton_Some in Hp as [_ Hp]. discriminate.
  - vm_compute. reflexivity.
Defined.

Lemma getGlobalRank_getGroupRank_witness :
  getGroupRank ex_c10d ex_tables (Some 1%nat) 7 = Ok 1%Z.
Proof.
  apply (getGlobalRank_getGroupRank map_to_list ex_c10d ex_tables
           (Some 1%nat) 7 1); [done |].
  vm_compute. reflexivity.
Defined.

Lemma compute_aligned_tensor_size_rounds_up_witness :
  (compute_aligned_tensor_size 64 100 mod 64 = 0)%Z ∧
  (100 ≤ compute_aligned_tensor_size 64 100 < 100 + 64)%Z.
Proof.
  destruct (compute_aligned_tensor_size_rounds_up 64 6 100)
    as (Hmod & Hle & _); [reflexivity | lia | lia | lia |].
  by split.
Defined.

Lemma compute_aligned_tensor_size_wraps_witness :
  compute_aligned_tensor_size 64 (2 ^ 64 - 1) = 0%Z.
Proof.
  apply (compute_aligned_tensor_size_wraps 64 6); [reflexivity | lia | lia].
Defined.

Lemma ProcessedNode_run_without_operation_witness :
  ∃ pn,
    ProcessedNode_new ex_canRunOutOfPlace ex_canRunNatively ex_getOperator
      (mkNode prim_TupleConstruct [2; 1] [3])
      [output_slot 0 0; constant_slot 0] true = Ok pn ∧
    ∀ vals mem,
      dispatch ex_fn ex_fn ex_fn pn vals mem =
        Throw (undefined_behaviour "op_").
Proof.
  apply (ProcessedNode_run_without_operation ex_canRunOutOfPlace
           ex_canRunNatively ex_getOperator ex_fn ex_fn ex_fn);
    vm_compute; reflexivity.
Defined.

Lemma LivenessMap_entries_witness :
  ∃ lm aa,
    LivenessMap chain_graph = Ok (lm, aa) ∧
    (∀ v, v ∈ dom lm ↔ ∃ nd, nd ∈ g_nodes chain_graph ∧ v ∈ outputs nd) ∧
    (∀ v, v ∈ aa ↔
          v ∈ g_inputs chain_graph ∨ v ∈ g_outputs chain_graph ∨
          (is_const chain_graph v ∧
           ∃ nd, nd ∈ g_nodes chain_graph ∧ v ∈ inputs nd)).
Proof.
  apply (LivenessMap_entries chain_graph).
  apply (bool_decide_unpack _). vm_compute. exact I.
Defined.

Lemma run_cleanup_activations_witness :
  ∃ v m',
    run ex_isViewOp fn_ 64 ex_allocate_buffer ex_reset
        ex_checkAndNormalizeInputs ex_fn ex_fn ex_fn chain_graph
        [ITensor (Some 100); ITensor (Some 101)] ∅ chain_machine = (Ok v, m') ∧
    Forall (λ iv, iv = INone) (inputs_ (runtime m')) ∧
    ∃ p, planner_ (runtime m') = Some p ∧ buffer_ p = None.
Proof.
  destruct (run ex_isViewOp fn_ 64 ex_allocate_buffer ex_reset
              ex_checkAndNormalizeInputs ex_fn ex_fn ex_fn chain_graph
              [ITensor (Some 100); ITensor (Some 101)] ∅ chain_machine)
    as [[v | e] m'] eqn:Hrun; [| vm_compute in Hrun; discriminate].
  exists v, m'. split; [done |].
  apply (run_cleanup_activations ex_isViewOp fn_ 64 ex_allocate_buffer
           ex_reset ex_checkAndNormalizeInputs ex_fn ex_fn ex_fn chain_graph
           [ITensor (Some 100); ITensor (Some 101)] ∅ chain_machine v m' Hrun).
  reflexivity.
Defined.

Lemma run_collect_moves_outputs_witness :
  ∃ m', run_collect twice_machine =
          (Ok (ITuple [ITensor (Some 3); INone]), m') ∧
        read_ivalue (runtime m') (input_slot 0) = Ok INone.
Proof.
  destruct (run_collect twice_machine) as [r m'] eqn:Hrun.
  assert (r = Ok (ITuple [ITensor (Some 3); INone])) as ->
    by (vm_compute in Hrun; congruence).
  exists m'. split; [done |].
  destruct (run_collect_moves_outputs twice_machine _ m' Hrun)
    as (_ & Hread & _).
  rewrite (Hread (input_slot 0)). reflexivity.
Defined.

Lemma deallocate_storages_witness :
  ∃ p' rt' mem',
    deallocate 64 ex_reset ex_planner ex_runtime0 ex_storages =
      Ok (p', rt', mem') ∧
    managed_storage_ p' = [(256%Z, [0; 1]); (320%Z, [2])] ∧
    mem' 1 = mkStorage 0 None ∧ mem' 3 = ex_storages 3.
Proof.
  destruct (deallocate 64 ex_reset ex_planner ex_runtime0 ex_storages)
    as [[[p' rt'] mem'] | e] eqn:Hd; [| vm_compute in Hd; discriminate].
  exists p', rt', mem'. split; [done |].
  destruct (deallocate_storages 64 ex_reset ex_planner ex_runtime0
              ex_storages p' rt' mem') as [Hgroups Hmem]; [| done |].
  { apply (bool_decide_unpack _). vm_compute. exact I. }
  split; [rewrite Hgroups; vm_compute; reflexivity |].
  split; rewrite Hmem; reflexivity.
Defined.

Lemma allocate_ranges_witness :
  (allocate ex_allocate_buffer ex_planner_sized ex_storages).2 0 =
    mkStorage 256 (Some 4096%Z) ∧
  (allocate ex_allocate_buffer ex_planner_sized ex_storages).2 2 =
    mkStorage 320 (Some (4096 + 256)%Z).
Proof.
  destruct (allocate_ranges ex_allocate_buffer ex_planner_sized ex_storages)
    as (Hin & _).
  - apply (bool_decide_unpack _). vm_compute. exact I.
  - apply (bool_decide_unpack _). vm_compute. exact I.
  - reflexivity.
  - reflexivity.
  - discriminate.
  - split.
    + apply (Hin 0%nat (256%Z, [0; 1])); [reflexivity | discriminate |].
      apply list_elem_of_here.
    + apply (Hin 1%nat (320%Z, [2])); [reflexivity | discriminate |].
      apply list_elem_of_here.
Defined.

Lemma MemoryPlanner_new_unshared_witness :
  ∃ p, MemoryPlanner_new ex_isViewOp fn_ chain_graph chain_runtime ∅ = Ok p ∧
       Forall (λ ms : Z * list nat,
                 ms.1 = 0%Z ∧ ∃ impl, ms.2 = [impl]) (managed_storage_ p).
Proof.
  destruct (MemoryPlanner_new ex_isViewOp fn_ chain_graph chain_runtime ∅)
    as [p | e] eqn:Hp; [| vm_compute in Hp; discriminate].
  exists p. split; [done |].
  by apply (MemoryPlanner_new_unshared ex_isViewOp fn_ chain_graph
              chain_runtime).
Defined.

Lemma MemoryPlanner_null_unmanaged_value_witness :
  ∃ p,
    MemoryPlanner_new ex_isViewOp fn_ const_tuple_graph const_tuple_runtime ∅
      = Ok p ∧
    null_ivalue ∈ unmanaged_values_ p ∧
    ∀ rt' mem, deallocate 64 ex_reset p rt' mem =
               Throw (undefined_behaviour "IValue*").
Proof.
  destruct (MemoryPlanner_new ex_isViewOp fn_ const_tuple_graph
              const_tuple_runtime ∅) as [p | e] eqn:Hp;
    [| vm_compute in Hp; discriminate].
  exists p. split; [done |].
  apply (MemoryPlanner_null_unmanaged_value ex_isViewOp fn_ 64 ex_reset
           const_tuple_graph const_tuple_runtime ∅ p 1%nat).
  - exists 3%nat. split; [apply list_elem_of_here |].
    split; [vm_compute; reflexivity |].
    apply list_elem_of_further, list_elem_of_here.
  - apply (bool_decide_unpack _). vm_compute. exact I.
  - apply (proj1 (Forall_forall _ _)).
    apply (bool_decide_unpack _). vm_compute. exact I.
  - apply (bool_decide_unpack _). vm_compute. exact I.
  - exact Hp.
Defined.

Lemma StaticRuntime_new_slots_witness :
  ∃ rt,
    StaticRuntime_new ex_canRunOutOfPlace ex_canRunNatively ex_getOperator
      ex_toIValue const_tuple_graph None ex_opts = Ok rt ∧
    node_ <$> nodes_ rt = processed_nodes const_tuple_graph ∧
    Forall2 (value_slot const_tuple_graph) (g_outputs const_tuple_graph)
            (outputs_ rt).
Proof.
  destruct (StaticRuntime_new ex_canRunOutOfPlace ex_canRunNatively
              ex_getOperator ex_toIValue const_tuple_graph None ex_opts)
    as [rt | e] eqn:Hrt; [| vm_compute in Hrt; discriminate].
  exists rt. split; [done |].
  destruct (StaticRuntime_new_slots ex_canRunOutOfPlace ex_canRunNatively
              ex_getOperator ex_toIValue const_tuple_graph None ex_opts rt Hrt)
    as (Hnodes & _ & _ & _ & Houts & _).
  by split.
Defined.

Lemma collectives_skip_null_group_witness :
  send ex_collective ex_wait ex_checkDefaultPg ex_c10d ex_tables 42%nat 7
       None None [] = (Ok tt, []) ∧
  recv map_to_list ex_collective ex_wait ex_sourceRank ex_c10d ex_tables
       42%nat None None None [] = (Ok (-1)%Z, []).
Proof.
  destruct (collectives_skip_null_group ex_getRank map_to_list ex_collective
              ex_wait ex_sourceRank ex_checkDefaultPg ex_c10d ex_tables [])
    as (_ & _ & Hsend & Hrecv & _); [discriminate |].
  split; [apply Hsend | apply Hrecv].
Defined.

Lemma send_translates_rank_witness :
  send ex_collective ex_wait ex_checkDefaultPg ex_c10d ex_tables 42%nat 7
       (Some 1%nat) None [] =
    (Ok tt, [pg_send 1 [42%nat] 1 0; work_wait 0]) ∧
  send ex_collective ex_wait ex_checkDefaultPg ex_c10d ex_tables 42%nat 6
       (Some 1%nat) None [] =
    (Throw (c10_Error "The global rank 6 is not part of the group workers"),
     []).
Proof.
  destruct (send_translates_rank ex_collective ex_wait ex_checkDefaultPg
              ex_c10d ex_tables 42%nat 7 1%nat None [])
    as [_ Hok]; [discriminate | reflexivity |].
  destruct (send_translates_rank ex_collective ex_wait ex_checkDefaultPg
              ex_c10d ex_tables 42%nat 6 1%nat None [])
    as [Hthrow _]; [discriminate | reflexivity |].
  split.
  - rewrite (Hok 1%Z 0%nat); reflexivity.
  - apply Hthrow. vm_compute. reflexivity.
Defined.

Lemma recv_returns_global_rank_witness :
  ∃ tr', recv map_to_list ex_collective ex_wait ex_sourceRank ex_c10d
              ex_tables 42%nat None (Some 1%nat) None [] = (Ok 7%Z, tr') ∧
         tr' = [pg_recvAnysource 1 [42%nat] 0; work_wait 0;
                work_sourceRank 0] ∧
         getGroupRank ex_c10d ex_tables (Some 1%nat) 7 = Ok 1%Z.
Proof.
  destruct (recv map_to_list ex_collective ex_wait ex_sourceRank ex_c10d
              ex_tables 42%nat None (Some 1%nat) None []) as [r tr'] eqn:Hrecv.
  assert (r = Ok 7%Z) as -> by (vm_compute in Hrecv; congruence).
  exists tr'. split; [done |].
  destruct (recv_returns_global_rank map_to_list ex_collective ex_wait
              ex_sourceRank ex_c10d ex_tables 42%nat (Some 1%nat) None [] tr'
              7) as [_ Hany]; [done | reflexivity |].
  destruct (Hany ltac:(discriminate) Hrecv) as (pg & w & Hpg & Hw & Htr & Hr).
  injection Hpg as <-. cbn zeta in *.
  injection Hw as <-.
  split; [exact Htr | exact Hr].
Defined.

Lemma gather_scatter_root_witness :
  gather ex_ranks ex_collective ex_wait ex_c10d ex_tables 42%nat None
         (Some 1%nat) 0 false [] =
    (Throw (c10_Error
       "Argument ``gather_list`` must be specified on destination rank"),
     []) ∧
  scatter ex_ranks ex_collective ex_wait ex_c10d ex_tables 42%nat [43%nat]
          (Some 1%nat) 5 false [] =
    (Ok None, [pg_scatter 1 [42%nat] [[43%nat]] 0; work_wait 0]) ∧
  scatter ex_ranks ex_collective ex_wait ex_c10d ex_tables 42%nat [43%nat]
          (Some 1%nat) 7 false [] =
    (Ok None, [pg_scatter 1 [42%nat] [] 1; work_wait 0]).
Proof.
  destruct (gather_scatter_root ex_ranks ex_collective ex_wait ex_c10d
              ex_tables 42%nat 1%nat 0%nat 0 false [])
    as (Hgather & _); [reflexivity |].
  destruct (gather_scatter_root ex_ranks ex_collective ex_wait ex_c10d
              ex_tables 42%nat 1%nat 0%nat 5 false [])
    as (_ & _ & _ & Hsource & _); [reflexivity |].
  destruct (gather_scatter_root ex_ranks ex_collective ex_wait ex_c10d
              ex_tables 42%nat 1%nat 0%nat 7 false [])
    as (_ & _ & _ & Hother & _); [reflexivity |].
  split; [by apply Hgather |]. split.
  - rewrite (Hsource [43%nat] 0%Z); [reflexivity | discriminate | reflexivity].
  - rewrite (Hother [43%nat] 1%Z); [reflexivity | discriminate | reflexivity].
Defined.

Lemma LivenessMap_lifetimes_witness :
  ∃ lm aa,
    LivenessMap chain_graph = Ok (lm, aa) ∧
    (interferes lm 2 3 ↔
     ∃ j, j ∈ users chain_graph 2 ∧ (is_const chain_graph 2 ∨ (1 ≤ j)%nat)).
Proof.
  destruct (LivenessMap_lifetimes chain_graph)
    as (st & lm & aa & _ & Hlm & _ & Hdiff & _).
  { apply (bool_decide_unpack _). vm_compute. exact I. }
  exists lm, aa. split; [done |].
  apply (Hdiff 0%nat 1%nat (mkNode "aten::add" [0; 1] [2])
           (mkNode "aten::mul" [2; 2] [3]));
    [reflexivity | reflexivity | apply list_elem_of_here
    | apply list_elem_of_here | lia].
Defined.

Lemma null_group_without_default_witness :
  allReduce ex_collective ex_wait (mkDistributedC10d ∅ None) 42%nat None
            0%nat false [] = (Throw (undefined_behaviour "group->"), []) ∧
  getBackend (mkDistributedC10d ∅ None) ex_tables None =
    Throw (c10_Error "The given group does not exist").
Proof.
  destruct (null_group_without_default ex_getRank map_to_list ex_collective
              ex_wait ex_sourceRank ex_checkDefaultPg
              (mkDistributedC10d ∅ None) ex_tables [])
    as (_ & _ & Hall & _ & _ & _ & _ & _ & _ & _ & _ & Hback); [reflexivity |].
  split; [apply Hall | rewrite Hback; reflexivity].
Defined.


Lemma first_run_passes_leak_check_witness :
  ∃ v m',
    run ex_isViewOp fn_ 64 ex_allocate_buffer ex_reset
        ex_checkAndNormalizeInputs ex_fn ex_fn ex_fn chain_graph
        [ITensor (Some 100); ITensor (Some 101)] ∅ chain_machine = (Ok v, m') ∧
    check_for_memory_leak (runtime m') (storages m') true = Ok tt.
Proof.
  destruct (run ex_isViewOp fn_ 64 ex_allocate_buffer ex_reset
              ex_checkAndNormalizeInputs ex_fn ex_fn ex_fn chain_graph
              [ITensor (Some 100); ITensor (Some 101)] ∅ chain_machine)
    as [[v | e] m'] eqn:Hrun; [| vm_compute in Hrun; discriminate].
  exists v, m'. split; [done |].
  apply (first_run_passes_leak_check ex_canRunOutOfPlace ex_canRunNatively
           ex_isViewOp fn_ ex_getOperator ex_toIValue 64 ex_allocate_buffer
           ex_reset ex_checkAndNormalizeInputs ex_fn ex_fn ex_fn chain_graph
           None ex_opts (runtime chain_machine) ex_storages
           [ITensor (Some 100); ITensor (Some 101)] ∅ v m' true).
  - apply (bool_decide_unpack _). vm_compute. exact I.
  - vm_compute. reflexivity.
  - reflexivity.
  - intros pn val _ _ _. reflexivity.
  - exact Hrun.
Defined.
